(** * mssql-ts-ffi: resource lifecycle, streaming cursor and command codec

    A shallow embedding of the TypeScript core of the driver
    ([core/connection.ts], [core/transaction.ts], [core/stream.ts],
    [core/pool.ts], [mod.ts]) together with the properties of its
    lifecycle contract.

    Conventions of the embedding.
    - JavaScript objects live in a store ([World]); a reference is an index
      into the store, so that a stream tracked by both a connection and a
      transaction is one shared object.
    - A JavaScript [Set] is kept as the list of its elements in insertion
      order, without duplicates ([set_add], [set_delete]).
    - The native library behind [RuntimeFFI] is an oracle: its answer to a
      call may depend on every call made before.  Each call is appended to
      the [trace] of the world, in the order in which it is issued.
    - An [async] method is run to completion: no other task is interleaved
      at an [await].
    - Exceptions are values of [Outcome].
    - A built-in that can throw ([toISOString] on an Invalid Date, a spread
      call with more arguments than the engine takes) is a function into a
      sum or an option; the engine's limit on the arguments of one call is
      a member of [Platform]. *)

From Stdlib Require Import ZArith NArith Lia Bool List Ascii String.
From Stdlib Require Import Strings.Byte.
From stdpp Require Import base list strings.
From Stdlib Require DecimalString DecimalNat.
Import ListNotations.

Local Open Scope string_scope.
Local Open Scope list_scope.

(* ===================================================================== *)
(** * Platform built-ins: [btoa], [atob], [String.fromCharCode]           *)
(* ===================================================================== *)

(** A JavaScript "binary string" has code units in 0..255; [string] has
    8-bit characters, so it represents exactly those strings. *)

(** [String.fromCharCode(...val)] for a [Uint8Array] [val]: one code unit
    per byte.  The spread passes one argument per byte, and an engine takes
    only so many arguments in one call: beyond [limit] the call throws a
    [RangeError] ([None]) instead of returning. *)
Definition fromCharCode (limit : nat) (val : list byte) : option string :=
  if Nat.leb (List.length val) limit then Some (string_of_list_byte val)
  else None.

(** The base64 alphabet of RFC 4648, table 1. *)
Definition b64_char (n : N) : ascii :=
  (if n <? 26 then ascii_of_N (n + 65)
   else if n <? 52 then ascii_of_N (n - 26 + 97)
   else if n <? 62 then ascii_of_N (n - 52 + 48)
   else if n =? 62 then "+"%char
   else "/"%char)%N.

Definition b64_value (c : ascii) : option N :=
  (let n := N_of_ascii c in
   if (65 <=? n) && (n <=? 90) then Some (n - 65)
   else if (97 <=? n) && (n <=? 122) then Some (n - 97 + 26)
   else if (48 <=? n) && (n <=? 57) then Some (n - 48 + 52)
   else if n =? 43 then Some 62
   else if n =? 47 then Some 63
   else None)%N.

(** The 6-bit groups of a byte sequence, most significant bits first; an
    incomplete last group is filled with zero bits. *)
Fixpoint sextets (l : list N) : list N :=
  (match l with
   | a :: b :: d :: rest =>
       a / 4 :: (a mod 4) * 16 + b / 16 :: (b mod 16) * 4 + d / 64 :: d mod 64
         :: sextets rest
   | [a; b] => [a / 4; (a mod 4) * 16 + b / 16; (b mod 16) * 4]
   | [a] => [a / 4; (a mod 4) * 16]
   | [] => []
   end)%N.

(** The ["="] characters that bring the output to a multiple of four. *)
Definition padding (len : nat) : list ascii :=
  match (len mod 3)%nat with
  | 1%nat => ["="%char; "="%char]
  | 2%nat => ["="%char]
  | _ => []
  end.

(** [btoa(s)]: base64 of the code units of [s].  ([btoa] raises on a code
    unit above 255; no such unit exists in a [string].) *)
Definition btoa (s : string) : string :=
  let units := List.map N_of_ascii (list_ascii_of_string s) in
  string_of_list_ascii
    (List.map b64_char (sextets units) ++ padding (List.length units)).

(** The bytes of a sequence of 6-bit groups; the bits of an incomplete
    last byte are dropped. *)
Fixpoint unsextets (l : list N) : list N :=
  (match l with
   | a :: b :: c :: d :: rest =>
       a * 4 + b / 16 :: (b mod 16) * 16 + c / 4 :: (c mod 4) * 64 + d
         :: unsextets rest
   | [a; b; c] => [a * 4 + b / 16; (b mod 16) * 16 + c / 4]
   | [a; b] => [a * 4 + b / 16]
   | _ => []
   end)%N.

Definition is_ascii_whitespace (c : ascii) : bool :=
  (let n := N_of_ascii c in
   (n =? 9) || (n =? 10) || (n =? 12) || (n =? 13) || (n =? 32))%N.

Definition is_pad (c : ascii) : bool := (N_of_ascii c =? 61)%N.

(** Removes one or two trailing ["="] when the length is a multiple of 4. *)
Definition strip_padding (data : list ascii) : list ascii :=
  if (List.length data mod 4 =? 0)%nat then
    match List.rev data with
    | c1 :: c2 :: r =>
        if is_pad c1 then
          if is_pad c2 then List.rev r else List.rev (c2 :: r)
        else data
    | [c1] => if is_pad c1 then [] else data
    | [] => data
    end
  else data.

Fixpoint b64_values (data : list ascii) : option (list N) :=
  match data with
  | [] => Some []
  | c :: r =>
      match b64_value c, b64_values r with
      | Some v, Some vs => Some (v :: vs)
      | _, _ => None
      end
  end.

(** [atob(s)], the forgiving-base64 decode of the HTML standard; [None] is
    its [InvalidCharacterError]. *)
Definition atob (s : string) : option string :=
  let data :=
    List.filter (fun c => negb (is_ascii_whitespace c)) (list_ascii_of_string s) in
  let data := strip_padding data in
  if (List.length data mod 4 =? 1)%nat then None
  else
    match b64_values data with
    | None => None
    | Some vs =>
        Some (string_of_list_ascii (List.map ascii_of_N (unsextets vs)))
    end.

(** Decoding of a base64 payload as [FilestreamHandle.read] does it:
    [atob], then one byte per code unit ([charCodeAt]). *)
Definition decodeBase64 (data : string) : option (list byte) :=
  match atob data with
  | None => None
  | Some binary => Some (list_byte_of_string binary)
  end.

(* ===================================================================== *)
(** * Shared types ([core/types.ts])                                      *)
(* ===================================================================== *)

Inductive SqlType :=
| SqlInt | SqlBigint | SqlSmallint | SqlTinyint | SqlFloat | SqlReal
| SqlDecimal | SqlBit | SqlVarchar | SqlNvarchar | SqlText | SqlNtext
| SqlChar | SqlNchar | SqlDate | SqlDatetime | SqlDatetime2
| SqlDatetimeoffset | SqlTime | SqlUniqueidentifier | SqlVarbinary | SqlXml
| SqlJson.

Inductive IsolationLevel :=
| READ_UNCOMMITTED | READ_COMMITTED | REPEATABLE_READ | SNAPSHOT | SERIALIZABLE.

Inductive CommandType := CmdText | CmdStoredProcedure.

(** A JavaScript number, kept as the bit pattern of its IEEE-754 double;
    the codec never computes with it. *)
Inductive JsNumber := Float64 (bits : Z).

(** A [Date], kept as its time value: milliseconds since the epoch, or
    [None] for the [NaN] of an Invalid Date ([new Date(NaN)],
    [new Date("nonsense")]). *)
Record Date := { time_value : option Z }.

Inductive ParamValue :=
| PVString (s : string)
| PVNumber (n : JsNumber)
| PVBoolean (b : bool)
| PVDate (d : Date)
| PVNull
| PVUndefined
| PVBytes (val : list byte).

Record TypedParam := {
  tp_value : ParamValue;
  tp_type : SqlType;
  tp_output : option bool            (* [output?: boolean] *)
}.

(** [ParamValue | TypedParam]: the shape test of [serializeParams]
    (["value" in raw && "type" in raw]) tells the two apart. *)
Inductive RawParam :=
| Plain (v : ParamValue)
| Typed (t : TypedParam).

(** [Params], as the list [Object.entries(params)] enumerates. *)
Definition Params := list (string * RawParam).

(** What [serializeValue] returns: the [value: unknown] of a parameter. *)
Inductive JsonValue :=
| JNull
| JString (s : string)
| JNumber (n : JsNumber)
| JBoolean (b : bool).

Record SerializedParam := {
  sp_name : string;
  sp_value : JsonValue;
  sp_type : option SqlType;          (* [type: string | null] *)
  sp_output : option bool            (* [output?: boolean], absent = None *)
}.

Record SerializedCommand := {
  sc_sql : string;
  sc_params : list SerializedParam;
  sc_transaction_id : option string;
  sc_command_timeout_ms : option JsNumber;
  sc_command_type : CommandType
}.

(** [CommandOptions] / [StreamOptions].  [co_transaction] is a reference to
    the [Transaction] object; [co_signal] is the [aborted] flag of the
    [AbortSignal] at the time of the call. *)
Record CommandOptions := {
  co_transaction : option nat;
  co_commandTimeout : option JsNumber;
  co_commandType : option CommandType;
  co_signal : option bool
}.

(** [NormalizedConfig]. *)
Inductive Auth :=
| AuthSql (username password : string)
| AuthNtlm (username password domain : string)
| AuthWindows
| AuthAzureAd (username password : string)
| AuthAzureAdToken (token : string).

Record PoolTuning := {
  pt_min : option Z; pt_max : option Z; pt_idle_timeout_ms : option Z
}.

Record NormalizedConfig := {
  server : string;
  port : Z;
  database : string;
  auth : Auth;
  encrypt : bool;
  trust_server_certificate : bool;
  connect_timeout_ms : Z;
  request_timeout_ms : Z;
  app_name : string;
  instance_name : option string;
  packet_size : Z;
  pool : option PoolTuning
}.

(* ===================================================================== *)
(** * The boundary ([core/runtime.ts]) and the object store               *)
(* ===================================================================== *)

Definition INVALID_HANDLE : Z := 0.

(** One entry per call that crosses the boundary; [ECallback] records the
    invocation of a close callback that is not one of the driver's own. *)
Inductive Event :=
| EPoolCreate (config : NormalizedConfig)
| EPoolAcquire (poolId : Z)
| EPoolRelease (poolId connId : Z)
| EPoolClose (poolId : Z)
| EConnect (config : NormalizedConfig)
| EDisconnect (connId : Z)
| EQuery (connId : Z) (cmdJson : string)
| EExecuteNonquery (connId : Z) (cmdJson : string)
| EExec (connId : Z) (cmdJson : string)
| EQueryStream (connId : Z) (cmdJson : string)
| EStreamNext (cursorId : Z)
| EStreamClose (cursorId : Z)
| EBeginTransaction (connId : Z) (txJson : string)
| ECommit (connId : Z) (txId : string)
| ERollback (connId : Z) (txId : string)
| ELastError (handleId : Z)
| ECallback (tag : nat).

(** What [JSON.parse] of a [streamNext] answer is: a row, or an object
    with an [__error] member. *)
Inductive Payload :=
| PRow (row : string)
| PError (message : string).

(** [RuntimeFFI].  Every member receives the calls made so far.  A
    [string | null] answer is an [option]; a handle is a [Z].
    [streamClose] answers whether the native call raised. *)
Record RuntimeFFI := {
  poolCreate : list Event -> NormalizedConfig -> Z;
  poolAcquire : list Event -> Z -> Z;
  ffi_connect : list Event -> NormalizedConfig -> Z;
  ffi_query : list Event -> Z -> string -> option string;
  executeNonquery : list Event -> Z -> string -> option string;
  ffi_exec : list Event -> Z -> string -> option string;
  ffi_queryStream : list Event -> Z -> string -> Z;
  streamNext : list Event -> Z -> option Payload;
  streamClose : list Event -> Z -> bool;
  ffi_beginTransaction : list Event -> Z -> string -> option string;
  ffi_commit : list Event -> Z -> string -> option string;
  ffi_rollback : list Event -> Z -> string -> option string;
  lastError : list Event -> Z -> option string
}.

(** Built-ins of the JavaScript runtime that the core calls and that are
    not computed here. *)
Record Platform := {
  isoString : Z -> string;             (* the ISO-8601 text of a time value *)
  argumentLimit : nat;                 (* most arguments one call can take *)
  stringifyCommand : SerializedCommand -> string;          (* JSON.stringify(cmd) *)
  stringifyTx : string -> IsolationLevel -> string;        (* JSON.stringify({id, isolation}) *)
  randomUUID : list Event -> nat -> string                 (* crypto.randomUUID() *)
}.

(** The two [RangeError]s that the built-ins used by the codec throw:
    [Date.prototype.toISOString] on an Invalid Date, and a call that is
    given more arguments than the engine takes. *)
Inductive RangeError := InvalidTimeValue | TooManyArguments.

Inductive Error :=
| ErrRange (cause : RangeError)
| ErrConnectionClosed
| ErrPoolClosed
| ErrAborted
| ErrTransactionInactive
| ErrCommand (message : string)
| ErrBeginFailed (err : string)
| ErrCommitFailed (err : string)
| ErrRollbackFailed (err : string)
| ErrStream (message : string)
| ErrCreatePool (message : string)
| ErrConnect (message : string)
| ErrNative
| ErrCallback (tag : nat)
| ErrBadReference.

Definition error_message (e : Error) : string :=
  match e with
  | ErrRange InvalidTimeValue => "Invalid time value"
  | ErrRange TooManyArguments => "Maximum call stack size exceeded"
  | ErrConnectionClosed => "Connection is closed"
  | ErrPoolClosed => "Pool is closed"
  | ErrAborted => "This operation was aborted"
  | ErrTransactionInactive => "Transaction is no longer active"
  | ErrCommand m => m
  | ErrBeginFailed err => "Begin transaction failed: " ++ err
  | ErrCommitFailed err => "Commit failed: " ++ err
  | ErrRollbackFailed err => "Rollback failed: " ++ err
  | ErrStream m => "Stream error: " ++ m
  | ErrCreatePool m => "Failed to create pool: " ++ m
  | ErrConnect m => "Failed to connect: " ++ m
  | ErrNative => "native call raised"
  | ErrCallback _ => "callback raised"
  | ErrBadReference => "no such object"
  end.

(** Close callbacks.  The driver registers two closures, both of which
    remove the stream from a tracking set; any other callback is opaque and
    either returns or raises. *)
Inductive Callback :=
| CbConnUntrack (cn : nat) (s : nat)
| CbTxUntrack (tx : nat) (s : nat)
| CbOpaque (tag : nat) (raises : bool).

Record QueryStream := {
  cursorId : Z;
  done : bool;
  closed : bool;
  onCloseCallbacks : list Callback
}.

(** [tx_connId] is the connection handle captured by the [commitFn] and
    [rollbackFn] closures that [beginTransaction] builds. *)
Record Transaction := {
  tx_id : string;
  isolation : IsolationLevel;
  committed : bool;
  rolledBack : bool;
  tx_connId : Z;
  tx_streams : list nat
}.

Record MssqlConnection := {
  connId : Z;
  poolId : option Z;
  disposed : bool;
  hasError : bool;
  cn_streams : list nat;
  cn_transactions : list nat
}.

Record MssqlPool := {
  mp_poolId : Z;
  mp_closed : bool
}.

(** The generator object that [QueryStream[Symbol.asyncIterator]()] returns. *)
Inductive GenState := GenFresh | GenSuspended | GenCompleted.

Record Generator := {
  g_stream : nat;
  g_state : GenState
}.

Record World := {
  conns : list MssqlConnection;
  txs : list Transaction;
  streams : list QueryStream;
  gens : list Generator;
  pools : list MssqlPool;
  trace : list Event
}.

Definition empty_world : World :=
  {| conns := []; txs := []; streams := []; gens := []; pools := []; trace := [] |}.

(** ** [Set] as an insertion-ordered list *)

Definition set_add (x : nat) (l : list nat) : list nat :=
  if List.existsb (Nat.eqb x) l then l else l ++ [x].

Definition set_delete (x : nat) (l : list nat) : list nat :=
  List.filter (fun y => negb (Nat.eqb x y)) l.

(** ** Control flow *)

Inductive Outcome (A : Type) :=
| Ok (a : A)
| Throw (e : Error).
Arguments Ok {A} a.
Arguments Throw {A} e.

Definition M (A : Type) : Type := World -> World * Outcome A.

Definition ret {A} (a : A) : M A := fun w => (w, Ok a).
Definition throw {A} (e : Error) : M A := fun w => (w, Throw e).

Definition bind {A B} (m : M A) (k : A -> M B) : M B :=
  fun w =>
    match m w with
    | (w1, Ok a) => k a w1
    | (w1, Throw e) => (w1, Throw e)
    end.

Notation "'let*' x := m 'in' k" := (bind m (fun x => k))
  (at level 10, x name, m at level 200, k at level 200).
Notation "m ;; k" := (bind m (fun _ => k))
  (at level 100, k at level 200, right associativity).

(** [try { m } catch { }] *)
Definition try_catch {A} (m : M A) : M unit :=
  fun w => (fst (m w), Ok tt).

(** [try { m } finally { f }]: an exception of [f] replaces the result. *)
Definition try_finally {A} (m : M A) (f : M unit) : M A :=
  fun w =>
    match m w with
    | (w1, r) =>
        match f w1 with
        | (w2, Ok _) => (w2, r)
        | (w2, Throw e) => (w2, Throw e)
        end
    end.

(** [for (const x of l) body(x)] *)
Fixpoint for_each {A} (l : list A) (body : A -> M unit) : M unit :=
  match l with
  | [] => ret tt
  | x :: r => body x ;; for_each r body
  end.

Definition emit (e : Event) : M unit :=
  fun w =>
    ({| conns := conns w; txs := txs w; streams := streams w; gens := gens w;
        pools := pools w; trace := trace w ++ [e] |}, Ok tt).

Definition history : M (list Event) := fun w => (w, Ok (trace w)).

Definition get_stream (s : nat) : M QueryStream :=
  fun w => match streams w !! s with
           | Some q => (w, Ok q)
           | None => (w, Throw ErrBadReference)
           end.

Definition put_stream (s : nat) (q : QueryStream) : M unit :=
  fun w =>
    ({| conns := conns w; txs := txs w; streams := <[s := q]> (streams w);
        gens := gens w; pools := pools w; trace := trace w |}, Ok tt).

Definition new_stream (q : QueryStream) : M nat :=
  fun w =>
    ({| conns := conns w; txs := txs w; streams := streams w ++ [q];
        gens := gens w; pools := pools w; trace := trace w |},
     Ok (List.length (streams w))).

Definition get_tx (t : nat) : M Transaction :=
  fun w => match txs w !! t with
           | Some x => (w, Ok x)
           | None => (w, Throw ErrBadReference)
           end.

Definition put_tx (t : nat) (x : Transaction) : M unit :=
  fun w =>
    ({| conns := conns w; txs := <[t := x]> (txs w); streams := streams w;
        gens := gens w; pools := pools w; trace := trace w |}, Ok tt).

Definition new_tx (x : Transaction) : M nat :=
  fun w =>
    ({| conns := conns w; txs := txs w ++ [x]; streams := streams w;
        gens := gens w; pools := pools w; trace := trace w |},
     Ok (List.length (txs w))).

Definition get_conn (c : nat) : M MssqlConnection :=
  fun w => match conns w !! c with
           | Some x => (w, Ok x)
           | None => (w, Throw ErrBadReference)
           end.

Definition put_conn (c : nat) (x : MssqlConnection) : M unit :=
  fun w =>
    ({| conns := <[c := x]> (conns w); txs := txs w; streams := streams w;
        gens := gens w; pools := pools w; trace := trace w |}, Ok tt).

Definition new_conn (x : MssqlConnection) : M nat :=
  fun w =>
    ({| conns := conns w ++ [x]; txs := txs w; streams := streams w;
        gens := gens w; pools := pools w; trace := trace w |},
     Ok (List.length (conns w))).

Definition get_gen (g : nat) : M Generator :=
  fun w => match gens w !! g with
           | Some x => (w, Ok x)
           | None => (w, Throw ErrBadReference)
           end.

Definition put_gen (g : nat) (x : Generator) : M unit :=
  fun w =>
    ({| conns := conns w; txs := txs w; streams := streams w;
        gens := <[g := x]> (gens w); pools := pools w; trace := trace w |}, Ok tt).

Definition new_gen (x : Generator) : M nat :=
  fun w =>
    ({| conns := conns w; txs := txs w; streams := streams w;
        gens := gens w ++ [x]; pools := pools w; trace := trace w |},
     Ok (List.length (gens w))).

Definition get_pool (p : nat) : M MssqlPool :=
  fun w => match pools w !! p with
           | Some x => (w, Ok x)
           | None => (w, Throw ErrBadReference)
           end.

Definition put_pool (p : nat) (x : MssqlPool) : M unit :=
  fun w =>
    ({| conns := conns w; txs := txs w; streams := streams w; gens := gens w;
        pools := <[p := x]> (pools w); trace := trace w |}, Ok tt).

Definition new_pool (x : MssqlPool) : M nat :=
  fun w =>
    ({| conns := conns w; txs := txs w; streams := streams w; gens := gens w;
        pools := pools w ++ [x]; trace := trace w |},
     Ok (List.length (pools w))).

Section Driver.

Variable ffi : RuntimeFFI.
Variable plat : Platform.

(* ===================================================================== *)
(** * Command codec ([core/connection.ts], serialization helpers)         *)
(* ===================================================================== *)

(** [val.toISOString()]: the text of a valid date; a [RangeError] on an
    Invalid Date. *)
Definition toISOString (d : Date) : RangeError + string :=
  match time_value d with
  | Some t => inr (isoString plat t)
  | None => inl InvalidTimeValue
  end.

(** [serializeValue] returns, or throws what [toISOString] or the spread
    call [String.fromCharCode(...val)] throws. *)
Definition serializeValue (val : ParamValue) : RangeError + JsonValue :=
  match val with
  | PVNull | PVUndefined => inr JNull
  | PVDate d =>
      match toISOString d with
      | inr text => inr (JString text)
      | inl e => inl e
      end
  | PVBytes bytes =>
      match fromCharCode (argumentLimit plat) bytes with
      | Some units => inr (JString (btoa units))
      | None => inl TooManyArguments
      end
  | PVString s => inr (JString s)
  | PVNumber n => inr (JNumber n)
  | PVBoolean b => inr (JBoolean b)
  end.

(** Truthiness of an optional boolean member ([if (output) ...]). *)
Definition truthy (o : option bool) : bool :=
  match o with
  | Some true => true
  | _ => false
  end.

(** The callback that [serializeParams] maps over the entries. *)
Definition serializeParam (entry : string * RawParam)
  : RangeError + SerializedParam :=
  let (name, raw) := entry in
  let isTyped := match raw with Typed _ => true | Plain _ => false end in
  let value := match raw with Typed t => tp_value t | Plain v => v end in
  let type := match raw with Typed t => Some (tp_type t) | Plain _ => None end in
  let output := match raw with Typed t => tp_output t | Plain _ => None end in
  match serializeValue value with
  | inl e => inl e
  | inr v =>
      inr {| sp_name := name;
             sp_value := v;
             sp_type := type;
             sp_output := if truthy output then Some true else None |}
  end.

(** [Array.prototype.map] with a callback that can throw: the entries are
    visited in order and the first throw ends the call. *)
Fixpoint map_throwing {A B E : Type} (f : A -> E + B) (l : list A)
  : E + list B :=
  match l with
  | [] => inr []
  | a :: rest =>
      match f a with
      | inl e => inl e
      | inr b =>
          match map_throwing f rest with
          | inl e => inl e
          | inr bs => inr (b :: bs)
          end
      end
  end.

Definition serializeParams (params : option Params)
  : RangeError + list SerializedParam :=
  match params with
  | None => inr []
  | Some entries => map_throwing serializeParam entries
  end.

(** [opts?.transaction?.id ?? null] reads the [id] of the referenced
    object. *)
Definition transaction_id_of (w : World) (opts : option CommandOptions)
  : option string :=
  match opts with
  | None => None
  | Some o =>
      match co_transaction o with
      | None => None
      | Some t =>
          match txs w !! t with
          | Some x => Some (tx_id x)
          | None => None
          end
      end
  end.

(** The object [cmd] that [serializeCommand] builds once
    [serializeParams(params)] has returned [ps]. *)
Definition buildCommand (w : World) (sql : string)
    (ps : list SerializedParam) (opts : option CommandOptions)
  : SerializedCommand :=
  {| sc_sql := sql;
     sc_params := ps;
     sc_transaction_id := transaction_id_of w opts;
     sc_command_timeout_ms :=
       match opts with Some o => co_commandTimeout o | None => None end;
     sc_command_type :=
       match opts with
       | Some o => match co_commandType o with Some k => k | None => CmdText end
       | None => CmdText
       end |}.

Definition serializeCommand (sql : string) (params : option Params)
    (opts : option CommandOptions) : M string :=
  fun w =>
    match serializeParams params with
    | inl e => (w, Throw (ErrRange e))
    | inr ps => (w, Ok (stringifyCommand plat (buildCommand w sql ps opts)))
    end.

(* ===================================================================== *)
(** * Calls through the boundary                                          *)
(* ===================================================================== *)

Definition call_streamClose (cursor : Z) : M unit :=
  let* h := history in
  emit (EStreamClose cursor) ;;
  if streamClose ffi h cursor then throw ErrNative else ret tt.

Definition call_streamNext (cursor : Z) : M (option Payload) :=
  let* h := history in
  emit (EStreamNext cursor) ;;
  ret (streamNext ffi h cursor).

Definition call_lastError (handle : Z) : M (option string) :=
  let* h := history in
  emit (ELastError handle) ;;
  ret (lastError ffi h handle).

Definition call_commit (conn : Z) (txId : string) : M (option string) :=
  let* h := history in
  emit (ECommit conn txId) ;;
  ret (ffi_commit ffi h conn txId).

Definition call_rollback (conn : Z) (txId : string) : M (option string) :=
  let* h := history in
  emit (ERollback conn txId) ;;
  ret (ffi_rollback ffi h conn txId).

Definition call_beginTransaction (conn : Z) (txJson : string)
  : M (option string) :=
  let* h := history in
  emit (EBeginTransaction conn txJson) ;;
  ret (ffi_beginTransaction ffi h conn txJson).

Definition call_query (conn : Z) (cmdJson : string) : M (option string) :=
  let* h := history in
  emit (EQuery conn cmdJson) ;;
  ret (ffi_query ffi h conn cmdJson).

Definition call_executeNonquery (conn : Z) (cmdJson : string)
  : M (option string) :=
  let* h := history in
  emit (EExecuteNonquery conn cmdJson) ;;
  ret (executeNonquery ffi h conn cmdJson).

Definition call_exec (conn : Z) (cmdJson : string) : M (option string) :=
  let* h := history in
  emit (EExec conn cmdJson) ;;
  ret (ffi_exec ffi h conn cmdJson).

Definition call_queryStream (conn : Z) (cmdJson : string) : M Z :=
  let* h := history in
  emit (EQueryStream conn cmdJson) ;;
  ret (ffi_queryStream ffi h conn cmdJson).

Definition call_poolCreate (config : NormalizedConfig) : M Z :=
  let* h := history in
  emit (EPoolCreate config) ;;
  ret (poolCreate ffi h config).

Definition call_poolAcquire (pool : Z) : M Z :=
  let* h := history in
  emit (EPoolAcquire pool) ;;
  ret (poolAcquire ffi h pool).

Definition call_connect (config : NormalizedConfig) : M Z :=
  let* h := history in
  emit (EConnect config) ;;
  ret (ffi_connect ffi h config).

(* ===================================================================== *)
(** * [QueryStream] ([core/stream.ts])                                    *)
(* ===================================================================== *)

Definition set_closed (q : QueryStream) (b : bool) : QueryStream :=
  {| cursorId := cursorId q; done := done q; closed := b;
     onCloseCallbacks := onCloseCallbacks q |}.

Definition set_done (q : QueryStream) (b : bool) : QueryStream :=
  {| cursorId := cursorId q; done := b; closed := closed q;
     onCloseCallbacks := onCloseCallbacks q |}.

Definition set_callbacks (q : QueryStream) (cbs : list Callback) : QueryStream :=
  {| cursorId := cursorId q; done := done q; closed := closed q;
     onCloseCallbacks := cbs |}.

Definition conn_with_streams (x : MssqlConnection) (l : list nat)
  : MssqlConnection :=
  {| connId := connId x; poolId := poolId x; disposed := disposed x;
     hasError := hasError x; cn_streams := l;
     cn_transactions := cn_transactions x |}.

Definition tx_with_streams (x : Transaction) (l : list nat) : Transaction :=
  {| tx_id := tx_id x; isolation := isolation x; committed := committed x;
     rolledBack := rolledBack x; tx_connId := tx_connId x; tx_streams := l |}.

(** Invocation of a close callback.  The two closures of the driver are
    [() => this.#streams.delete(stream)]. *)
Definition run_callback (cb : Callback) : M unit :=
  match cb with
  | CbConnUntrack c s =>
      let* x := get_conn c in
      put_conn c (conn_with_streams x (set_delete s (cn_streams x)))
  | CbTxUntrack t s =>
      let* x := get_tx t in
      put_tx t (tx_with_streams x (set_delete s (tx_streams x)))
  | CbOpaque tag raises =>
      emit (ECallback tag) ;;
      if raises then throw (ErrCallback tag) else ret tt
  end.

Definition _onClose (s : nat) (cb : Callback) : M unit :=
  let* q := get_stream s in
  if closed q then run_callback cb
  else put_stream s (set_callbacks q (onCloseCallbacks q ++ [cb])).

Definition close (s : nat) : M unit :=
  let* q := get_stream s in
  if negb (closed q) then
    put_stream s (set_closed q true) ;;
    call_streamClose (cursorId q) ;;
    let* q1 := get_stream s in
    let cbs := onCloseCallbacks q1 in
    put_stream s (set_callbacks q1 []) ;;
    for_each cbs (fun cb => try_catch (run_callback cb))
  else ret tt.

Definition fetchNext (s : nat) : M (option string) :=
  let* q := get_stream s in
  if done q || closed q then ret None
  else
    let* json := call_streamNext (cursorId q) in
    match json with
    | None => ret None
    | Some (PError message) => throw (ErrStream message)
    | Some (PRow row) => ret (Some row)
    end.

Definition mark_done (s : nat) : M unit :=
  let* q := get_stream s in
  put_stream s (set_done q true).

(** [stream[Symbol.asyncIterator]()]: a generator that has not started. *)
Definition asyncIterator (s : nat) : M nat :=
  new_gen {| g_stream := s; g_state := GenFresh |}.

Definition set_gen_state (g : nat) (st : GenState) : M unit :=
  let* x := get_gen g in
  put_gen g {| g_stream := g_stream x; g_state := st |}.

(** One pass through the [while] loop of the generator, up to its next
    [yield] ([Some row]) or to the end of the [try] block ([None]). *)
Definition gen_body (s : nat) : M (option string) :=
  let* q := get_stream s in
  if negb (done q) then
    let* row := fetchNext s in
    match row with
    | None => mark_done s ;; ret None
    | Some r => ret (Some r)
    end
  else ret None.

(** [generator.next()]: [Some row] for [{value: row, done: false}], [None]
    for [{done: true}].  When the body ends or raises, the [finally] block
    closes the stream and the generator is completed. *)
Definition gen_next (g : nat) : M (option string) :=
  let* x := get_gen g in
  match g_state x with
  | GenCompleted => ret None
  | GenFresh | GenSuspended =>
      fun w =>
        match gen_body (g_stream x) w with
        | (w1, Ok (Some row)) => (set_gen_state g GenSuspended ;; ret (Some row)) w1
        | (w1, r) =>
            (set_gen_state g GenCompleted ;;
             try_finally (fun w2 => (w2, r)) (close (g_stream x))) w1
        end
  end.

(** [generator.return()]: the consumer leaves the [for await] early. *)
Definition gen_return (g : nat) : M unit :=
  let* x := get_gen g in
  match g_state x with
  | GenCompleted => ret tt
  | GenFresh => set_gen_state g GenCompleted
  | GenSuspended => set_gen_state g GenCompleted ;; close (g_stream x)
  end.

(** [for await (const row of stream) results.push(row)], bounded by
    [fuel] rounds; [None] when the bound is reached. *)
Fixpoint drain (fuel : nat) (g : nat) (acc : list string)
  : M (option (list string)) :=
  match fuel with
  | O => ret None
  | S n =>
      let* r := gen_next g in
      match r with
      | None => ret (Some acc)
      | Some row => drain n g (acc ++ [row])
      end
  end.

Definition toArray (fuel : nat) (s : nat) : M (option (list string)) :=
  let* g := asyncIterator s in
  drain fuel g [].

(** The [pull] of the [ReadableStream] that [toReadableStream] builds:
    [Some row] is enqueued, [None] closes the controller. *)
Definition pull (s : nat) : M (option string) :=
  let* row := fetchNext s in
  match row with
  | None => mark_done s ;; close s ;; ret None
  | Some r => ret (Some r)
  end.

Definition cancel (s : nat) : M unit := close s.

(* ===================================================================== *)
(** * [Transaction] ([core/transaction.ts])                               *)
(* ===================================================================== *)

Definition isActive (x : Transaction) : bool :=
  negb (committed x) && negb (rolledBack x).

Definition _ensureActive (t : nat) : M unit :=
  let* x := get_tx t in
  if negb (isActive x) then throw ErrTransactionInactive else ret tt.

Definition _trackStream (t : nat) (s : nat) : M unit :=
  let* x := get_tx t in
  put_tx t (tx_with_streams x (set_add s (tx_streams x))) ;;
  _onClose s (CbTxUntrack t s).

Definition closeAllStreams (t : nat) : M unit :=
  let* x := get_tx t in
  let streams := tx_streams x in
  put_tx t (tx_with_streams x []) ;;
  for_each streams (fun s => try_catch (close s)).

Definition set_rolledBack (t : nat) : M unit :=
  let* x := get_tx t in
  put_tx t {| tx_id := tx_id x; isolation := isolation x;
              committed := committed x; rolledBack := true;
              tx_connId := tx_connId x; tx_streams := tx_streams x |}.

Definition set_committed (t : nat) : M unit :=
  let* x := get_tx t in
  put_tx t {| tx_id := tx_id x; isolation := isolation x;
              committed := true; rolledBack := rolledBack x;
              tx_connId := tx_connId x; tx_streams := tx_streams x |}.

Definition _forceInactive (t : nat) : M unit :=
  closeAllStreams t ;;
  let* x := get_tx t in
  if isActive x then set_rolledBack t else ret tt.

(** The closures that [beginTransaction] passes to the constructor. *)
Definition commitFn (conn : Z) (txId : string) : M unit :=
  let* err := call_commit conn txId in
  match err with
  | Some e => throw (ErrCommitFailed e)
  | None => ret tt
  end.

Definition rollbackFn (conn : Z) (txId : string) : M unit :=
  let* err := call_rollback conn txId in
  match err with
  | Some e => throw (ErrRollbackFailed e)
  | None => ret tt
  end.

Definition commit (t : nat) : M unit :=
  _ensureActive t ;;
  let* x := get_tx t in
  commitFn (tx_connId x) (tx_id x) ;;
  set_committed t.

Definition rollback (t : nat) : M unit :=
  _ensureActive t ;;
  let* x := get_tx t in
  rollbackFn (tx_connId x) (tx_id x) ;;
  set_rolledBack t.

Definition tx_dispose (t : nat) : M unit := _forceInactive t.

Definition tx_asyncDispose (t : nat) : M unit :=
  closeAllStreams t ;;
  let* x := get_tx t in
  if isActive x then
    try_catch (rollbackFn (tx_connId x) (tx_id x)) ;;
    set_rolledBack t
  else ret tt.

Definition _dispose (t : nat) : M unit := tx_asyncDispose t.

(* ===================================================================== *)
(** * [MssqlConnection] ([core/connection.ts])                            *)
(* ===================================================================== *)

Definition ensureOpen (c : nat) (opts : option CommandOptions) : M unit :=
  let* x := get_conn c in
  if disposed x then throw ErrConnectionClosed
  else
    (match opts with
     | Some o =>
         match co_signal o with
         | Some true => throw ErrAborted       (* signal.throwIfAborted() *)
         | _ => ret tt
         end
     | None => ret tt
     end) ;;
    match opts with
    | Some o =>
        match co_transaction o with
        | Some t => _ensureActive t
        | None => ret tt
        end
    | None => ret tt
    end.

Definition set_hasError (c : nat) : M unit :=
  let* x := get_conn c in
  put_conn c {| connId := connId x; poolId := poolId x; disposed := disposed x;
                hasError := true; cn_streams := cn_streams x;
                cn_transactions := cn_transactions x |}.

Definition set_disposed (c : nat) : M unit :=
  let* x := get_conn c in
  put_conn c {| connId := connId x; poolId := poolId x; disposed := true;
                hasError := hasError x; cn_streams := cn_streams x;
                cn_transactions := cn_transactions x |}.

Definition conn_with_transactions (x : MssqlConnection) (l : list nat)
  : MssqlConnection :=
  {| connId := connId x; poolId := poolId x; disposed := disposed x;
     hasError := hasError x; cn_streams := cn_streams x;
     cn_transactions := l |}.

Definition or_else (o : option string) (d : string) : string :=
  match o with
  | Some s => s
  | None => d
  end.

(** [query]: the answer is returned as the boundary gave it ([JSON.parse]
    is not computed). *)
Definition query (c : nat) (sql : string) (params : option Params)
    (opts : option CommandOptions) : M string :=
  ensureOpen c opts ;;
  let* x := get_conn c in
  let* cmdJson := serializeCommand sql params opts in
  let* result := call_query (connId x) cmdJson in
  match result with
  | None =>
      set_hasError c ;;
      let* msg := call_lastError (connId x) in
      throw (ErrCommand (or_else msg "Query failed"))
  | Some r => ret r
  end.

Definition execute (c : nat) (sql : string) (params : option Params)
    (opts : option CommandOptions) : M string :=
  ensureOpen c opts ;;
  let* x := get_conn c in
  let* cmdJson := serializeCommand sql params opts in
  let* result := call_executeNonquery (connId x) cmdJson in
  match result with
  | None =>
      set_hasError c ;;
      let* msg := call_lastError (connId x) in
      throw (ErrCommand (or_else msg "Execute failed"))
  | Some r => ret r
  end.

Definition exec (c : nat) (sql : string) (params : option Params)
    (opts : option CommandOptions) : M string :=
  ensureOpen c opts ;;
  let* x := get_conn c in
  let* cmdJson := serializeCommand sql params opts in
  let* result := call_exec (connId x) cmdJson in
  match result with
  | None =>
      set_hasError c ;;
      let* msg := call_lastError (connId x) in
      throw (ErrCommand (or_else msg "Exec failed"))
  | Some r => ret r
  end.

Definition track_stream (c : nat) (s : nat) : M unit :=
  let* x := get_conn c in
  put_conn c (conn_with_streams x (set_add s (cn_streams x))).

Definition queryStream (c : nat) (sql : string) (params : option Params)
    (opts : option CommandOptions) : M nat :=
  ensureOpen c opts ;;
  let* x := get_conn c in
  let* cmdJson := serializeCommand sql params opts in
  let* cursor := call_queryStream (connId x) cmdJson in
  if (cursor =? INVALID_HANDLE)%Z then
    set_hasError c ;;
    let* msg := call_lastError (connId x) in
    throw (ErrCommand (or_else msg "Failed to open stream"))
  else
    let* s := new_stream {| cursorId := cursor; done := false; closed := false;
                            onCloseCallbacks := [] |} in
    track_stream c s ;;
    _onClose s (CbConnUntrack c s) ;;
    (match opts with
     | Some o =>
         match co_transaction o with
         | Some t => _trackStream t s
         | None => ret tt
         end
     | None => ret tt
     end) ;;
    ret s.

Definition fresh_uuid : M string :=
  fun w => (w, Ok (randomUUID plat (trace w) (List.length (txs w)))).

Definition beginTransaction (c : nat) (level : IsolationLevel) : M nat :=
  ensureOpen c None ;;
  let* x := get_conn c in
  let* id := fresh_uuid in
  let* t := new_tx {| tx_id := id; isolation := level; committed := false;
                      rolledBack := false; tx_connId := connId x;
                      tx_streams := [] |} in
  let* err := call_beginTransaction (connId x) (stringifyTx plat id level) in
  match err with
  | Some e => set_hasError c ;; throw (ErrBeginFailed e)
  | None =>
      let* x1 := get_conn c in
      put_conn c (conn_with_transactions x1 (set_add t (cn_transactions x1))) ;;
      ret t
  end.

(** [tx.isActive], read through a reference. *)
Definition read_isActive (t : nat) : M bool :=
  fun w => (w, Ok match txs w !! t with
                  | Some x => isActive x
                  | None => false
                  end).

(** First loop of [#syncCleanup], threading [hadActiveTx]. *)
Fixpoint deactivate_all (l : list nat) (hadActiveTx : bool) : M bool :=
  match l with
  | [] => ret hadActiveTx
  | t :: r =>
      let* active := read_isActive t in
      try_catch (_forceInactive t) ;;
      deactivate_all r (hadActiveTx || active)
  end.

Definition syncCleanup (c : nat) : M bool :=
  let* x := get_conn c in
  let txs := cn_transactions x in
  put_conn c (conn_with_transactions x []) ;;
  let* hadActiveTx := deactivate_all txs false in
  let* x1 := get_conn c in
  let streams := cn_streams x1 in
  put_conn c (conn_with_streams x1 []) ;;
  for_each streams (fun s => try_catch (close s)) ;;
  ret hadActiveTx.

Definition cleanup (c : nat) : M unit :=
  let* x := get_conn c in
  let txs := cn_transactions x in
  put_conn c (conn_with_transactions x []) ;;
  for_each txs (fun t => try_catch (_dispose t)) ;;
  let* x1 := get_conn c in
  let streams := cn_streams x1 in
  put_conn c (conn_with_streams x1 []) ;;
  for_each streams (fun s => try_catch (close s)).

(** [close()] and its alias [disconnect()]. *)
Definition cn_close (c : nat) : M unit :=
  let* x := get_conn c in
  if negb (disposed x) then
    set_disposed c ;;
    cleanup c ;;
    emit (EDisconnect (connId x))
  else ret tt.

Definition cn_disconnect (c : nat) : M unit := cn_close c.

(** The last statement of both disposers: release or disconnect. *)
Definition release_or_disconnect (c : nat) (hadActiveTx : bool) : M unit :=
  let* x := get_conn c in
  match poolId x with
  | Some p =>
      if negb (hasError x) && negb hadActiveTx
      then emit (EPoolRelease p (connId x))
      else emit (EDisconnect (connId x))
  | None => emit (EDisconnect (connId x))
  end.

(** [[Symbol.dispose]()] *)
Definition cn_dispose (c : nat) : M unit :=
  let* x := get_conn c in
  if negb (disposed x) then
    set_disposed c ;;
    let* hadActiveTx := syncCleanup c in
    release_or_disconnect c hadActiveTx
  else ret tt.

(** [[Symbol.asyncDispose]()]: no [hadActiveTx] in its test. *)
Definition cn_asyncDispose (c : nat) : M unit :=
  let* x := get_conn c in
  if negb (disposed x) then
    set_disposed c ;;
    cleanup c ;;
    release_or_disconnect c false
  else ret tt.

(* ===================================================================== *)
(** * [MssqlPool] ([core/pool.ts]) and the entry points ([mod.ts])        *)
(* ===================================================================== *)

Definition mp_ensureOpen (p : nat) : M unit :=
  let* x := get_pool p in
  if mp_closed x then throw ErrPoolClosed else ret tt.

Definition mp_connect (p : nat) : M nat :=
  mp_ensureOpen p ;;
  let* x := get_pool p in
  let* conn := call_poolAcquire (mp_poolId x) in
  if (conn =? INVALID_HANDLE)%Z then
    let* msg := call_lastError (mp_poolId x) in
    throw (ErrCommand (or_else msg "Failed to acquire connection from pool"))
  else
    new_conn {| connId := conn; poolId := Some (mp_poolId x); disposed := false;
                hasError := false; cn_streams := []; cn_transactions := [] |}.

(** [pool.query]: [await using cn = await this.connect(); return await
    cn.query(...)]. *)
Definition mp_query (p : nat) (sql : string) (params : option Params)
    (opts : option CommandOptions) : M string :=
  let* c := mp_connect p in
  try_finally (query c sql params opts) (cn_asyncDispose c).

Definition mp_close (p : nat) : M unit :=
  let* x := get_pool p in
  if negb (mp_closed x) then
    put_pool p {| mp_poolId := mp_poolId x; mp_closed := true |} ;;
    emit (EPoolClose (mp_poolId x))
  else ret tt.

(** [createPool], from the configuration that [parseConnection] returns. *)
Definition createPool (config : NormalizedConfig) : M nat :=
  let* id := call_poolCreate config in
  if (id =? INVALID_HANDLE)%Z then
    let* msg := call_lastError 0 in
    throw (ErrCreatePool (or_else msg "unknown error"))
  else new_pool {| mp_poolId := id; mp_closed := false |}.

Definition connect (config : NormalizedConfig) : M nat :=
  let* conn := call_connect config in
  if (conn =? INVALID_HANDLE)%Z then
    let* msg := call_lastError 0 in
    throw (ErrConnect (or_else msg "unknown error"))
  else
    new_conn {| connId := conn; poolId := None; disposed := false;
                hasError := false; cn_streams := []; cn_transactions := [] |}.

End Driver.

(* ===================================================================== *)
(** * The pool registry behind [poolCreate] / [poolClose]                 *)
(* ===================================================================== *)

(** Modelled from the spec: the dedup key of a configuration.  The native
    library that computes it is not among the TypeScript sources; the key
    is every field of the configuration except the pool tuning and the
    timeouts. *)
Record DedupKey := {
  dk_server : string;
  dk_port : Z;
  dk_database : string;
  dk_auth : Auth;
  dk_encrypt : bool;
  dk_trust_server_certificate : bool;
  dk_app_name : string;
  dk_instance_name : option string;
  dk_packet_size : Z
}.

(** Modelled from the spec: see [DedupKey]. *)
Definition dedup_key (c : NormalizedConfig) : DedupKey :=
  {| dk_server := server c; dk_port := port c; dk_database := database c;
     dk_auth := auth c; dk_encrypt := encrypt c;
     dk_trust_server_certificate := trust_server_certificate c;
     dk_app_name := app_name c; dk_instance_name := instance_name c;
     dk_packet_size := packet_size c |}.

#[global] Instance Auth_eq_dec : EqDecision Auth.
Proof. solve_decision. Defined.

#[global] Instance DedupKey_eq_dec : EqDecision DedupKey.
Proof. solve_decision. Defined.

(** Modelled from the spec: an open boundary pool, with the number of
    holders that share it. *)
Record PoolEntry := {
  pe_id : Z;
  pe_key : DedupKey;
  pe_refcount : nat
}.

(** Modelled from the spec: the single registry of open pools of the native
    library.  [reg_created] and [reg_destroyed] list the boundary pools
    that were created and destroyed, oldest first. *)
Record Registry := {
  reg_entries : list PoolEntry;
  reg_next_id : Z;
  reg_created : list Z;
  reg_destroyed : list Z
}.

Definition empty_registry : Registry :=
  {| reg_entries := []; reg_next_id := 1; reg_created := []; reg_destroyed := [] |}.

Definition has_key (k : DedupKey) (e : PoolEntry) : bool :=
  bool_decide (pe_key e = k).

Definition has_id (id : Z) (e : PoolEntry) : bool := (pe_id e =? id)%Z.

Definition with_refcount (e : PoolEntry) (n : nat) : PoolEntry :=
  {| pe_id := pe_id e; pe_key := pe_key e; pe_refcount := n |}.

(** Modelled from the spec: [openPool] on the side of the native library
    ([store_pool]).  A pool with the same key has its refcount incremented
    and its handle returned; otherwise a boundary pool is created and
    registered with refcount 1. *)
Definition store_pool (r : Registry) (config : NormalizedConfig) : Registry * Z :=
  let k := dedup_key config in
  match List.find (has_key k) (reg_entries r) with
  | Some e =>
      ({| reg_entries :=
            List.map (fun e' => if has_key k e'
                                then with_refcount e' (S (pe_refcount e'))
                                else e') (reg_entries r);
          reg_next_id := reg_next_id r;
          reg_created := reg_created r;
          reg_destroyed := reg_destroyed r |},
       pe_id e)
  | None =>
      let id := reg_next_id r in
      ({| reg_entries :=
            reg_entries r ++ [{| pe_id := id; pe_key := k; pe_refcount := 1 |}];
          reg_next_id := (id + 1)%Z;
          reg_created := reg_created r ++ [id];
          reg_destroyed := reg_destroyed r |},
       id)
  end.

(** Modelled from the spec: [closePool] on the side of the native library
    ([remove_pool]).  The refcount is decremented; at refcount 0 the
    boundary pool is destroyed and its key deregistered. *)
Definition remove_pool (r : Registry) (id : Z) : Registry :=
  match List.find (has_id id) (reg_entries r) with
  | None => r
  | Some e =>
      match pe_refcount e with
      | S (S n) =>
          {| reg_entries :=
               List.map (fun e' => if has_id id e'
                                   then with_refcount e' (S n)
                                   else e') (reg_entries r);
             reg_next_id := reg_next_id r;
             reg_created := reg_created r;
             reg_destroyed := reg_destroyed r |}
      | _ =>
          {| reg_entries :=
               List.filter (fun e' => negb (has_id id e')) (reg_entries r);
             reg_next_id := reg_next_id r;
             reg_created := reg_created r;
             reg_destroyed := reg_destroyed r ++ [id] |}
      end
  end.

(** Modelled from the spec: the effect of one boundary call on the
    registry. *)
Definition registry_step (r : Registry) (e : Event) : Registry :=
  match e with
  | EPoolCreate config => fst (store_pool r config)
  | EPoolClose id => remove_pool r id
  | _ => r
  end.

(** Modelled from the spec: the registry after a history of boundary
    calls, starting from a library with no pool. *)
Definition registry_after (h : list Event) : Registry :=
  List.fold_left registry_step h empty_registry.

(** Modelled from the spec: the answer of the native [poolCreate]. *)
Definition registry_poolCreate (h : list Event) (config : NormalizedConfig) : Z :=
  snd (store_pool (registry_after h) config).

Definition refcount_of (r : Registry) (id : Z) : option nat :=
  match List.find (has_id id) (reg_entries r) with
  | Some e => Some (pe_refcount e)
  | None => None
  end.

Definition key_registered (r : Registry) (k : DedupKey) : bool :=
  List.existsb (has_key k) (reg_entries r).

(** [N] opens, one after the other, and the closes of the handles. *)
Fixpoint open_all (ffi : RuntimeFFI) (configs : list NormalizedConfig)
  : M (list nat) :=
  match configs with
  | [] => ret []
  | c :: r =>
      let* h := createPool ffi c in
      let* hs := open_all ffi r in
      ret (h :: hs)
  end.

Definition close_all (handles : list nat) : M unit :=
  for_each handles mp_close.

(* ===================================================================== *)
(** * Vocabulary of the statements                                        *)
(* ===================================================================== *)

(** Ranges of the numbers the base64 functions work on. *)
Definition is_byte (n : N) : Prop := (n < 256)%N.
Definition is_sextet (n : N) : Prop := (n < 64)%N.

(** The world after running [m], whatever it returned. *)
Definition run {A} (m : M A) (w : World) : World := fst (m w).

(** ** Events *)

(** What closing a stream may leave in the history: the native close of a
    cursor and the close callbacks that ran. *)
Definition close_event (e : Event) : Prop :=
  match e with
  | EStreamClose _ | ECallback _ => True
  | _ => False
  end.

(** The untrack callbacks of the driver are silent; a callback of a caller
    leaves its tag in the history. *)
Definition callback_event (cb : Callback) : list Event :=
  match cb with
  | CbOpaque tag _ => [ECallback tag]
  | _ => []
  end.

Definition callback_events (cbs : list Callback) : list Event :=
  List.flat_map callback_event cbs.

(** What the cleanup of a connection may leave in the history. *)
Definition cleanup_event (e : Event) : Prop :=
  match e with
  | EStreamClose _ | ECallback _ | ERollback _ _ => True
  | _ => False
  end.

(** The two ways a connection is handed off at disposal. *)
Definition handoff (e : Event) : bool :=
  match e with
  | EPoolRelease _ _ | EDisconnect _ => true
  | _ => false
  end.

Definition handoffs (evs : list Event) : list Event := List.filter handoff evs.

Definition is_streamNext (e : Event) : Prop :=
  match e with
  | EStreamNext _ => True
  | _ => False
  end.

(** ** Updates of single objects *)

Definition ended (x : Transaction) : Transaction :=
  {| tx_id := tx_id x; isolation := isolation x; committed := committed x;
     rolledBack := true; tx_connId := tx_connId x; tx_streams := [] |}.

Definition tx_committed (x : Transaction) : Transaction :=
  {| tx_id := tx_id x; isolation := isolation x; committed := true;
     rolledBack := rolledBack x; tx_connId := tx_connId x;
     tx_streams := tx_streams x |}.

Definition tx_rolledBack (x : Transaction) : Transaction :=
  {| tx_id := tx_id x; isolation := isolation x; committed := committed x;
     rolledBack := true; tx_connId := tx_connId x;
     tx_streams := tx_streams x |}.

(** The rollback call of a transaction as the boundary sees it. *)
Definition rollback_of (x : Transaction) : Event :=
  ERollback (tx_connId x) (tx_id x).

Definition conn_disposed (x : MssqlConnection) : MssqlConnection :=
  {| connId := connId x; poolId := poolId x; disposed := true;
     hasError := hasError x; cn_streams := cn_streams x;
     cn_transactions := cn_transactions x |}.

(** The hand-off of a connection, given whether a transaction was still
    active when a synchronous disposal started. *)
Definition handoff_of (x : MssqlConnection) (hadActiveTx : bool) : Event :=
  match poolId x with
  | Some p =>
      if negb (hasError x) && negb hadActiveTx
      then EPoolRelease p (connId x)
      else EDisconnect (connId x)
  | None => EDisconnect (connId x)
  end.

(** ** Updates of the store *)

Definition with_tx (w : World) (t : nat) (x : Transaction) : World :=
  {| conns := conns w; txs := <[t := x]> (txs w); streams := streams w;
     gens := gens w; pools := pools w; trace := trace w |}.

Definition with_conn (w : World) (c : nat) (x : MssqlConnection) : World :=
  {| conns := <[c := x]> (conns w); txs := txs w; streams := streams w;
     gens := gens w; pools := pools w; trace := trace w |}.

Definition with_stream (w : World) (s : nat) (q : QueryStream) : World :=
  {| conns := conns w; txs := txs w; streams := <[s := q]> (streams w);
     gens := gens w; pools := pools w; trace := trace w |}.

Definition with_event (w : World) (e : Event) : World :=
  {| conns := conns w; txs := txs w; streams := streams w;
     gens := gens w; pools := pools w; trace := trace w ++ [e] |}.

(** The store in the middle of [close]: the flag is set, the cursor is
    closed natively, the callbacks [cbs] have not run yet. *)
Definition after_native_close (w : World) (s : nat) (q : QueryStream)
    (cbs : list Callback) : World :=
  {| conns := conns w; txs := txs w;
     streams := <[s := {| cursorId := cursorId q; done := done q; closed := true;
                          onCloseCallbacks := cbs |}]> (streams w);
     gens := gens w; pools := pools w;
     trace := trace w ++ [EStreamClose (cursorId q)] |}.

Definition with_pool_added (w : World) (config : NormalizedConfig) (id : Z) : World :=
  {| conns := conns w; txs := txs w; streams := streams w; gens := gens w;
     pools := pools w ++ [{| mp_poolId := id; mp_closed := false |}];
     trace := trace w ++ [EPoolCreate config] |}.

Definition with_pool_closed (w : World) (p : nat) (id : Z) : World :=
  {| conns := conns w; txs := txs w; streams := streams w; gens := gens w;
     pools := <[p := {| mp_poolId := id; mp_closed := true |}]> (pools w);
     trace := trace w ++ [EPoolClose id] |}.

(** ** Relations between stores *)

Definition shrunk {A} (l' l : list A) : Prop := forall y, In y l' -> In y l.

(** An untrack callback registered on stream [s] removes [s] itself. *)
Definition cb_targets (s : nat) (cb : Callback) : Prop :=
  match cb with
  | CbConnUntrack _ s' | CbTxUntrack _ s' => s' = s
  | CbOpaque _ _ => True
  end.

(** The stores the driver builds: [_trackStream] and [queryStream] register
    on a stream only callbacks that untrack that stream. *)
Definition tidy (w : World) : Prop :=
  forall s q cb,
    streams w !! s = Some q -> In cb (onCloseCallbacks q) -> cb_targets s cb.

(** [m] keeps the property [P] of the store, whatever it returns. *)
Definition preserves (P : World -> Prop) {A} (m : M A) : Prop :=
  forall w, P w -> P (fst (m w)).

(** What running the callbacks [cbs] does to the store. *)
Record untracking (cbs : list Callback) (w w' : World) : Prop := {
  un_trace : trace w' = trace w ++ callback_events cbs;
  un_streams : streams w' = streams w;
  un_gens : gens w' = gens w;
  un_pools : pools w' = pools w;
  un_txs_length : List.length (txs w') = List.length (txs w);
  un_conns : forall c x, conns w !! c = Some x ->
     exists l', conns w' !! c = Some (conn_with_streams x l') /\
                shrunk l' (cn_streams x);
  un_txs : forall t x, txs w !! t = Some x ->
     exists l', txs w' !! t = Some (tx_with_streams x l') /\
                shrunk l' (tx_streams x) /\
                forall y, In y (tx_streams x) -> ~ In y l' ->
                          exists t', In (CbTxUntrack t' y) cbs
}.

(** What closing streams does to the store; [evs] is what it adds to the
    history. *)
Record closing (evs : list Event) (w w' : World) : Prop := {
  cl_trace : trace w' = trace w ++ evs;
  cl_events : Forall close_event evs;
  cl_gens : gens w' = gens w;
  cl_pools : pools w' = pools w;
  cl_length : List.length (streams w') = List.length (streams w);
  cl_txs_length : List.length (txs w') = List.length (txs w);
  cl_conns : forall c x, conns w !! c = Some x ->
     exists l', conns w' !! c = Some (conn_with_streams x l') /\
                shrunk l' (cn_streams x);
  cl_txs : forall t x, txs w !! t = Some x ->
     exists l', txs w' !! t = Some (tx_with_streams x l') /\
                shrunk l' (tx_streams x) /\
                (tidy w -> forall y q, In y (tx_streams x) -> ~ In y l' ->
                           streams w !! y = Some q -> closed q = false ->
                           In (EStreamClose (cursorId q)) evs);
  cl_streams : forall s q, streams w !! s = Some q ->
     exists q', streams w' !! s = Some q' /\
                cursorId q' = cursorId q /\ done q' = done q /\
                shrunk (onCloseCallbacks q') (onCloseCallbacks q) /\
                (q' = q \/
                 (closed q = false /\ closed q' = true /\
                  In (EStreamClose (cursorId q)) evs))
}.

(** What the cleanup of transactions does to the store: streams are closed
    and transactions rolled back. *)
Record cleaning (evs : list Event) (w w' : World) : Prop := {
  cg_trace : trace w' = trace w ++ evs;
  cg_events : Forall cleanup_event evs;
  cg_gens : gens w' = gens w;
  cg_pools : pools w' = pools w;
  cg_length : List.length (streams w') = List.length (streams w);
  cg_txs_length : List.length (txs w') = List.length (txs w);
  cg_conns : forall c x, conns w !! c = Some x ->
     exists x', conns w' !! c = Some x' /\
                connId x' = connId x /\ poolId x' = poolId x /\
                disposed x' = disposed x /\ hasError x' = hasError x;
  cg_txs : forall t x, txs w !! t = Some x ->
     exists x', txs w' !! t = Some x' /\
                tx_id x' = tx_id x /\ tx_connId x' = tx_connId x /\
                committed x' = committed x /\
                (rolledBack x = true -> rolledBack x' = true) /\
                shrunk (tx_streams x') (tx_streams x) /\
                (tidy w -> forall y q, In y (tx_streams x) ->
                           ~ In y (tx_streams x') ->
                           streams w !! y = Some q -> closed q = false ->
                           In (EStreamClose (cursorId q)) evs);
  cg_streams : forall s q, streams w !! s = Some q ->
     exists q', streams w' !! s = Some q' /\
                cursorId q' = cursorId q /\ done q' = done q /\
                shrunk (onCloseCallbacks q') (onCloseCallbacks q) /\
                (q' = q \/
                 (closed q = false /\ closed q' = true /\
                  In (EStreamClose (cursorId q)) evs))
}.

(** ** Commands on a transaction that has ended *)

(** [signal?.throwIfAborted()] would raise. *)
Definition aborted (o : CommandOptions) : bool :=
  match co_signal o with
  | Some true => true
  | _ => false
  end.

(** The error of a command issued with a transaction that is no longer
    active: the checks of [#ensureOpen] run in this order. *)
Definition rejection (cn : MssqlConnection) (o : CommandOptions) : Error :=
  if disposed cn then ErrConnectionClosed
  else if aborted o then ErrAborted
  else ErrTransactionInactive.

(** ** Everything a caller can do with a stream *)

Inductive StreamOp :=
| OpClose
| OpOnClose (cb : Callback)
| OpIterator
| OpNext (g : nat)
| OpReturn (g : nat)
| OpPull
| OpCancel.

(** The iterator [g] was made from the stream [s]. *)
Definition owns (s g : nat) : M bool :=
  fun w => (w, Ok match gens w !! g with
                  | Some x => Nat.eqb (g_stream x) s
                  | None => false
                  end).

(** One operation on the stream [s]; the result is the row it handed to the
    caller, if any. *)
Definition run_op (ffi : RuntimeFFI) (s : nat) (op : StreamOp) : M (option string) :=
  match op with
  | OpClose => close ffi s ;; ret None
  | OpOnClose cb => _onClose s cb ;; ret None
  | OpIterator => asyncIterator s ;; ret None
  | OpNext g =>
      let* mine := owns s g in
      if mine then gen_next ffi g else ret None
  | OpReturn g =>
      let* mine := owns s g in
      if mine then gen_return ffi g ;; ret None else ret None
  | OpPull => pull ffi s
  | OpCancel => cancel ffi s ;; ret None
  end.

(** A sequence of operations, each run whatever the one before returned. *)
Fixpoint run_ops (ffi : RuntimeFFI) (s : nat) (ops : list StreamOp) (w : World)
  : World * list (Outcome (option string)) :=
  match ops with
  | [] => (w, [])
  | op :: r =>
      let (w1, res) := run_op ffi s op w in
      let (w2, rs) := run_ops ffi s r w1 in
      (w2, res :: rs)
  end.

(** The stream is closed or exhausted. *)
Definition spent (s : nat) (w : World) : Prop :=
  exists q, streams w !! s = Some q /\ done q || closed q = true.

(** From [w] to [w'] the boundary was not asked for a row. *)
Definition silent (w w' : World) : Prop :=
  exists evs, trace w' = trace w ++ evs /\ Forall (fun e => ~ is_streamNext e) evs.

Definition no_row (r : Outcome (option string)) : Prop :=
  match r with
  | Ok (Some _) => False
  | _ => True
  end.

(** ** The registry of native pools *)

(** Handles are positive and below the next one to hand out. *)
Record reg_wf (r : Registry) : Prop := {
  wf_next : (1 <= reg_next_id r)%Z;
  wf_ids : Forall (fun e => (1 <= pe_id e < reg_next_id r)%Z) (reg_entries r)
}.

(** The registry holds the pool [id] of key [k] with [m] holders, next to
    entries [es] of other keys and other handles. *)
Definition shared (r : Registry) (es : list PoolEntry) (id : Z) (k : DedupKey)
    (m : nat) : Prop :=
  reg_entries r = es ++ [{| pe_id := id; pe_key := k; pe_refcount := m |}] /\
  Forall (fun e => has_key k e = false /\ has_id id e = false) es.

(* ===================================================================== *)
(** * A concrete installation                                            *)
(* ===================================================================== *)

(** Two configurations of the same server, database and credentials; they
    differ in timeouts and pool tuning only. *)
Definition demo_config : NormalizedConfig :=
  {| server := "db.example"; port := 1433; database := "app";
     auth := AuthSql "sa" "secret"; encrypt := true;
     trust_server_certificate := true; connect_timeout_ms := 15000;
     request_timeout_ms := 15000; app_name := "app"; instance_name := None;
     packet_size := 4096;
     pool := Some {| pt_min := Some 1; pt_max := Some 4;
                     pt_idle_timeout_ms := None |} |}%Z.

Definition demo_config_tuned : NormalizedConfig :=
  {| server := "db.example"; port := 1433; database := "app";
     auth := AuthSql "sa" "secret"; encrypt := true;
     trust_server_certificate := true; connect_timeout_ms := 5000;
     request_timeout_ms := 60000; app_name := "app"; instance_name := None;
     packet_size := 4096;
     pool := Some {| pt_min := None; pt_max := Some 32;
                     pt_idle_timeout_ms := Some 1000 |} |}%Z.

Definition demo_platform : Platform :=
  {| isoString := fun _ => "2024-06-15T10:30:00.000Z";
     argumentLimit := 2 ^ 16;
     stringifyCommand := sc_sql;
     stringifyTx := fun id _ => id;
     randomUUID := fun _ n => string_of_list_ascii (List.repeat "u"%char (S n)) |}.

(** A native library on which every call succeeds and every cursor is
    empty. *)
Definition demo_ffi : RuntimeFFI :=
  {| poolCreate := registry_poolCreate;
     poolAcquire := fun _ _ => 7%Z;
     ffi_connect := fun _ _ => 3%Z;
     ffi_query := fun _ _ _ => Some "[]";
     executeNonquery := fun _ _ _ => Some "0";
     ffi_exec := fun _ _ _ => Some "0";
     ffi_queryStream := fun _ _ _ => 41%Z;
     streamNext := fun _ _ => None;
     streamClose := fun _ _ => false;
     ffi_beginTransaction := fun _ _ _ => None;
     ffi_commit := fun _ _ _ => None;
     ffi_rollback := fun _ _ _ => None;
     lastError := fun _ _ => None |}.

(** The same library with a server that refuses every commit. *)
Definition flaky_ffi : RuntimeFFI :=
  {| poolCreate := registry_poolCreate;
     poolAcquire := fun _ _ => 7%Z;
     ffi_connect := fun _ _ => 3%Z;
     ffi_query := fun _ _ _ => Some "[]";
     executeNonquery := fun _ _ _ => Some "0";
     ffi_exec := fun _ _ _ => Some "0";
     ffi_queryStream := fun _ _ _ => 41%Z;
     streamNext := fun _ _ => None;
     streamClose := fun _ _ => false;
     ffi_beginTransaction := fun _ _ _ => None;
     ffi_commit := fun _ _ _ => Some "deadlock";
     ffi_rollback := fun _ _ _ => None;
     lastError := fun _ _ => None |}.

(** The same library with a native [streamClose] that raises. *)
Definition crashing_ffi : RuntimeFFI :=
  {| poolCreate := registry_poolCreate;
     poolAcquire := fun _ _ => 7%Z;
     ffi_connect := fun _ _ => 3%Z;
     ffi_query := fun _ _ _ => Some "[]";
     executeNonquery := fun _ _ _ => Some "0";
     ffi_exec := fun _ _ _ => Some "0";
     ffi_queryStream := fun _ _ _ => 41%Z;
     streamNext := fun _ _ => None;
     streamClose := fun _ _ => true;
     ffi_beginTransaction := fun _ _ _ => None;
     ffi_commit := fun _ _ _ => None;
     ffi_rollback := fun _ _ _ => None;
     lastError := fun _ _ => None |}.

(** [{ transaction: tx }] for the first transaction of the store. *)
Definition in_tx : CommandOptions :=
  {| co_transaction := Some 0; co_commandTimeout := None;
     co_commandType := None; co_signal := None |}.

(** A session: [createPool], [pool.connect()], [cn.beginTransaction()],
    [cn.queryStream(sql, undefined, { transaction: tx })]. *)
Definition w_pool : World := run (createPool demo_ffi demo_config) empty_world.
Definition w_conn : World := run (mp_connect demo_ffi 0) w_pool.
Definition w_tx : World :=
  run (beginTransaction demo_ffi demo_platform 0 READ_COMMITTED) w_conn.
Definition w_stream : World :=
  run (queryStream demo_ffi demo_platform 0 "SELECT 1" None (Some in_tx)) w_tx.

(** The objects of the session at that point. *)
Definition demo_conn : MssqlConnection :=
  {| connId := 7; poolId := Some 1%Z; disposed := false; hasError := false;
     cn_streams := [0]; cn_transactions := [0] |}.

Definition demo_tx : Transaction :=
  {| tx_id := "u"; isolation := READ_COMMITTED; committed := false;
     rolledBack := false; tx_connId := 7; tx_streams := [0] |}.

Definition demo_stream : QueryStream :=
  {| cursorId := 41; done := false; closed := false;
     onCloseCallbacks := [CbConnUntrack 0 0; CbTxUntrack 0 0] |}.

(** Four ways to go on: [tx.commit()] with the stream still open,
    [cn.close()], a caller's callback registered on the stream, and an
    iterator made from the stream. *)
Definition w_committed : World := run (commit demo_ffi 0) w_stream.
Definition w_closed : World := run (cn_close demo_ffi 0) w_stream.
Definition w_watched : World := run (_onClose 0 (CbOpaque 5 false)) w_stream.

Definition watched_stream : QueryStream :=
  {| cursorId := 41; done := false; closed := false;
     onCloseCallbacks := [CbConnUntrack 0 0; CbTxUntrack 0 0; CbOpaque 5 false] |}.

Definition w_iterating : World := run (asyncIterator 0) w_stream.

(** The options of a command pass the checks of [#ensureOpen] on an open
    connection: the signal is not aborted and the transaction, if any, is
    active. *)
Definition admissible (w : World) (opts : option CommandOptions) : Prop :=
  match opts with
  | None => True
  | Some o =>
      aborted o = false /\
      match co_transaction o with
      | None => True
      | Some t => exists y, txs w !! t = Some y /\ isActive y = true
      end
  end.

(** The connection after a command has failed on it. *)
Definition conn_failed (x : MssqlConnection) : MssqlConnection :=
  {| connId := connId x; poolId := poolId x; disposed := disposed x;
     hasError := true; cn_streams := cn_streams x;
     cn_transactions := cn_transactions x |}.

(** In [w] the connection [c] is [x] with the error flag, and both
    disposals of it disconnect it. *)
Definition evicted_on_dispose (ffi : RuntimeFFI) (c : nat) (x : MssqlConnection)
    (w : World) : Prop :=
  conns w !! c = Some (conn_failed x) /\
  (exists evs w', cn_asyncDispose ffi c w = (w', Ok tt) /\
                  trace w' = trace w ++ evs /\
                  handoffs evs = [EDisconnect (connId x)]) /\
  (exists evs w', cn_dispose ffi c w = (w', Ok tt) /\
                  trace w' = trace w ++ evs /\
                  handoffs evs = [EDisconnect (connId x)]).

(** [pool.execute] and [pool.exec]: the same [await using] pattern as
    [pool.query]. *)
Definition mp_execute (ffi : RuntimeFFI) (plat : Platform) (p : nat) (sql : string)
    (params : option Params) (opts : option CommandOptions) : M string :=
  let* c := mp_connect ffi p in
  try_finally (execute ffi plat c sql params opts) (cn_asyncDispose ffi c).

Definition mp_exec (ffi : RuntimeFFI) (plat : Platform) (p : nat) (sql : string)
    (params : option Params) (opts : option CommandOptions) : M string :=
  let* c := mp_connect ffi p in
  try_finally (exec ffi plat c sql params opts) (cn_asyncDispose ffi c).

(** The connection that [pool.connect()] builds from a handle. *)
Definition pooled_conn (id conn : Z) : MssqlConnection :=
  {| connId := conn; poolId := Some id; disposed := false; hasError := false;
     cn_streams := []; cn_transactions := [] |}.

(** The three commands that a pool runs on a connection of its own. *)
Inductive PoolCommand := PcQuery | PcExecute | PcExec.

Definition run_command (ffi : RuntimeFFI) (plat : Platform) (k : PoolCommand)
  : nat -> string -> option Params -> option CommandOptions -> M string :=
  match k with
  | PcQuery => query ffi plat
  | PcExecute => execute ffi plat
  | PcExec => exec ffi plat
  end.

Definition run_pool_command (ffi : RuntimeFFI) (plat : Platform) (k : PoolCommand)
  : nat -> string -> option Params -> option CommandOptions -> M string :=
  match k with
  | PcQuery => mp_query ffi plat
  | PcExecute => mp_execute ffi plat
  | PcExec => mp_exec ffi plat
  end.

(** What each of the three commands sends through the boundary, what the
    boundary answers to it after the calls [h], and the message of the
    error that the command throws when the boundary has no last error. *)
Definition command_event (k : PoolCommand) (conn : Z) (cmdJson : string) : Event :=
  match k with
  | PcQuery => EQuery conn cmdJson
  | PcExecute => EExecuteNonquery conn cmdJson
  | PcExec => EExec conn cmdJson
  end.

Definition boundary_answer (ffi : RuntimeFFI) (k : PoolCommand) (h : list Event)
    (conn : Z) (cmdJson : string) : option string :=
  match k with
  | PcQuery => ffi_query ffi h conn cmdJson
  | PcExecute => executeNonquery ffi h conn cmdJson
  | PcExec => ffi_exec ffi h conn cmdJson
  end.

Definition default_message (k : PoolCommand) : string :=
  match k with
  | PcQuery => "Query failed"
  | PcExecute => "Execute failed"
  | PcExec => "Exec failed"
  end.

(** The store after [pool.connect()] has acquired the handle [conn] from
    the native pool [id]. *)
Definition with_acquired (w : World) (id conn : Z) : World :=
  {| conns := conns w ++ [pooled_conn id conn]; txs := txs w;
     streams := streams w; gens := gens w; pools := pools w;
     trace := trace w ++ [EPoolAcquire id] |}.

Definition with_gen (w : World) (g : nat) (x : Generator) : World :=
  {| conns := conns w; txs := txs w; streams := streams w;
     gens := <[g := x]> (gens w); pools := pools w; trace := trace w |}.

Definition is_fetch (cursor : Z) (e : Event) : bool :=
  match e with
  | EStreamNext c => (c =? cursor)%Z
  | _ => false
  end.

(** The number of rows asked of [cursor] in a history. *)
Definition fetches (cursor : Z) (h : list Event) : nat :=
  List.length (List.filter (is_fetch cursor) h).

(** From the history [h0] on, the boundary serves [rows] on [cursor], one per
    [streamNext], then end-of-data, whatever else is called in between. *)
Definition serves (ffi : RuntimeFFI) (cursor : Z) (h0 : list Event)
    (rows : list string) : Prop :=
  forall h,
    streamNext ffi (h0 ++ h) cursor =
      match nth_error rows (fetches cursor h) with
      | Some r => Some (PRow r)
      | None => None
      end.

(** The native close of [cursor] never raises. *)
Definition closes_quietly (ffi : RuntimeFFI) (cursor : Z) : Prop :=
  forall h, streamClose ffi h cursor = false.

(** A stream closed, with its callbacks run. *)
Definition stream_closed (q : QueryStream) : QueryStream :=
  {| cursorId := cursorId q; done := done q; closed := true;
     onCloseCallbacks := [] |}.

(* ===================================================================== *)
(** * [PooledQueryStream] and [pool.queryStream] ([core/pool.ts])         *)
(* ===================================================================== *)

(** [try { m } catch (err) { h; throw err }] *)
Definition try_rethrow {A} (m : M A) (h : M unit) : M A :=
  fun w =>
    match m w with
    | (w1, Ok a) => (w1, Ok a)
    | (w1, Throw e) =>
        match h w1 with
        | (w2, Ok _) => (w2, Throw e)
        | (w2, Throw e') => (w2, Throw e')
        end
    end.

(** A [PooledQueryStream] holds two references and no state of its own. *)
Record PooledQueryStream := {
  pqs_inner : nat;
  pqs_conn : nat
}.

Definition mp_queryStream (ffi : RuntimeFFI) (plat : Platform) (p : nat)
    (sql : string) (params : option Params) (opts : option CommandOptions)
  : M PooledQueryStream :=
  let* cn := mp_connect ffi p in
  try_rethrow
    (let* stream := queryStream ffi plat cn sql params opts in
     ret {| pqs_inner := stream; pqs_conn := cn |})
    (cn_disconnect ffi cn).

(** [close()] and [[Symbol.asyncDispose]()] *)
Definition pqs_close (ffi : RuntimeFFI) (ps : PooledQueryStream) : M unit :=
  close ffi (pqs_inner ps) ;;
  cn_asyncDispose ffi (pqs_conn ps).

Definition pqs_asyncDispose (ffi : RuntimeFFI) (ps : PooledQueryStream) : M unit :=
  pqs_close ffi ps.

(** [[Symbol.dispose]()] *)
Definition pqs_dispose (ffi : RuntimeFFI) (ps : PooledQueryStream) : M unit :=
  close ffi (pqs_inner ps) ;;
  cn_dispose ffi (pqs_conn ps).

(** [toArray()]: a [for await] over the iterator of the pooled stream,
    whose body is a [for await] over the inner stream inside a [try]
    block, with [close()] in the [finally] block. *)
Definition pqs_toArray (ffi : RuntimeFFI) (fuel : nat) (ps : PooledQueryStream)
  : M (option (list string)) :=
  try_finally (toArray ffi fuel (pqs_inner ps)) (pqs_close ffi ps).

(** [toReadableStream()] is that of the inner stream. *)
Definition pqs_pull (ffi : RuntimeFFI) (ps : PooledQueryStream) : M (option string) :=
  pull ffi (pqs_inner ps).

(** The stream that [queryStream] has just opened. *)
Definition fresh_stream (cursor : Z) (cbs : list Callback) : QueryStream :=
  {| cursorId := cursor; done := false; closed := false; onCloseCallbacks := cbs |}.

(** [opts?.transaction] *)
Definition tx_of (opts : option CommandOptions) : option nat :=
  match opts with
  | Some o => co_transaction o
  | None => None
  end.

(** The callbacks that [queryStream] registers on the stream [s] that it
    opens on the connection [c]. *)
Definition untrack_callbacks (c s : nat) (opts : option CommandOptions)
  : list Callback :=
  CbConnUntrack c s ::
  match tx_of opts with
  | Some t => [CbTxUntrack t s]
  | None => []
  end.

(** The transactions after [queryStream] has opened [s]. *)
Definition txs_tracking (w : World) (s : nat) (opts : option CommandOptions)
  : list Transaction :=
  match tx_of opts with
  | Some t =>
      match txs w !! t with
      | Some y => <[t := tx_with_streams y (set_add s (tx_streams y))]> (txs w)
      | None => txs w
      end
  | None => txs w
  end.

(* ===================================================================== *)
(** * COMB identifiers ([core/comb.ts])                                   *)
(* ===================================================================== *)

(** [ToInt32], the conversion of the operands of [&] and [|]. *)
Definition toInt32 (x : Z) : Z := ((x + 2 ^ 31) mod 2 ^ 32 - 2 ^ 31)%Z.

(** [(now / 2 ** k) & 0xff] for an integral [now]: the quotient is
    truncated by [ToInt32]. *)
Definition shifted_byte (now : Z) (k : Z) : Z :=
  Z.land (toInt32 (Z.quot now (2 ^ k))) 255.

Definition hex_digit (n : Z) : ascii :=
  match n with
  | 0 => "0" | 1 => "1" | 2 => "2" | 3 => "3" | 4 => "4" | 5 => "5" | 6 => "6"
  | 7 => "7" | 8 => "8" | 9 => "9" | 10 => "a" | 11 => "b" | 12 => "c"
  | 13 => "d" | 14 => "e" | _ => "f"
  end%Z%char.

(** [b.toString(16)] for a byte [b]. *)
Definition toString16 (b : Z) : string :=
  if (b <? 16)%Z then String (hex_digit b) EmptyString
  else String (hex_digit (b / 16)) (String (hex_digit (b mod 16)) EmptyString).

(** [s.padStart(2, "0")] *)
Definition padStart2 (s : string) : string :=
  match String.length s with
  | 0 => "00"
  | 1 => "0" ++ s
  | _ => s
  end.

(** The sixteen bytes of the identifier: random bytes with the version and
    variant bits set and the time in the last six. *)
Definition comb_bytes (random : list Z) (now : Z) : list Z :=
  let bytes := random in
  let bytes := <[6 := Z.lor (Z.land (bytes !!! 6) 15) 64]> bytes in
  let bytes := <[8 := Z.lor (Z.land (bytes !!! 8) 63) 128]> bytes in
  let bytes := <[10 := shifted_byte now 40]> bytes in
  let bytes := <[11 := shifted_byte now 32]> bytes in
  let bytes := <[12 := shifted_byte now 24]> bytes in
  let bytes := <[13 := shifted_byte now 16]> bytes in
  let bytes := <[14 := shifted_byte now 8]> bytes in
  <[15 := Z.land (toInt32 now) 255]> bytes.

(** [newCOMB()], given what [crypto.getRandomValues] put into the array and
    what [Date.now()] returned. *)
Definition newCOMB (random : list Z) (now : Z) : string :=
  let hex :=
    String.concat "" (List.map (fun b => padStart2 (toString16 b))
                               (comb_bytes random now)) in
  String.concat "-"
    [substring 0 8 hex; substring 8 4 hex; substring 12 4 hex;
     substring 16 4 hex; substring 20 12 hex].

(** What [crypto.getRandomValues(new Uint8Array(16))] can leave. *)
Definition random_bytes (random : list Z) : Prop :=
  List.length random = 16 /\ Forall (fun b => 0 <= b < 256)%Z random.

(** The sixteen digits, and the value of one of them. *)
Definition hex_digits : list ascii := list_ascii_of_string "0123456789abcdef".

Fixpoint digit_index (c : ascii) (l : list ascii) (i : Z) : option Z :=
  match l with
  | [] => None
  | d :: r => if Ascii.eqb c d then Some i else digit_index c r (i + 1)
  end.

Definition hex_value_of (c : ascii) : option Z := digit_index c hex_digits 0.

(** The number that a string of lower-case hexadecimal digits denotes. *)
Fixpoint parse_hex (acc : Z) (s : string) : option Z :=
  match s with
  | EmptyString => Some acc
  | String c r =>
      match hex_value_of c with
      | Some d => parse_hex (16 * acc + d) r
      | None => None
      end
  end.

Definition is_hex (c : ascii) : Prop := exists d, hex_value_of c = Some d.

(* ===================================================================== *)
(** * Tagged templates ([core/connection.ts], [buildTaggedTemplate])      *)
(* ===================================================================== *)

(** [`${i}`] for an array index [i]. *)
Definition index_text (i : nat) : string :=
  DecimalString.NilZero.string_of_uint (Nat.to_uint i).

(** [strings[i]]; a missing element is [undefined], which [join] prints as
    the empty string. *)
Definition template_part (strings : list string) (i : nat) : string :=
  List.nth i strings "".

(** The loop of [buildTaggedTemplate] from index [i] on: the parts pushed
    and the parameters set for the values that are left. *)
Fixpoint template_loop (strings : list string) (i : nat) (values : list ParamValue)
  : list string * Params :=
  match values with
  | [] => ([], [])
  | v :: r =>
      let name := ("p" ++ index_text i)%string in
      let (parts, params) := template_loop strings (S i) r in
      (("@" ++ name)%string :: template_part strings (S i) :: parts,
       (name, Plain v) :: params)
  end.

Definition buildTaggedTemplate (strings : list string) (values : list ParamValue)
  : string * Params :=
  let (parts, params) := template_loop strings 0 values in
  (String.concat "" (template_part strings 0 :: parts), params).

(** [cn.sql`...`] and [cn.sqlWith(opts)`...`]. *)
Definition cn_sql (ffi : RuntimeFFI) (plat : Platform) (c : nat)
    (strings : list string) (values : list ParamValue) : M string :=
  let (sql, params) := buildTaggedTemplate strings values in
  query ffi plat c sql (Some params) None.

Definition cn_sqlWith (ffi : RuntimeFFI) (plat : Platform) (c : nat)
    (opts : CommandOptions) (strings : list string) (values : list ParamValue)
  : M string :=
  let (sql, params) := buildTaggedTemplate strings values in
  query ffi plat c sql (Some params) (Some opts).

(** The text that a template with the strings [strings] and [n]
    placeholders denotes. *)
Fixpoint template_text (strings : list string) (i n : nat) : string :=
  match n with
  | O => ""
  | S m => ("@p" ++ index_text i ++ template_part strings (S i)
             ++ template_text strings (S i) m)%string
  end.

(* ===================================================================== *)
(** * [ExecResult] ([core/exec_result.ts])                                *)
(* ===================================================================== *)

(** A JavaScript number as the comparison with an integer and the indexing
    of an array see it: an integer; a finite number that is no integer, kept
    as the integer below it; an infinity; or [NaN].  ([-0] is the integer 0:
    it is not below 0, and as a property key it is [0].) *)
Inductive NumClass :=
| Integral (z : Z)
| Between (z : Z)                 (* a number between [z] and [z + 1] *)
| Infinity (negative : bool)
| NaN.

(** [x < n] and [x >= n] for an integer [n]; both are [false] on [NaN]. *)
Definition below (x : NumClass) (n : Z) : bool :=
  match x with
  | Integral z => (z <? n)%Z
  | Between z => (z <? n)%Z
  | Infinity negative => negative
  | NaN => false
  end.

Definition at_or_above (x : NumClass) (n : Z) : bool :=
  match x with
  | Integral z => (n <=? z)%Z
  | Between z => (n <=? z)%Z
  | Infinity negative => negb negative
  | NaN => false
  end.

(** [array[x]]: the element at an integer index of the array, [undefined]
    ([None]) for every other number. *)
Definition element {A : Type} (array : list A) (x : NumClass) : option A :=
  match x with
  | Integral z => if (z <? 0)%Z then None else array !! Z.to_nat z
  | _ => None
  end.

Section ExecResults.

(** The values of OUTPUT parameters and the rows are [unknown] to the
    class. *)
Variables (Value Row : Type).

(** [ExecResultRaw].  [outputParams] is an object: [raw_has] is the [in]
    operator on it and [raw_get] the member access. *)
Record ExecResultRaw := {
  raw_rowsAffected : Z;
  raw_resultSets : list (list Row);
  raw_has : string -> bool;
  raw_get : string -> Value
}.

Record ExecResult := {
  er_rowsAffected : Z;
  er_resultSets : nat;
  er_data : ExecResultRaw
}.

Definition new_ExecResult (raw : ExecResultRaw) : ExecResult :=
  {| er_rowsAffected := raw_rowsAffected raw;
     er_resultSets := List.length (raw_resultSets raw);
     er_data := raw |}.

Inductive ExecError :=
| OutputNotFound (clean : string)       (* Output parameter '...' not found *)
| IndexOutOfRange (index : NumClass) (last : Z)
                                        (* Result set index i out of range (0..last) *)
| NotAnObject.                          (* TypeError: [undefined[0]] *)

(** [name.startsWith("@") ? name.slice(1) : name] *)
Definition clean_name (name : string) : string :=
  match name with
  | String "@" rest => rest
  | _ => name
  end.

Definition getOutput (r : ExecResult) (name : string) : ExecError + Value :=
  let clean := clean_name name in
  if raw_has (er_data r) clean then inr (raw_get (er_data r) clean)
  else inl (OutputNotFound clean).

(** [index] is a number, whatever the caller passes.  The guard lets
    through what is neither below 0 nor at or above the length, [NaN]
    included; [this.#data.resultSets[index]] is then an element of the
    array, or [undefined] ([None]) when the index is no integer. *)
Definition getResults (r : ExecResult) (index : NumClass)
  : ExecError + option (list Row) :=
  let sets := raw_resultSets (er_data r) in
  if below index 0 || at_or_above index (Z.of_nat (List.length sets))
  then inl (IndexOutOfRange index (Z.of_nat (List.length sets) - 1))
  else inr (element sets index).

(** [this.getResults(index)[0]]: [None] is [undefined]; the member access
    throws a [TypeError] when [getResults] has returned [undefined]. *)
Definition getResultFirst (r : ExecResult) (index : NumClass)
  : ExecError + option Row :=
  match getResults r index with
  | inl e => inl e
  | inr None => inl NotAnObject
  | inr (Some rows) => inr (List.head rows)
  end.

End ExecResults.

Arguments raw_rowsAffected {Value Row}.
Arguments raw_resultSets {Value Row}.
Arguments raw_has {Value Row}.
Arguments raw_get {Value Row}.
Arguments er_rowsAffected {Value Row}.
Arguments er_resultSets {Value Row}.
Arguments er_data {Value Row}.
Arguments new_ExecResult {Value Row}.
Arguments getOutput {Value Row}.
Arguments getResults {Value Row}.
Arguments getResultFirst {Value Row}.

(* ===================================================================== *)
(** * Bulk insert ([core/bulk.ts])                                        *)
(* ===================================================================== *)

Record BulkColumn := {
  bc_name : string;
  bc_type : SqlType;
  bc_nullable : option bool;
  bc_collation : option string;
  bc_maxLength : option Z;
  bc_precision : option Z;
  bc_scale : option Z
}.

(** A column as [#executeSingle] sends it. *)
Record RequestColumn := {
  rc_name : string;
  rc_type : SqlType;
  rc_nullable : bool
}.

(** The object that [#executeSingle] passes to [JSON.stringify]. *)
Record BulkRequest := {
  br_table : string;
  br_columns : list RequestColumn;
  br_rows : list (list JsonValue)
}.

(** The two members of [RuntimeFFI] that a bulk insert calls.  Each receives
    the requests made so far; the answer of [bulkInsert] is [null] or the
    [rowsAffected] of the parsed result. *)
Record BulkFFI := {
  bulkInsert : list BulkRequest -> Z -> BulkRequest -> option JsNumber;
  bulk_lastError : list BulkRequest -> Z -> option string
}.

(** The arithmetic of the engine on numbers (IEEE-754 doubles, kept as
    their bit patterns), which is not computed here: the number of an
    integer literal or of an array length, the sum of two numbers, and the
    class of a number. *)
Record Arithmetic := {
  number_of : Z -> JsNumber;
  number_add : JsNumber -> JsNumber -> JsNumber;
  number_class : JsNumber -> NumClass
}.

(** What the batching needs of that arithmetic: an integer of magnitude up
    to 2^53 is a number, and sums of such integers are exact. *)
Record safe_integers (ar : Arithmetic) : Prop := {
  class_of_integer :
    forall z, (Z.abs z <= 2 ^ 53)%Z ->
      number_class ar (number_of ar z) = Integral z;
  sum_of_integers :
    forall a b,
      (Z.abs a <= 2 ^ 53)%Z -> (Z.abs b <= 2 ^ 53)%Z -> (Z.abs (a + b) <= 2 ^ 53)%Z ->
      number_add ar (number_of ar a) (number_of ar b) = number_of ar (a + b)
}.

(** [x > n] for an integer [n]; [false] on [NaN]. *)
Definition above (x : NumClass) (n : Z) : bool :=
  match x with
  | Integral z => (n <? z)%Z
  | Between z => (n <=? z)%Z
  | Infinity negative => negb negative
  | NaN => false
  end.

(** What [Array.prototype.slice] makes of an argument, for an array of
    [len] elements: the number is truncated to an integer ([NaN] to 0), a
    negative one counts from the end, and the result is kept within the
    array. *)
Definition slice_index (x : NumClass) (len : nat) : nat :=
  let clamp (z : Z) : nat :=
    if (z <? 0)%Z then Z.to_nat (Z.max (Z.of_nat len + z) 0)
    else Nat.min (Z.to_nat z) len in
  match x with
  | Integral z => clamp z
  | Between z => clamp (if z <? 0 then z + 1 else z)%Z
  | Infinity true => 0
  | Infinity false => len
  | NaN => 0
  end.

(** [array.slice(from, to)] *)
Definition slice {A : Type} (array : list A) (from to : NumClass) : list A :=
  let k := slice_index from (List.length array) in
  let final := slice_index to (List.length array) in
  List.firstn (final - k) (List.skipn k array).

(** [BulkInsertBuilder].  [#batchSize] is the number that the caller has
    set, whatever it is. *)
Record BulkInsertBuilder := {
  bb_table : string;
  bb_columns : list BulkColumn;
  bb_rows : list (list ParamValue);
  bb_connId : Z;
  bb_batchSize : JsNumber
}.

Definition new_builder (ar : Arithmetic) (table : string) (connId : Z)
  : BulkInsertBuilder :=
  {| bb_table := table; bb_columns := []; bb_rows := []; bb_connId := connId;
     bb_batchSize := number_of ar 0 |}.

Definition bb_set_columns (b : BulkInsertBuilder) (cols : list BulkColumn)
  : BulkInsertBuilder :=
  {| bb_table := bb_table b; bb_columns := cols; bb_rows := bb_rows b;
     bb_connId := bb_connId b; bb_batchSize := bb_batchSize b |}.

(** The builder with [rows] pushed after the rows that are there. *)
Definition bb_add_rows (b : BulkInsertBuilder) (rows : list (list ParamValue))
  : BulkInsertBuilder :=
  {| bb_table := bb_table b; bb_columns := bb_columns b;
     bb_rows := bb_rows b ++ rows;
     bb_connId := bb_connId b; bb_batchSize := bb_batchSize b |}.

(** [val === undefined ? null : val] *)
Definition or_null (v : ParamValue) : ParamValue :=
  match v with
  | PVUndefined => PVNull
  | _ => v
  end.

(** An object is read through its members: [obj name] is [obj[name]]. *)
Definition fromObjects (b : BulkInsertBuilder) (objects : list (string -> ParamValue))
  : BulkInsertBuilder :=
  bb_add_rows b
    (List.map (fun obj => List.map (fun col => or_null (obj (bc_name col)))
                            (bb_columns b))
       objects).

Definition bb_set_batchSize (b : BulkInsertBuilder) (size : JsNumber)
  : BulkInsertBuilder :=
  {| bb_table := bb_table b; bb_columns := bb_columns b; bb_rows := bb_rows b;
     bb_connId := bb_connId b; bb_batchSize := size |}.

Inductive BulkError :=
| BulkNoColumns                    (* No columns defined for bulk insert *)
| BulkRange (cause : RangeError)   (* thrown while the cells are serialized *)
| BulkFailed (err : string).       (* Bulk insert failed: err *)

Section Bulk.
Variable ffi : BulkFFI.
Variable plat : Platform.
Variable ar : Arithmetic.

(** The cell serializer of [execute]: dates, bytes, and [val ?? null].  It
    throws what [toISOString] and the spread call throw. *)
Definition serializeCell (val : ParamValue) : RangeError + JsonValue :=
  match val with
  | PVDate d =>
      match toISOString plat d with
      | inr text => inr (JString text)
      | inl e => inl e
      end
  | PVBytes bytes =>
      match fromCharCode (argumentLimit plat) bytes with
      | Some units => inr (JString (btoa units))
      | None => inl TooManyArguments
      end
  | PVNull | PVUndefined => inr JNull
  | PVString s => inr (JString s)
  | PVNumber n => inr (JNumber n)
  | PVBoolean b => inr (JBoolean b)
  end.

Definition request_of (b : BulkInsertBuilder) (rows : list (list JsonValue))
  : BulkRequest :=
  {| br_table := bb_table b;
     br_columns :=
       List.map (fun c => {| rc_name := bc_name c; rc_type := bc_type c;
                             rc_nullable := match bc_nullable c with
                                            | Some n => n
                                            | None => false
                                            end |})
         (bb_columns b);
     br_rows := rows |}.

(** [#executeSingle]: the requests made so far are threaded through. *)
Definition executeSingle (b : BulkInsertBuilder) (rows : list (list JsonValue))
    (sent : list BulkRequest) : list BulkRequest * (BulkError + JsNumber) :=
  let request := request_of b rows in
  match bulkInsert ffi sent (bb_connId b) request with
  | None =>
      (sent ++ [request],
       inl (BulkFailed (match bulk_lastError ffi (sent ++ [request]) (bb_connId b) with
                        | Some e => e
                        | None => "Unknown error"
                        end)))
  | Some n => (sent ++ [request], inr n)
  end.

(** The loop of [#executeBatched] with the counter at [i], for [fuel]
    rounds; [None] when the rounds are used up and the loop has not ended
    (with a batch size that is no integer a round may send no row, and the
    counter need not advance). *)
Fixpoint executeBatched_from (fuel : nat) (b : BulkInsertBuilder)
    (rows : list (list JsonValue)) (i : JsNumber) (total : JsNumber)
    (sent : list BulkRequest)
  : list BulkRequest * option (BulkError + JsNumber) :=
  if below (number_class ar i) (Z.of_nat (List.length rows)) then
    match fuel with
    | O => (sent, None)
    | S f =>
        let next := number_add ar i (bb_batchSize b) in
        let chunk := slice rows (number_class ar i) (number_class ar next) in
        match executeSingle b chunk sent with
        | (sent', inl e) => (sent', Some (inl e))
        | (sent', inr n) =>
            executeBatched_from f b rows next (number_add ar total n) sent'
        end
    end
  else (sent, Some (inr total)).

Definition executeBatched (fuel : nat) (b : BulkInsertBuilder)
    (rows : list (list JsonValue)) (sent : list BulkRequest)
  : list BulkRequest * option (BulkError + JsNumber) :=
  executeBatched_from fuel b rows (number_of ar 0) (number_of ar 0) sent.

(** [execute()], the loop of the batched branch running for at most [fuel]
    rounds.  The cells are serialized before anything is sent. *)
Definition bulk_execute (fuel : nat) (b : BulkInsertBuilder)
    (sent : list BulkRequest)
  : list BulkRequest * option (BulkError + JsNumber) :=
  match bb_columns b with
  | [] => (sent, Some (inl BulkNoColumns))
  | _ :: _ =>
      match map_throwing (map_throwing serializeCell) (bb_rows b) with
      | inl cause => (sent, Some (inl (BulkRange cause)))
      | inr serializedRows =>
          let size := number_class ar (bb_batchSize b) in
          if above size 0 && below size (Z.of_nat (List.length serializedRows))
          then executeBatched fuel b serializedRows sent
          else
            let (sent', r) := executeSingle b serializedRows sent in
            (sent', Some r)
      end
  end.

End Bulk.

(** The counts that the boundary reports for the requests [new], made
    after [sent], added to [total] one after the other as the engine adds
    numbers. *)
Fixpoint rows_affected (ffi : BulkFFI) (ar : Arithmetic) (conn : Z)
    (sent new : list BulkRequest) (total : JsNumber) : JsNumber :=
  match new with
  | [] => total
  | q :: r =>
      rows_affected ffi ar conn (sent ++ [q]) r
        (number_add ar total
           (match bulkInsert ffi sent conn q with
            | Some n => n
            | None => number_of ar 0
            end))
  end.

(** The boundary accepted every request of [new] but the last, which it
    refused. *)
Definition refused_last (ffi : BulkFFI) (conn : Z) (sent new : list BulkRequest)
  : Prop :=
  exists init q,
    new = init ++ [q] /\ bulkInsert ffi (sent ++ init) conn q = None.

(* ===================================================================== *)
(** * FILESTREAM handles ([core/filestream.ts])                           *)
(* ===================================================================== *)

Inductive FilestreamMode := FsRead | FsWrite | FsReadWrite.

(** [txContext: Uint8Array | string] *)
Inductive TxContext :=
| TcBytes (bytes : list byte)
| TcText (text : string).

(** The object that [_open] passes to [JSON.stringify]. *)
Record OpenRequest := {
  rq_path : string;
  rq_tx_context_base64 : string;
  rq_mode : FilestreamMode
}.

(** The calls of a handle through the boundary. *)
Inductive FsEvent :=
| EFsAvailable
| EFsOpen (req : OpenRequest)
| EFsRead (fsId : Z) (maxBytes : Z)
| EFsWrite (fsId : Z) (dataBase64 : string)
| EFsClose (fsId : Z).

(** What [JSON.parse] makes of the answer to a read: an object with a
    truthy [__error], or with [data]. *)
Inductive ReadAnswer :=
| RaError (message : string)
| RaData (data : string).

(** The FILESTREAM members of [RuntimeFFI]; each receives the calls made
    so far.  [filestreamClose] answers whether the native call raised. *)
Record FsFFI := {
  filestreamAvailable : list FsEvent -> bool;
  filestreamOpen : list FsEvent -> OpenRequest -> Z;
  filestreamRead : list FsEvent -> Z -> Z -> option ReadAnswer;
  filestreamWrite : list FsEvent -> Z -> string -> Z;
  filestreamClose : list FsEvent -> Z -> bool
}.

Inductive FsError :=
| FsUnavailable                 (* FILESTREAM requires Microsoft OLE DB Driver 19 ... *)
| FsOpenFailed                  (* Failed to open FILESTREAM handle *)
| FsHandleClosed                (* FILESTREAM handle is closed *)
| FsReadFailed                  (* FILESTREAM read failed *)
| FsReadError (message : string) (* FILESTREAM read: message *)
| FsInvalidCharacter            (* raised by atob *)
| FsWriteFailed                 (* FILESTREAM write failed *)
| FsRange (cause : RangeError)  (* raised by String.fromCharCode(...bytes) *)
| FsNotAnInteger                (* RangeError raised by BigInt(maxBytes) *)
| FsNative.                     (* raised by the native close *)

(** A [FilestreamHandle] and the calls made so far. *)
Record FsState := {
  fsId : Z;
  fs_mode : FilestreamMode;
  fs_closed : bool;
  fs_trace : list FsEvent
}.

Definition fs_with_event (st : FsState) (e : FsEvent) : FsState :=
  {| fsId := fsId st; fs_mode := fs_mode st; fs_closed := fs_closed st;
     fs_trace := fs_trace st ++ [e] |}.

Definition fs_set_closed (st : FsState) : FsState :=
  {| fsId := fsId st; fs_mode := fs_mode st; fs_closed := true;
     fs_trace := fs_trace st |}.

Section Filestream.
Variable ffi : FsFFI.
Variable plat : Platform.

(** [FilestreamHandle._open], from the calls [h] made so far.  The spread
    call on the bytes of the transaction context throws when there are more
    of them than a call takes arguments; nothing is opened then. *)
Definition fs_open (path : string) (txContext : TxContext) (mode : FilestreamMode)
    (h : list FsEvent) : list FsEvent * (FsError + FsState) :=
  if negb (filestreamAvailable ffi h) then (h ++ [EFsAvailable], inl FsUnavailable)
  else
    let h1 := h ++ [EFsAvailable] in
    let ctxBase64 :=
      match txContext with
      | TcBytes bytes =>
          match fromCharCode (argumentLimit plat) bytes with
          | Some units => Some (btoa units)
          | None => None
          end
      | TcText text => Some text
      end in
    match ctxBase64 with
    | None => (h1, inl (FsRange TooManyArguments))
    | Some ctxBase64 =>
        let req := {| rq_path := path; rq_tx_context_base64 := ctxBase64;
                      rq_mode := mode |} in
        let id := filestreamOpen ffi h1 req in
        let h2 := h1 ++ [EFsOpen req] in
        if (id =? INVALID_HANDLE)%Z then (h2, inl FsOpenFailed)
        else (h2, inr {| fsId := id; fs_mode := mode; fs_closed := false;
                         fs_trace := h2 |})
    end.

(** [BigInt(x)] for a number [x]: the integer that [x] is, and a
    [RangeError] ([None]) when [x] is no integer, as the infinities and
    [NaN]. *)
Definition BigInt (x : NumClass) : option Z :=
  match x with
  | Integral z => Some z
  | _ => None
  end.

(** [read(maxBytes?)].  [BigInt(maxBytes ?? 0)] throws on a number that is
    no integer, before the boundary is called. *)
Definition fs_read (maxBytes : option NumClass) (st : FsState)
  : FsState * (FsError + list byte) :=
  if fs_closed st then (st, inl FsHandleClosed)
  else
    match BigInt (match maxBytes with Some n => n | None => Integral 0 end) with
    | None => (st, inl FsNotAnInteger)
    | Some n =>
        let st1 := fs_with_event st (EFsRead (fsId st) n) in
        match filestreamRead ffi (fs_trace st) (fsId st) n with
        | None => (st1, inl FsReadFailed)
        | Some (RaError message) => (st1, inl (FsReadError message))
        | Some (RaData data) =>
            match decodeBase64 data with
            | None => (st1, inl FsInvalidCharacter)
            | Some bytes => (st1, inr bytes)
            end
        end
    end.

(** [write(data)].  The spread call on [data] throws when [data] has more
    bytes than a call takes arguments: the boundary is not called then. *)
Definition fs_write (data : list byte) (st : FsState) : FsState * (FsError + Z) :=
  if fs_closed st then (st, inl FsHandleClosed)
  else
    match fromCharCode (argumentLimit plat) data with
    | None => (st, inl (FsRange TooManyArguments))
    | Some units =>
        let b64 := btoa units in
        let written := filestreamWrite ffi (fs_trace st) (fsId st) b64 in
        let st1 := fs_with_event st (EFsWrite (fsId st) b64) in
        if ((written =? 0)%Z && Nat.ltb 0 (List.length data))%bool
        then (st1, inl FsWriteFailed)
        else (st1, inr written)
    end.

(** [close()] and [[Symbol.asyncDispose]()] *)
Definition fs_close (st : FsState) : FsState * (FsError + unit) :=
  if negb (fs_closed st) then
    let st1 := fs_with_event (fs_set_closed st) (EFsClose (fsId st)) in
    if filestreamClose ffi (fs_trace st) (fsId st) then (st1, inl FsNative)
    else (st1, inr tt)
  else (st, inr tt).

Definition fs_asyncDispose (st : FsState) : FsState * (FsError + unit) :=
  fs_close st.

(** What a [pull] tells the controller of the [ReadableStream]. *)
Inductive ControllerCall :=
| CtlEnqueue (chunk : list byte)
| CtlClose
| CtlError (err : FsError).

(** The [catch] block of [pull]. *)
Definition pull_catch (err : FsError) (calls : list ControllerCall) (st : FsState)
  : FsState * (FsError + list ControllerCall) :=
  match fs_close st with
  | (st1, inl e) => (st1, inl e)
  | (st1, inr _) => (st1, inr (calls ++ [CtlError err]))
  end.

(** The [pull] of [toReadableStream(chunkSize)]. *)
Definition fs_pull (chunkSize : NumClass) (st : FsState)
  : FsState * (FsError + list ControllerCall) :=
  match fs_read (Some chunkSize) st with
  | (st1, inl err) => pull_catch err [] st1
  | (st1, inr chunk) =>
      match chunk with
      | [] =>
          match fs_close st1 with
          | (st2, inl err) => pull_catch err [CtlClose] st2
          | (st2, inr _) => (st2, inr [CtlClose])
          end
      | _ :: _ => (st1, inr [CtlEnqueue chunk])
      end
  end.

(** Everything a holder of the handle, of its [ReadableStream] or of its
    [WritableStream] can do. *)
Inductive FsOp :=
| FoRead (maxBytes : option NumClass)
| FoWrite (data : list byte)
| FoClose
| FoAsyncDispose
| FoPull (chunkSize : NumClass)
| FoCancel
| FoSinkWrite (chunk : list byte)
| FoSinkClose
| FoSinkAbort.

(** What an operation gave back. *)
Inductive FsResult :=
| FrBytes (bytes : list byte)
| FrWritten (n : Z)
| FrCalls (calls : list ControllerCall)
| FrAccepted
| FrDone
| FrThrown (err : FsError).

Definition fs_done (r : FsState * (FsError + unit)) : FsState * FsResult :=
  match r with
  | (st, inl e) => (st, FrThrown e)
  | (st, inr _) => (st, FrDone)
  end.

Definition fs_run_op (op : FsOp) (st : FsState) : FsState * FsResult :=
  match op with
  | FoRead maxBytes =>
      match fs_read maxBytes st with
      | (st1, inl e) => (st1, FrThrown e)
      | (st1, inr bytes) => (st1, FrBytes bytes)
      end
  | FoWrite data =>
      match fs_write data st with
      | (st1, inl e) => (st1, FrThrown e)
      | (st1, inr n) => (st1, FrWritten n)
      end
  | FoClose | FoCancel | FoSinkClose | FoSinkAbort => fs_done (fs_close st)
  | FoAsyncDispose => fs_done (fs_asyncDispose st)
  | FoPull chunkSize =>
      match fs_pull chunkSize st with
      | (st1, inl e) => (st1, FrThrown e)
      | (st1, inr calls) => (st1, FrCalls calls)
      end
  | FoSinkWrite chunk =>
      match fs_write chunk st with
      | (st1, inl e) => (st1, FrThrown e)
      | (st1, inr _) => (st1, FrAccepted)
      end
  end.

(** A sequence of operations, each run whatever the one before gave. *)
Fixpoint fs_run_ops (ops : list FsOp) (st : FsState) : FsState * list FsResult :=
  match ops with
  | [] => (st, [])
  | op :: r =>
      let (st1, res) := fs_run_op op st in
      let (st2, rs) := fs_run_ops r st1 in
      (st2, res :: rs)
  end.

End Filestream.

(** The native closes of the handle [id] in a history. *)
Definition is_fs_close (id : Z) (e : FsEvent) : bool :=
  match e with
  | EFsClose i => (i =? id)%Z
  | _ => false
  end.

Definition fs_closes (id : Z) (h : list FsEvent) : nat :=
  List.length (List.filter (is_fs_close id) h).

(** The operation handed no data over. *)
Definition fs_refused (r : FsResult) : Prop :=
  match r with
  | FrBytes _ | FrWritten _ | FrAccepted => False
  | FrCalls calls => forall chunk, ~ In (CtlEnqueue chunk) calls
  | FrDone | FrThrown _ => True
  end.

(* ===================================================================== *)
(** * ADO.NET connection strings ([core/config.ts])                       *)
(* ===================================================================== *)

(** In this part a JavaScript string is the list of its code units, and
    the code units are below 256. *)
Definition JsString : Type := list ascii.

(** The white space and line terminators below 256, which [trim]
    removes: U+0009 to U+000D, U+0020 and U+00A0. *)
Definition is_white (c : ascii) : bool :=
  let n := nat_of_ascii c in
  (Nat.leb 9 n && Nat.leb n 13) || Nat.eqb n 32 || Nat.eqb n 160.

Fixpoint trimStart (s : JsString) : JsString :=
  match s with
  | [] => []
  | c :: r => if is_white c then trimStart r else s
  end.

Definition trimEnd (s : JsString) : JsString := rev (trimStart (rev s)).

Definition trim (s : JsString) : JsString := trimEnd (trimStart s).

(** The first position of [c] in [s]. *)
Fixpoint find_unit (c : ascii) (s : JsString) : option nat :=
  match s with
  | [] => None
  | x :: r => if Ascii.eqb x c then Some 0 else S <$> find_unit c r
  end.

(** [s.indexOf(c, i)] for a string [c] of one character; [None] is -1. *)
Definition indexOf (s : JsString) (c : ascii) (i : nat) : option nat :=
  Nat.add i <$> find_unit c (drop i s).

(** [s.substring(a, b)]: both arguments are clamped to the length and
    swapped when the first is the larger. *)
Definition js_substring (s : JsString) (a b : nat) : JsString :=
  let a' := Nat.min a (List.length s) in
  let b' := Nat.min b (List.length s) in
  take (Nat.max a' b' - Nat.min a' b') (drop (Nat.min a' b') s).

(** The two quote characters. *)
Definition is_quote (c : ascii) : bool :=
  Ascii.eqb c "'" || Ascii.eqb c (ascii_of_nat 34).

(** The value that starts at [i], after an opening quote, and the index
    after it. *)
Definition quoted_value (s : JsString) (quote : ascii) (i : nat) : JsString * nat :=
  match indexOf s quote i with
  | None => (drop i s, List.length s)
  | Some endQuote =>
      let i1 := endQuote + 1 in
      (js_substring s i endQuote,
       match s !! i1 with
       | Some c => if Ascii.eqb c ";" then i1 + 1 else i1
       | None => i1
       end)
  end.

(** The value that starts at [i] without a quote, and the index after
    it. *)
Definition bare_value (s : JsString) (i : nat) : JsString * nat :=
  match indexOf s ";" i with
  | None => (trim (drop i s), List.length s)
  | Some semi => (trim (js_substring s i semi), semi + 1)
  end.

(** The [while] loop of [splitAdoNet] from index [i] on, with [fuel]
    rounds; [None] when the rounds are used up. *)
Fixpoint split_loop (fuel : nat) (s : JsString) (i : nat)
    (pairs : list (JsString * JsString)) : option (list (JsString * JsString)) :=
  if Nat.ltb i (List.length s) then
    match fuel with
    | O => None
    | S f =>
        match indexOf s "=" i with
        | None => Some pairs
        | Some eqIdx =>
            let key := trim (js_substring s i eqIdx) in
            let i1 := eqIdx + 1 in
            let '(value, i2) :=
              match s !! i1 with
              | Some q =>
                  if is_quote q then quoted_value s q (i1 + 1) else bare_value s i1
              | None => bare_value s i1
              end in
            split_loop f s i2
              (match key with
               | [] => pairs
               | _ :: _ => pairs ++ [(key, value)]
               end)
        end
    end
  else Some pairs.

Definition splitAdoNet (s : JsString) : option (list (JsString * JsString)) :=
  split_loop (List.length s) s 0 [].

(** ** Connection strings written out *)

(** A value as it is written: as it is, or between two quotes. *)
Inductive AdoValue :=
| Bare (v : JsString)
| Quoted (quote : ascii) (v : JsString).

Definition ado_value (a : AdoValue) : JsString :=
  match a with
  | Bare v | Quoted _ v => v
  end.

Definition render_value (a : AdoValue) : JsString :=
  match a with
  | Bare v => v
  | Quoted q v => q :: v ++ [q]
  end.

(** [key=value;] *)
Definition render_pair (kv : JsString * AdoValue) : JsString :=
  fst kv ++ "="%char :: render_value (snd kv) ++ [";"%char].

Definition render (l : list (JsString * AdoValue)) : JsString :=
  List.concat (List.map render_pair l).

(** A key that can be written: not empty, without [=], and with no white
    space around it. *)
Definition clean_key (k : JsString) : Prop :=
  k <> [] /\ ~ In "="%char k /\ trim k = k.

(** A value that can be written bare has no [;], no white space around it
    and no quote in front; a value that is written between quotes does not
    contain that quote. *)
Definition clean_value (a : AdoValue) : Prop :=
  match a with
  | Bare v =>
      ~ In ";"%char v /\ trim v = v /\
      match v with
      | c :: _ => is_quote c = false
      | [] => True
      end
  | Quoted q v => is_quote q = true /\ ~ In q v
  end.

(* ===================================================================== *)
(** * Finding the native library ([core/binary.ts])                       *)
(* ===================================================================== *)

(** A string literal as a list of code units. *)
Definition js (s : string) : JsString := list_ascii_of_string s.

Inductive Os := Windows | Darwin | Linux.
Inductive Arch := X86_64 | Aarch64.
Inductive Runtime := Deno | Node | Bun.

Definition os_text (os : Os) : JsString :=
  match os with
  | Windows => js "windows"
  | Darwin => js "darwin"
  | Linux => js "linux"
  end.

Definition arch_text (arch : Arch) : JsString :=
  match arch with
  | X86_64 => js "x86_64"
  | Aarch64 => js "aarch64"
  end.

Definition runtime_text (r : Runtime) : JsString :=
  match r with
  | Deno => js "deno"
  | Node => js "node"
  | Bun => js "bun"
  end.

Record RuntimeInfo := {
  ri_os : Os;
  ri_arch : Arch;
  ri_runtime : Runtime
}.

(** [ResolutionContext].  Its functions answer the same to the same
    question for the time of one resolution. *)
Record ResolutionContext := {
  env : JsString -> option JsString;
  fileExists : JsString -> bool;
  cwd : JsString;
  homeDir : JsString;
  entryPoint : option JsString;
  version : JsString;
  info : RuntimeInfo;
  sep : JsString
}.

Definition libraryFileName (os : Os) (arch : Arch) : JsString :=
  let osName := match os with Darwin => js "macos" | _ => os_text os end in
  let ext := match os with
             | Windows => js "dll"
             | Darwin => js "dylib"
             | Linux => js "so"
             end in
  js "mssqlts-" ++ osName ++ js "-" ++ arch_text arch ++ js "." ++ ext.

Fixpoint is_prefix (p s : JsString) : bool :=
  match p, s with
  | [], _ => true
  | _ :: _, [] => false
  | a :: p', b :: s' => Ascii.eqb a b && is_prefix p' s'
  end.

(** The largest position up to [k] at which [pat] occurs in [s]. *)
Fixpoint last_match (pat s : JsString) (k : nat) : option nat :=
  if is_prefix pat (drop k s) then Some k
  else match k with
       | O => None
       | S k' => last_match pat s k'
       end.

(** [s.lastIndexOf(pat)]; [None] is -1. *)
Definition lastIndexOf (s pat : JsString) : option nat :=
  last_match pat s (List.length s).

(** [s.substring(0, s.lastIndexOf(pat))]: -1 is clamped to 0. *)
Definition up_to_last (s pat : JsString) : JsString :=
  match lastIndexOf s pat with
  | Some i => take i s
  | None => []
  end.

Definition js_eqb (a b : JsString) : bool := bool_decide (a = b).

Definition truthy_text (s : JsString) : bool := negb (js_eqb s []).

Inductive ResolveError :=
| LibraryNotFound (filename : JsString).  (* Native library "..." not found. ... *)

Section Resolving.
Variable ctx : ResolutionContext.

(** [for (const c of candidates) if (ctx.fileExists(c)) return c] *)
Definition first_existing (candidates : list JsString) : option JsString :=
  List.find (fileExists ctx) candidates.

(** The candidates of step 3 in the directory [dir]. *)
Definition in_directory (filename dir : JsString) : list JsString :=
  List.map (fun sub =>
              if truthy_text sub then dir ++ sep ctx ++ sub ++ sep ctx ++ filename
              else dir ++ sep ctx ++ filename)
    [js ""; js "lib"; js ".lib"; js "bin"; js ".bin"].

(** The [while] loop of step 3 with [fuel] rounds: [None] when the rounds
    are used up, [Some None] when the loop ends without a file. *)
Fixpoint walk_up (fuel : nat) (filename root dir : JsString)
  : option (option JsString) :=
  if Nat.leb (List.length root) (List.length dir) then
    match fuel with
    | O => None
    | S f =>
        match first_existing (in_directory filename dir) with
        | Some candidate => Some (Some candidate)
        | None =>
            let parent := up_to_last dir (sep ctx) in
            if js_eqb parent dir || js_eqb parent [] then Some None
            else walk_up f filename root parent
        end
    end
  else Some None.

(** Steps 4 to 7. *)
Definition after_walk (filename : JsString) : ResolveError + JsString :=
  let next :=
    let home := homeDir ctx in
    match first_existing
            (List.map (fun sub => home ++ sep ctx ++ sub ++ sep ctx ++ filename)
               [js "lib"; js ".lib"; js "bin"; js ".bin"]) with
    | Some candidate => inr candidate
    | None =>
        let cachePath :=
          home ++ sep ctx ++ js ".cache" ++ sep ctx ++ js "tracker1-mssql"
            ++ sep ctx ++ version ctx ++ sep ctx ++ filename in
        if fileExists ctx cachePath then inr cachePath
        else inl (LibraryNotFound filename)
    end in
  match entryPoint ctx with
  | Some entry =>
      if truthy_text entry then
        let entryDir := up_to_last entry (sep ctx) in
        if truthy_text entryDir then
          let candidate := entryDir ++ sep ctx ++ filename in
          if fileExists ctx candidate then inr candidate else next
        else next
      else next
  | None => next
  end.

(** [resolveLibraryPath(ctx)]; [None] when the walk runs out of rounds. *)
Definition resolveLibraryPath : option (ResolveError + JsString) :=
  let filename := libraryFileName (ri_os (info ctx)) (ri_arch (info ctx)) in
  let s := sep ctx in
  let envPath := env ctx (js "TRACKER1_MSSQL_LIB_PATH") in
  let from_step_2 :=
    let nodeModulesUnified :=
      cwd ctx ++ s ++ js "node_modules" ++ s ++ js "@tracker1" ++ s ++ js "mssql"
        ++ s ++ js "native" ++ s ++ filename in
    if fileExists ctx nodeModulesUnified then Some (inr nodeModulesUnified)
    else
      let nodeModulesRuntime :=
        cwd ctx ++ s ++ js "node_modules" ++ s ++ js "@tracker1" ++ s
          ++ js "mssql-" ++ runtime_text (ri_runtime (info ctx))
          ++ s ++ js "native" ++ s ++ filename in
      if fileExists ctx nodeModulesRuntime then Some (inr nodeModulesRuntime)
      else
        let dir := cwd ctx in
        let root := match ri_os (info ctx) with
                    | Windows => take 3 dir
                    | _ => js "/"
                    end in
        match walk_up (S (List.length dir)) filename root dir with
        | None => None
        | Some (Some candidate) => Some (inr candidate)
        | Some None => Some (after_walk filename)
        end in
  match envPath with
  | Some p => if truthy_text p && fileExists ctx p then Some (inr p) else from_step_2
  | None => from_step_2
  end.

(** The directories that the walk of step 3 visits, nearest first. *)
Fixpoint walked (fuel : nat) (root dir : JsString) : list JsString :=
  if Nat.leb (List.length root) (List.length dir) then
    match fuel with
    | O => []
    | S f =>
        let parent := up_to_last dir (sep ctx) in
        dir :: (if js_eqb parent dir || js_eqb parent [] then []
                else walked f root parent)
    end
  else [].

End Resolving.

(** ** The resolution order written out *)

(** Every path that a resolution may try, in the order in which it tries
    them. *)
Definition candidates (ctx : ResolutionContext) : list JsString :=
  let filename := libraryFileName (ri_os (info ctx)) (ri_arch (info ctx)) in
  let s := sep ctx in
  let dir := cwd ctx in
  let root := match ri_os (info ctx) with
              | Windows => take 3 dir
              | _ => js "/"
              end in
  let home := homeDir ctx in
  match env ctx (js "TRACKER1_MSSQL_LIB_PATH") with
  | Some p => if truthy_text p then [p] else []
  | None => []
  end
  ++ [dir ++ s ++ js "node_modules" ++ s ++ js "@tracker1" ++ s ++ js "mssql"
        ++ s ++ js "native" ++ s ++ filename;
      dir ++ s ++ js "node_modules" ++ s ++ js "@tracker1" ++ s
        ++ js "mssql-" ++ runtime_text (ri_runtime (info ctx))
        ++ s ++ js "native" ++ s ++ filename]
  ++ List.concat (List.map (in_directory ctx filename)
                    (walked ctx (S (List.length dir)) root dir))
  ++ match entryPoint ctx with
     | Some entry =>
         if truthy_text entry && truthy_text (up_to_last entry s)
         then [up_to_last entry s ++ s ++ filename]
         else []
     | None => []
     end
  ++ List.map (fun sub => home ++ s ++ sub ++ s ++ filename)
       [js "lib"; js ".lib"; js "bin"; js ".bin"]
  ++ [home ++ s ++ js ".cache" ++ s ++ js "tracker1-mssql" ++ s ++ version ctx
        ++ s ++ filename].

(* ===================================================================== *)
(** * More of the concrete installation                                   *)
(* ===================================================================== *)

(** The pool of the session, and its connection before the transaction,
    with the transaction, and after [cn.close()]. *)
Definition demo_pool : MssqlPool := {| mp_poolId := 1; mp_closed := false |}.

Definition plain_conn : MssqlConnection := pooled_conn 1 7.

Definition tx_conn : MssqlConnection :=
  {| connId := 7; poolId := Some 1%Z; disposed := false; hasError := false;
     cn_streams := []; cn_transactions := [0] |}.

Definition closed_conn : MssqlConnection :=
  {| connId := 7; poolId := Some 1%Z; disposed := true; hasError := false;
     cn_streams := []; cn_transactions := [] |}.

Definition fresh_gen : Generator := {| g_stream := 0; g_state := GenFresh |}.

(** A native library whose server refuses every command, every cursor and
    every transaction. *)
Definition refusing_ffi : RuntimeFFI :=
  {| poolCreate := registry_poolCreate;
     poolAcquire := fun _ _ => 7%Z;
     ffi_connect := fun _ _ => 3%Z;
     ffi_query := fun _ _ _ => None;
     executeNonquery := fun _ _ _ => None;
     ffi_exec := fun _ _ _ => None;
     ffi_queryStream := fun _ _ _ => INVALID_HANDLE;
     streamNext := fun _ _ => None;
     streamClose := fun _ _ => false;
     ffi_beginTransaction := fun _ _ _ => Some "busy";
     ffi_commit := fun _ _ _ => None;
     ffi_rollback := fun _ _ _ => None;
     lastError := fun _ _ => Some "syntax error" |}.

(** A native library whose cursors serve two rows, one per fetch. *)
Definition demo_rows : list string := ["r1"; "r2"].

Definition serving_ffi : RuntimeFFI :=
  {| poolCreate := registry_poolCreate;
     poolAcquire := fun _ _ => 7%Z;
     ffi_connect := fun _ _ => 3%Z;
     ffi_query := fun _ _ _ => Some "[]";
     executeNonquery := fun _ _ _ => Some "0";
     ffi_exec := fun _ _ _ => Some "0";
     ffi_queryStream := fun _ _ _ => 41%Z;
     streamNext := fun h c =>
       match nth_error demo_rows (fetches c h) with
       | Some r => Some (PRow r)
       | None => None
       end;
     streamClose := fun _ _ => false;
     ffi_beginTransaction := fun _ _ _ => None;
     ffi_commit := fun _ _ _ => None;
     ffi_rollback := fun _ _ _ => None;
     lastError := fun _ _ => None |}.

(** A native library whose cursors answer every fetch with an error. *)
Definition erring_ffi : RuntimeFFI :=
  {| poolCreate := registry_poolCreate;
     poolAcquire := fun _ _ => 7%Z;
     ffi_connect := fun _ _ => 3%Z;
     ffi_query := fun _ _ _ => Some "[]";
     executeNonquery := fun _ _ _ => Some "0";
     ffi_exec := fun _ _ _ => Some "0";
     ffi_queryStream := fun _ _ _ => 41%Z;
     streamNext := fun _ _ => Some (PError "boom");
     streamClose := fun _ _ => false;
     ffi_beginTransaction := fun _ _ _ => None;
     ffi_commit := fun _ _ _ => None;
     ffi_rollback := fun _ _ _ => None;
     lastError := fun _ _ => None |}.

(** Sixteen random bytes and a time in 2024. *)
Definition demo_random : list Z :=
  [18; 52; 86; 120; 154; 188; 222; 240; 1; 35; 69; 103; 137; 171; 205; 239]%Z.

Definition demo_now : Z := 1718447400000.

(** A bulk insert of three rows in batches of two, on a boundary that
    inserts every row it is sent. *)
Definition demo_bulk_ffi : BulkFFI :=
  {| bulkInsert := fun _ _ q => Some (Float64 (Z.of_nat (List.length (br_rows q))));
     bulk_lastError := fun _ _ => None |}.

(** An arithmetic whose only numbers are the integers, each kept under
    its own value. *)
Definition demo_arithmetic : Arithmetic :=
  {| number_of := Float64;
     number_add := fun x y =>
       match x, y with Float64 a, Float64 b => Float64 (a + b) end;
     number_class := fun x => match x with Float64 a => Integral a end |}.

Definition demo_builder : BulkInsertBuilder :=
  bb_set_batchSize
    (bb_add_rows
       (bb_set_columns (new_builder demo_arithmetic "Users" 7)
          [{| bc_name := "Name"; bc_type := SqlNvarchar; bc_nullable := None;
              bc_collation := None; bc_maxLength := None; bc_precision := None;
              bc_scale := None |}])
       [[PVString "Alice"]; [PVString "Bob"]; [PVNull]])
    (number_of demo_arithmetic 2).

(** The same builder with the batch size of a new builder. *)
Definition demo_builder_unbatched : BulkInsertBuilder :=
  bb_set_batchSize demo_builder (number_of demo_arithmetic 0).

(** A FILESTREAM boundary that stores what is written and gives it back
    to the next read; with nothing written a read finds the end of the
    data. *)
Fixpoint last_written (h : list FsEvent) (found : string) : string :=
  match h with
  | [] => found
  | EFsWrite _ data :: r => last_written r data
  | _ :: r => last_written r found
  end.

Definition demo_fs_ffi : FsFFI :=
  {| filestreamAvailable := fun _ => true;
     filestreamOpen := fun _ _ => 5%Z;
     filestreamRead := fun h _ _ => Some (RaData (last_written h EmptyString));
     filestreamWrite := fun _ _ data => Z.of_nat (String.length data);
     filestreamClose := fun _ _ => false |}.

(** The handle that [_open] makes on that boundary. *)
Definition demo_fs : FsState :=
  {| fsId := 5; fs_mode := FsReadWrite; fs_closed := false;
     fs_trace :=
       [EFsAvailable;
        EFsOpen {| rq_path := "blob"; rq_tx_context_base64 := "AQI=";
                   rq_mode := FsReadWrite |}] |}.

(** [Server=db;Password='a;b';] *)
Definition demo_ado : list (JsString * AdoValue) :=
  [(js "Server", Bare (js "db")); (js "Password", Quoted "'" (js "a;b"))].

(* ===================================================================== *)
(** * Properties of the built-ins: base64                                 *)
(* ===================================================================== *)

Lemma list_ind3 {A} (P : list A -> Prop) :
  P [] -> (forall a, P [a]) -> (forall a b, P [a; b]) ->
  (forall a b c l, P l -> P (a :: b :: c :: l)) ->
  forall l, P l.
Proof.
  intros H0 H1 H2 H3 l.
  assert (P l /\ (forall a, P (a :: l)) /\ (forall a b, P (a :: b :: l))) as [? _].
  { induction l as [|x l (IH0 & IH1 & IH2)]; [by auto|].
    repeat split; auto. }
  done.
Qed.

Lemma b64_value_char n : (n < 64)%N -> b64_value (b64_char n) = Some n.
Proof.
  intros Hn.
  destruct n as [|p]; [reflexivity|].
  do 6 (destruct p as [p|p|]; try reflexivity); lia.
Qed.

Lemma b64_char_not_pad n : is_pad (b64_char n) = false.
Proof.
  destruct (N.lt_ge_cases n 64) as [Hn|Hn].
  - destruct n as [|p]; [reflexivity|].
    do 6 (destruct p as [p|p|]; try reflexivity); lia.
  - unfold b64_char.
    destruct (N.ltb_spec n 26); [lia|].
    destruct (N.ltb_spec n 52); [lia|].
    destruct (N.ltb_spec n 62); [lia|].
    destruct (N.eqb_spec n 62); reflexivity.
Qed.

Lemma b64_char_not_whitespace n : is_ascii_whitespace (b64_char n) = false.
Proof.
  destruct (N.lt_ge_cases n 64) as [Hn|Hn].
  - destruct n as [|p]; [reflexivity|].
    do 6 (destruct p as [p|p|]; try reflexivity); lia.
  - unfold b64_char.
    destruct (N.ltb_spec n 26); [lia|].
    destruct (N.ltb_spec n 52); [lia|].
    destruct (N.ltb_spec n 62); [lia|].
    destruct (N.eqb_spec n 62); reflexivity.
Qed.

Ltac euclid :=
  unfold is_byte, is_sextet in *; zify;
  Z.to_euclidean_division_equations; lia.

Lemma sextets_bound l : Forall is_byte l -> Forall is_sextet (sextets l).
Proof.
  induction l as [| a | a b | a b c l IH] using list_ind3; intros H; simpl.
  - constructor.
  - inversion_clear H. repeat constructor; euclid.
  - inversion_clear H as [|? ? Ha H']. inversion_clear H'.
    repeat constructor; euclid.
  - inversion_clear H as [|? ? Ha H']. inversion_clear H' as [|? ? Hb H''].
    inversion_clear H'' as [|? ? Hc Hl].
    repeat constructor; try euclid. by apply IH.
Qed.

(** Regrouping into 6-bit groups and back loses nothing. *)
Lemma unsextets_sextets l : Forall is_byte l -> unsextets (sextets l) = l.
Proof.
  induction l as [| a | a b | a b c l IH] using list_ind3; intros H;
    cbn [sextets unsextets].
  - reflexivity.
  - inversion_clear H. f_equal. euclid.
  - inversion_clear H as [|? ? Ha H']. inversion_clear H'.
    f_equal; [euclid|]. f_equal. euclid.
  - inversion_clear H as [|? ? Ha H']. inversion_clear H' as [|? ? Hb H''].
    inversion_clear H'' as [|? ? Hc Hl].
    rewrite IH by done.
    f_equal; [euclid|]. f_equal; [euclid|]. f_equal. euclid.
Qed.

Lemma b64_values_chars l :
  Forall is_sextet l -> b64_values (List.map b64_char l) = Some l.
Proof.
  induction 1 as [|n l Hn _ IH]; simpl; [done|].
  by rewrite b64_value_char, IH.
Qed.

Lemma padding_add3 n : padding (S (S (S n))) = padding n.
Proof.
  unfold padding.
  replace (S (S (S n)) mod 3)%nat with (n mod 3)%nat; [done|].
  change (S (S (S n))) with (3 + n)%nat.
  rewrite <- (Nat.Div0.add_mod_idemp_l 3 n 3). reflexivity.
Qed.

(** The shape of the output of [btoa]: a body without ["="], then no, one
    or two ["="]; a multiple of four characters in all. *)
Lemma btoa_shape (l : list N) :
  let body := List.map b64_char (sextets l) in
  let pad := padding (List.length l) in
  (List.length (body ++ pad) mod 4 = 0)%nat /\
  (List.length body mod 4 <> 1)%nat /\
  (pad = [] \/ pad = ["="%char] \/ pad = ["="%char; "="%char]).
Proof.
  induction l as [| a | a b | a b c l IH] using list_ind3; cbn zeta in *.
  - repeat split; auto.
  - repeat split; auto; simpl; lia.
  - repeat split; auto; simpl; lia.
  - change (List.length (a :: b :: c :: l)) with (S (S (S (List.length l)))).
    rewrite padding_add3.
    destruct IH as (IH1 & IH2 & IH3).
    cbn [sextets List.map]. repeat split; auto.
    + cbn [app List.length].
      change (S (S (S (S ?n)))) with (4 + n)%nat.
      rewrite <- Nat.Div0.add_mod_idemp_l. exact IH1.
    + cbn [List.length].
      change (S (S (S (S ?n)))) with (4 + n)%nat.
      rewrite <- Nat.Div0.add_mod_idemp_l. exact IH2.
Qed.

Lemma strip_padding_body (body pad : list ascii) :
  Forall (fun c => is_pad c = false) body ->
  (List.length (body ++ pad) mod 4 = 0)%nat ->
  pad = [] \/ pad = ["="%char] \/ pad = ["="%char; "="%char] ->
  strip_padding (body ++ pad) = body.
Proof.
  intros Hbody Hlen Hpad. unfold strip_padding.
  rewrite Hlen. cbn [Nat.eqb].
  assert (Hhd : forall c r, List.rev body = c :: r -> is_pad c = false).
  { intros c r Hr. rewrite Forall_forall in Hbody. apply Hbody.
    apply list_elem_of_In, in_rev. rewrite Hr. by left. }
  rewrite rev_app_distr.
  destruct Hpad as [-> | [-> | ->]].
  - rewrite app_nil_r. cbn [List.rev app].
    destruct (List.rev body) as [|c1 [|c2 r]] eqn:Hr; [done| |].
    + by rewrite (Hhd c1 []).
    + by rewrite (Hhd c1 (c2 :: r)).
  - change (List.rev ["="%char]) with ["="%char].
    destruct (List.rev body) as [|c2 r] eqn:Hr.
    + apply (f_equal (@List.rev ascii)) in Hr. rewrite rev_involutive in Hr.
      by subst body.
    + cbn [app]. change (is_pad "="%char) with true. cbv iota.
      rewrite (Hhd c2 r) by done.
      rewrite <- Hr. by rewrite rev_involutive.
  - change (List.rev ["="%char; "="%char]) with ["="%char; "="%char].
    destruct (List.rev body) as [|c2 r] eqn:Hr.
    + apply (f_equal (@List.rev ascii)) in Hr. rewrite rev_involutive in Hr.
      by subst body.
    + cbn [app]. change (is_pad "="%char) with true. cbv iota.
      rewrite <- Hr. by rewrite rev_involutive.
Qed.

Lemma filter_all {A} (f : A -> bool) (l : list A) :
  Forall (fun x => f x = true) l -> List.filter f l = l.
Proof.
  induction 1 as [|x l Hx _ IH]; simpl; [done|]. by rewrite Hx, IH.
Qed.

Lemma units_are_bytes (s : string) :
  Forall is_byte (List.map N_of_ascii (list_ascii_of_string s)).
Proof.
  apply Forall_forall. intros n Hn.
  apply list_elem_of_In, in_map_iff in Hn as (c & <- & _).
  apply N_ascii_bounded.
Qed.

(** [atob] inverts [btoa] on every binary string. *)
Lemma atob_btoa (s : string) : atob (btoa s) = Some s.
Proof.
  unfold atob, btoa.
  set (l := List.map N_of_ascii (list_ascii_of_string s)).
  pose proof (units_are_bytes s) as Hbytes. fold l in Hbytes.
  destruct (btoa_shape l) as (Hlen & Hbody & Hpad).
  rewrite list_ascii_of_string_of_list_ascii.
  rewrite filter_all.
  2:{ apply Forall_app. split.
      - apply Forall_forall. intros c Hc.
        apply list_elem_of_In, in_map_iff in Hc as (n & <- & _).
        by rewrite b64_char_not_whitespace.
      - destruct Hpad as [-> | [-> | ->]]; repeat constructor. }
  rewrite strip_padding_body; [| |done|done].
  2:{ apply Forall_forall. intros c Hc.
      apply list_elem_of_In, in_map_iff in Hc as (n & <- & _).
      apply b64_char_not_pad. }
  destruct (Nat.eqb_spec (List.length (List.map b64_char (sextets l)) mod 4) 1);
    [done|].
  rewrite b64_values_chars by (by apply sextets_bound).
  rewrite unsextets_sextets by done.
  unfold l. rewrite List.map_map.
  rewrite (List.map_ext _ (fun c => c)) by apply ascii_N_embedding.
  by rewrite List.map_id, string_of_list_ascii_of_string.
Qed.

(* ===================================================================== *)
(** * Closing streams and cleaning up transactions *)
(* ===================================================================== *)

Lemma lookup_insert_same {A} (l : list A) i x y :
  l !! i = Some x -> <[i := y]> l !! i = Some y.
Proof. intros H. apply list_lookup_insert_eq. by eapply lookup_lt_Some. Qed.

Lemma conn_with_streams_id x : conn_with_streams x (cn_streams x) = x.
Proof. by destruct x. Qed.

Lemma tx_with_streams_id x : tx_with_streams x (tx_streams x) = x.
Proof. by destruct x. Qed.

Lemma conn_with_streams_twice x l l' :
  conn_with_streams (conn_with_streams x l) l' = conn_with_streams x l'.
Proof. reflexivity. Qed.

Lemma tx_with_streams_twice x l l' :
  tx_with_streams (tx_with_streams x l) l' = tx_with_streams x l'.
Proof. reflexivity. Qed.

Lemma shrunk_refl {A} (l : list A) : shrunk l l.
Proof. by intros y. Qed.

Lemma shrunk_trans {A} (l1 l2 l3 : list A) :
  shrunk l1 l2 -> shrunk l2 l3 -> shrunk l1 l3.
Proof. intros H1 H2 y Hy. auto. Qed.

Lemma shrunk_delete x l : shrunk (set_delete x l) l.
Proof. intros y Hy. unfold set_delete in Hy. by apply filter_In in Hy as [? _]. Qed.

Lemma set_delete_other x y l : In y l -> ~ In y (set_delete x l) -> y = x.
Proof.
  intros Hy Hn. destruct (Nat.eq_dec x y) as [->|Hne]; [done|].
  exfalso. apply Hn. unfold set_delete. apply filter_In. split; [done|].
  by apply negb_true_iff, Nat.eqb_neq.
Qed.

Lemma untracking_same cbs w : callback_events cbs = [] -> untracking cbs w w.
Proof.
  intros He. split; try done.
  - rewrite He. by rewrite app_nil_r.
  - intros c x Hc. exists (cn_streams x).
    rewrite conn_with_streams_id. split; [done|apply shrunk_refl].
  - intros t x Ht. exists (tx_streams x).
    rewrite tx_with_streams_id. split; [done|]. split; [apply shrunk_refl|]. by intros.
Qed.

Lemma untracking_refl w : untracking [] w w.
Proof. by apply untracking_same. Qed.

Lemma untracking_app cbs1 cbs2 w w1 w2 :
  untracking cbs1 w w1 -> untracking cbs2 w1 w2 -> untracking (cbs1 ++ cbs2) w w2.
Proof.
  intros [T1 S1 G1 P1 L1 C1 X1] [T2 S2 G2 P2 L2 C2 X2]. split.
  - unfold callback_events. rewrite flat_map_app, T2, T1. by rewrite app_assoc.
  - congruence.
  - congruence.
  - congruence.
  - congruence.
  - intros c x Hc. destruct (C1 c x Hc) as (l1 & Hl1 & Hs1).
    destruct (C2 c _ Hl1) as (l2 & Hl2 & Hs2).
    exists l2. split; [done|]. eapply shrunk_trans; [exact Hs2|exact Hs1].
  - intros t x Ht. destruct (X1 t x Ht) as (l1 & Hl1 & Hs1 & Hr1).
    destruct (X2 t _ Hl1) as (l2 & Hl2 & Hs2 & Hr2).
    exists l2. split; [done|]. split.
    + eapply shrunk_trans; [exact Hs2|exact Hs1].
    + intros y Hy Hn.
      destruct (in_dec Nat.eq_dec y l1) as [Hin|Hnin].
      * destruct (Hr2 y Hin Hn) as (t' & Ht'). exists t'. apply in_or_app. by right.
      * destruct (Hr1 y Hy Hnin) as (t' & Ht'). exists t'. apply in_or_app. by left.
Qed.

Lemma closing_refl w : closing [] w w.
Proof.
  split; try done.
  - by rewrite app_nil_r.
  - intros c x Hc. exists (cn_streams x).
    rewrite conn_with_streams_id. split; [done|apply shrunk_refl].
  - intros t x Ht. exists (tx_streams x). rewrite tx_with_streams_id.
    split; [done|]. split; [apply shrunk_refl|]. by intros.
  - intros s q Hs. exists q. repeat split; try done; [apply shrunk_refl|by left].
Qed.

Lemma closing_tidy evs w w' : closing evs w w' -> tidy w -> tidy w'.
Proof.
  intros H Hw s q' cb Hs Hcb.
  assert (s < List.length (streams w)) as Hlt.
  { rewrite <- (cl_length _ _ _ H). by eapply lookup_lt_Some. }
  apply lookup_lt_is_Some in Hlt as [q Hq].
  destruct (cl_streams _ _ _ H s q Hq) as (q'' & Hq'' & _ & _ & Hsh & _).
  rewrite Hs in Hq''. inversion Hq''; subst q''.
  eapply Hw; [exact Hq|]. by apply Hsh.
Qed.

Lemma closing_trans e1 e2 w w1 w2 :
  closing e1 w w1 -> closing e2 w1 w2 -> closing (e1 ++ e2) w w2.
Proof.
  intros H1 H2. split.
  - rewrite (cl_trace _ _ _ H2), (cl_trace _ _ _ H1). by rewrite app_assoc.
  - apply Forall_app. split; [apply H1|apply H2].
  - rewrite (cl_gens _ _ _ H2). apply H1.
  - rewrite (cl_pools _ _ _ H2). apply H1.
  - rewrite (cl_length _ _ _ H2). apply H1.
  - rewrite (cl_txs_length _ _ _ H2). apply H1.
  - intros c x Hc. destruct (cl_conns _ _ _ H1 c x Hc) as (l1 & Hl1 & Hs1).
    destruct (cl_conns _ _ _ H2 c _ Hl1) as (l2 & Hl2 & Hs2).
    exists l2. split; [done|]. eapply shrunk_trans; [exact Hs2|exact Hs1].
  - intros t x Ht. destruct (cl_txs _ _ _ H1 t x Ht) as (l1 & Hl1 & Hs1 & Hr1).
    destruct (cl_txs _ _ _ H2 t _ Hl1) as (l2 & Hl2 & Hs2 & Hr2).
    exists l2. split; [done|]. split.
    + eapply shrunk_trans; [exact Hs2|exact Hs1].
    + intros Hw y q Hy Hn Hq Hopen. apply in_or_app.
      destruct (in_dec Nat.eq_dec y l1) as [Hin|Hnin].
      * destruct (cl_streams _ _ _ H1 y q Hq) as (q1 & Hq1 & _ & _ & _ & [->|(_ & _ & Hev)]).
        -- right. eapply Hr2; eauto. by eapply closing_tidy.
        -- by left.
      * left. eapply Hr1; eauto.
  - intros s q Hs.
    destruct (cl_streams _ _ _ H1 s q Hs) as (q1 & Hq1 & Hc1 & Hd1 & Hs1 & Hk1).
    destruct (cl_streams _ _ _ H2 s q1 Hq1) as (q2 & Hq2 & Hc2 & Hd2 & Hs2 & Hk2).
    exists q2. split; [done|]. split; [congruence|]. split; [congruence|].
    split; [eapply shrunk_trans; [exact Hs2|exact Hs1]|].
    destruct Hk1 as [->|(Ho & Hcl & Hev)].
    + destruct Hk2 as [->|(Ho & Hcl & Hev)]; [by left|].
      right. repeat split; try done. apply in_or_app. by right.
    + right. split; [done|]. split; [|apply in_or_app; by left].
      destruct Hk2 as [->|(Ho2 & _ & _)]; [done|congruence].
Qed.

Ltac proj := cbn [txs conns streams gens pools trace fst snd].

Lemma get_tx_ok w t x : txs w !! t = Some x -> get_tx t w = (w, Ok x).
Proof. intros H. unfold get_tx. by rewrite H. Qed.

Lemma get_conn_ok w c x : conns w !! c = Some x -> get_conn c w = (w, Ok x).
Proof. intros H. unfold get_conn. by rewrite H. Qed.

Lemma get_stream_ok w s q : streams w !! s = Some q -> get_stream s w = (w, Ok q).
Proof. intros H. unfold get_stream. by rewrite H. Qed.

Lemma for_each_try_cons {A B} (f : A -> M B) (x : A) (l : list A) (w : World) :
  for_each (x :: l) (fun a => try_catch (f a)) w =
  for_each l (fun a => try_catch (f a)) (fst (f x w)).
Proof. reflexivity. Qed.

Lemma for_each_try_ok {A B} (f : A -> M B) (l : list A) (w : World) :
  snd (for_each l (fun a => try_catch (f a)) w) = Ok tt.
Proof.
  revert w. induction l as [|x l IH]; intros w; [done|].
  rewrite for_each_try_cons. apply IH.
Qed.

Lemma close_cleanup_event e : close_event e -> cleanup_event e.
Proof. by destruct e. Qed.

Lemma closing_cleaning evs w w' : closing evs w w' -> cleaning evs w w'.
Proof.
  intros H. split; try apply H.
  - eapply Forall_impl; [apply H|]. apply close_cleanup_event.
  - intros c x Hc. destruct (cl_conns _ _ _ H c x Hc) as (l' & Hl' & _).
    eexists. split; [exact Hl'|]. done.
  - intros t x Ht. destruct (cl_txs _ _ _ H t x Ht) as (l' & Hl' & Hsh & Hr).
    eexists. split; [exact Hl'|]. repeat split; try done.
Qed.

Lemma cleaning_refl w : cleaning [] w w.
Proof. apply closing_cleaning, closing_refl. Qed.

Lemma cleaning_tidy evs w w' : cleaning evs w w' -> tidy w -> tidy w'.
Proof.
  intros H Hw s q' cb Hs Hcb.
  assert (s < List.length (streams w)) as Hlt.
  { rewrite <- (cg_length _ _ _ H). by eapply lookup_lt_Some. }
  apply lookup_lt_is_Some in Hlt as [q Hq].
  destruct (cg_streams _ _ _ H s q Hq) as (q'' & Hq'' & _ & _ & Hsh & _).
  rewrite Hs in Hq''. inversion Hq''; subst q''.
  eapply Hw; [exact Hq|]. by apply Hsh.
Qed.

Lemma cleaning_trans e1 e2 w w1 w2 :
  cleaning e1 w w1 -> cleaning e2 w1 w2 -> cleaning (e1 ++ e2) w w2.
Proof.
  intros H1 H2. split.
  - rewrite (cg_trace _ _ _ H2), (cg_trace _ _ _ H1). by rewrite app_assoc.
  - apply Forall_app. split; [apply H1|apply H2].
  - rewrite (cg_gens _ _ _ H2). apply H1.
  - rewrite (cg_pools _ _ _ H2). apply H1.
  - rewrite (cg_length _ _ _ H2). apply H1.
  - rewrite (cg_txs_length _ _ _ H2). apply H1.
  - intros c x Hc.
    destruct (cg_conns _ _ _ H1 c x Hc) as (x1 & Hx1 & ? & ? & ? & ?).
    destruct (cg_conns _ _ _ H2 c _ Hx1) as (x2 & Hx2 & ? & ? & ? & ?).
    exists x2. split; [done|]. repeat split; congruence.
  - intros t x Ht.
    destruct (cg_txs _ _ _ H1 t x Ht) as (x1 & Hx1 & ? & ? & ? & Hrb1 & Hs1 & Hr1).
    destruct (cg_txs _ _ _ H2 t _ Hx1) as (x2 & Hx2 & ? & ? & ? & Hrb2 & Hs2 & Hr2).
    exists x2. split; [done|]. split; [congruence|]. split; [congruence|].
    split; [congruence|]. split; [auto|]. split.
    + eapply shrunk_trans; [exact Hs2|exact Hs1].
    + intros Hw y q Hy Hn Hq Hopen. apply in_or_app.
      destruct (in_dec Nat.eq_dec y (tx_streams x1)) as [Hin|Hnin].
      * destruct (cg_streams _ _ _ H1 y q Hq) as (q1 & Hq1 & _ & _ & _ & [->|(_ & _ & Hev)]).
        -- right. eapply Hr2; eauto. by eapply cleaning_tidy.
        -- by left.
      * left. eapply Hr1; eauto.
  - intros s q Hs.
    destruct (cg_streams _ _ _ H1 s q Hs) as (q1 & Hq1 & Hc1 & Hd1 & Hs1 & Hk1).
    destruct (cg_streams _ _ _ H2 s q1 Hq1) as (q2 & Hq2 & Hc2 & Hd2 & Hs2 & Hk2).
    exists q2. split; [done|]. split; [congruence|]. split; [congruence|].
    split; [eapply shrunk_trans; [exact Hs2|exact Hs1]|].
    destruct Hk1 as [->|(Ho & Hcl & Hev)].
    + destruct Hk2 as [->|(Ho & Hcl & Hev)]; [by left|].
      right. repeat split; try done. apply in_or_app. by right.
    + right. split; [done|]. split; [|apply in_or_app; by left].
      destruct Hk2 as [->|(Ho2 & _ & _)]; [done|congruence].
Qed.

(** Replacing one transaction by one that differs in [rolledBack] and has
    lost streams that are tracked no more. *)
Lemma cleaning_with_tx w t x x' :
  txs w !! t = Some x ->
  tx_id x' = tx_id x -> tx_connId x' = tx_connId x ->
  committed x' = committed x -> rolledBack x' = true ->
  tx_streams x' = tx_streams x ->
  cleaning [] w (with_tx w t x').
Proof.
  intros Ht Hid Hcn Hco Hrb Hst. split; try done.
  - cbn. by rewrite app_nil_r.
  - cbn. by rewrite length_insert.
  - intros c y Hc. exists y. by cbn.
  - intros t' y Ht'. cbn. destruct (decide (t' = t)) as [->|Hne].
    + rewrite (lookup_insert_same _ _ _ _ Ht). rewrite Ht in Ht'. inversion Ht'; subst y.
      exists x'. repeat split; try done.
      * rewrite Hst. apply shrunk_refl.
      * intros _ z q Hz Hn. rewrite Hst in Hn. done.
    + rewrite list_lookup_insert_ne by done. exists y.
      repeat split; try done. apply shrunk_refl.
  - intros s q Hs. exists q. repeat split; try done; [apply shrunk_refl|by left].
Qed.

Lemma cleaning_with_event w e :
  cleanup_event e -> cleaning [e] w (with_event w e).
Proof.
  intros He. split; try done.
  - by repeat constructor.
  - intros c y Hc. exists y. by cbn.
  - intros t' y Ht'. exists y. repeat split; try done. apply shrunk_refl.
  - intros s q Hs. exists q. repeat split; try done; [apply shrunk_refl|by left].
Qed.

Lemma cleaning_with_conn w c x x' :
  conns w !! c = Some x ->
  connId x' = connId x -> poolId x' = poolId x ->
  disposed x' = disposed x -> hasError x' = hasError x ->
  cleaning [] w (with_conn w c x').
Proof.
  intros Hc H1 H2 H3 H4. split; try done.
  - cbn. by rewrite app_nil_r.
  - intros c' y Hc'. cbn. destruct (decide (c' = c)) as [->|Hne].
    + rewrite (lookup_insert_same _ _ _ _ Hc). rewrite Hc in Hc'. inversion Hc'; subst y.
      by exists x'.
    + rewrite list_lookup_insert_ne by done. by exists y.
  - intros t' y Ht'. exists y. repeat split; try done. apply shrunk_refl.
  - intros s q Hs. exists q. repeat split; try done; [apply shrunk_refl|by left].
Qed.

Lemma in_split_first (x : nat) (l : list nat) :
  In x l -> exists l1 l2, l = l1 ++ x :: l2 /\ ~ In x l1.
Proof.
  induction l as [|y l IH]; [done|]. intros Hin.
  destruct (Nat.eq_dec y x) as [->|Hne].
  - exists [], l. split; [done|by intros []].
  - destruct Hin as [->|Hin]; [done|].
    destruct (IH Hin) as (l1 & l2 & -> & Hn).
    exists (y :: l1), l2. split; [done|]. intros [?|?]; [done|]. by apply Hn.
Qed.

Lemma for_each_try_app {A B} (f : A -> M B) (l1 l2 : list A) (w : World) :
  for_each (l1 ++ l2) (fun a => try_catch (f a)) w =
  for_each l2 (fun a => try_catch (f a))
    (fst (for_each l1 (fun a => try_catch (f a)) w)).
Proof.
  revert w. induction l1 as [|x l1 IH]; intros w; [done|].
  cbn [app]. rewrite !for_each_try_cons. apply IH.
Qed.

Section Cleanup.
Variable ffi : RuntimeFFI.

(** A close callback changes nothing but the tracking sets, and removes from
    them at most the stream it was made for. *)
Lemma run_callback_untracking cb w :
  untracking [cb] w (fst (run_callback cb w)).
Proof.
  destruct cb as [c s|t s|tag raises]; cbn [run_callback].
  - unfold bind, get_conn. destruct (conns w !! c) as [x|] eqn:Hc; cbn.
    2:{ by apply untracking_same. }
    split; cbn; try done.
    + by rewrite app_nil_r.
    + intros c' x' Hc'. destruct (decide (c' = c)) as [->|Hne].
      * rewrite (lookup_insert_same _ _ _ _ Hc). rewrite Hc in Hc'. inversion Hc'; subst.
        eexists. split; [done|]. apply shrunk_delete.
      * rewrite list_lookup_insert_ne by done. exists (cn_streams x').
        rewrite conn_with_streams_id. split; [done|apply shrunk_refl].
    + intros t x' Ht. exists (tx_streams x'). rewrite tx_with_streams_id.
      split; [done|]. split; [apply shrunk_refl|]. by intros.
  - unfold bind, get_tx. destruct (txs w !! t) as [x|] eqn:Ht; cbn.
    2:{ by apply untracking_same. }
    split; cbn; try done.
    + by rewrite app_nil_r.
    + by rewrite length_insert.
    + intros c x' Hc. exists (cn_streams x').
      rewrite conn_with_streams_id. split; [done|apply shrunk_refl].
    + intros t' x' Ht'. destruct (decide (t' = t)) as [->|Hne].
      * rewrite (lookup_insert_same _ _ _ _ Ht). rewrite Ht in Ht'. inversion Ht'; subst.
        eexists. split; [done|]. split; [apply shrunk_delete|].
        intros y Hy Hn. exists t. left. f_equal. symmetry.
        by eapply set_delete_other.
      * rewrite list_lookup_insert_ne by done. exists (tx_streams x').
        rewrite tx_with_streams_id. split; [done|]. split; [apply shrunk_refl|]. by intros.
  - assert (fst ((emit (ECallback tag) ;;
               if raises then throw (ErrCallback tag) else ret tt) w)
            = fst (emit (ECallback tag) w)) as ->.
    { unfold bind, emit. cbn. by destruct raises. }
    split; cbn; try done.
    + intros c x Hc. exists (cn_streams x).
      rewrite conn_with_streams_id. split; [done|apply shrunk_refl].
    + intros t x Ht. exists (tx_streams x). rewrite tx_with_streams_id.
      split; [done|]. split; [apply shrunk_refl|]. by intros.
Qed.

Lemma callbacks_untracking cbs w :
  untracking cbs w (fst (for_each cbs (fun cb => try_catch (run_callback cb)) w)) /\
  snd (for_each cbs (fun cb => try_catch (run_callback cb)) w) = Ok tt.
Proof.
  revert w. induction cbs as [|cb cbs IH]; intros w.
  - split; [apply untracking_refl|done].
  - rewrite for_each_try_cons.
    destruct (IH (fst (run_callback cb w))) as [IH1 IH2].
    split; [|done].
    apply (untracking_app [cb] cbs _ _ _ (run_callback_untracking cb w) IH1).
Qed.

Lemma close_closed w s q :
  streams w !! s = Some q -> closed q = true -> close ffi s w = (w, Ok tt).
Proof.
  intros Hs Hc. unfold close, bind, get_stream. by rewrite Hs, Hc.
Qed.

Lemma close_open w s q :
  streams w !! s = Some q -> closed q = false ->
  close ffi s w =
    if streamClose ffi (trace w) (cursorId q)
    then (after_native_close w s q (onCloseCallbacks q), Throw ErrNative)
    else for_each (onCloseCallbacks q) (fun cb => try_catch (run_callback cb))
           (after_native_close w s q []).
Proof.
  intros Hs Hc. unfold close, bind at 1, get_stream. rewrite Hs, Hc. cbn [negb].
  unfold bind at 1, put_stream at 1. cbn.
  unfold call_streamClose, bind, history, emit, put_stream, get_stream. cbn.
  destruct (streamClose ffi (trace w) (cursorId q)); cbn.
  - reflexivity.
  - rewrite (lookup_insert_same _ _ _ _ Hs). cbn.
    rewrite list_insert_insert_eq. reflexivity.
Qed.

(** [close] on any reference, in any store, whatever it returns: the only
    boundary calls are native closes, and an open stream is closed
    natively. *)
Lemma close_closing s w :
  exists evs,
    closing evs w (fst (close ffi s w)) /\
    forall q, streams w !! s = Some q -> closed q = false ->
              In (EStreamClose (cursorId q)) evs.
Proof.
  destruct (streams w !! s) as [q|] eqn:Hs.
  2:{ exists []. unfold close, bind, get_stream. rewrite Hs.
      split; [apply closing_refl|done]. }
  destruct (closed q) eqn:Hc.
  { exists []. rewrite (close_closed _ _ _ Hs Hc).
    split; [apply closing_refl|]. intros q' Hq'. congruence. }
  rewrite (close_open _ _ _ Hs Hc).
  destruct (streamClose ffi (trace w) (cursorId q)).
  - exists [EStreamClose (cursorId q)]. cbn [fst].
    split; [|intros q' Hq' _; inversion Hq'; subst; by left].
    split; cbn; try done.
    + by repeat constructor.
    + by rewrite length_insert.
    + intros c x Hx. exists (cn_streams x).
      rewrite conn_with_streams_id. split; [done|apply shrunk_refl].
    + intros t x Ht. exists (tx_streams x). rewrite tx_with_streams_id.
      split; [done|]. split; [apply shrunk_refl|]. by intros.
    + intros s' q' Hs'. destruct (decide (s' = s)) as [->|Hne].
      * rewrite (lookup_insert_same _ _ _ _ Hs). rewrite Hs in Hs'. inversion Hs'; subst q'.
        eexists. split; [done|]. cbn. repeat split; try done; [apply shrunk_refl|].
        right. repeat split; try done. by left.
      * rewrite list_lookup_insert_ne by done. exists q'.
        repeat split; try done; [apply shrunk_refl|by left].
  - destruct (callbacks_untracking (onCloseCallbacks q) (after_native_close w s q []))
      as [Hu _].
    set (w' := fst (for_each _ _ _)) in *.
    exists (EStreamClose (cursorId q) :: callback_events (onCloseCallbacks q)).
    split; [|intros q' Hq' _; inversion Hq'; subst; by left].
    split.
    + rewrite (un_trace _ _ _ Hu). cbn. by rewrite <- app_assoc.
    + constructor; [done|]. apply Forall_forall. intros e He.
      apply list_elem_of_In, in_flat_map in He as (cb & _ & He).
      destruct cb; cbn in He; try done. destruct He as [<-|[]]. done.
    + by rewrite (un_gens _ _ _ Hu).
    + by rewrite (un_pools _ _ _ Hu).
    + rewrite (un_streams _ _ _ Hu). cbn. by rewrite length_insert.
    + by rewrite (un_txs_length _ _ _ Hu).
    + intros c x Hx. by apply (un_conns _ _ _ Hu).
    + intros t x Ht. destruct (un_txs _ _ _ Hu t x Ht) as (l' & Hl' & Hsh & Hr).
      exists l'. split; [done|]. split; [done|].
      intros Hw y qy Hy Hn Hqy Hopen. destruct (Hr y Hy Hn) as (t' & Hin).
      pose proof (Hw s q _ Hs Hin) as Htg. cbn in Htg. subst y.
      rewrite Hs in Hqy. inversion Hqy; subst qy. by left.
    + intros s' q' Hs'. rewrite (un_streams _ _ _ Hu). cbn.
      destruct (decide (s' = s)) as [->|Hne].
      * rewrite (lookup_insert_same _ _ _ _ Hs). rewrite Hs in Hs'. inversion Hs'; subst q'.
        eexists. split; [done|]. cbn. split; [done|]. split; [done|].
        split; [by intros y []|].
        right. repeat split; try done. by left.
      * rewrite list_lookup_insert_ne by done. exists q'.
        repeat split; try done; [apply shrunk_refl|by left].
Qed.

Lemma close_outcome s w :
  snd (try_catch (close ffi s) w) = Ok tt.
Proof. reflexivity. Qed.

(** The loops [for (const s of streams) try { s.close() } catch {}]. *)
Lemma close_loop ss w :
  exists evs,
    closing evs w (fst (for_each ss (fun s => try_catch (close ffi s)) w)) /\
    snd (for_each ss (fun s => try_catch (close ffi s)) w) = Ok tt /\
    forall y q, In y ss -> streams w !! y = Some q -> closed q = false ->
                In (EStreamClose (cursorId q)) evs.
Proof.
  revert w. induction ss as [|s ss IH]; intros w.
  - exists []. split; [apply closing_refl|]. split; [done|]. by intros y q [].
  - rewrite for_each_try_cons.
    destruct (close_closing s w) as (e1 & H1 & Hs1).
    destruct (IH (fst (close ffi s w))) as (e2 & H2 & Hr & Hs2).
    exists (e1 ++ e2). split; [by eapply closing_trans|]. split; [done|].
    intros y q Hy Hq Hopen. apply in_or_app.
    destruct (cl_streams _ _ _ H1 y q Hq) as (q1 & Hq1 & _ & _ & _ & Hk).
    destruct Hy as [->|Hy]; [left; by apply Hs1|].
    destruct Hk as [->|(_ & _ & Hev)]; [|by left].
    right. by eapply Hs2.
Qed.

Lemma tidy_streams w w' : streams w' = streams w -> tidy w -> tidy w'.
Proof. intros He Hw s q cb. rewrite He. apply Hw. Qed.

(** [#closeAllStreams] empties the tracking set of the transaction and
    closes every stream of it that is open. *)
Lemma closeAllStreams_spec w t x :
  txs w !! t = Some x ->
  exists evs w',
    closeAllStreams ffi t w = (w', Ok tt) /\
    closing evs w w' /\
    txs w' !! t = Some (tx_with_streams x []) /\
    forall y q, In y (tx_streams x) -> streams w !! y = Some q ->
                closed q = false -> In (EStreamClose (cursorId q)) evs.
Proof.
  intros Ht. unfold closeAllStreams, bind at 1, get_tx. rewrite Ht.
  unfold bind, put_tx. cbn.
  set (w0 := {| conns := conns w; txs := <[t := tx_with_streams x []]> (txs w);
                streams := streams w; gens := gens w; pools := pools w;
                trace := trace w |}).
  destruct (close_loop (tx_streams x) w0) as (evs & H & Hr & Hs).
  set (m := for_each _ _ _) in *.
  exists evs, (fst m). split; [destruct m as [w' r]; cbn in *; by subst|].
  assert (Ht0 : txs w0 !! t = Some (tx_with_streams x [])).
  { cbn. by eapply lookup_insert_same. }
  destruct (cl_txs _ _ _ H t _ Ht0) as (l' & Hl' & Hsh & _).
  assert (l' = []) as ->.
  { destruct l' as [|y l']; [done|]. destruct (Hsh y); by left. }
  split; [|split; [done|exact Hs]].
  split; try apply H.
  - rewrite (cl_txs_length _ _ _ H). cbn. by rewrite length_insert.
  - intros t' x' Ht'. destruct (decide (t' = t)) as [->|Hne].
    + rewrite Ht in Ht'. inversion Ht'; subst x'. exists []. split; [done|].
      split; [by intros y []|]. intros _ y q Hy _ Hq Hopen. by eapply Hs.
    + apply (cl_txs _ _ _ H t' x'). cbn. by rewrite list_lookup_insert_ne.
Qed.

Lemma try_rollback w c i :
  try_catch (rollbackFn ffi c i) w = (with_event w (ERollback c i), Ok tt).
Proof.
  unfold try_catch, rollbackFn, call_rollback, bind, history, emit, ret. proj.
  by destruct (ffi_rollback ffi (trace w) c i).
Qed.

Lemma set_rolledBack_ok w t x :
  txs w !! t = Some x ->
  set_rolledBack t w =
    (with_tx w t {| tx_id := tx_id x; isolation := isolation x;
                    committed := committed x; rolledBack := true;
                    tx_connId := tx_connId x; tx_streams := tx_streams x |},
     Ok tt).
Proof.
  intros Ht. unfold set_rolledBack, bind. by rewrite (get_tx_ok _ _ _ Ht).
Qed.

(** Asynchronous disposal of a transaction, step by step: the streams are
    closed (store [w1]); then, if the transaction is active, the rollback is
    issued and the transaction marked, whatever the boundary answers. *)
Lemma tx_asyncDispose_spec w t x :
  txs w !! t = Some x ->
  exists evs w1,
    closing evs w w1 /\
    txs w1 !! t = Some (tx_with_streams x []) /\
    (forall y q, In y (tx_streams x) -> streams w !! y = Some q ->
                 closed q = false -> In (EStreamClose (cursorId q)) evs) /\
    tx_asyncDispose ffi t w =
      (if isActive x then with_tx (with_event w1 (rollback_of x)) t (ended x) else w1,
       Ok tt).
Proof.
  intros Ht. destruct (closeAllStreams_spec w t x Ht) as (evs & w1 & Hrun & Hcl & Ht1 & Hs).
  exists evs, w1. repeat split; try done; try apply Hcl.
  unfold tx_asyncDispose, bind at 1. rewrite Hrun. cbn iota.
  unfold bind at 1. rewrite (get_tx_ok _ _ _ Ht1). cbn iota.
  change (isActive (tx_with_streams x [])) with (isActive x).
  destruct (isActive x); [|done].
  unfold bind. rewrite try_rollback.
  by rewrite (set_rolledBack_ok _ t (tx_with_streams x [])).
Qed.

Lemma _forceInactive_spec w t x :
  txs w !! t = Some x ->
  exists evs w1,
    closing evs w w1 /\
    txs w1 !! t = Some (tx_with_streams x []) /\
    (forall y q, In y (tx_streams x) -> streams w !! y = Some q ->
                 closed q = false -> In (EStreamClose (cursorId q)) evs) /\
    _forceInactive ffi t w =
      (if isActive x then with_tx w1 t (ended x) else w1, Ok tt).
Proof.
  intros Ht. destruct (closeAllStreams_spec w t x Ht) as (evs & w1 & Hrun & Hcl & Ht1 & Hs).
  exists evs, w1. repeat split; try done; try apply Hcl.
  unfold _forceInactive, bind at 1. rewrite Hrun. cbn iota.
  unfold bind at 1. rewrite (get_tx_ok _ _ _ Ht1). cbn iota.
  change (isActive (tx_with_streams x [])) with (isActive x).
  destruct (isActive x); [|done].
  by rewrite (set_rolledBack_ok _ t (tx_with_streams x [])).
Qed.

Lemma close_event_not_rollback evs c i :
  Forall close_event evs -> ~ In (ERollback c i) evs.
Proof.
  intros H Hin. rewrite Forall_forall in H.
  by apply (H _ (proj2 (list_elem_of_In _ _) Hin)).
Qed.

Lemma tx_asyncDispose_cleaning w t :
  exists evs,
    cleaning evs w (fst (tx_asyncDispose ffi t w)) /\
    (forall c i, In (ERollback c i) evs ->
       exists x, txs w !! t = Some x /\ isActive x = true /\
                 rollback_of x = ERollback c i) /\
    (forall t' x', t' <> t -> txs w !! t' = Some x' ->
       exists x'', txs (fst (tx_asyncDispose ffi t w)) !! t' = Some x'' /\
                   rolledBack x'' = rolledBack x').
Proof.
  destruct (txs w !! t) as [x|] eqn:Ht.
  2:{ exists []. unfold tx_asyncDispose, closeAllStreams, bind, get_tx. rewrite Ht.
      cbn [fst]. split; [apply cleaning_refl|]. split; [by intros c i []|].
      intros t' x' _ Ht'. by exists x'. }
  destruct (tx_asyncDispose_spec w t x Ht) as (evs & w1 & Hcl & Ht1 & Hs & Hrun).
  rewrite Hrun. cbn [fst].
  assert (Hframe : forall t' x', t' <> t -> txs w !! t' = Some x' ->
            exists x'', txs w1 !! t' = Some x'' /\ rolledBack x'' = rolledBack x').
  { intros t' x' Hne Ht'. destruct (cl_txs _ _ _ Hcl t' x' Ht') as (l' & Hl' & _).
    eexists. split; [exact Hl'|done]. }
  destruct (isActive x) eqn:Hact.
  - exists (evs ++ [rollback_of x] ++ []). split; [|split].
    + eapply cleaning_trans; [by apply closing_cleaning|].
      eapply cleaning_trans; [by apply cleaning_with_event|].
      by apply (cleaning_with_tx _ t (tx_with_streams x [])).
    + intros c i Hin. apply in_app_or in Hin as [Hin|Hin].
      * exfalso. eapply close_event_not_rollback; [apply Hcl|exact Hin].
      * cbn in Hin. destruct Hin as [Hin|[]]. by exists x.
    + intros t' x' Hne Ht'. destruct (Hframe t' x' Hne Ht') as (x'' & Hx'' & Hrb).
      exists x''. split; [|done]. cbn. by rewrite list_lookup_insert_ne.
  - exists evs. split; [by apply closing_cleaning|]. split; [|done].
    intros c i Hin. exfalso. eapply close_event_not_rollback; [apply Hcl|exact Hin].
Qed.

(** The first loop of [#cleanup]: every rollback it issues is the rollback
    of a transaction of the list that was active, and transactions outside
    the list keep their flag. *)
Lemma dispose_loop l w :
  let w' := fst (for_each l (fun t => try_catch (_dispose ffi t)) w) in
  exists evs,
    cleaning evs w w' /\
    (forall c i, In (ERollback c i) evs ->
       exists t x, In t l /\ txs w !! t = Some x /\ isActive x = true /\
                   rollback_of x = ERollback c i) /\
    (forall t x, ~ In t l -> txs w !! t = Some x ->
       exists x', txs w' !! t = Some x' /\ rolledBack x' = rolledBack x).
Proof.
  revert w. induction l as [|t0 l IH]; intros w; cbn zeta.
  - exists []. split; [apply cleaning_refl|]. split; [by intros c i []|].
    intros t x _ Ht. by exists x.
  - rewrite for_each_try_cons. unfold _dispose at 2.
    destruct (tx_asyncDispose_cleaning w t0) as (e1 & H1 & Hp1 & Hf1).
    destruct (IH (fst (tx_asyncDispose ffi t0 w))) as (e2 & H2 & Hp2 & Hf2).
    exists (e1 ++ e2). split; [by eapply cleaning_trans|]. split.
    + intros c i Hin. apply in_app_or in Hin as [Hin|Hin].
      * destruct (Hp1 c i Hin) as (x & Hx & Ha & Hr). exists t0, x.
        split; [by left|done].
      * destruct (Hp2 c i Hin) as (t & x1 & Ht & Hx1 & Ha & Hr).
        assert (t < List.length (txs w)) as Hlt.
        { rewrite <- (cg_txs_length _ _ _ H1). by eapply lookup_lt_Some. }
        apply lookup_lt_is_Some in Hlt as [x Hx].
        destruct (cg_txs _ _ _ H1 t x Hx) as (x1' & Hx1' & Hid & Hcn & Hco & Hrb & _).
        rewrite Hx1 in Hx1'. inversion Hx1'; subst x1'.
        exists t, x. split; [by right|]. split; [done|]. split.
        -- unfold isActive in *. rewrite <- Hco.
           apply andb_true_iff in Ha as [Ha1 Ha2]. rewrite Ha1. cbn.
           destruct (rolledBack x); [|done]. by rewrite Hrb in Ha2.
        -- rewrite <- Hr. unfold rollback_of. by rewrite Hid, Hcn.
    + intros t x Hn Hx.
      destruct (Hf1 t x) as (x1 & Hx1 & Hrb1); [intros ->; apply Hn; by left|done|].
      destruct (Hf2 t x1) as (x2 & Hx2 & Hrb2); [intros Hin; apply Hn; by right|done|].
      exists x2. split; [done|congruence].
Qed.

Lemma _forceInactive_cleaning w t :
  exists evs,
    cleaning evs w (fst (_forceInactive ffi t w)) /\
    Forall close_event evs /\
    (forall t' x', t' <> t -> txs w !! t' = Some x' ->
       exists x'', txs (fst (_forceInactive ffi t w)) !! t' = Some x'' /\
                   isActive x'' = isActive x').
Proof.
  destruct (txs w !! t) as [x|] eqn:Ht.
  2:{ exists []. unfold _forceInactive, closeAllStreams, bind, get_tx. rewrite Ht.
      cbn [fst]. split; [apply cleaning_refl|]. split; [done|].
      intros t' x' _ Ht'. by exists x'. }
  destruct (_forceInactive_spec w t x Ht) as (evs & w1 & Hcl & Ht1 & Hs & Hrun).
  rewrite Hrun. cbn [fst].
  assert (Hframe : forall t' x', t' <> t -> txs w !! t' = Some x' ->
            exists x'', txs w1 !! t' = Some x'' /\ isActive x'' = isActive x').
  { intros t' x' Hne Ht'. destruct (cl_txs _ _ _ Hcl t' x' Ht') as (l' & Hl' & _).
    eexists. split; [exact Hl'|done]. }
  destruct (isActive x) eqn:Hact.
  - exists (evs ++ []). split; [|split].
    + eapply cleaning_trans; [by apply closing_cleaning|].
      by apply (cleaning_with_tx _ t (tx_with_streams x [])).
    + rewrite app_nil_r. apply Hcl.
    + intros t' x' Hne Ht'. destruct (Hframe t' x' Hne Ht') as (x'' & Hx'' & Hrb).
      exists x''. split; [|done]. cbn. by rewrite list_lookup_insert_ne.
  - exists evs. split; [by apply closing_cleaning|]. split; [apply Hcl|done].
Qed.

(** The first loop of [#syncCleanup] issues no rollback, and reports an
    active transaction when there is one. *)
Lemma deactivate_all_spec l had w :
  exists evs b w',
    deactivate_all ffi l had w = (w', Ok b) /\
    cleaning evs w w' /\
    Forall close_event evs /\
    (had = true -> b = true) /\
    (forall t x, In t l -> txs w !! t = Some x -> isActive x = true -> b = true).
Proof.
  revert had w. induction l as [|t0 l IH]; intros had w.
  - exists [], had, w. split; [done|]. split; [apply cleaning_refl|].
    split; [done|]. split; [done|]. by intros t x [].
  - cbn [deactivate_all]. unfold bind at 1, read_isActive. cbn iota.
    unfold bind at 1, try_catch. cbn iota.
    destruct (_forceInactive_cleaning w t0) as (e1 & H1 & Hc1 & Hf1).
    set (a := match txs w !! t0 with Some x => isActive x | None => false end).
    destruct (IH (had || a) (fst (_forceInactive ffi t0 w)))
      as (e2 & b & w' & Hrun & H2 & Hc2 & Hhad & Hact).
    exists (e1 ++ e2), b, w'. split; [exact Hrun|].
    split; [by eapply cleaning_trans|]. split; [by apply Forall_app|].
    split.
    + intros ->. by apply Hhad.
    + intros t x [->|Hin] Hx Ha.
      * apply Hhad. unfold a. rewrite Hx, Ha. apply orb_true_r.
      * destruct (decide (t = t0)) as [->|Hne].
        -- apply Hhad. unfold a. rewrite Hx, Ha. apply orb_true_r.
        -- destruct (Hf1 t x Hne Hx) as (x'' & Hx'' & Hact'').
           eapply Hact; [exact Hin|exact Hx''|congruence].
Qed.

Lemma set_disposed_ok w c x :
  conns w !! c = Some x ->
  set_disposed c w = (with_conn w c (conn_disposed x), Ok tt).
Proof.
  intros Hc. unfold set_disposed, bind. by rewrite (get_conn_ok _ _ _ Hc).
Qed.

(** [#cleanup] cannot fail; [e1] is the history of its transaction loop and
    [e2] that of its stream loop. *)
Lemma cleanup_spec w c x :
  conns w !! c = Some x ->
  let w0 := with_conn w c (conn_with_transactions x []) in
  let w1 := fst (for_each (cn_transactions x)
                   (fun t => try_catch (_dispose ffi t)) w0) in
  exists e1 e2 w',
    cleanup ffi c w = (w', Ok tt) /\ cleaning (e1 ++ e2) w w' /\
    trace w1 = trace w ++ e1 /\ Forall close_event e2.
Proof.
  intros Hc w0 w1. unfold cleanup, bind at 1. rewrite (get_conn_ok _ _ _ Hc). cbn iota.
  unfold bind at 1, put_conn at 1. cbn iota.
  fold (with_conn w c (conn_with_transactions x [])). fold w0.
  assert (H0 : cleaning [] w w0) by (by eapply cleaning_with_conn).
  unfold bind at 1.
  destruct (dispose_loop (cn_transactions x) w0) as (e1 & H1 & _).
  pose proof (for_each_try_ok (_dispose ffi) (cn_transactions x) w0) as Hok1.
  cbn zeta in H1. fold w1 in H1.
  assert (Hrun1 : for_each (cn_transactions x)
                    (fun t => try_catch (_dispose ffi t)) w0 = (w1, Ok tt)).
  { unfold w1. destruct (for_each _ _ w0) as [? r]. cbn in *. by subst. }
  rewrite Hrun1. cbn iota.
  assert (H01 : cleaning e1 w w1) by (by apply (cleaning_trans [] e1 w w0 w1)).
  destruct (cg_conns _ _ _ H01 c x Hc) as (x1 & Hx1 & Hi1 & Hp1 & Hd1 & He1).
  unfold bind at 1. rewrite (get_conn_ok _ _ _ Hx1). cbn iota.
  unfold bind at 1, put_conn at 1. cbn iota.
  fold (with_conn w1 c (conn_with_streams x1 [])).
  set (w2 := with_conn w1 c (conn_with_streams x1 [])).
  assert (H12 : cleaning [] w1 w2) by (by eapply cleaning_with_conn).
  destruct (close_loop (cn_streams x1) w2) as (e2 & H2 & Hok2 & _).
  destruct (for_each (cn_streams x1) _ w2) as [w3 r3]. cbn in Hok2, H2. subst r3.
  exists e1, e2, w3. split; [done|]. split; [|split; [apply H01|apply H2]].
  eapply cleaning_trans; [exact H01|].
  apply (cleaning_trans [] e2 w1 w2 w3); [exact H12|]. by apply closing_cleaning.
Qed.

(** [#syncCleanup] cannot fail and reaches the boundary only to close
    cursors. *)
Lemma syncCleanup_spec w c x :
  conns w !! c = Some x ->
  exists evs b w',
    syncCleanup ffi c w = (w', Ok b) /\ cleaning evs w w' /\
    Forall close_event evs /\
    (forall t y, In t (cn_transactions x) -> txs w !! t = Some y ->
                 isActive y = true -> b = true).
Proof.
  intros Hc. unfold syncCleanup, bind at 1. rewrite (get_conn_ok _ _ _ Hc). cbn iota.
  unfold bind at 1, put_conn at 1. cbn iota.
  fold (with_conn w c (conn_with_transactions x [])).
  set (w0 := with_conn w c (conn_with_transactions x [])).
  assert (H0 : cleaning [] w w0) by (by eapply cleaning_with_conn).
  unfold bind at 1.
  destruct (deactivate_all_spec (cn_transactions x) false w0)
    as (e1 & b & w1 & Hrun & H1 & Hc1 & _ & Hact).
  rewrite Hrun. cbn iota.
  assert (H01 : cleaning ([] ++ e1) w w1) by (by eapply cleaning_trans).
  destruct (cg_conns _ _ _ H01 c x Hc) as (x1 & Hx1 & Hi1 & Hp1 & Hd1 & He1).
  unfold bind at 1. rewrite (get_conn_ok _ _ _ Hx1). cbn iota.
  unfold bind at 1, put_conn at 1. cbn iota.
  fold (with_conn w1 c (conn_with_streams x1 [])).
  set (w2 := with_conn w1 c (conn_with_streams x1 [])).
  assert (H12 : cleaning [] w1 w2) by (by eapply cleaning_with_conn).
  destruct (close_loop (cn_streams x1) w2) as (e2 & H2 & Hok2 & _).
  unfold bind at 1.
  destruct (for_each (cn_streams x1) _ w2) as [w3 r3]. cbn in Hok2, H2. subst r3.
  exists (([] ++ e1) ++ [] ++ e2), b, w3. split; [done|]. split; [|split].
  - eapply cleaning_trans; [exact H01|].
    eapply cleaning_trans; [exact H12|]. by apply closing_cleaning.
  - cbn. apply Forall_app. split; [done|apply H2].
  - intros t y Hin Hy Ha. by eapply Hact.
Qed.

(** Ordering inside the transaction loop of [#cleanup]. *)
Lemma dispose_loop_order l w t xt s q :
  tidy w ->
  In t l -> txs w !! t = Some xt -> isActive xt = true ->
  In s (tx_streams xt) -> streams w !! s = Some q -> closed q = false ->
  let w' := fst (for_each l (fun t => try_catch (_dispose ffi t)) w) in
  exists pre post,
    cleaning (pre ++ rollback_of xt :: post) w w' /\
    In (EStreamClose (cursorId q)) pre /\
    ((forall t' x', In t' l -> t' <> t -> txs w !! t' = Some x' ->
                    rollback_of x' <> rollback_of xt) ->
     ~ In (rollback_of xt) pre /\ ~ In (rollback_of xt) post).
Proof.
  intros Htidy Hin Ht Hact Hs Hq Hopen w'.
  destruct (in_split_first t l Hin) as (l1 & l2 & -> & Hn1).
  unfold w'. rewrite for_each_try_app, for_each_try_cons. unfold _dispose at 2.
  destruct (dispose_loop l1 w) as (e1 & H1 & Hp1 & Hf1). cbn zeta in *.
  set (wA := fst (for_each l1 _ w)) in *.
  destruct (Hf1 t xt Hn1 Ht) as (xA & HxA & HrbA).
  destruct (cg_txs _ _ _ H1 t xt Ht)
    as (xA' & HxA' & Hid & Hcn & Hco & _ & Hsh & Hrem).
  rewrite HxA in HxA'. inversion HxA'; subst xA'. clear HxA'.
  assert (HactA : isActive xA = true).
  { unfold isActive in *. by rewrite Hco, HrbA. }
  assert (HR : rollback_of xA = rollback_of xt).
  { unfold rollback_of. by rewrite Hid, Hcn. }
  destruct (tx_asyncDispose_spec wA t xA HxA) as (C & wB & Hcl & HtB & Hloop & Hrun).
  rewrite Hrun, HactA. cbn [fst].
  set (wC := with_tx (with_event wB (rollback_of xA)) t (ended xA)).
  assert (HAC : cleaning (C ++ [rollback_of xA] ++ []) wA wC).
  { eapply cleaning_trans; [by apply closing_cleaning|].
    eapply cleaning_trans; [by apply cleaning_with_event|].
    by apply (cleaning_with_tx _ t (tx_with_streams xA [])). }
  destruct (dispose_loop l2 wC) as (e3 & H3 & Hp3 & _). cbn zeta in *.
  set (wD := fst (for_each l2 _ wC)) in *.
  exists (e1 ++ C), e3. split; [|split].
  - rewrite <- HR.
    replace ((e1 ++ C) ++ rollback_of xA :: e3)
      with (e1 ++ (C ++ [rollback_of xA] ++ []) ++ e3).
    2:{ cbn. by rewrite <- !app_assoc. }
    eapply cleaning_trans; [exact H1|]. by eapply cleaning_trans.
  - apply in_or_app.
    destruct (cg_streams _ _ _ H1 s q Hq) as (qA & HqA & _ & _ & _ & [->|(_ & _ & Hev)]);
      [|by left].
    destruct (in_dec Nat.eq_dec s (tx_streams xA)) as [HsA|HsA].
    + right. by eapply Hloop.
    + left. by eapply Hrem.
  - intros Huniq. split.
    + intros Hbad. apply in_app_or in Hbad as [Hbad|Hbad].
      * unfold rollback_of in Hbad at 1.
        destruct (Hp1 _ _ Hbad) as (t' & x' & Hin' & Hx' & _ & HR').
        eapply (Huniq t' x'); [apply in_or_app; by left| |done|done].
        intros ->. done.
      * eapply close_event_not_rollback; [apply Hcl|exact Hbad].
    + intros Hbad. unfold rollback_of in Hbad at 1.
      destruct (Hp3 _ _ Hbad) as (t' & x' & Hin' & Hx' & Ha' & HR').
      destruct (decide (t' = t)) as [->|Hne].
      * unfold wC in Hx'. cbn in Hx'.
        rewrite (lookup_insert_same _ _ _ _ HtB) in Hx'. inversion Hx'; subst x'.
        unfold isActive in Ha'. cbn in Ha'. by rewrite andb_false_r in Ha'.
      * assert (HwC : cleaning (e1 ++ C ++ [rollback_of xA] ++ []) w wC)
          by (by eapply cleaning_trans).
        assert (t' < List.length (txs w)) as Hlt.
        { rewrite <- (cg_txs_length _ _ _ HwC). by eapply lookup_lt_Some. }
        apply lookup_lt_is_Some in Hlt as [x0 Hx0].
        destruct (cg_txs _ _ _ HwC t' x0 Hx0) as (x'' & Hx'' & Hid' & Hcn' & _).
        rewrite Hx' in Hx''. inversion Hx''; subst x''.
        eapply (Huniq t' x0); [apply in_or_app; right; by right|done|done|].
        unfold rollback_of in *. rewrite <- HR'. by rewrite Hid', Hcn'.
Qed.

End Cleanup.

(* ===================================================================== *)
(** * Disposal of connections and transactions *)
(* ===================================================================== *)

Lemma handoffs_cleanup evs : Forall cleanup_event evs -> handoffs evs = [].
Proof.
  induction 1 as [|e evs He _ IH]; [done|].
  unfold handoffs in *. cbn. rewrite IH. by destruct e.
Qed.

Lemma handoffs_app e1 e2 : handoffs (e1 ++ e2) = handoffs e1 ++ handoffs e2.
Proof. apply List.filter_app. Qed.

Section Disposal.
Variable ffi : RuntimeFFI.

Lemma release_or_disconnect_ok w c x b :
  conns w !! c = Some x ->
  release_or_disconnect c b w = (with_event w (handoff_of x b), Ok tt).
Proof.
  intros Hc. unfold release_or_disconnect, bind. rewrite (get_conn_ok _ _ _ Hc).
  unfold handoff_of. destruct (poolId x); [|done].
  by destruct (negb (hasError x) && negb b).
Qed.

(** Asynchronous disposal of an open connection: cleanup, then one
    hand-off. *)
Lemma cn_asyncDispose_spec w c x :
  conns w !! c = Some x -> disposed x = false ->
  let w0 := with_conn (with_conn w c (conn_disposed x)) c
              (conn_with_transactions (conn_disposed x) []) in
  let w1 := fst (for_each (cn_transactions x)
                   (fun t => try_catch (_dispose ffi t)) w0) in
  exists e1 e2 w',
    cn_asyncDispose ffi c w = (w', Ok tt) /\
    trace w' = trace w ++ (e1 ++ e2) ++ [handoff_of x false] /\
    Forall cleanup_event (e1 ++ e2) /\
    trace w1 = trace w ++ e1 /\ Forall close_event e2.
Proof.
  intros Hc Hd w0 w1. unfold cn_asyncDispose, bind at 1. rewrite (get_conn_ok _ _ _ Hc).
  cbn iota. rewrite Hd. cbn [negb].
  unfold bind at 1. rewrite (set_disposed_ok _ _ _ Hc). cbn iota.
  set (wd := with_conn w c (conn_disposed x)) in *.
  assert (Hcd : conns wd !! c = Some (conn_disposed x)).
  { cbn. by eapply lookup_insert_same. }
  destruct (cleanup_spec ffi wd c _ Hcd) as (e1 & e2 & w2 & Hrun & Hcl & Htr1 & He2).
  cbn zeta in Htr1. change (cn_transactions (conn_disposed x)) with (cn_transactions x) in Htr1.
  unfold bind at 1. rewrite Hrun. cbn iota.
  destruct (cg_conns _ _ _ Hcl c _ Hcd) as (x1 & Hx1 & Hi & Hp & _ & He).
  rewrite (release_or_disconnect_ok _ _ _ _ Hx1).
  exists e1, e2. eexists. split; [reflexivity|]. split; [|split; [apply Hcl|done]].
  cbn. rewrite (cg_trace _ _ _ Hcl). cbn. rewrite <- !app_assoc.
  unfold handoff_of. cbn in Hi, Hp, He. by rewrite Hi, Hp, He.
Qed.

(** Synchronous disposal of an open connection: cursors are closed, no
    rollback is issued, then one hand-off that depends on [hadActiveTx]. *)
Lemma cn_dispose_spec w c x :
  conns w !! c = Some x -> disposed x = false ->
  exists evs b w',
    cn_dispose ffi c w = (w', Ok tt) /\
    trace w' = trace w ++ evs ++ [handoff_of x b] /\
    Forall close_event evs /\
    (forall t y, In t (cn_transactions x) -> txs w !! t = Some y ->
                 isActive y = true -> b = true).
Proof.
  intros Hc Hd. unfold cn_dispose, bind at 1. rewrite (get_conn_ok _ _ _ Hc).
  cbn iota. rewrite Hd. cbn [negb].
  unfold bind at 1. rewrite (set_disposed_ok _ _ _ Hc). cbn iota.
  set (wd := with_conn w c (conn_disposed x)).
  assert (Hcd : conns wd !! c = Some (conn_disposed x)).
  { cbn. by eapply lookup_insert_same. }
  destruct (syncCleanup_spec ffi wd c _ Hcd) as (evs & b & w1 & Hrun & Hcl & Hev & Hact).
  unfold bind at 1. rewrite Hrun. cbn iota.
  destruct (cg_conns _ _ _ Hcl c _ Hcd) as (x1 & Hx1 & Hi & Hp & _ & He).
  rewrite (release_or_disconnect_ok _ _ _ _ Hx1).
  exists evs, b. eexists. split; [reflexivity|]. split; [|split; [done|exact Hact]].
  cbn. rewrite (cg_trace _ _ _ Hcl). cbn. rewrite <- app_assoc.
  unfold handoff_of. cbn in Hi, Hp, He. by rewrite Hi, Hp, He.
Qed.

(** C1: disposal of a connection that is still open hands it off exactly
    once.  Disposed asynchronously, a connection owned by a pool and free of
    the error flag is given back with [poolRelease] and not disconnected; a
    connection with the error flag, or without a pool, is disconnected and
    not released.  Disposed synchronously with the error flag, without a
    pool, or while one of its transactions is still active, it is
    disconnected and not released. *)
Theorem dispose_releases_or_evicts w c x :
  conns w !! c = Some x -> disposed x = false ->
  (exists evs w',
     cn_asyncDispose ffi c w = (w', Ok tt) /\
     trace w' = trace w ++ evs /\
     handoffs evs =
       match poolId x with
       | Some p => if hasError x then [EDisconnect (connId x)]
                   else [EPoolRelease p (connId x)]
       | None => [EDisconnect (connId x)]
       end) /\
  (exists evs w',
     cn_dispose ffi c w = (w', Ok tt) /\
     trace w' = trace w ++ evs /\
     (hasError x = true \/ poolId x = None \/
      (exists t y, In t (cn_transactions x) /\ txs w !! t = Some y /\
                   isActive y = true) ->
      handoffs evs = [EDisconnect (connId x)])).
Proof.
  intros Hc Hd. split.
  - destruct (cn_asyncDispose_spec w c x Hc Hd) as (e1 & e2 & w' & Hrun & Htr & Hev & _).
    set (evs := e1 ++ e2) in *.
    exists (evs ++ [handoff_of x false]), w'. split; [done|]. split; [done|].
    rewrite handoffs_app, (handoffs_cleanup _ Hev). cbn.
    unfold handoff_of. destruct (poolId x); [|done]. by destruct (hasError x).
  - destruct (cn_dispose_spec w c x Hc Hd) as (evs & b & w' & Hrun & Htr & Hev & Hact).
    exists (evs ++ [handoff_of x b]), w'. split; [done|]. split; [done|].
    intros Hcase. rewrite handoffs_app, handoffs_cleanup.
    2:{ eapply Forall_impl; [exact Hev|]. apply close_cleanup_event. }
    cbn. unfold handoff_of. destruct (poolId x) as [p|]; [|done].
    destruct Hcase as [He|[Hp|(t & y & Hin & Hy & Ha)]]; [by rewrite He|done|].
    rewrite (Hact t y Hin Hy Ha). cbn. by rewrite andb_false_r.
Qed.

Lemma world_eta_tx w t x :
  txs w !! t = Some x -> with_tx w t x = w.
Proof.
  intros Ht. destruct w as [cs ts ss gs ps tr]. unfold with_tx. cbn in *.
  by rewrite list_insert_id.
Qed.

Lemma tx_asyncDispose_idle w t x :
  txs w !! t = Some x -> tx_streams x = [] -> isActive x = false ->
  tx_asyncDispose ffi t w = (w, Ok tt).
Proof.
  intros Ht Hs Ha. unfold tx_asyncDispose, closeAllStreams.
  unfold bind at 1. unfold bind at 1. rewrite (get_tx_ok _ _ _ Ht). cbn iota.
  rewrite Hs. unfold bind at 1, put_tx. cbn iota.
  replace (tx_with_streams x []) with x by (destruct x; cbn in *; by subst).
  fold (with_tx w t x). rewrite (world_eta_tx _ _ _ Ht). cbn [for_each].
  unfold ret at 1. cbn iota.
  unfold bind. rewrite (get_tx_ok _ _ _ Ht). by rewrite Ha.
Qed.


(** C5: for an active transaction that tracks an open stream, asynchronous
    disposal of the transaction issues the native close of the stream's
    cursor, then a single rollback, the last boundary call it makes; before
    the rollback it does nothing but close streams.  Asynchronous disposal
    of the connection that owns the transaction, in a store built by the
    driver, closes streams and rolls back transactions, then hands off the
    connection, and issues no commit; it issues that close before the
    rollback of the transaction as well, and the rollback occurs once when
    no other transaction of the connection has the same identifier. *)
Theorem cursors_closed_before_rollback w t xt s q :
  txs w !! t = Some xt -> isActive xt = true ->
  In s (tx_streams xt) -> streams w !! s = Some q -> closed q = false ->
  (exists closes w',
     tx_asyncDispose ffi t w = (w', Ok tt) /\
     trace w' = trace w ++ closes ++ [rollback_of xt] /\
     Forall close_event closes /\
     In (EStreamClose (cursorId q)) closes /\
     ~ In (rollback_of xt) closes) /\
  (forall c x,
     conns w !! c = Some x -> disposed x = false ->
     In t (cn_transactions x) -> tidy w ->
     exists pre post w',
       cn_asyncDispose ffi c w = (w', Ok tt) /\
       trace w' = trace w ++ pre ++ rollback_of xt :: post /\
       Forall cleanup_event pre /\
       Forall (fun e => cleanup_event e \/ handoff e = true) post /\
       In (EStreamClose (cursorId q)) pre /\
       ((forall t' x', In t' (cn_transactions x) -> t' <> t ->
                       txs w !! t' = Some x' ->
                       rollback_of x' <> rollback_of xt) ->
        ~ In (rollback_of xt) pre /\ ~ In (rollback_of xt) post)).
Proof.
  intros Ht Ha Hs Hq Hopen. split.
  - destruct (tx_asyncDispose_spec ffi w t xt Ht) as (evs & w1 & Hcl & Ht1 & Hloop & Hrun).
    rewrite Ha in Hrun. exists evs. eexists. split; [exact Hrun|].
    split; [|split; [apply Hcl|split]].
    + cbn. rewrite (cl_trace _ _ _ Hcl). by rewrite <- app_assoc.
    + by eapply Hloop.
    + apply close_event_not_rollback, Hcl.
  - intros c x Hc Hd Hin Htidy.
    destruct (cn_asyncDispose_spec w c x Hc Hd)
      as (e1 & e2 & w' & Hrun & Htr & Hev & Htr1 & He2).
    cbn zeta in Htr1.
    set (w0 := with_conn (with_conn w c (conn_disposed x)) c
                 (conn_with_transactions (conn_disposed x) [])) in *.
    destruct (dispose_loop_order ffi (cn_transactions x) w0 t xt s q)
      as (pre & post & Hcl & Hpre & Huniq); try done.
    cbn zeta in Hcl. rewrite (cg_trace _ _ _ Hcl) in Htr1.
    change (trace w0) with (trace w) in Htr1.
    apply app_inv_head in Htr1. subst e1.
    exists pre, (post ++ e2 ++ [handoff_of x false]), w'.
    pose proof (cg_events _ _ _ Hcl) as Hall.
    apply Forall_app in Hall as [Hall1 Hall2]. inversion_clear Hall2 as [|? ? _ Hall3].
    split; [done|]. split; [|split; [done|split; [|split; [done|]]]].
    + rewrite Htr. cbn. by rewrite <- !app_assoc.
    + apply Forall_app. split; [by eapply Forall_impl; [exact Hall3|]; auto|].
      apply Forall_app. split.
      * eapply Forall_impl; [exact He2|]. intros e He. left. by apply close_cleanup_event.
      * apply Forall_cons. split; [|done]. right. unfold handoff_of.
        destruct (poolId x); [|done]. by destruct (negb (hasError x) && negb false).
    + intros Hu. destruct (Huniq Hu) as [Hn1 Hn2]. split; [done|].
      intros Hbad. apply in_app_or in Hbad as [Hbad|Hbad]; [done|].
      apply in_app_or in Hbad as [Hbad|Hbad].
      * eapply close_event_not_rollback; [exact He2|exact Hbad].
      * destruct Hbad as [Hbad|[]]. unfold handoff_of, rollback_of in Hbad.
        destruct (poolId x); [|done].
        by destruct (negb (hasError x) && negb false).
Qed.

End Disposal.

(* ===================================================================== *)
(** * Close callbacks and the life cycle of a transaction *)
(* ===================================================================== *)

Section Lifecycle.
Variable ffi : RuntimeFFI.
Variable plat : Platform.

Lemma close_repeated w s q n :
  streams w !! s = Some q -> closed q = true ->
  Nat.iter n (fun v => fst (close ffi s v)) w = w.
Proof.
  intros Hs Hc. induction n as [|n IH]; [done|].
  rewrite Nat.iter_succ, IH. by rewrite (close_closed ffi _ _ _ Hs Hc).
Qed.

Lemma run_callback_streams cb w : streams (fst (run_callback cb w)) = streams w.
Proof. apply (un_streams _ _ _ (run_callback_untracking cb w)). Qed.

Lemma run_callback_trace cb w :
  trace (fst (run_callback cb w)) = trace w ++ callback_event cb.
Proof.
  rewrite (un_trace _ _ _ (run_callback_untracking cb w)). cbn.
  by rewrite app_nil_r.
Qed.

(** A closed stream: [close] is a no-op and [_onClose] runs its argument
    at once. *)
Lemma closed_stream_inert w s q :
  streams w !! s = Some q -> closed q = true ->
  close ffi s w = (w, Ok tt) /\
  (forall n, Nat.iter n (fun v => fst (close ffi s v)) w = w) /\
  forall cb,
    _onClose s cb w = run_callback cb w /\
    trace (fst (_onClose s cb w)) = trace w ++ callback_event cb /\
    streams (fst (_onClose s cb w)) !! s = Some q.
Proof.
  intros Hs Hc. split; [apply (close_closed ffi _ _ _ Hs Hc)|].
  split; [intros n; by eapply close_repeated|].
  intros cb.
  assert (Heq : _onClose s cb w = run_callback cb w).
  { unfold _onClose, bind. by rewrite (get_stream_ok _ _ _ Hs), Hc. }
  rewrite Heq. split; [done|]. split; [apply run_callback_trace|].
  by rewrite run_callback_streams.
Qed.

(** C7, as amended: on a stream that is closed, [close] does nothing, however
    often it is called, and [_onClose] runs the callback it is given at once
    and keeps no reference to it.  On an open stream whose native close
    returns normally, [close] issues that native close, runs every
    registered callback once, in registration order, whether it raises or
    not, and leaves the stream closed with no callback registered, so that
    the facts above hold from then on. *)
Theorem close_callbacks_exactly_once w s q :
  streams w !! s = Some q ->
  (closed q = true ->
   close ffi s w = (w, Ok tt) /\
   (forall n, Nat.iter n (fun v => fst (close ffi s v)) w = w) /\
   forall cb,
     _onClose s cb w = run_callback cb w /\
     trace (fst (_onClose s cb w)) = trace w ++ callback_event cb /\
     streams (fst (_onClose s cb w)) !! s = Some q) /\
  (closed q = false -> streamClose ffi (trace w) (cursorId q) = false ->
   exists w',
     let q' := {| cursorId := cursorId q; done := done q; closed := true;
                  onCloseCallbacks := [] |} in
     close ffi s w = (w', Ok tt) /\
     trace w' =
       trace w ++ EStreamClose (cursorId q) :: callback_events (onCloseCallbacks q) /\
     streams w' !! s = Some q' /\
     close ffi s w' = (w', Ok tt) /\
     (forall n, Nat.iter n (fun v => fst (close ffi s v)) w' = w') /\
     forall cb,
       _onClose s cb w' = run_callback cb w' /\
       trace (fst (_onClose s cb w')) = trace w' ++ callback_event cb /\
       streams (fst (_onClose s cb w')) !! s = Some q').
Proof.
  intros Hs. split; [by apply closed_stream_inert|].
  intros Hc Hok. rewrite (close_open ffi _ _ _ Hs Hc), Hok.
  destruct (callbacks_untracking (onCloseCallbacks q) (after_native_close w s q []))
    as [Hu Hr].
  set (m := for_each _ _ _) in *. exists (fst m). cbn zeta.
  split; [destruct m as [w' r]; cbn in *; by subst|].
  assert (Hq' : streams (fst m) !! s =
            Some {| cursorId := cursorId q; done := done q; closed := true;
                    onCloseCallbacks := [] |}).
  { rewrite (un_streams _ _ _ Hu). cbn. by eapply lookup_insert_same. }
  split; [|split; [done|]].
  - rewrite (un_trace _ _ _ Hu). cbn. by rewrite <- app_assoc.
  - by apply (closed_stream_inert _ _ _ Hq').
Qed.

Lemma ensureActive_ok w t x :
  txs w !! t = Some x -> isActive x = true -> _ensureActive t w = (w, Ok tt).
Proof.
  intros Ht Ha. unfold _ensureActive, bind. by rewrite (get_tx_ok _ _ _ Ht), Ha.
Qed.

Lemma ensureActive_fails w t x :
  txs w !! t = Some x -> isActive x = false ->
  _ensureActive t w = (w, Throw ErrTransactionInactive).
Proof.
  intros Ht Ha. unfold _ensureActive, bind. by rewrite (get_tx_ok _ _ _ Ht), Ha.
Qed.

Lemma commit_active w t x :
  txs w !! t = Some x -> isActive x = true ->
  commit ffi t w =
    match ffi_commit ffi (trace w) (tx_connId x) (tx_id x) with
    | Some err =>
        (with_event w (ECommit (tx_connId x) (tx_id x)), Throw (ErrCommitFailed err))
    | None =>
        (with_tx (with_event w (ECommit (tx_connId x) (tx_id x))) t (tx_committed x),
         Ok tt)
    end.
Proof.
  intros Ht Ha. unfold commit, bind at 1. rewrite (ensureActive_ok _ _ _ Ht Ha).
  cbn iota. unfold bind at 1. rewrite (get_tx_ok _ _ _ Ht). cbn iota.
  unfold bind at 1, commitFn, call_commit, bind, history, emit, ret. proj.
  destruct (ffi_commit ffi (trace w) (tx_connId x) (tx_id x)); [done|].
  unfold set_committed, bind, get_tx, put_tx. proj. by rewrite Ht.
Qed.

Lemma rollback_active w t x :
  txs w !! t = Some x -> isActive x = true ->
  rollback ffi t w =
    match ffi_rollback ffi (trace w) (tx_connId x) (tx_id x) with
    | Some err =>
        (with_event w (ERollback (tx_connId x) (tx_id x)), Throw (ErrRollbackFailed err))
    | None =>
        (with_tx (with_event w (ERollback (tx_connId x) (tx_id x))) t (tx_rolledBack x),
         Ok tt)
    end.
Proof.
  intros Ht Ha. unfold rollback, bind at 1. rewrite (ensureActive_ok _ _ _ Ht Ha).
  cbn iota. unfold bind at 1. rewrite (get_tx_ok _ _ _ Ht). cbn iota.
  unfold bind at 1, rollbackFn, call_rollback, bind, history, emit, ret. proj.
  destruct (ffi_rollback ffi (trace w) (tx_connId x) (tx_id x)); [done|].
  unfold set_rolledBack, bind, get_tx, put_tx. proj. by rewrite Ht.
Qed.

(** C10: when the boundary answers a commit (a rollback) of an active
    transaction with an error, the call is rejected with that error and no
    transaction of the store has changed: the transaction is still active,
    and a rollback or a commit issued next reaches the boundary.  The flag
    is set only when the boundary has answered without an error. *)
Theorem failed_commit_or_rollback_keeps_transaction_active w t x :
  txs w !! t = Some x -> isActive x = true ->
  (forall err,
     ffi_commit ffi (trace w) (tx_connId x) (tx_id x) = Some err ->
     exists w',
       commit ffi t w = (w', Throw (ErrCommitFailed err)) /\
       txs w' = txs w /\
       trace w' = trace w ++ [ECommit (tx_connId x) (tx_id x)] /\
       trace (fst (rollback ffi t w')) = trace w' ++ [rollback_of x] /\
       trace (fst (commit ffi t w')) = trace w' ++ [ECommit (tx_connId x) (tx_id x)]) /\
  (forall err,
     ffi_rollback ffi (trace w) (tx_connId x) (tx_id x) = Some err ->
     exists w',
       rollback ffi t w = (w', Throw (ErrRollbackFailed err)) /\
       txs w' = txs w /\
       trace w' = trace w ++ [rollback_of x] /\
       trace (fst (rollback ffi t w')) = trace w' ++ [rollback_of x] /\
       trace (fst (commit ffi t w')) = trace w' ++ [ECommit (tx_connId x) (tx_id x)]) /\
  (ffi_commit ffi (trace w) (tx_connId x) (tx_id x) = None ->
   exists w', commit ffi t w = (w', Ok tt) /\ txs w' !! t = Some (tx_committed x)) /\
  (ffi_rollback ffi (trace w) (tx_connId x) (tx_id x) = None ->
   exists w', rollback ffi t w = (w', Ok tt) /\ txs w' !! t = Some (tx_rolledBack x)).
Proof.
  intros Ht Ha.
  assert (Hnext : forall e,
    let w' := with_event w e in
    trace (fst (rollback ffi t w')) = trace w' ++ [rollback_of x] /\
    trace (fst (commit ffi t w')) = trace w' ++ [ECommit (tx_connId x) (tx_id x)]).
  { intros e w'. split.
    - rewrite (rollback_active w' t x Ht Ha).
      by destruct (ffi_rollback ffi (trace w') (tx_connId x) (tx_id x)).
    - rewrite (commit_active w' t x Ht Ha).
      by destruct (ffi_commit ffi (trace w') (tx_connId x) (tx_id x)). }
  split; [|split; [|split]].
  - intros err Herr. rewrite (commit_active _ _ _ Ht Ha), Herr.
    eexists. split; [reflexivity|]. split; [done|]. split; [done|]. apply Hnext.
  - intros err Herr. rewrite (rollback_active _ _ _ Ht Ha), Herr.
    eexists. split; [reflexivity|]. split; [done|]. split; [done|]. apply Hnext.
  - intros Hok. rewrite (commit_active _ _ _ Ht Ha), Hok.
    eexists. split; [reflexivity|]. cbn. by eapply lookup_insert_same.
  - intros Hok. rewrite (rollback_active _ _ _ Ht Ha), Hok.
    eexists. split; [reflexivity|]. cbn. by eapply lookup_insert_same.
Qed.

Lemma ensureOpen_inactive w c cn o t x :
  conns w !! c = Some cn -> co_transaction o = Some t ->
  txs w !! t = Some x -> isActive x = false ->
  ensureOpen c (Some o) w = (w, Throw (rejection cn o)).
Proof.
  intros Hc Ho Ht Ha. unfold ensureOpen, bind at 1. rewrite (get_conn_ok _ _ _ Hc).
  cbn iota. unfold rejection, aborted. destruct (disposed cn); [done|].
  unfold bind. destruct (co_signal o) as [[|]|]; cbn; try done;
    rewrite Ho; by rewrite (ensureActive_fails _ _ _ Ht Ha).
Qed.

(** C3, as amended: a transaction is active exactly when it is neither
    committed nor rolled back.  On a transaction that is not active,
    [_ensureActive], [commit] and [rollback] are rejected with
    [Transaction is no longer active], and every command issued with it is
    rejected; none of them reaches the boundary or changes the store.  The
    error of a command is that one on a connection that is open and with a
    signal that is not aborted; a disposed connection and an aborted signal
    are reported first. *)
Theorem inactive_transaction_fails_fast w t x :
  txs w !! t = Some x ->
  (isActive x = true <-> committed x = false /\ rolledBack x = false) /\
  (isActive x = false ->
   _ensureActive t w = (w, Throw ErrTransactionInactive) /\
   commit ffi t w = (w, Throw ErrTransactionInactive) /\
   rollback ffi t w = (w, Throw ErrTransactionInactive) /\
   forall c cn sql params o,
     conns w !! c = Some cn -> co_transaction o = Some t ->
     query ffi plat c sql params (Some o) w = (w, Throw (rejection cn o)) /\
     execute ffi plat c sql params (Some o) w = (w, Throw (rejection cn o)) /\
     exec ffi plat c sql params (Some o) w = (w, Throw (rejection cn o)) /\
     queryStream ffi plat c sql params (Some o) w = (w, Throw (rejection cn o)) /\
     (disposed cn = false -> aborted o = false ->
      rejection cn o = ErrTransactionInactive)).
Proof.
  intros Ht. split.
  - unfold isActive. destruct (committed x), (rolledBack x); cbn; intuition congruence.
  - intros Ha. split; [by eapply ensureActive_fails|].
    split; [|split].
    + unfold commit, bind. by rewrite (ensureActive_fails _ _ _ Ht Ha).
    + unfold rollback, bind. by rewrite (ensureActive_fails _ _ _ Ht Ha).
    + intros c cn sql params o Hc Ho.
      pose proof (ensureOpen_inactive w c cn o t x Hc Ho Ht Ha) as He.
      repeat split.
      * unfold query, bind at 1. by rewrite He.
      * unfold execute, bind at 1. by rewrite He.
      * unfold exec, bind at 1. by rewrite He.
      * unfold queryStream, bind at 1. by rewrite He.
      * intros Hd Hs. unfold rejection. by rewrite Hd, Hs.
Qed.

End Lifecycle.

(* ===================================================================== *)
(** * The stores the driver builds *)
(* ===================================================================== *)

(** [tidy] is an invariant of the stores the driver builds: the empty store
    is tidy, and opening a stream, the one operation that registers untrack
    callbacks, keeps a store tidy (closing and cleaning up do so by
    [closing_tidy] and [cleaning_tidy]). *)

Lemma empty_world_tidy : tidy empty_world.
Proof. intros s q cb Hs. by destruct s. Qed.

Lemma preserves_ret P {A} (a : A) : preserves P (ret a).
Proof. by intros w. Qed.

Lemma preserves_throw P {A} e : preserves P (@throw A e).
Proof. by intros w. Qed.

Lemma preserves_bind P {A B} (m : M A) (k : A -> M B) :
  preserves P m -> (forall a, preserves P (k a)) -> preserves P (bind m k).
Proof.
  intros Hm Hk w Hw. unfold bind. specialize (Hm w Hw).
  destruct (m w) as [w1 [a|e]]; cbn in *; [by apply Hk|done].
Qed.

Lemma preserves_same_streams {A} (m : M A) :
  (forall w, streams (fst (m w)) = streams w) -> preserves tidy m.
Proof. intros H w. apply tidy_streams, H. Qed.

Lemma get_conn_tidy c : preserves tidy (get_conn c).
Proof.
  apply preserves_same_streams. intros w. unfold get_conn.
  by destruct (conns w !! c).
Qed.

Lemma get_tx_tidy t : preserves tidy (get_tx t).
Proof.
  apply preserves_same_streams. intros w. unfold get_tx.
  by destruct (txs w !! t).
Qed.

Lemma get_stream_tidy s : preserves tidy (get_stream s).
Proof.
  apply preserves_same_streams. intros w. unfold get_stream.
  by destruct (streams w !! s).
Qed.

Create HintDb tidy.

#[local] Hint Resolve preserves_ret preserves_throw get_conn_tidy get_tx_tidy
  get_stream_tidy : tidy.

Ltac tidy_step :=
  repeat first
    [ apply preserves_bind; [|intros ?]
    | solve [auto with tidy]
    | solve [apply preserves_same_streams; intros ?; reflexivity] ].

Lemma ensureActive_tidy t : preserves tidy (_ensureActive t).
Proof. unfold _ensureActive. tidy_step. destruct (negb _); tidy_step. Qed.

Lemma ensureOpen_tidy c opts : preserves tidy (ensureOpen c opts).
Proof.
  unfold ensureOpen. tidy_step. destruct (disposed _); tidy_step.
  - destruct opts as [o|]; [|tidy_step]. destruct (co_signal o) as [[|]|]; tidy_step.
  - destruct opts as [o|]; [|tidy_step].
    destruct (co_transaction o); [apply ensureActive_tidy|tidy_step].
Qed.

Lemma onClose_tidy s cb : cb_targets s cb -> preserves tidy (_onClose s cb).
Proof.
  intros Hcb w Hw. unfold _onClose, bind, get_stream.
  destruct (streams w !! s) as [q|] eqn:Hs; [|done].
  destruct (closed q).
  - eapply tidy_streams; [apply run_callback_streams|done].
  - intros s' q' cb'. cbn. destruct (decide (s' = s)) as [->|Hne].
    + rewrite list_lookup_insert_eq by (by eapply lookup_lt_Some).
      intros [= <-]. cbn. rewrite in_app_iff. intros [Hin|[<-|[]]]; [|done].
      by eapply Hw.
    + rewrite list_lookup_insert_ne by done. apply Hw.
Qed.

Lemma new_stream_tidy q w :
  onCloseCallbacks q = [] -> tidy w -> tidy (fst (new_stream q w)).
Proof.
  intros Hq Hw s q' cb. cbn. intros Hs Hcb.
  apply lookup_app_Some in Hs as [Hs|[_ Hs]]; [by eapply Hw|].
  apply list_lookup_singleton_Some in Hs as [_ <-]. by rewrite Hq in Hcb.
Qed.

Section Invariant.
Variable ffi : RuntimeFFI.
Variable plat : Platform.

Lemma serializeCommand_tidy sql params opts :
  preserves tidy (serializeCommand plat sql params opts).
Proof.
  apply preserves_same_streams. intros w. unfold serializeCommand.
  by destruct (serializeParams plat params).
Qed.

Lemma queryStream_tidy c sql params opts :
  preserves tidy (queryStream ffi plat c sql params opts).
Proof.
  unfold queryStream.
  apply preserves_bind; [apply ensureOpen_tidy|intros _].
  apply preserves_bind; [apply get_conn_tidy|intros cn].
  apply preserves_bind; [apply serializeCommand_tidy|intros cmdJson].
  tidy_step. destruct (_ =? _)%Z.
  - unfold set_hasError. tidy_step.
  - apply preserves_bind; [intros w; by apply new_stream_tidy|intros s].
    apply preserves_bind; [unfold track_stream; tidy_step|intros _].
    apply preserves_bind; [by apply onClose_tidy|intros _].
    apply preserves_bind; [|intros _; tidy_step].
    destruct opts as [o|]; [|tidy_step].
    destruct (co_transaction o) as [t|]; [|tidy_step].
    unfold _trackStream.
    apply preserves_bind; [apply get_tx_tidy|intros x].
    apply preserves_bind; [by apply preserves_same_streams|intros _].
    by apply onClose_tidy.
Qed.

End Invariant.

(* ===================================================================== *)
(** * Streams that are closed or exhausted *)
(* ===================================================================== *)

Lemma silent_refl w : silent w w.
Proof. exists []. split; [by rewrite app_nil_r|done]. Qed.

Lemma silent_trans w w1 w2 : silent w w1 -> silent w1 w2 -> silent w w2.
Proof.
  intros (e1 & H1 & F1) (e2 & H2 & F2). exists (e1 ++ e2).
  split; [by rewrite H2, H1, app_assoc|by apply Forall_app].
Qed.

Lemma silent_same w w' : trace w' = trace w -> silent w w'.
Proof. intros H. exists []. split; [by rewrite app_nil_r|done]. Qed.

Section Exhaustion.
Variable ffi : RuntimeFFI.

Lemma close_spent s w :
  silent w (fst (close ffi s w)) /\
  (spent s w -> spent s (fst (close ffi s w))).
Proof.
  destruct (close_closing ffi s w) as (evs & H & _). split.
  - exists evs. split; [apply H|]. eapply Forall_impl; [apply H|].
    intros e He Hn. by destruct e.
  - intros (q & Hq & Hsp).
    destruct (cl_streams _ _ _ H s q Hq) as (q' & Hq' & _ & Hd & _ & [->|(_ & Hc & _)]).
    + by exists q.
    + exists q'. split; [done|]. rewrite Hc. apply orb_true_r.
Qed.

Lemma callback_spent s cb w :
  silent w (fst (run_callback cb w)) /\
  (spent s w -> spent s (fst (run_callback cb w))).
Proof.
  split.
  - exists (callback_event cb). split; [apply run_callback_trace|].
    destruct cb; cbn; repeat constructor. by intros [].
  - intros (q & Hq & Hsp). exists q. by rewrite run_callback_streams.
Qed.

Lemma onClose_spent s cb w :
  silent w (fst (_onClose s cb w)) /\
  (spent s w -> spent s (fst (_onClose s cb w))).
Proof.
  unfold _onClose, bind, get_stream.
  destruct (streams w !! s) as [q|] eqn:Hq; cbn iota.
  2:{ split; [apply silent_refl|done]. }
  destruct (closed q) eqn:Hc; [apply callback_spent|].
  split; [by apply silent_same|].
  intros (q0 & Hq0 & Hsp). cbn. rewrite Hq in Hq0. inversion Hq0; subst q0.
  eexists. split; [by eapply lookup_insert_same|done].
Qed.

Lemma fetchNext_spent s w q :
  streams w !! s = Some q -> done q || closed q = true ->
  fetchNext ffi s w = (w, Ok None).
Proof.
  intros Hq Hsp. unfold fetchNext, bind. by rewrite (get_stream_ok _ _ _ Hq), Hsp.
Qed.

Lemma mark_done_spent s w :
  trace (fst (mark_done s w)) = trace w /\
  gens (fst (mark_done s w)) = gens w /\
  (forall q, streams w !! s = Some q ->
     streams (fst (mark_done s w)) !! s = Some (set_done q true)).
Proof.
  unfold mark_done, bind, get_stream.
  destruct (streams w !! s) as [q|] eqn:Hq; cbn; [|done].
  split; [done|]. split; [done|]. intros q0 [= <-]. by eapply lookup_insert_same.
Qed.

Lemma gen_body_spent s w :
  spent s w ->
  exists w', gen_body ffi s w = (w', Ok None) /\ trace w' = trace w /\
             gens w' = gens w /\ spent s w'.
Proof.
  intros (q & Hq & Hsp). unfold gen_body, bind at 1.
  rewrite (get_stream_ok _ _ _ Hq). cbn iota.
  destruct (done q) eqn:Hd; cbn [negb].
  - exists w. repeat split; try done. exists q. by rewrite Hd.
  - unfold bind at 1. rewrite (fetchNext_spent _ _ _ Hq) by (by rewrite Hd).
    cbn iota.
    destruct (mark_done_spent s w) as (Ht & Hg & Hs). specialize (Hs q Hq).
    unfold bind. destruct (mark_done s w) as [w1 [[]|e]] eqn:Hm; cbn in *.
    + exists w1. repeat split; try done. eexists. split; [exact Hs|done].
    + unfold mark_done, bind in Hm. rewrite (get_stream_ok _ _ _ Hq) in Hm.
      cbn in Hm. done.
Qed.

Lemma set_gen_state_frame g st w :
  trace (fst (set_gen_state g st w)) = trace w /\
  streams (fst (set_gen_state g st w)) = streams w.
Proof.
  unfold set_gen_state, bind, get_gen. by destruct (gens w !! g).
Qed.

Lemma spent_streams s w w' : streams w' = streams w -> spent s w -> spent s w'.
Proof. intros He (q & Hq & Hsp). exists q. by rewrite He. Qed.

Lemma get_gen_ok w g x : gens w !! g = Some x -> get_gen g w = (w, Ok x).
Proof. intros H. unfold get_gen. by rewrite H. Qed.

Lemma gen_next_running w g x :
  gens w !! g = Some x -> g_state x <> GenCompleted ->
  gen_next ffi g w =
    match gen_body ffi (g_stream x) w with
    | (w1, Ok (Some row)) => (set_gen_state g GenSuspended ;; ret (Some row)) w1
    | (w1, r) =>
        (set_gen_state g GenCompleted ;;
         try_finally (fun w2 => (w2, r)) (close ffi (g_stream x))) w1
    end.
Proof.
  intros Hg Hst. unfold gen_next, bind at 1. rewrite (get_gen_ok _ _ _ Hg). cbn iota.
  by destruct (g_state x).
Qed.

Lemma gen_next_completed w g x :
  gens w !! g = Some x -> g_state x = GenCompleted ->
  gen_next ffi g w = (w, Ok None).
Proof.
  intros Hg Hst. unfold gen_next, bind at 1. rewrite (get_gen_ok _ _ _ Hg). cbn iota.
  by rewrite Hst.
Qed.

(** The end of the generator: it is completed and its [finally] block
    closes the stream. *)
Lemma gen_finish_spent s g w (r : Outcome (option string)) :
  spent s w -> no_row r ->
  let m := (set_gen_state g GenCompleted ;;
            try_finally (fun w2 => (w2, r)) (close ffi s)) w in
  silent w (fst m) /\ spent s (fst m) /\ no_row (snd m).
Proof.
  intros Hsp Hr. cbn zeta. unfold bind.
  destruct (set_gen_state_frame g GenCompleted w) as (Ht2 & Hs2).
  destruct (set_gen_state g GenCompleted w) as [w2 [[]|e]]; cbn in Ht2, Hs2.
  - unfold try_finally.
    destruct (close_spent s w2) as (Hsil & Hkeep).
    destruct (close ffi s w2) as [w3 [[]|e]]; cbn in *.
    + split; [|split; [|done]].
      * eapply silent_trans; [|exact Hsil]. by apply silent_same.
      * apply Hkeep. by eapply spent_streams.
    + split; [|split; [|done]].
      * eapply silent_trans; [|exact Hsil]. by apply silent_same.
      * apply Hkeep. by eapply spent_streams.
  - cbn. split; [by apply silent_same|].
    split; [by eapply spent_streams|done].
Qed.

Lemma gen_next_spent s g w x :
  gens w !! g = Some x -> g_stream x = s -> spent s w ->
  let m := gen_next ffi g w in
  silent w (fst m) /\ spent s (fst m) /\ no_row (snd m).
Proof.
  intros Hg Hs Hsp. cbn zeta.
  assert (g_state x = GenCompleted \/ g_state x <> GenCompleted) as [Hst|Hst]
    by (destruct (g_state x); auto).
  - rewrite (gen_next_completed _ _ _ Hg Hst). cbn.
    split; [apply silent_refl|done].
  - rewrite (gen_next_running _ _ _ Hg Hst), Hs.
    destruct (gen_body_spent s w Hsp) as (w1 & Hb & Htr & Hgn & Hsp1).
    rewrite Hb.
    destruct (gen_finish_spent s g w1 (Ok None) Hsp1 I) as (H1 & H2 & H3).
    split; [|done]. eapply silent_trans; [|exact H1]. by apply silent_same.
Qed.

Lemma gen_return_eq w g x :
  gens w !! g = Some x ->
  gen_return ffi g w =
    match g_state x with
    | GenCompleted => (w, Ok tt)
    | GenFresh => set_gen_state g GenCompleted w
    | GenSuspended => (set_gen_state g GenCompleted ;; close ffi (g_stream x)) w
    end.
Proof.
  intros Hg. unfold gen_return, bind at 1. rewrite (get_gen_ok _ _ _ Hg). cbn iota.
  by destruct (g_state x).
Qed.

Lemma gen_return_spent s g w x :
  gens w !! g = Some x -> g_stream x = s -> spent s w ->
  let m := gen_return ffi g w in
  silent w (fst m) /\ spent s (fst m).
Proof.
  intros Hg Hs Hsp. cbn zeta. rewrite (gen_return_eq _ _ _ Hg), Hs.
  destruct (set_gen_state_frame g GenCompleted w) as (Ht2 & Hs2).
  destruct (g_state x).
  - split; [by apply silent_same|exact (spent_streams s w _ Hs2 Hsp)].
  - unfold bind. destruct (set_gen_state g GenCompleted w) as [w2 [[]|e]]; cbn in *.
    + destruct (close_spent s w2) as (Hsil & Hkeep). split.
      * eapply silent_trans; [|exact Hsil]. by apply silent_same.
      * apply Hkeep. exact (spent_streams s w _ Hs2 Hsp).
    + split; [by apply silent_same|exact (spent_streams s w _ Hs2 Hsp)].
  - split; [apply silent_refl|done].
Qed.

Lemma pull_spent s w :
  spent s w ->
  let m := pull ffi s w in
  silent w (fst m) /\ spent s (fst m) /\ no_row (snd m).
Proof.
  intros Hsp. pose proof Hsp as (q & Hq & Hdc). cbn zeta.
  assert (Heq : pull ffi s w = (mark_done s ;; close ffi s ;; ret None) w).
  { unfold pull, bind at 1. by rewrite (fetchNext_spent _ _ _ Hq Hdc). }
  rewrite Heq. clear Heq.
  destruct (mark_done_spent s w) as (Ht & Hg & Hs). specialize (Hs q Hq).
  unfold bind.
  destruct (mark_done s w) as [w1 [[]|e]] eqn:Hm; cbn in Ht, Hg, Hs.
  2:{ cbn. split; [by apply silent_same|]. split; [|done].
      eexists. split; [exact Hs|done]. }
  cbn iota. assert (Hsp1 : spent s w1) by (eexists; split; [exact Hs|done]).
  destruct (close_spent s w1) as (Hsil & Hkeep).
  destruct (close ffi s w1) as [w2 [[]|e]]; cbn in *.
  - split; [|split; [by apply Hkeep|done]].
    eapply silent_trans; [|exact Hsil]. by apply silent_same.
  - split; [|split; [by apply Hkeep|done]].
    eapply silent_trans; [|exact Hsil]. by apply silent_same.
Qed.

(** On a stream that is closed or exhausted no operation yields a row or
    asks the boundary for one, and the stream stays as it is. *)
Lemma run_op_spent s op w :
  spent s w ->
  let m := run_op ffi s op w in
  silent w (fst m) /\ spent s (fst m) /\ no_row (snd m).
Proof.
  intros Hsp. cbn zeta. destruct op as [|cb| |g|g| |]; cbn [run_op].
  - destruct (close_spent s w) as (H1 & H2). unfold bind.
    destruct (close ffi s w) as [w1 [[]|e]]; cbn in *; auto.
  - destruct (onClose_spent s cb w) as (H1 & H2). unfold bind.
    destruct (_onClose s cb w) as [w1 [[]|e]]; cbn in *; auto.
  - unfold asyncIterator, new_gen, bind. cbn.
    split; [by apply silent_same|]. split; [|done]. by eapply spent_streams.
  - unfold bind, owns. cbn iota.
    destruct (gens w !! g) as [x|] eqn:Hg.
    2:{ cbn. split; [apply silent_refl|done]. }
    destruct (Nat.eqb_spec (g_stream x) s) as [Hs|Hs].
    + by eapply gen_next_spent.
    + cbn. split; [apply silent_refl|done].
  - unfold bind, owns. cbn iota.
    destruct (gens w !! g) as [x|] eqn:Hg.
    2:{ cbn. split; [apply silent_refl|done]. }
    destruct (Nat.eqb_spec (g_stream x) s) as [Hs|Hs].
    + destruct (gen_return_spent s g w x Hg Hs Hsp) as (H1 & H2).
      destruct (gen_return ffi g w) as [w1 [[]|e]]; cbn in *; auto.
    + cbn. split; [apply silent_refl|done].
  - by apply pull_spent.
  - unfold cancel. destruct (close_spent s w) as (H1 & H2). unfold bind.
    destruct (close ffi s w) as [w1 [[]|e]]; cbn in *; auto.
Qed.

Lemma run_ops_spent s ops w :
  spent s w ->
  let m := run_ops ffi s ops w in
  silent w (fst m) /\ spent s (fst m) /\ Forall no_row (snd m).
Proof.
  revert w. induction ops as [|op ops IH]; intros w Hsp; cbn zeta.
  - cbn. split; [apply silent_refl|]. split; [done|constructor].
  - cbn [run_ops].
    destruct (run_op_spent s op w Hsp) as (H1 & H2 & H3).
    destruct (run_op ffi s op w) as [w1 res]. cbn in H1, H2, H3.
    destruct (IH w1 H2) as (H4 & H5 & H6).
    destruct (run_ops ffi s ops w1) as [w2 rs]. cbn in *.
    split; [by eapply silent_trans|]. split; [done|by constructor].
Qed.

Lemma close_makes_closed w s q :
  streams w !! s = Some q ->
  exists q', streams (fst (close ffi s w)) !! s = Some q' /\
             closed q' = true /\ done q' = done q.
Proof.
  intros Hq. destruct (closed q) eqn:Hc.
  - rewrite (close_closed ffi _ _ _ Hq Hc). by exists q.
  - rewrite (close_open ffi _ _ _ Hq Hc).
    destruct (streamClose ffi (trace w) (cursorId q)).
    + cbn. eexists. split; [by eapply lookup_insert_same|done].
    + destruct (callbacks_untracking (onCloseCallbacks q) (after_native_close w s q []))
        as [Hu _].
      rewrite (un_streams _ _ _ Hu). cbn.
      eexists. split; [by eapply lookup_insert_same|done].
Qed.

Lemma fetchNext_end w s q :
  streams w !! s = Some q -> done q = false -> closed q = false ->
  streamNext ffi (trace w) (cursorId q) = None ->
  fetchNext ffi s w = (with_event w (EStreamNext (cursorId q)), Ok None).
Proof.
  intros Hq Hd Hc Hn. unfold fetchNext, bind at 1. rewrite (get_stream_ok _ _ _ Hq).
  cbn iota. rewrite Hd, Hc. cbn [orb].
  unfold call_streamNext, bind, history, emit, ret. proj. by rewrite Hn.
Qed.

Lemma spent_after_close s w q :
  streams w !! s = Some q -> spent s (fst (close ffi s w)).
Proof.
  intros Hq. destruct (close_makes_closed w s q Hq) as (q' & Hq' & Hc & _).
  exists q'. split; [done|]. rewrite Hc. apply orb_true_r.
Qed.

Lemma mark_done_ok w s q :
  streams w !! s = Some q ->
  mark_done s w = (with_stream w s (set_done q true), Ok tt).
Proof.
  intros Hq. unfold mark_done, bind. by rewrite (get_stream_ok _ _ _ Hq).
Qed.

(** End-of-data from the boundary ends the iterator and closes the
    stream. *)
Lemma gen_next_exhausts w g x q :
  gens w !! g = Some x -> g_state x <> GenCompleted ->
  streams w !! g_stream x = Some q -> done q = false -> closed q = false ->
  streamNext ffi (trace w) (cursorId q) = None ->
  no_row (snd (gen_next ffi g w)) /\ spent (g_stream x) (fst (gen_next ffi g w)).
Proof.
  intros Hg Hst Hq Hd Hc Hn. rewrite (gen_next_running _ _ _ Hg Hst).
  set (s := g_stream x) in *.
  assert (Hb : exists w1, gen_body ffi s w = (w1, Ok None) /\
                          streams w1 !! s = Some (set_done q true)).
  { unfold gen_body, bind at 1. rewrite (get_stream_ok _ _ _ Hq). cbn iota.
    rewrite Hd. cbn [negb]. unfold bind at 1.
    rewrite (fetchNext_end _ _ _ Hq Hd Hc Hn). cbn iota.
    unfold bind. rewrite (mark_done_ok (with_event w _) s q Hq).
    eexists. split; [reflexivity|]. cbn. by eapply lookup_insert_same. }
  destruct Hb as (w1 & Hb & Hq1). rewrite Hb.
  unfold bind. destruct (set_gen_state_frame g GenCompleted w1) as (_ & Hs2).
  destruct (set_gen_state g GenCompleted w1) as [w2 [[]|e]]; cbn in Hs2.
  - unfold try_finally.
    assert (Hq2 : streams w2 !! s = Some (set_done q true)) by (by rewrite Hs2).
    pose proof (spent_after_close s w2 _ Hq2) as Hsp.
    destruct (close ffi s w2) as [w3 [[]|e]]; by cbn in *.
  - cbn. split; [done|]. eexists. split; [by rewrite Hs2|done].
Qed.

Lemma pull_exhausts w s q :
  streams w !! s = Some q -> done q = false -> closed q = false ->
  streamNext ffi (trace w) (cursorId q) = None ->
  no_row (snd (pull ffi s w)) /\ spent s (fst (pull ffi s w)).
Proof.
  intros Hq Hd Hc Hn.
  set (w1 := with_stream (with_event w (EStreamNext (cursorId q))) s (set_done q true)).
  assert (Heq : pull ffi s w = (close ffi s ;; ret None) w1).
  { unfold pull, bind at 1. rewrite (fetchNext_end _ _ _ Hq Hd Hc Hn). cbn iota.
    unfold bind at 1. by rewrite (mark_done_ok (with_event w _) s q Hq). }
  rewrite Heq. clear Heq.
  assert (Hq1 : streams w1 !! s = Some (set_done q true)).
  { cbn. by eapply lookup_insert_same. }
  pose proof (spent_after_close s w1 _ Hq1) as Hsp.
  unfold bind. destruct (close ffi s w1) as [w2 [[]|e]]; by cbn in *.
Qed.

(** C6: once a stream is closed or exhausted, [#fetchNext] returns no row
    without a boundary call, and whatever a caller does with the stream
    afterwards (close, register a callback, make an iterator, step or
    finish one, pull from or cancel its [ReadableStream]) yields no row,
    never asks the boundary for a row, and leaves the stream closed or
    exhausted.  An open stream becomes so as soon as the boundary answers
    end-of-data to an iterator or to a pull. *)
Theorem closed_or_exhausted_yields_nothing w s q :
  streams w !! s = Some q ->
  (done q || closed q = true ->
   fetchNext ffi s w = (w, Ok None) /\
   forall ops,
     Forall no_row (snd (run_ops ffi s ops w)) /\
     silent w (fst (run_ops ffi s ops w)) /\
     spent s (fst (run_ops ffi s ops w))) /\
  (done q = false -> closed q = false ->
   streamNext ffi (trace w) (cursorId q) = None ->
   (forall g x, gens w !! g = Some x -> g_stream x = s ->
                g_state x <> GenCompleted ->
      let w' := fst (gen_next ffi g w) in
      no_row (snd (gen_next ffi g w)) /\ spent s w' /\
      forall ops,
        Forall no_row (snd (run_ops ffi s ops w')) /\
        silent w' (fst (run_ops ffi s ops w'))) /\
   (let w' := fst (pull ffi s w) in
    no_row (snd (pull ffi s w)) /\ spent s w' /\
    forall ops,
      Forall no_row (snd (run_ops ffi s ops w')) /\
      silent w' (fst (run_ops ffi s ops w')))).
Proof.
  intros Hq. split.
  - intros Hsp. split; [by eapply fetchNext_spent|]. intros ops.
    destruct (run_ops_spent s ops w) as (H1 & H2 & H3); [by exists q|done].
  - intros Hd Hc Hn. split.
    + intros g x Hg Hs Hst w'. subst s.
      destruct (gen_next_exhausts w g x q Hg Hst Hq Hd Hc Hn) as (H1 & H2).
      split; [done|]. split; [done|]. intros ops.
      destruct (run_ops_spent (g_stream x) ops w' H2) as (H3 & H4 & H5). done.
    + intros w'. destruct (pull_exhausts w s q Hq Hd Hc Hn) as (H1 & H2).
      split; [done|]. split; [done|]. intros ops.
      destruct (run_ops_spent s ops w' H2) as (H3 & H4 & H5). done.
Qed.

End Exhaustion.

(* ===================================================================== *)
(** * Shared pools *)
(* ===================================================================== *)

Lemma find_app_none {A} (f : A -> bool) (l1 l2 : list A) :
  Forall (fun x => f x = false) l1 -> List.find f (l1 ++ l2) = List.find f l2.
Proof. induction 1 as [|x l Hx _ IH]; cbn; [done|]. by rewrite Hx. Qed.

Lemma map_unless {A} (f : A -> bool) (g : A -> A) (l : list A) :
  Forall (fun x => f x = false) l ->
  List.map (fun x => if f x then g x else x) l = l.
Proof. induction 1 as [|x l Hx _ IH]; cbn; [done|]. by rewrite Hx, IH. Qed.

Lemma filter_unless {A} (f : A -> bool) (l : list A) :
  Forall (fun x => f x = false) l ->
  List.filter (fun x => negb (f x)) l = l.
Proof. induction 1 as [|x l Hx _ IH]; cbn; [done|]. by rewrite Hx, IH. Qed.

Lemma has_key_refl id k m :
  has_key k {| pe_id := id; pe_key := k; pe_refcount := m |} = true.
Proof. unfold has_key. cbn. by apply bool_decide_eq_true. Qed.

Lemma has_id_refl id k m :
  has_id id {| pe_id := id; pe_key := k; pe_refcount := m |} = true.
Proof. unfold has_id. cbn. apply Z.eqb_refl. Qed.

Lemma key_registered_false r k :
  key_registered r k = false ->
  Forall (fun e => has_key k e = false) (reg_entries r).
Proof.
  unfold key_registered. intros H. apply Forall_forall. intros e He.
  apply list_elem_of_In in He.
  destruct (has_key k e) eqn:Hk; [|done].
  assert (List.existsb (has_key k) (reg_entries r) = true) as Hex
    by (apply existsb_exists; eauto).
  congruence.
Qed.

(** The first open of an identity creates a boundary pool. *)
Lemma store_pool_first r config :
  reg_wf r -> key_registered r (dedup_key config) = false ->
  exists r',
    store_pool r config = (r', reg_next_id r) /\
    shared r' (reg_entries r) (reg_next_id r) (dedup_key config) 1 /\
    reg_created r' = reg_created r ++ [reg_next_id r] /\
    reg_destroyed r' = reg_destroyed r.
Proof.
  intros Hwf Hk. pose proof (key_registered_false _ _ Hk) as Hnone.
  unfold store_pool.
  assert (List.find (has_key (dedup_key config)) (reg_entries r) = None) as ->.
  { rewrite <- (app_nil_r (reg_entries r)). by rewrite (find_app_none _ _ [] Hnone). }
  eexists. split; [reflexivity|]. split; [|done]. split; [done|].
  cbn. rewrite Forall_forall in Hnone. apply Forall_forall. intros e He.
  split; [by apply Hnone|].
  pose proof (wf_ids _ Hwf) as Hids. rewrite Forall_forall in Hids.
  specialize (Hids e He). unfold has_id. apply Z.eqb_neq. lia.
Qed.

(** A later open of the identity adds a holder and creates nothing. *)
Lemma store_pool_again r es id k m config :
  shared r es id k m -> dedup_key config = k ->
  exists r',
    store_pool r config = (r', id) /\
    shared r' es id k (S m) /\
    reg_created r' = reg_created r /\
    reg_destroyed r' = reg_destroyed r.
Proof.
  intros [He Hes] Hk. unfold store_pool. rewrite Hk, He.
  assert (Hnk : Forall (fun e => has_key k e = false) es).
  { eapply Forall_impl; [exact Hes|]. by intros e [? _]. }
  rewrite (find_app_none _ _ _ Hnk). cbn [List.find]. rewrite has_key_refl.
  eexists. split; [reflexivity|]. split; [|done]. split; [|done].
  cbn. rewrite List.map_app, (map_unless _ _ _ Hnk). cbn.
  by rewrite has_key_refl.
Qed.

(** A close that is not the last one removes a holder and destroys
    nothing. *)
Lemma remove_pool_shared r es id k n :
  shared r es id k (S (S n)) ->
  shared (remove_pool r id) es id k (S n) /\
  reg_created (remove_pool r id) = reg_created r /\
  reg_destroyed (remove_pool r id) = reg_destroyed r.
Proof.
  intros [He Hes]. unfold remove_pool. rewrite He.
  assert (Hni : Forall (fun e => has_id id e = false) es).
  { eapply Forall_impl; [exact Hes|]. by intros e [_ ?]. }
  rewrite (find_app_none _ _ _ Hni). cbn [List.find]. rewrite has_id_refl.
  cbn [pe_refcount]. split; [|done]. split; [|done].
  cbn. rewrite List.map_app, (map_unless _ _ _ Hni). cbn.
  by rewrite has_id_refl.
Qed.

(** The last close destroys the boundary pool and deregisters the key. *)
Lemma remove_pool_last r es id k :
  shared r es id k 1 ->
  reg_entries (remove_pool r id) = es /\
  reg_created (remove_pool r id) = reg_created r /\
  reg_destroyed (remove_pool r id) = reg_destroyed r ++ [id].
Proof.
  intros [He Hes]. unfold remove_pool. rewrite He.
  assert (Hni : Forall (fun e => has_id id e = false) es).
  { eapply Forall_impl; [exact Hes|]. by intros e [_ ?]. }
  rewrite (find_app_none _ _ _ Hni). cbn [List.find]. rewrite has_id_refl.
  cbn [pe_refcount]. split; [|done].
  cbn. rewrite List.filter_app, (filter_unless _ _ Hni). cbn.
  by rewrite has_id_refl, app_nil_r.
Qed.

Lemma shared_refcount r es id k m :
  shared r es id k m -> refcount_of r id = Some m.
Proof.
  intros [He Hes]. unfold refcount_of. rewrite He.
  assert (Hni : Forall (fun e => has_id id e = false) es).
  { eapply Forall_impl; [exact Hes|]. by intros e [_ ?]. }
  rewrite (find_app_none _ _ _ Hni). cbn [List.find]. by rewrite has_id_refl.
Qed.

Lemma registry_after_snoc h e :
  registry_after (h ++ [e]) = registry_step (registry_after h) e.
Proof. unfold registry_after. by rewrite fold_left_app. Qed.

Lemma store_pool_wf r config : reg_wf r -> reg_wf (fst (store_pool r config)).
Proof.
  intros [Hn Hi]. unfold store_pool.
  destruct (List.find _ _) as [e|]; cbn.
  - split; cbn; [done|]. rewrite Forall_forall in Hi. apply Forall_forall.
    intros e' He'. apply list_elem_of_In, in_map_iff in He' as (e0 & <- & He0).
    apply list_elem_of_In in He0. specialize (Hi e0 He0).
    by destruct (has_key _ e0).
  - split; cbn; [lia|]. apply Forall_app. split.
    + eapply Forall_impl; [exact Hi|]. cbn. intros; lia.
    + repeat constructor; cbn; lia.
Qed.

Lemma remove_pool_wf r id : reg_wf r -> reg_wf (remove_pool r id).
Proof.
  intros [Hn Hi]. unfold remove_pool.
  destruct (List.find _ _) as [e|]; [|done].
  rewrite Forall_forall in Hi.
  destruct (pe_refcount e) as [|[|n]]; split; cbn; try done.
  - apply Forall_forall. intros e' He'.
    apply list_elem_of_In, filter_In in He' as [He' _].
    by apply Hi, list_elem_of_In.
  - apply Forall_forall. intros e' He'.
    apply list_elem_of_In, filter_In in He' as [He' _].
    by apply Hi, list_elem_of_In.
  - apply Forall_forall.
    intros e' He'. apply list_elem_of_In, in_map_iff in He' as (e0 & <- & He0).
    apply list_elem_of_In in He0. specialize (Hi e0 He0).
    by destruct (has_id _ e0).
Qed.

Lemma registry_after_wf h : reg_wf (registry_after h).
Proof.
  induction h as [|e h IH] using rev_ind.
  - split; cbn; [lia|constructor].
  - rewrite registry_after_snoc. destruct e; cbn; try done.
    + by apply store_pool_wf.
    + by apply remove_pool_wf.
Qed.

Section Pools.
Variable ffi : RuntimeFFI.
Hypothesis ffi_registry : poolCreate ffi = registry_poolCreate.

Lemma createPool_ok w config id :
  snd (store_pool (registry_after (trace w)) config) = id -> id <> 0%Z ->
  createPool ffi config w = (with_pool_added w config id, Ok (List.length (pools w))).
Proof.
  intros Hid Hnz. unfold createPool, call_poolCreate, bind, history, emit, ret. proj.
  rewrite ffi_registry. unfold registry_poolCreate. rewrite Hid.
  unfold INVALID_HANDLE. destruct (Z.eqb_spec id 0); [done|]. reflexivity.
Qed.

(** Opens of an identity that is already open: new handles on the same
    boundary pool. *)
Lemma open_all_again configs w es id k m :
  shared (registry_after (trace w)) es id k m -> id <> 0%Z ->
  Forall (fun c => dedup_key c = k) configs ->
  exists w',
    open_all ffi configs w =
      (w', Ok (List.seq (List.length (pools w)) (List.length configs))) /\
    pools w' =
      pools w ++ List.repeat {| mp_poolId := id; mp_closed := false |}
                   (List.length configs) /\
    shared (registry_after (trace w')) es id k (m + List.length configs) /\
    reg_created (registry_after (trace w')) = reg_created (registry_after (trace w)) /\
    reg_destroyed (registry_after (trace w')) = reg_destroyed (registry_after (trace w)).
Proof.
  intros Hsh Hnz Hall. revert w m Hsh.
  induction Hall as [|c configs Hc _ IH]; intros w m Hsh.
  - exists w. cbn. rewrite app_nil_r, Nat.add_0_r. done.
  - destruct (store_pool_again _ _ _ _ _ c Hsh Hc) as (r' & Hst & Hsh' & Hcr & Hds).
    cbn [open_all]. unfold bind at 1.
    rewrite (createPool_ok w c id); [|by rewrite Hst|done]. cbn iota.
    set (w1 := with_pool_added w c id).
    assert (Hr1 : registry_after (trace w1) = r').
    { change (trace w1) with (trace w ++ [EPoolCreate c]).
      rewrite registry_after_snoc. cbn [registry_step]. by rewrite Hst. }
    destruct (IH w1 (S m)) as (w' & Hrun & Hp & Hsh2 & Hcr2 & Hds2);
      [by rewrite Hr1|].
    exists w'. unfold bind at 1. rewrite Hrun. cbn iota. unfold ret.
    split; [|split; [|split; [|split]]].
    + cbn. rewrite length_app. cbn. by rewrite Nat.add_1_r.
    + rewrite Hp. cbn. by rewrite <- app_assoc.
    + cbn [List.length]. by rewrite Nat.add_succ_r.
    + rewrite Hcr2, Hr1. done.
    + rewrite Hds2, Hr1. done.
Qed.

Lemma mp_close_ok w p id :
  pools w !! p = Some {| mp_poolId := id; mp_closed := false |} ->
  mp_close p w = (with_pool_closed w p id, Ok tt).
Proof.
  intros Hp. unfold mp_close, bind at 1, get_pool. rewrite Hp. cbn.
  reflexivity.
Qed.

(** Closing [n] handles, at positions [base], [base + 1], ... *)
Lemma close_all_shared n base w es id k j :
  (forall i, i < n ->
     pools w !! (base + i) = Some {| mp_poolId := id; mp_closed := false |}) ->
  shared (registry_after (trace w)) es id k (n + S j) ->
  let w' := fst (close_all (List.seq base n) w) in
  snd (close_all (List.seq base n) w) = Ok tt /\
  shared (registry_after (trace w')) es id k (S j) /\
  reg_created (registry_after (trace w')) = reg_created (registry_after (trace w)) /\
  reg_destroyed (registry_after (trace w')) = reg_destroyed (registry_after (trace w)) /\
  (forall p, base + n <= p -> pools w' !! p = pools w !! p).
Proof.
  revert base w. induction n as [|n IH]; intros base w Hp Hsh; cbn zeta.
  - cbn. done.
  - cbn [List.seq]. unfold close_all. cbn [for_each]. unfold bind.
    rewrite (mp_close_ok w base id) by (rewrite <- (Nat.add_0_r base); apply Hp; lia).
    cbn iota. set (w1 := with_pool_closed w base id).
    replace (S n + S j) with (S (S (n + j))) in Hsh by lia.
    destruct (remove_pool_shared _ _ _ _ _ Hsh) as (Hsh1 & Hcr1 & Hds1).
    replace (S (n + j)) with (n + S j) in Hsh1 by lia.
    assert (Hr1 : registry_after (trace w1) = remove_pool (registry_after (trace w)) id).
    { change (trace w1) with (trace w ++ [EPoolClose id]).
      by rewrite registry_after_snoc. }
    destruct (IH (S base) w1) as (H0 & H1 & H2 & H3 & H4).
    + intros i Hi. cbn. rewrite list_lookup_insert_ne by lia.
      replace (S (base + i)) with (base + S i) by lia. apply Hp. lia.
    + by rewrite Hr1.
    + fold (close_all (List.seq (S base) n)). cbn zeta in *.
      split; [done|].
      split; [done|]. split; [by rewrite H2, Hr1|]. split; [by rewrite H3, Hr1|].
      intros p Hle. rewrite H4 by lia. cbn. apply list_lookup_insert_ne. lia.
Qed.

Lemma for_each_app_ok {A} (f : A -> M unit) (l1 l2 : list A) (w w1 : World) :
  for_each l1 f w = (w1, Ok tt) -> for_each (l1 ++ l2) f w = for_each l2 f w1.
Proof.
  revert w. induction l1 as [|x l1 IH]; intros w Hrun.
  - cbn in Hrun. by inversion Hrun.
  - cbn [app for_each] in *. unfold bind in *.
    destruct (f x w) as [w0 [[]|e]]; [by apply IH|done].
Qed.

Lemma lookup_opened (l : list MssqlPool) x n i :
  i < n -> (l ++ List.repeat x n) !! (List.length l + i) = Some x.
Proof.
  intros Hi. rewrite lookup_app_r by lia.
  replace (List.length l + i - List.length l) with i by lia.
  revert i Hi. induction n as [|n IH]; intros i Hi; [lia|].
  destruct i as [|i]; [done|]. cbn. apply IH. lia.
Qed.

(** C2: with the native registry of the design behind [poolCreate], opening
    [N >= 1] pools with configurations of one identity that is not open yet
    creates one boundary pool: every handle carries its id.  Closing the
    handles destroys nothing before the last close, which destroys that
    pool, once, and deregisters the identity. *)
Theorem shared_pool_destroyed_once w configs k :
  configs <> [] -> Forall (fun c => dedup_key c = k) configs ->
  key_registered (registry_after (trace w)) k = false ->
  let r0 := registry_after (trace w) in
  exists id handles w1,
    open_all ffi configs w = (w1, Ok handles) /\
    List.length handles = List.length configs /\
    NoDup handles /\
    (forall h, In h handles ->
       pools w1 !! h = Some {| mp_poolId := id; mp_closed := false |}) /\
    reg_created (registry_after (trace w1)) = reg_created r0 ++ [id] /\
    reg_destroyed (registry_after (trace w1)) = reg_destroyed r0 /\
    (forall j, j < List.length handles ->
       let w2 := fst (close_all (List.firstn j handles) w1) in
       reg_destroyed (registry_after (trace w2)) = reg_destroyed r0 /\
       refcount_of (registry_after (trace w2)) id = Some (List.length handles - j)) /\
    (let w3 := fst (close_all handles w1) in
     reg_destroyed (registry_after (trace w3)) = reg_destroyed r0 ++ [id] /\
     reg_created (registry_after (trace w3)) = reg_created r0 ++ [id] /\
     refcount_of (registry_after (trace w3)) id = None /\
     key_registered (registry_after (trace w3)) k = false).
Proof.
  intros Hne Hall Hfresh r0.
  destruct configs as [|c rest]; [done|]. inversion_clear Hall as [|? ? Hc Hrest].
  subst k. pose proof (registry_after_wf (trace w)) as Hwf. fold r0 in Hwf.
  destruct (store_pool_first r0 c Hwf Hfresh) as (r1 & Hst & Hsh1 & Hcr1 & Hds1).
  set (id := reg_next_id r0) in *. set (k := dedup_key c) in *.
  assert (Hnz : id <> 0%Z) by (pose proof (wf_next _ Hwf); unfold id; lia).
  set (wa := with_pool_added w c id).
  assert (Hra : registry_after (trace wa) = r1).
  { change (trace wa) with (trace w ++ [EPoolCreate c]).
    rewrite registry_after_snoc. cbn [registry_step]. fold r0. by rewrite Hst. }
  destruct (open_all_again rest wa (reg_entries r0) id k 1)
    as (w1 & Hrun & Hp & Hsh & Hcr & Hds); [by rewrite Hra|done|done|].
  rewrite Hra in Hcr, Hds.
  set (N := List.length rest) in *. set (base := List.length (pools w)).
  assert (Hpools : pools w1 =
            pools w ++ List.repeat {| mp_poolId := id; mp_closed := false |} (S N)).
  { rewrite Hp. cbn. by rewrite <- app_assoc. }
  assert (Hlook : forall i, i < S N ->
            pools w1 !! (base + i) = Some {| mp_poolId := id; mp_closed := false |}).
  { intros i Hi. rewrite Hpools. by apply lookup_opened. }
  exists id, (List.seq base (S N)), w1.
  split; [|split; [|split; [|split; [|split; [|split; [|split]]]]]].
  - cbn [open_all]. unfold bind at 1.
    rewrite (createPool_ok w c id); [|by fold r0; rewrite Hst|done]. cbn iota.
    fold wa. unfold bind at 1. rewrite Hrun. cbn iota. unfold ret.
    do 2 f_equal. fold base.
    replace (List.length (pools wa)) with (S base); [done|].
    unfold wa, with_pool_added. cbn [pools]. rewrite length_app. cbn. unfold base. lia.
  - by rewrite length_seq.
  - apply NoDup_ListNoDup, seq_NoDup.
  - intros h Hh. apply in_seq in Hh. replace h with (base + (h - base)) by lia.
    apply Hlook. lia.
  - by rewrite Hcr, Hcr1.
  - by rewrite Hds, Hds1.
  - intros j Hj. rewrite length_seq in Hj. rewrite length_seq. cbn zeta.
    assert (List.firstn j (List.seq base (S N)) = List.seq base j) as ->.
    { rewrite take_seq. f_equal. lia. }
    replace (1 + N) with (j + S (N - j)) in Hsh by lia.
    destruct (close_all_shared j base w1 _ _ _ _ (fun i Hi => Hlook i ltac:(lia)) Hsh)
      as (_ & Hs2 & _ & Hd2 & _).
    split; [by rewrite Hd2, Hds, Hds1|].
    rewrite (shared_refcount _ _ _ _ _ Hs2). f_equal. lia.
  - cbn zeta. rewrite seq_S.
    replace (1 + N) with (N + 1) in Hsh by lia.
    destruct (close_all_shared N base w1 _ _ _ _ (fun i Hi => Hlook i ltac:(lia)) Hsh)
      as (Hok & Hs2 & Hc2 & Hd2 & Hp2).
    set (m := close_all (List.seq base N) w1) in *.
    unfold close_all.
    rewrite (for_each_app_ok _ _ _ w1 (fst m));
      [|fold (close_all (List.seq base N) w1); fold m; destruct m; cbn in *; by subst].
    cbn [for_each]. unfold bind.
    assert (Hlast : pools (fst m) !! (base + N) =
              Some {| mp_poolId := id; mp_closed := false |}).
    { rewrite Hp2 by lia. apply Hlook. lia. }
    rewrite (mp_close_ok _ _ _ Hlast). cbn [fst ret].
    set (w3 := with_pool_closed (fst m) (base + N) id).
    assert (Hr3 : registry_after (trace w3) =
              remove_pool (registry_after (trace (fst m))) id).
    { change (trace w3) with (trace (fst m) ++ [EPoolClose id]).
      by rewrite registry_after_snoc. }
    destruct (remove_pool_last _ _ _ _ Hs2) as (He3 & Hc3 & Hd3).
    rewrite Hr3. split; [|split; [|split]].
    + by rewrite Hd3, Hd2, Hds, Hds1.
    + by rewrite Hc3, Hc2, Hcr, Hcr1.
    + unfold refcount_of. rewrite He3.
      destruct Hsh1 as [_ Hes].
      assert (List.find (has_id id) (reg_entries r0) = None) as ->; [|done].
      rewrite <- (app_nil_r (reg_entries r0)).
      rewrite (find_app_none _ _ []); [done|].
      eapply Forall_impl; [exact Hes|]. by intros e [_ ?].
    + unfold key_registered. rewrite He3. exact Hfresh.
Qed.

End Pools.

(* ===================================================================== *)
(** * The command codec *)
(* ===================================================================== *)

Section Codec.
Variable plat : Platform.



(** A command on an open connection whose parameters do not serialize
    throws the [RangeError] of the codec: the boundary is not called and
    nothing changes. *)
Lemma serializeCommand_throws sql params opts cause w :
  serializeParams plat params = inl cause ->
  serializeCommand plat sql params opts w = (w, Throw (ErrRange cause)).
Proof. intros H. unfold serializeCommand. by rewrite H. Qed.

Lemma serializeCommand_returns sql params opts ps w :
  serializeParams plat params = inr ps ->
  serializeCommand plat sql params opts w =
    (w, Ok (stringifyCommand plat (buildCommand w sql ps opts))).
Proof. intros H. unfold serializeCommand. by rewrite H. Qed.



End Codec.

(* ===================================================================== *)
(** * The properties on the concrete installation *)
(* ===================================================================== *)

Lemma w_stream_tidy : tidy w_stream.
Proof.
  apply queryStream_tidy. intros s q cb Hs. vm_compute in Hs. by destruct s.
Qed.

(** Disposing the connection of the session asynchronously releases it to
    its pool; disposing it synchronously, with the transaction still active,
    disconnects it. *)
Lemma dispose_releases_or_evicts_witness :
  exists evs evs',
    trace (run (cn_asyncDispose demo_ffi 0) w_stream) = trace w_stream ++ evs /\
    handoffs evs = [EPoolRelease 1 7] /\
    trace (run (cn_dispose demo_ffi 0) w_stream) = trace w_stream ++ evs' /\
    handoffs evs' = [EDisconnect 7].
Proof.
  destruct (dispose_releases_or_evicts demo_ffi w_stream 0 demo_conn)
    as [(evs & w1 & H1 & H2 & H3) (evs' & w2 & H4 & H5 & H6)];
    [vm_compute; reflexivity..|].
  exists evs, evs'. unfold run. rewrite H1, H4. cbn [fst].
  split; [exact H2|]. split; [exact H3|]. split; [exact H5|].
  apply H6. right. right. exists 0, demo_tx.
  split; [by left|]. split; vm_compute; reflexivity.
Defined.

(** Three opens of one identity and three closes. *)
Lemma shared_pool_destroyed_once_witness :
  exists id handles w1,
    open_all demo_ffi [demo_config; demo_config_tuned; demo_config] empty_world
      = (w1, Ok handles) /\
    List.length handles = 3 /\
    reg_created (registry_after (trace w1)) = [id] /\
    reg_destroyed (registry_after (trace w1)) = [] /\
    reg_destroyed
      (registry_after (trace (run (close_all (List.firstn 2 handles)) w1))) = [] /\
    reg_destroyed (registry_after (trace (run (close_all handles) w1))) = [id].
Proof.
  destruct (shared_pool_destroyed_once demo_ffi eq_refl empty_world
              [demo_config; demo_config_tuned; demo_config]
              (dedup_key demo_config))
    as (id & handles & w1 & Hopen & Hlen & _ & _ & Hcr & Hds & Hpart & Hall & _).
  - discriminate.
  - repeat constructor.
  - reflexivity.
  - exists id, handles, w1.
    split; [exact Hopen|]. split; [exact Hlen|].
    split; [exact Hcr|]. split; [exact Hds|].
    split; [|exact Hall].
    apply (Hpart 2). rewrite Hlen. cbn. lia.
Defined.

(** After [tx.commit()] every operation bound to the transaction is
    refused. *)
Lemma inactive_transaction_fails_fast_witness :
  commit demo_ffi 0 w_committed = (w_committed, Throw ErrTransactionInactive) /\
  rollback demo_ffi 0 w_committed = (w_committed, Throw ErrTransactionInactive) /\
  query demo_ffi demo_platform 0 "UPDATE t SET a = 1" None (Some in_tx) w_committed
    = (w_committed, Throw ErrTransactionInactive).
Proof.
  destruct (inactive_transaction_fails_fast demo_ffi demo_platform w_committed 0
              (tx_committed demo_tx)) as [_ H]; [vm_compute; reflexivity|].
  destruct H as (_ & Hc & Hr & Hq); [vm_compute; reflexivity|].
  split; [exact Hc|]. split; [exact Hr|].
  destruct (Hq 0 demo_conn "UPDATE t SET a = 1" None in_tx) as (Hquery & _);
    [vm_compute; reflexivity..|].
  exact Hquery.
Defined.

(** A command issued with a transaction that has ended is refused with the
    error of the connection when the connection has been closed; issued
    through the pool, it is refused only after a connection has been
    acquired, and released again, through the boundary. *)
Lemma inactive_transaction_other_outcomes :
  ~ (forall ffi plat w c cn t x sql params o,
       conns w !! c = Some cn -> txs w !! t = Some x -> isActive x = false ->
       co_transaction o = Some t ->
       exists w',
         query ffi plat c sql params (Some o) w
           = (w', Throw ErrTransactionInactive)) /\
  ~ (forall ffi plat w p mp t x sql params o,
       pools w !! p = Some mp -> txs w !! t = Some x -> isActive x = false ->
       co_transaction o = Some t ->
       trace (run (mp_query ffi plat p sql params (Some o)) w) = trace w).
Proof.
  split; intros H.
  - destruct (H demo_ffi demo_platform w_closed 0
                (conn_disposed
                   (conn_with_transactions (conn_with_streams demo_conn []) []))
                0 (ended demo_tx) "SELECT 1" None in_tx)
      as (w' & Hq); [vm_compute; reflexivity..|].
    vm_compute in Hq. discriminate Hq.
  - specialize (H demo_ffi demo_platform w_committed 0
                  {| mp_poolId := 1; mp_closed := false |}
                  0 (tx_committed demo_tx) "SELECT 1" None in_tx).
    vm_compute in H. specialize (H eq_refl eq_refl eq_refl eq_refl).
    discriminate H.
Qed.



(** In the session, the cursor of the stream is closed before the rollback
    of its transaction, whether the transaction or its connection is
    disposed. *)
Lemma cursors_closed_before_rollback_witness :
  (exists closes w',
     tx_asyncDispose demo_ffi 0 w_stream = (w', Ok tt) /\
     trace w' = trace w_stream ++ closes ++ [ERollback 7 "u"] /\
     Forall close_event closes /\
     In (EStreamClose 41) closes /\ ~ In (ERollback 7 "u") closes) /\
  (exists pre post w',
     cn_asyncDispose demo_ffi 0 w_stream = (w', Ok tt) /\
     trace w' = trace w_stream ++ pre ++ ERollback 7 "u" :: post /\
     Forall cleanup_event pre /\
     Forall (fun e => cleanup_event e \/ handoff e = true) post /\
     In (EStreamClose 41) pre /\
     ~ In (ERollback 7 "u") pre /\ ~ In (ERollback 7 "u") post).
Proof.
  destruct (cursors_closed_before_rollback demo_ffi w_stream 0 demo_tx 0 demo_stream)
    as [Htx Hcn];
    [vm_compute; reflexivity | reflexivity | by left | vm_compute; reflexivity
    | reflexivity |].
  split; [exact Htx|].
  destruct (Hcn 0 demo_conn)
    as (pre & post & w' & Hrun & Htr & Hpre & Hpost & Hin & Hno);
    [vm_compute; reflexivity | reflexivity | by left | exact w_stream_tidy |].
  exists pre, post, w'.
  split; [exact Hrun|]. split; [exact Htr|]. split; [exact Hpre|].
  split; [exact Hpost|]. split; [exact Hin|].
  apply Hno. intros t' x' [<-|[]] Hne. by destruct Hne.
Defined.

(** The cursor of the session is empty: the first step of an iterator
    yields no row and leaves the stream spent, and nothing a caller does
    afterwards yields a row or asks the boundary for one. *)
Lemma closed_or_exhausted_yields_nothing_witness :
  let w' := fst (gen_next demo_ffi 0 w_iterating) in
  no_row (snd (gen_next demo_ffi 0 w_iterating)) /\ spent 0 w' /\
  forall ops,
    Forall no_row (snd (run_ops demo_ffi 0 ops w')) /\
    silent w' (fst (run_ops demo_ffi 0 ops w')).
Proof.
  destruct (closed_or_exhausted_yields_nothing demo_ffi w_iterating 0 demo_stream)
    as [_ H]; [vm_compute; reflexivity|].
  destruct H as [Hgen _]; [reflexivity..|].
  apply (Hgen 0 {| g_stream := 0; g_state := GenFresh |});
    [vm_compute; reflexivity | reflexivity | discriminate].
Defined.

(** Closing the watched stream of the session runs the caller's callback
    once; closing again does nothing, and a callback registered afterwards
    runs at once. *)
Lemma close_callbacks_exactly_once_witness :
  exists w',
    close demo_ffi 0 w_watched = (w', Ok tt) /\
    trace w' = trace w_watched ++ [EStreamClose 41; ECallback 5] /\
    close demo_ffi 0 w' = (w', Ok tt) /\
    trace (fst (_onClose 0 (CbOpaque 9 false) w')) = trace w' ++ [ECallback 9].
Proof.
  destruct (close_callbacks_exactly_once demo_ffi w_watched 0 watched_stream)
    as [_ H]; [vm_compute; reflexivity|].
  destruct H as (w' & Hrun & Htr & _ & Hagain & _ & Hcb); [reflexivity..|].
  exists w'. split; [exact Hrun|]. split; [exact Htr|]. split; [exact Hagain|].
  apply (Hcb (CbOpaque 9 false)).
Defined.

(** When the native [streamClose] raises, [close] marks the stream closed
    and raises before any callback has run; no later [close] runs them. *)
Lemma close_callbacks_never_run :
  ~ (forall ffi w s q tag raises,
       streams w !! s = Some q -> closed q = false ->
       In (CbOpaque tag raises) (onCloseCallbacks q) ->
       In (ECallback tag) (trace (run (close ffi s) (run (close ffi s) w)))).
Proof.
  intros H.
  specialize (H crashing_ffi w_watched 0 watched_stream 5 false).
  vm_compute in H.
  destruct H as [H|[H|[H|[H|[H|[]]]]]];
    [reflexivity | reflexivity | by right; right; left | discriminate H..].
Qed.

(** The server refuses the commit: the transaction stays as it was, and a
    rollback afterwards still reaches the boundary. *)
Lemma failed_commit_or_rollback_keeps_transaction_active_witness :
  exists w',
    commit flaky_ffi 0 w_stream = (w', Throw (ErrCommitFailed "deadlock")) /\
    txs w' = txs w_stream /\
    trace w' = trace w_stream ++ [ECommit 7 "u"] /\
    trace (fst (rollback flaky_ffi 0 w')) = trace w' ++ [ERollback 7 "u"].
Proof.
  destruct (failed_commit_or_rollback_keeps_transaction_active flaky_ffi w_stream 0
              demo_tx) as (Hcommit & _); [vm_compute; reflexivity | reflexivity |].
  destruct (Hcommit "deadlock") as (w' & Hrun & Htx & Htr & Hrb & _);
    [reflexivity|].
  exists w'. split; [exact Hrun|]. split; [exact Htx|]. split; [exact Htr|].
  exact Hrb.
Defined.




Lemma ensureOpen_accepts w c x opts :
  conns w !! c = Some x -> disposed x = false -> admissible w opts ->
  ensureOpen c opts w = (w, Ok tt).
Proof.
  intros Hc Hd Ha. unfold ensureOpen, bind. rewrite (get_conn_ok _ _ _ Hc), Hd.
  destruct opts as [o|]; [|done]. destruct Ha as [Hs Ht].
  unfold aborted in Hs.
  assert (Hsig : match co_signal o with
                 | Some true => throw ErrAborted
                 | _ => ret tt
                 end w = (w, Ok tt)).
  { by destruct (co_signal o) as [[|]|]. }
  rewrite Hsig. destruct (co_transaction o) as [t|]; [|done].
  destruct Ht as (y & Hy & Hact).
  unfold _ensureActive, bind. by rewrite (get_tx_ok _ _ _ Hy), Hact.
Qed.

(** A command that [#ensureOpen] lets through and whose parameters do not
    serialize throws the [RangeError] of the codec: nothing reaches the
    boundary and the store is as it was. *)
Lemma unserializable_command ffi plat w c x sql params opts cause :
  conns w !! c = Some x ->
  ensureOpen c opts w = (w, Ok tt) ->
  serializeParams plat params = inl cause ->
  query ffi plat c sql params opts w = (w, Throw (ErrRange cause)) /\
  execute ffi plat c sql params opts w = (w, Throw (ErrRange cause)) /\
  exec ffi plat c sql params opts w = (w, Throw (ErrRange cause)) /\
  queryStream ffi plat c sql params opts w = (w, Throw (ErrRange cause)).
Proof.
  intros Hc Hopen Hps.
  pose proof (serializeCommand_throws plat sql params opts cause w Hps) as Hser.
  repeat split.
  all: unfold query, execute, exec, queryStream.
  all: unfold bind at 1; rewrite Hopen; cbn iota.
  all: unfold bind at 1; rewrite (get_conn_ok _ _ _ Hc); cbn iota.
  all: unfold bind at 1; by rewrite Hser.
Qed.

Section Disposing.
Variable ffi : RuntimeFFI.

(** The three ways to dispose of an open connection, with the store that
    the cleanup leaves. *)
Lemma cn_asyncDispose_cleaning w c x :
  conns w !! c = Some x -> disposed x = false ->
  exists evs w2,
    cleaning evs (with_conn w c (conn_disposed x)) w2 /\
    cn_asyncDispose ffi c w = (with_event w2 (handoff_of x false), Ok tt).
Proof.
  intros Hc Hd. unfold cn_asyncDispose, bind at 1. rewrite (get_conn_ok _ _ _ Hc).
  cbn iota. rewrite Hd. cbn [negb].
  unfold bind at 1. rewrite (set_disposed_ok _ _ _ Hc). cbn iota.
  set (wd := with_conn w c (conn_disposed x)) in *.
  assert (Hcd : conns wd !! c = Some (conn_disposed x)).
  { cbn. by eapply lookup_insert_same. }
  destruct (cleanup_spec ffi wd c _ Hcd) as (e1 & e2 & w2 & Hrun & Hcl & _).
  unfold bind at 1. rewrite Hrun. cbn iota.
  destruct (cg_conns _ _ _ Hcl c _ Hcd) as (x1 & Hx1 & Hi & Hp & _ & He).
  rewrite (release_or_disconnect_ok _ _ _ _ Hx1).
  exists (e1 ++ e2), w2. split; [done|].
  unfold handoff_of. cbn in Hi, Hp, He. by rewrite Hi, Hp, He.
Qed.

Lemma cn_close_cleaning w c x :
  conns w !! c = Some x -> disposed x = false ->
  exists evs w2,
    cleaning evs (with_conn w c (conn_disposed x)) w2 /\
    cn_close ffi c w = (with_event w2 (EDisconnect (connId x)), Ok tt).
Proof.
  intros Hc Hd. unfold cn_close, bind at 1. rewrite (get_conn_ok _ _ _ Hc).
  cbn iota. rewrite Hd. cbn [negb].
  unfold bind at 1. rewrite (set_disposed_ok _ _ _ Hc). cbn iota.
  set (wd := with_conn w c (conn_disposed x)) in *.
  assert (Hcd : conns wd !! c = Some (conn_disposed x)).
  { cbn. by eapply lookup_insert_same. }
  destruct (cleanup_spec ffi wd c _ Hcd) as (e1 & e2 & w2 & Hrun & Hcl & _).
  unfold bind at 1. rewrite Hrun. cbn iota.
  by exists (e1 ++ e2), w2.
Qed.

Lemma cn_dispose_cleaning w c x :
  conns w !! c = Some x -> disposed x = false ->
  exists evs b w2,
    cleaning evs (with_conn w c (conn_disposed x)) w2 /\
    Forall close_event evs /\
    cn_dispose ffi c w = (with_event w2 (handoff_of x b), Ok tt).
Proof.
  intros Hc Hd. unfold cn_dispose, bind at 1. rewrite (get_conn_ok _ _ _ Hc).
  cbn iota. rewrite Hd. cbn [negb].
  unfold bind at 1. rewrite (set_disposed_ok _ _ _ Hc). cbn iota.
  set (wd := with_conn w c (conn_disposed x)).
  assert (Hcd : conns wd !! c = Some (conn_disposed x)).
  { cbn. by eapply lookup_insert_same. }
  destruct (syncCleanup_spec ffi wd c _ Hcd) as (evs & b & w1 & Hrun & Hcl & Hev & _).
  unfold bind at 1. rewrite Hrun. cbn iota.
  destruct (cg_conns _ _ _ Hcl c _ Hcd) as (x1 & Hx1 & Hi & Hp & _ & He).
  rewrite (release_or_disconnect_ok _ _ _ _ Hx1).
  exists evs, b, w1. split; [done|]. split; [done|].
  unfold handoff_of. cbn in Hi, Hp, He. by rewrite Hi, Hp, He.
Qed.

(** After a disposal the connection is marked, so that no disposal does
    anything again. *)
Lemma disposed_for_good evs w c x w2 e :
  conns w !! c = Some x ->
  cleaning evs (with_conn w c (conn_disposed x)) w2 ->
  let w' := with_event w2 e in
  (exists x', conns w' !! c = Some x' /\ disposed x' = true) /\
  cn_close ffi c w' = (w', Ok tt) /\
  cn_asyncDispose ffi c w' = (w', Ok tt) /\
  cn_dispose ffi c w' = (w', Ok tt).
Proof.
  intros Hc Hcl w'.
  assert (Hcd : conns (with_conn w c (conn_disposed x)) !! c = Some (conn_disposed x)).
  { cbn. by eapply lookup_insert_same. }
  destruct (cg_conns _ _ _ Hcl c _ Hcd) as (x1 & Hx1 & _ & _ & Hdis & _).
  assert (Hw : conns w' !! c = Some x1) by done.
  split; [by exists x1|].
  unfold cn_close, cn_asyncDispose, cn_dispose, bind.
  rewrite (get_conn_ok _ _ _ Hw), Hdis. by cbn.
Qed.

(** The asynchronous disposal of a connection that tracks nothing. *)
Lemma asyncDispose_idle w c x :
  conns w !! c = Some x -> disposed x = false ->
  cn_streams x = [] -> cn_transactions x = [] ->
  exists w',
    cn_asyncDispose ffi c w = (w', Ok tt) /\
    trace w' = trace w ++ [handoff_of x false] /\
    cn_asyncDispose ffi c w' = (w', Ok tt) /\
    streams w' = streams w.
Proof.
  intros Hc Hd Hs Ht. unfold cn_asyncDispose at 1, bind at 1.
  rewrite (get_conn_ok _ _ _ Hc). cbn iota. rewrite Hd. cbn [negb].
  unfold bind at 1. rewrite (set_disposed_ok _ _ _ Hc). cbn iota.
  set (wd := with_conn w c _).
  assert (Hcd : conns wd !! c = Some (conn_disposed x)).
  { cbn. by eapply lookup_insert_same. }
  unfold bind at 1. unfold cleanup, bind at 1. rewrite (get_conn_ok _ _ _ Hcd).
  cbn iota. cbn [cn_transactions conn_disposed]. rewrite Ht.
  unfold bind at 1. cbn [put_conn]. cbn [for_each]. unfold bind at 1. cbn [ret].
  set (w1 := {| conns := _ |}).
  assert (Hc1 : conns w1 !! c = Some (conn_with_transactions (conn_disposed x) [])).
  { cbn. by eapply lookup_insert_same. }
  unfold bind at 1. rewrite (get_conn_ok _ _ _ Hc1). cbn iota.
  cbn [cn_streams conn_with_transactions conn_disposed]. rewrite Hs.
  unfold bind at 1. cbn [put_conn for_each ret].
  set (w2 := {| conns := _ |}).
  assert (Hc2 : conns w2 !! c =
            Some (conn_with_streams (conn_with_transactions (conn_disposed x) []) [])).
  { cbn. by eapply lookup_insert_same. }
  rewrite (release_or_disconnect_ok _ _ _ _ Hc2).
  exists (with_event w2 (handoff_of x false)).
  split; [reflexivity|]. split; [done|]. split; [|done].
  assert (Hc3 : conns (with_event w2 (handoff_of x false)) !! c =
            Some (conn_with_streams (conn_with_transactions (conn_disposed x) []) []))
    by done.
  unfold cn_asyncDispose, bind.
  by rewrite (get_conn_ok _ _ _ Hc3).
Qed.

(** [close()] of a connection that tracks nothing. *)
Lemma close_idle w c x :
  conns w !! c = Some x -> disposed x = false ->
  cn_streams x = [] -> cn_transactions x = [] ->
  exists w',
    cn_close ffi c w = (w', Ok tt) /\
    trace w' = trace w ++ [EDisconnect (connId x)] /\
    streams w' = streams w.
Proof.
  intros Hc Hd Hs Ht. unfold cn_close at 1, bind at 1.
  rewrite (get_conn_ok _ _ _ Hc). cbn iota. rewrite Hd. cbn [negb].
  unfold bind at 1. rewrite (set_disposed_ok _ _ _ Hc). cbn iota.
  set (wd := with_conn w c _).
  assert (Hcd : conns wd !! c = Some (conn_disposed x)).
  { cbn. by eapply lookup_insert_same. }
  unfold bind at 1. unfold cleanup, bind at 1. rewrite (get_conn_ok _ _ _ Hcd).
  cbn iota. cbn [cn_transactions conn_disposed]. rewrite Ht.
  unfold bind at 1. cbn [put_conn]. cbn [for_each]. unfold bind at 1. cbn [ret].
  set (w1 := {| conns := _ |}).
  assert (Hc1 : conns w1 !! c = Some (conn_with_transactions (conn_disposed x) [])).
  { cbn. by eapply lookup_insert_same. }
  unfold bind at 1. rewrite (get_conn_ok _ _ _ Hc1). cbn iota.
  cbn [cn_streams conn_with_transactions conn_disposed]. rewrite Hs.
  unfold bind at 1. cbn [put_conn for_each ret emit].
  eexists. split; [reflexivity|]. by split.
Qed.

End Disposing.

Section Closing.
Variable ffi : RuntimeFFI.
Variable plat : Platform.

Lemma disposed_inert w c x :
  conns w !! c = Some x -> disposed x = true ->
  cn_close ffi c w = (w, Ok tt) /\
  cn_disconnect ffi c w = (w, Ok tt) /\
  cn_asyncDispose ffi c w = (w, Ok tt) /\
  cn_dispose ffi c w = (w, Ok tt).
Proof.
  intros Hc Hd.
  unfold cn_disconnect, cn_close, cn_asyncDispose, cn_dispose, bind.
  rewrite (get_conn_ok _ _ _ Hc), Hd. by cbn.
Qed.

(** [close()] and [disconnect()] of an open connection never give it back
    to a pool: after the cleanup, whose events are closes of streams and
    rollbacks only, the connection is disconnected, pooled or not and
    whatever its error flag.  The connection is then disposed, and closing
    or disposing it again does nothing. *)
Theorem close_always_disconnects w c x :
  conns w !! c = Some x -> disposed x = false ->
  exists evs w',
    cn_close ffi c w = (w', Ok tt) /\
    cn_disconnect ffi c w = (w', Ok tt) /\
    trace w' = trace w ++ evs ++ [EDisconnect (connId x)] /\
    Forall cleanup_event evs /\
    handoffs (evs ++ [EDisconnect (connId x)]) = [EDisconnect (connId x)] /\
    (exists x', conns w' !! c = Some x' /\ disposed x' = true) /\
    cn_close ffi c w' = (w', Ok tt) /\
    cn_asyncDispose ffi c w' = (w', Ok tt) /\
    cn_dispose ffi c w' = (w', Ok tt).
Proof.
  intros Hc Hd.
  destruct (cn_close_cleaning ffi w c x Hc Hd) as (evs & w2 & Hcl & Hrun).
  exists evs. eexists. split; [exact Hrun|]. split; [exact Hrun|]. split.
  { cbn. rewrite (cg_trace _ _ _ Hcl). cbn. by rewrite <- app_assoc. }
  split; [apply Hcl|]. split.
  { by rewrite handoffs_app, (handoffs_cleanup _ (cg_events _ _ _ Hcl)). }
  by apply (disposed_for_good ffi evs w c x w2).
Qed.

(** On a disposed connection every command and [beginTransaction] is
    rejected with [Connection is closed]; nothing reaches the boundary and
    the store is unchanged. *)
Theorem disposed_connection_rejects w c x :
  conns w !! c = Some x -> disposed x = true ->
  forall sql params opts level,
    query ffi plat c sql params opts w = (w, Throw ErrConnectionClosed) /\
    execute ffi plat c sql params opts w = (w, Throw ErrConnectionClosed) /\
    exec ffi plat c sql params opts w = (w, Throw ErrConnectionClosed) /\
    queryStream ffi plat c sql params opts w = (w, Throw ErrConnectionClosed) /\
    beginTransaction ffi plat c level w = (w, Throw ErrConnectionClosed).
Proof.
  intros Hc Hd sql params opts level.
  assert (He : forall o, ensureOpen c o w = (w, Throw ErrConnectionClosed)).
  { intros o. unfold ensureOpen, bind. by rewrite (get_conn_ok _ _ _ Hc), Hd. }
  unfold query, execute, exec, queryStream, beginTransaction.
  repeat split; unfold bind at 1; by rewrite He.
Qed.

End Closing.

Section Failing.
Variable ffi : RuntimeFFI.
Variable plat : Platform.

Lemma flagged_evicted w c x :
  conns w !! c = Some (conn_failed x) -> disposed x = false ->
  evicted_on_dispose ffi c x w.
Proof.
  intros Hc Hd. split; [done|]. split.
  - destruct (cn_asyncDispose_spec ffi w c _ Hc Hd)
      as (e1 & e2 & w' & Hrun & Htr & Hev & _).
    exists ((e1 ++ e2) ++ [handoff_of (conn_failed x) false]), w'.
    split; [done|]. split; [done|].
    rewrite handoffs_app, (handoffs_cleanup _ Hev). unfold handoff_of. cbn.
    by destruct (poolId x).
  - destruct (cn_dispose_spec ffi w c _ Hc Hd) as (evs & b & w' & Hrun & Htr & Hev & _).
    exists (evs ++ [handoff_of (conn_failed x) b]), w'.
    split; [done|]. split; [done|].
    rewrite handoffs_app, handoffs_cleanup.
    + unfold handoff_of. cbn. by destruct (poolId x).
    + eapply Forall_impl; [exact Hev|]. apply close_cleanup_event.
Qed.

Lemma set_hasError_ok w c x :
  conns w !! c = Some x ->
  set_hasError c w = (with_conn w c (conn_failed x), Ok tt).
Proof. intros Hc. unfold set_hasError, bind. by rewrite (get_conn_ok _ _ _ Hc). Qed.

(** When the boundary answers null to a command that [#ensureOpen] has
    let through and whose parameters serialize ([query], [execute],
    [exec]), or opens no cursor ([queryStream]), the command asks the
    boundary for its last error, right after the refused call, and throws an
    error whose message is that answer, or the default message of the
    command when there is none.  It flags the connection: both disposals
    then disconnect it, also when it belongs to a pool.  A failed
    [queryStream] creates no stream. *)
Theorem failed_command_evicts w c x sql params ps opts :
  conns w !! c = Some x -> disposed x = false -> admissible w opts ->
  serializeParams plat params = inr ps ->
  let cmd := stringifyCommand plat (buildCommand w sql ps opts) in
  let last e := lastError ffi (trace w ++ [e]) (connId x) in
  (ffi_query ffi (trace w) (connId x) cmd = None ->
   let e := EQuery (connId x) cmd in
   exists w1,
     query ffi plat c sql params opts w
       = (w1, Throw (ErrCommand (match last e with
                                 | Some message => message
                                 | None => "Query failed"
                                 end))) /\
     trace w1 = trace w ++ [e; ELastError (connId x)] /\
     evicted_on_dispose ffi c x w1) /\
  (executeNonquery ffi (trace w) (connId x) cmd = None ->
   let e := EExecuteNonquery (connId x) cmd in
   exists w1,
     execute ffi plat c sql params opts w
       = (w1, Throw (ErrCommand (match last e with
                                 | Some message => message
                                 | None => "Execute failed"
                                 end))) /\
     trace w1 = trace w ++ [e; ELastError (connId x)] /\
     evicted_on_dispose ffi c x w1) /\
  (ffi_exec ffi (trace w) (connId x) cmd = None ->
   let e := EExec (connId x) cmd in
   exists w1,
     exec ffi plat c sql params opts w
       = (w1, Throw (ErrCommand (match last e with
                                 | Some message => message
                                 | None => "Exec failed"
                                 end))) /\
     trace w1 = trace w ++ [e; ELastError (connId x)] /\
     evicted_on_dispose ffi c x w1) /\
  (ffi_queryStream ffi (trace w) (connId x) cmd = INVALID_HANDLE ->
   let e := EQueryStream (connId x) cmd in
   exists w1,
     queryStream ffi plat c sql params opts w
       = (w1, Throw (ErrCommand (match last e with
                                 | Some message => message
                                 | None => "Failed to open stream"
                                 end))) /\
     trace w1 = trace w ++ [e; ELastError (connId x)] /\
     streams w1 = streams w /\
     evicted_on_dispose ffi c x w1).
Proof.
  intros Hc Hd Hadm Hps cmd last.
  pose proof (ensureOpen_accepts _ _ _ _ Hc Hd Hadm) as Hopen.
  pose proof (serializeCommand_returns plat sql params opts ps w Hps) as Hser.
  fold cmd in Hser.
  assert (Hflag : forall e,
    set_hasError c (with_event w e) =
      (with_conn (with_event w e) c (conn_failed x), Ok tt)).
  { intros e. by apply set_hasError_ok. }
  assert (Hev : forall e1 e2,
    evicted_on_dispose ffi c x
      (with_event (with_conn (with_event w e1) c (conn_failed x)) e2)).
  { intros e1 e2. apply flagged_evicted; [|done]. cbn. by eapply lookup_insert_same. }
  assert (Htr : forall e1 e2,
    trace (with_event (with_conn (with_event w e1) c (conn_failed x)) e2)
      = trace w ++ [e1; e2]).
  { intros e1 e2. cbn. by rewrite <- app_assoc. }
  split; [|split; [|split]]; intros Hfail e.
  - unfold query. unfold bind at 1. rewrite Hopen. cbn iota.
    unfold bind at 1. rewrite (get_conn_ok _ _ _ Hc). cbn iota.
    unfold bind at 1. rewrite Hser. cbn iota.
    unfold bind at 1. unfold call_query, bind at 1. cbn [history].
    unfold bind at 1. cbn [emit ret]. rewrite Hfail.
    unfold bind at 1.
    change (set_hasError c _) with (set_hasError c (with_event w e)).
    rewrite Hflag. cbn iota.
    eexists. split; [reflexivity|]. split; [apply Htr|apply Hev].
  - unfold execute. unfold bind at 1. rewrite Hopen. cbn iota.
    unfold bind at 1. rewrite (get_conn_ok _ _ _ Hc). cbn iota.
    unfold bind at 1. rewrite Hser. cbn iota.
    unfold bind at 1. unfold call_executeNonquery, bind at 1. cbn [history].
    unfold bind at 1. cbn [emit ret]. rewrite Hfail.
    unfold bind at 1.
    change (set_hasError c _) with (set_hasError c (with_event w e)).
    rewrite Hflag. cbn iota.
    eexists. split; [reflexivity|]. split; [apply Htr|apply Hev].
  - unfold exec. unfold bind at 1. rewrite Hopen. cbn iota.
    unfold bind at 1. rewrite (get_conn_ok _ _ _ Hc). cbn iota.
    unfold bind at 1. rewrite Hser. cbn iota.
    unfold bind at 1. unfold call_exec, bind at 1. cbn [history].
    unfold bind at 1. cbn [emit ret]. rewrite Hfail.
    unfold bind at 1.
    change (set_hasError c _) with (set_hasError c (with_event w e)).
    rewrite Hflag. cbn iota.
    eexists. split; [reflexivity|]. split; [apply Htr|apply Hev].
  - unfold queryStream. unfold bind at 1. rewrite Hopen. cbn iota.
    unfold bind at 1. rewrite (get_conn_ok _ _ _ Hc). cbn iota.
    unfold bind at 1. rewrite Hser. cbn iota.
    unfold bind at 1. unfold call_queryStream, bind at 1. cbn [history].
    unfold bind at 1. cbn [emit ret]. rewrite Hfail. cbn [Z.eqb INVALID_HANDLE].
    unfold bind at 1.
    change (set_hasError c _) with (set_hasError c (with_event w e)).
    rewrite Hflag. cbn iota.
    eexists. split; [reflexivity|]. split; [apply Htr|]. split; [done|apply Hev].
Qed.

End Failing.

Section Beginning.
Variable ffi : RuntimeFFI.
Variable plat : Platform.

Lemma set_add_In x l : In x (set_add x l).
Proof.
  unfold set_add. destruct (existsb _ l) eqn:He.
  - apply existsb_exists in He as (y & Hy & Heq). apply Nat.eqb_eq in Heq. by subst.
  - apply in_or_app. right. by left.
Qed.

(** [beginTransaction] on an open connection makes the transaction object
    before it calls the boundary.  When the boundary accepts, the
    transaction is returned, active and without streams, and the connection
    tracks it; when the boundary answers with an error, that error is
    thrown and the connection is flagged, so that both disposals
    disconnect it. *)
Theorem beginTransaction_tracks_or_flags w c x level :
  conns w !! c = Some x -> disposed x = false ->
  let t := List.length (txs w) in
  let id := randomUUID plat (trace w) t in
  let json := stringifyTx plat id level in
  let fresh := {| tx_id := id; isolation := level; committed := false;
                  rolledBack := false; tx_connId := connId x;
                  tx_streams := [] |} in
  match ffi_beginTransaction ffi (trace w) (connId x) json with
  | None =>
      exists w',
        beginTransaction ffi plat c level w = (w', Ok t) /\
        trace w' = trace w ++ [EBeginTransaction (connId x) json] /\
        txs w' = txs w ++ [fresh] /\
        isActive fresh = true /\
        conns w' !! c =
          Some (conn_with_transactions x (set_add t (cn_transactions x))) /\
        In t (set_add t (cn_transactions x))
  | Some err =>
      exists w',
        beginTransaction ffi plat c level w = (w', Throw (ErrBeginFailed err)) /\
        trace w' = trace w ++ [EBeginTransaction (connId x) json] /\
        evicted_on_dispose ffi c x w'
  end.
Proof.
  intros Hc Hd t id json fresh.
  assert (Hopen : ensureOpen c None w = (w, Ok tt)).
  { unfold ensureOpen, bind. by rewrite (get_conn_ok _ _ _ Hc), Hd. }
  set (w1 := {| conns := conns w; txs := txs w ++ [fresh]; streams := streams w;
                gens := gens w; pools := pools w;
                trace := trace w ++ [EBeginTransaction (connId x) json] |}).
  assert (Hc1 : conns w1 !! c = Some x) by done.
  assert (Hrun : beginTransaction ffi plat c level w =
    match ffi_beginTransaction ffi (trace w) (connId x) json with
    | Some e => (set_hasError c ;; throw (ErrBeginFailed e)) w1
    | None =>
        (let* x1 := get_conn c in
         put_conn c (conn_with_transactions x1 (set_add t (cn_transactions x1))) ;;
         ret t) w1
    end).
  { unfold beginTransaction. unfold bind at 1. rewrite Hopen. cbn iota.
    unfold bind at 1. rewrite (get_conn_ok _ _ _ Hc). cbn iota.
    unfold bind at 1. cbn [fresh_uuid]. fold t id.
    unfold bind at 1. cbn [new_tx]. fold t fresh.
    unfold bind at 1. unfold call_beginTransaction, bind at 1. cbn [history].
    unfold bind at 1. cbn [emit ret trace]. fold json. fold w1.
    by destruct (ffi_beginTransaction ffi (trace w) (connId x) json). }
  rewrite Hrun. clear Hrun.
  destruct (ffi_beginTransaction ffi (trace w) (connId x) json) as [err|].
  - unfold bind at 1. rewrite (set_hasError_ok _ _ _ Hc1). cbn iota.
    eexists. split; [reflexivity|]. split; [done|].
    apply flagged_evicted; [|done]. cbn. by eapply lookup_insert_same.
  - unfold bind at 1. rewrite (get_conn_ok _ _ _ Hc1). cbn iota.
    unfold bind at 1. cbn [put_conn ret].
    eexists. split; [reflexivity|]. split; [done|]. split; [done|]. split; [done|].
    split; [|apply set_add_In].
    cbn. by eapply lookup_insert_same.
Qed.

End Beginning.

Lemma get_pool_ok w p x : pools w !! p = Some x -> get_pool p w = (w, Ok x).
Proof. intros H. unfold get_pool. by rewrite H. Qed.

Lemma handoffs_handoff_of x b : handoffs [handoff_of x b] = [handoff_of x b].
Proof.
  unfold handoff_of. destruct (poolId x); [|done].
  by destruct (negb (hasError x) && negb b).
Qed.

Section Pooling.
Variable ffi : RuntimeFFI.
Variable plat : Platform.

(** [pool.close()] on an open pool calls the boundary's [poolClose] once
    and touches no connection; a second [close()] does nothing, and
    [connect()] and [query()] on the closed pool are rejected with
    [Pool is closed] before anything reaches the boundary. *)
Theorem closed_pool_rejects w p mp :
  pools w !! p = Some mp -> mp_closed mp = false ->
  exists w',
    mp_close p w = (w', Ok tt) /\
    trace w' = trace w ++ [EPoolClose (mp_poolId mp)] /\
    conns w' = conns w /\
    mp_close p w' = (w', Ok tt) /\
    mp_connect ffi p w' = (w', Throw ErrPoolClosed) /\
    forall sql params opts,
      mp_query ffi plat p sql params opts w' = (w', Throw ErrPoolClosed).
Proof.
  intros Hp Hc. unfold mp_close at 1, bind at 1. rewrite (get_pool_ok _ _ _ Hp).
  cbn iota. rewrite Hc. cbn [negb]. unfold bind at 1. cbn [put_pool emit].
  eexists. split; [reflexivity|]. split; [done|]. split; [done|].
  set (w' := {| trace := _ |}).
  assert (Hp' : pools w' !! p = Some {| mp_poolId := mp_poolId mp; mp_closed := true |}).
  { cbn. by eapply lookup_insert_same. }
  assert (Hconn : mp_connect ffi p w' = (w', Throw ErrPoolClosed)).
  { unfold mp_connect, mp_ensureOpen, bind. by rewrite (get_pool_ok _ _ _ Hp'). }
  split; [|split; [done|]].
  - unfold mp_close, bind. by rewrite (get_pool_ok _ _ _ Hp').
  - intros sql params opts. unfold mp_query, bind. by rewrite Hconn.
Qed.

Lemma ensureOpen_same c opts w :
  fst (ensureOpen c opts w) = w.
Proof.
  unfold ensureOpen, bind, get_conn. destruct (conns w !! c) as [x|]; [|done].
  destruct (disposed x); [done|].
  destruct opts as [o|]; [|done].
  destruct (co_signal o) as [[|]|]; cbn; try done.
  all: destruct (co_transaction o) as [t|]; [|done].
  all: unfold _ensureActive, bind, get_tx; destruct (txs w !! t) as [y|]; [|done].
  all: by destruct (negb (isActive y)).
Qed.

(** A command that [#ensureOpen] has let through: it throws what the codec
    throws, or sends the serialized command and returns the answer, or, on
    the answer null, flags the connection and throws the last error. *)
Lemma command_runs k w c x sql params opts :
  conns w !! c = Some x ->
  ensureOpen c opts w = (w, Ok tt) ->
  run_command ffi plat k c sql params opts w =
    match serializeParams plat params with
    | inl cause => (w, Throw (ErrRange cause))
    | inr ps =>
        let cmd := stringifyCommand plat (buildCommand w sql ps opts) in
        let e := command_event k (connId x) cmd in
        match boundary_answer ffi k (trace w) (connId x) cmd with
        | Some r => (with_event w e, Ok r)
        | None =>
            (with_event (with_conn (with_event w e) c (conn_failed x))
               (ELastError (connId x)),
             Throw (ErrCommand
                      (or_else (lastError ffi (trace w ++ [e]) (connId x))
                         (default_message k))))
        end
    end.
Proof.
  intros Hc Hopen.
  destruct (serializeParams plat params) as [cause|ps] eqn:Hps.
  { destruct (unserializable_command ffi plat w c x sql params opts cause Hc Hopen Hps)
      as (Hq & He & Hx & _).
    by destruct k. }
  pose proof (serializeCommand_returns plat sql params opts ps w Hps) as Hser.
  cbn zeta. set (cmd := stringifyCommand plat (buildCommand w sql ps opts)) in *.
  assert (Hfail : forall e d,
    (set_hasError c ;; let* msg := call_lastError ffi (connId x) in
                       throw (ErrCommand (or_else msg d))) (with_event w e) =
    (with_event (with_conn (with_event w e) c (conn_failed x)) (ELastError (connId x)),
     @Throw string (ErrCommand (or_else (lastError ffi (trace w ++ [e]) (connId x)) d)))).
  { intros e d. unfold bind at 1. rewrite (set_hasError_ok _ c x) by done. done. }
  destruct k; cbn [run_command command_event boundary_answer default_message].
  - unfold query. unfold bind at 1. rewrite Hopen. cbn iota.
    unfold bind at 1. rewrite (get_conn_ok _ _ _ Hc). cbn iota.
    unfold bind at 1. rewrite Hser. cbn iota.
    unfold bind at 1. unfold call_query, bind at 1. cbn [history].
    unfold bind at 1. cbn [emit ret].
    destruct (ffi_query ffi (trace w) (connId x) cmd) as [r|]; [done|].
    change {| conns := conns w; txs := txs w; streams := streams w; gens := gens w;
              pools := pools w; trace := trace w ++ [EQuery (connId x) cmd] |}
      with (with_event w (EQuery (connId x) cmd)).
    by rewrite Hfail.
  - unfold execute. unfold bind at 1. rewrite Hopen. cbn iota.
    unfold bind at 1. rewrite (get_conn_ok _ _ _ Hc). cbn iota.
    unfold bind at 1. rewrite Hser. cbn iota.
    unfold bind at 1. unfold call_executeNonquery, bind at 1. cbn [history].
    unfold bind at 1. cbn [emit ret].
    destruct (executeNonquery ffi (trace w) (connId x) cmd) as [r|]; [done|].
    change {| conns := conns w; txs := txs w; streams := streams w; gens := gens w;
              pools := pools w; trace := trace w ++ [EExecuteNonquery (connId x) cmd] |}
      with (with_event w (EExecuteNonquery (connId x) cmd)).
    by rewrite Hfail.
  - unfold exec. unfold bind at 1. rewrite Hopen. cbn iota.
    unfold bind at 1. rewrite (get_conn_ok _ _ _ Hc). cbn iota.
    unfold bind at 1. rewrite Hser. cbn iota.
    unfold bind at 1. unfold call_exec, bind at 1. cbn [history].
    unfold bind at 1. cbn [emit ret].
    destruct (ffi_exec ffi (trace w) (connId x) cmd) as [r|]; [done|].
    change {| conns := conns w; txs := txs w; streams := streams w; gens := gens w;
              pools := pools w; trace := trace w ++ [EExec (connId x) cmd] |}
      with (with_event w (EExec (connId x) cmd)).
    by rewrite Hfail.
Qed.

(** A command that [#ensureOpen] rejects. *)
Lemma command_rejected k w c sql params opts e :
  ensureOpen c opts w = (w, Throw e) ->
  run_command ffi plat k c sql params opts w = (w, Throw e).
Proof.
  intros H. destruct k; cbn [run_command]; unfold query, execute, exec, bind at 1;
    by rewrite H.
Qed.

(** [pool.query], [pool.execute] and [pool.exec] on an open pool whose
    boundary hands out a connection.  The calls through the boundary are,
    in this order: the acquisition; the command, unless [#ensureOpen]
    rejects it or its parameters do not serialize; the request for the last
    error, when the boundary answered null to the command; and last the one
    hand-off of the connection, which is a disconnection when the boundary
    answered null to the command and a release to the pool in every other
    case, also when the command threw before it reached the boundary.  The
    result is the boundary's answer or the error of the command. *)
Theorem pool_command_hands_back k w p mp sql params opts :
  pools w !! p = Some mp -> mp_closed mp = false ->
  let id := mp_poolId mp in
  let conn := poolAcquire ffi (trace w) id in
  conn <> INVALID_HANDLE ->
  let h := trace w ++ [EPoolAcquire id] in
  exists w' r,
    run_pool_command ffi plat k p sql params opts w = (w', r) /\
    match snd (ensureOpen (List.length (conns w)) opts (with_acquired w id conn)) with
    | Throw rejection =>
        r = Throw rejection /\ trace w' = h ++ [EPoolRelease id conn]
    | Ok _ =>
        match serializeParams plat params with
        | inl cause =>
            r = Throw (ErrRange cause) /\ trace w' = h ++ [EPoolRelease id conn]
        | inr ps =>
            let cmd := stringifyCommand plat (buildCommand w sql ps opts) in
            let e := command_event k conn cmd in
            match boundary_answer ffi k h conn cmd with
            | Some answer =>
                r = Ok answer /\ trace w' = h ++ [e; EPoolRelease id conn]
            | None =>
                r = Throw (ErrCommand (match lastError ffi (h ++ [e]) conn with
                                       | Some message => message
                                       | None => default_message k
                                       end)) /\
                trace w' = h ++ [e; ELastError conn; EDisconnect conn]
            end
        end
    end.
Proof.
  intros Hp Hopen id conn Hconn h.
  set (w1 := with_acquired w id conn).
  assert (Hacq : mp_connect ffi p w = (w1, Ok (List.length (conns w)))).
  { unfold mp_connect, mp_ensureOpen, call_poolAcquire, bind.
    rewrite (get_pool_ok _ _ _ Hp), Hopen. cbn [ret].
    rewrite (get_pool_ok _ _ _ Hp). cbn [history emit ret trace]. fold id conn.
    by destruct (Z.eqb_spec conn INVALID_HANDLE) as [|_]. }
  set (c := List.length (conns w)) in *.
  assert (Hc : conns w1 !! c = Some (pooled_conn id conn)).
  { cbn. apply list_lookup_middle. done. }
  assert (Hall : run_pool_command ffi plat k p sql params opts w =
                 try_finally (run_command ffi plat k c sql params opts)
                   (cn_asyncDispose ffi c) w1).
  { destruct k; cbn [run_pool_command run_command];
      unfold mp_query, mp_execute, mp_exec, bind at 1; by rewrite Hacq. }
  rewrite Hall. unfold try_finally.
  assert (Hback : forall w2 x2,
    conns w2 !! c = Some x2 -> disposed x2 = false ->
    cn_streams x2 = [] -> cn_transactions x2 = [] ->
    exists w3, cn_asyncDispose ffi c w2 = (w3, Ok tt) /\
               trace w3 = trace w2 ++ [handoff_of x2 false]).
  { intros w2 x2 Hx2 Hd Hs Ht.
    destruct (asyncDispose_idle ffi w2 c x2 Hx2 Hd Hs Ht) as (w3 & Hrun & Htr & _).
    by exists w3. }
  pose proof (ensureOpen_same c opts w1) as Hsame.
  destruct (ensureOpen c opts w1) as [w0 [[]|rejection]] eqn:Hadm;
    cbn in Hsame; subst w0; cbn [snd].
  - rewrite (command_runs k w1 c _ sql params opts Hc Hadm).
    destruct (serializeParams plat params) as [cause|ps].
    + destruct (Hback w1 _ Hc) as (w3 & Hd & Ht); try done.
      rewrite Hd. exists w3, (Throw (ErrRange cause)). split; [done|]. by split.
    + cbn zeta. cbn [connId pooled_conn].
      change (buildCommand w1 sql ps opts) with (buildCommand w sql ps opts).
      change (trace w1) with h.
      set (cmd := stringifyCommand plat (buildCommand w sql ps opts)).
      set (e := command_event k conn cmd).
      destruct (boundary_answer ffi k h conn cmd) as [answer|].
      * destruct (Hback (with_event w1 e) _ Hc) as (w3 & Hd & Ht); try done.
        rewrite Hd. exists w3, (Ok answer). split; [done|]. split; [done|].
        rewrite Ht. cbn. by rewrite <- app_assoc.
      * set (w2 := with_event (with_conn (with_event w1 e) c
                                 (conn_failed (pooled_conn id conn))) (ELastError conn)).
        assert (Hc2 : conns w2 !! c = Some (conn_failed (pooled_conn id conn))).
        { cbn. by eapply lookup_insert_same. }
        destruct (Hback w2 _ Hc2) as (w3 & Hd & Ht); try done.
        rewrite Hd. eexists w3, _. split; [reflexivity|]. split; [reflexivity|].
        rewrite Ht. unfold h. cbn. by rewrite <- !app_assoc.
  - rewrite (command_rejected k w1 c sql params opts rejection Hadm).
    destruct (Hback w1 _ Hc) as (w3 & Hd & Ht); try done.
    rewrite Hd. exists w3, (Throw rejection). split; [done|]. by split.
Qed.

End Pooling.

Section Iterating.
Variable ffi : RuntimeFFI.

Lemma fetchNext_row w s q r :
  streams w !! s = Some q -> done q = false -> closed q = false ->
  streamNext ffi (trace w) (cursorId q) = Some (PRow r) ->
  fetchNext ffi s w = (with_event w (EStreamNext (cursorId q)), Ok (Some r)).
Proof.
  intros Hq Hd Hc Hn. unfold fetchNext, bind at 1. rewrite (get_stream_ok _ _ _ Hq).
  cbn iota. rewrite Hd, Hc. cbn [orb].
  unfold call_streamNext, bind. cbn [history emit ret]. by rewrite Hn.
Qed.

Lemma fetchNext_error w s q m :
  streams w !! s = Some q -> done q = false -> closed q = false ->
  streamNext ffi (trace w) (cursorId q) = Some (PError m) ->
  fetchNext ffi s w = (with_event w (EStreamNext (cursorId q)), Throw (ErrStream m)).
Proof.
  intros Hq Hd Hc Hn. unfold fetchNext, bind at 1. rewrite (get_stream_ok _ _ _ Hq).
  cbn iota. rewrite Hd, Hc. cbn [orb].
  unfold call_streamNext, bind. cbn [history emit ret]. by rewrite Hn.
Qed.

Lemma set_gen_state_ok w g x st :
  gens w !! g = Some x ->
  set_gen_state g st w = (with_gen w g {| g_stream := g_stream x; g_state := st |}, Ok tt).
Proof. intros Hg. unfold set_gen_state, bind. by rewrite (get_gen_ok _ _ _ Hg). Qed.

(** [close] on an open stream whose native close returns. *)
Lemma close_quiet w s q :
  streams w !! s = Some q -> closed q = false ->
  streamClose ffi (trace w) (cursorId q) = false ->
  exists w',
    close ffi s w = (w', Ok tt) /\
    trace w' = trace w ++ EStreamClose (cursorId q) :: callback_events (onCloseCallbacks q) /\
    streams w' = <[s := stream_closed q]> (streams w) /\
    gens w' = gens w /\ pools w' = pools w /\
    untracking (onCloseCallbacks q) (after_native_close w s q []) w'.
Proof.
  intros Hq Hc Hok. rewrite (close_open ffi _ _ _ Hq Hc), Hok.
  destruct (callbacks_untracking (onCloseCallbacks q) (after_native_close w s q []))
    as [Hu Hr].
  set (m := for_each _ _ _) in *. exists (fst m).
  split; [destruct m as [w' r]; cbn in *; by subst|].
  split; [rewrite (un_trace _ _ _ Hu); cbn; by rewrite <- app_assoc|].
  split; [by rewrite (un_streams _ _ _ Hu)|].
  split; [by rewrite (un_gens _ _ _ Hu)|].
  split; [by rewrite (un_pools _ _ _ Hu)|done].
Qed.

(** When the boundary answers a fetch with an error, the iterator throws
    it after its [finally] block has closed the cursor, and is finished;
    the [pull] of the [ReadableStream] throws the same error but leaves
    the cursor open. *)
Theorem stream_error_closes_iterator_only w g x q m :
  gens w !! g = Some x -> g_state x <> GenCompleted ->
  streams w !! g_stream x = Some q -> done q = false -> closed q = false ->
  streamNext ffi (trace w) (cursorId q) = Some (PError m) ->
  let s := g_stream x in
  let w1 := with_event w (EStreamNext (cursorId q)) in
  (streamClose ffi (trace w1) (cursorId q) = false ->
   exists w',
     gen_next ffi g w = (w', Throw (ErrStream m)) /\
     trace w' = trace w ++ EStreamNext (cursorId q) :: EStreamClose (cursorId q)
                                :: callback_events (onCloseCallbacks q) /\
     streams w' !! s = Some (stream_closed q) /\
     gen_next ffi g w' = (w', Ok None)) /\
  pull ffi s w = (w1, Throw (ErrStream m)) /\
  streams w1 !! s = Some q.
Proof.
  intros Hg Hst Hq Hd Hc Hn s w1. subst s. set (s := g_stream x) in *.
  split; [|split; [|done]].
  - intros Hok. rewrite (gen_next_running _ _ _ _ Hg Hst). fold s.
    assert (Hb : gen_body ffi s w = (w1, Throw (ErrStream m))).
    { unfold gen_body, bind at 1. rewrite (get_stream_ok _ _ _ Hq). cbn iota.
      rewrite Hd. cbn [negb]. unfold bind at 1.
      by rewrite (fetchNext_error _ _ _ _ Hq Hd Hc Hn). }
    rewrite Hb. unfold bind at 1.
    rewrite (set_gen_state_ok w1 g x GenCompleted Hg). cbn iota.
    set (w2 := with_gen w1 g _).
    assert (Hq2 : streams w2 !! s = Some q) by done.
    destruct (close_quiet w2 s q Hq2 Hc Hok) as (w3 & Hcl & Htr & Hs3 & Hg3 & _).
    unfold try_finally. rewrite Hcl. exists w3. split; [done|].
    split; [rewrite Htr; cbn; by rewrite <- app_assoc|].
    split; [rewrite Hs3; by eapply lookup_insert_same|].
    apply (gen_next_completed ffi w3 g {| g_stream := g_stream x; g_state := GenCompleted |});
      [|done].
    rewrite Hg3. cbn. by eapply lookup_insert_same.
  - unfold pull, bind at 1. by rewrite (fetchNext_error _ _ _ _ Hq Hd Hc Hn).
Qed.

(** Leaving a [for await] early closes the cursor: after a row has been
    handed out the stream is still open, and the [return()] of the
    iterator closes it natively and runs its callbacks; the iterator is
    then finished.  An iterator that was never started closes nothing. *)
Theorem early_exit_closes_cursor w g x q r :
  gens w !! g = Some x -> g_state x <> GenCompleted ->
  streams w !! g_stream x = Some q -> done q = false -> closed q = false ->
  streamNext ffi (trace w) (cursorId q) = Some (PRow r) ->
  streamClose ffi (trace w ++ [EStreamNext (cursorId q)]) (cursorId q) = false ->
  let s := g_stream x in
  (exists w1 w2,
     gen_next ffi g w = (w1, Ok (Some r)) /\
     trace w1 = trace w ++ [EStreamNext (cursorId q)] /\
     streams w1 = streams w /\
     gen_return ffi g w1 = (w2, Ok tt) /\
     trace w2 = trace w1 ++ EStreamClose (cursorId q)
                              :: callback_events (onCloseCallbacks q) /\
     streams w2 !! s = Some (stream_closed q) /\
     gen_next ffi g w2 = (w2, Ok None)) /\
  (g_state x = GenFresh ->
   exists w1,
     gen_return ffi g w = (w1, Ok tt) /\ trace w1 = trace w /\
     streams w1 = streams w /\ gen_next ffi g w1 = (w1, Ok None)).
Proof.
  intros Hg Hst Hq Hd Hc Hn Hok s. subst s. set (s := g_stream x) in *.
  split.
  - rewrite (gen_next_running _ _ _ _ Hg Hst). fold s.
    assert (Hb : gen_body ffi s w =
                   (with_event w (EStreamNext (cursorId q)), Ok (Some r))).
    { unfold gen_body, bind at 1. rewrite (get_stream_ok _ _ _ Hq). cbn iota.
      rewrite Hd. cbn [negb]. unfold bind at 1.
      by rewrite (fetchNext_row _ _ _ _ Hq Hd Hc Hn). }
    rewrite Hb. set (w0 := with_event w _).
    unfold bind at 1. rewrite (set_gen_state_ok w0 g x GenSuspended Hg). cbn iota.
    set (w1 := with_gen w0 g _). exists w1.
    assert (Hg1 : gens w1 !! g = Some {| g_stream := s; g_state := GenSuspended |}).
    { cbn. by eapply lookup_insert_same. }
    unfold gen_return, bind at 1. rewrite (get_gen_ok _ _ _ Hg1). cbn iota.
    cbn [g_state g_stream].
    unfold bind at 1.
    rewrite (set_gen_state_ok w1 g _ GenCompleted Hg1). cbn iota. cbn [g_stream].
    set (w2 := with_gen w1 g _).
    assert (Hq2 : streams w2 !! s = Some q) by done.
    destruct (close_quiet w2 s q Hq2 Hc Hok) as (w3 & Hcl & Htr & Hs3 & Hg3 & _).
    exists w3. split; [done|]. split; [done|]. split; [done|].
    split; [done|]. split; [done|].
    split; [rewrite Hs3; by eapply lookup_insert_same|].
    apply (gen_next_completed ffi w3 g {| g_stream := s; g_state := GenCompleted |});
      [|done].
    rewrite Hg3. cbn. rewrite list_insert_insert_eq. by eapply lookup_insert_same.
  - intros Hfresh. unfold gen_return, bind at 1. rewrite (get_gen_ok _ _ _ Hg). cbn iota.
    rewrite Hfresh. rewrite (set_gen_state_ok w g x GenCompleted Hg).
    eexists. split; [reflexivity|]. split; [done|]. split; [done|].
    apply (gen_next_completed ffi _ g {| g_stream := s; g_state := GenCompleted |});
      [|done].
    cbn. by eapply lookup_insert_same.
Qed.

Lemma serves_head c h r rows :
  serves ffi c h (r :: rows) -> streamNext ffi h c = Some (PRow r).
Proof. intros H. specialize (H []). by rewrite app_nil_r in H. Qed.

Lemma serves_end c h : serves ffi c h [] -> streamNext ffi h c = None.
Proof. intros H. specialize (H []). by rewrite app_nil_r in H. Qed.

Lemma serves_tail c h r rows :
  serves ffi c h (r :: rows) -> serves ffi c (h ++ [EStreamNext c]) rows.
Proof.
  intros H h'. rewrite <- app_assoc. rewrite H. unfold fetches. cbn.
  by rewrite Z.eqb_refl.
Qed.

(** The rest of a [for await] over a stream whose iterator is not
    finished. *)
Lemma drain_collects rows :
  forall w g x q acc fuel,
    gens w !! g = Some x -> g_state x <> GenCompleted ->
    streams w !! g_stream x = Some q -> done q = false -> closed q = false ->
    serves ffi (cursorId q) (trace w) rows ->
    closes_quietly ffi (cursorId q) ->
    List.length rows < fuel ->
    exists w',
      drain ffi fuel g acc w = (w', Ok (Some (acc ++ rows))) /\
      trace w' = trace w ++ List.repeat (EStreamNext (cursorId q)) (S (List.length rows))
                   ++ EStreamClose (cursorId q) :: callback_events (onCloseCallbacks q) /\
      streams w' !! g_stream x = Some (stream_closed (set_done q true)) /\
      forall c y, conns w !! c = Some y ->
        exists l', conns w' !! c = Some (conn_with_streams y l').
Proof.
  induction rows as [|r rows IH]; intros w g x q acc fuel Hg Hst Hq Hd Hc Hsv Hquiet Hfuel.
  - destruct fuel as [|n]; [cbn in Hfuel; lia|]. cbn [drain].
    unfold bind at 1. rewrite (gen_next_running _ _ _ _ Hg Hst).
    set (s := g_stream x) in *.
    set (w1 := with_stream (with_event w (EStreamNext (cursorId q))) s (set_done q true)).
    assert (Hb : gen_body ffi s w = (w1, Ok None)).
    { unfold gen_body, bind at 1. rewrite (get_stream_ok _ _ _ Hq). cbn iota.
      rewrite Hd. cbn [negb]. unfold bind at 1.
      rewrite (fetchNext_end _ _ _ _ Hq Hd Hc (serves_end _ _ Hsv)). cbn iota.
      unfold bind. by rewrite (mark_done_ok (with_event w _) s q Hq). }
    rewrite Hb. unfold bind at 1.
    assert (Hg1 : gens w1 !! g = Some x) by done.
    rewrite (set_gen_state_ok w1 g x GenCompleted Hg1). cbn iota.
    set (w2 := with_gen w1 g _).
    assert (Hq2 : streams w2 !! s = Some (set_done q true)).
    { cbn. by eapply lookup_insert_same. }
    destruct (close_quiet w2 s _ Hq2 Hc (Hquiet _))
      as (w3 & Hcl & Htr & Hs3 & _ & _ & Hun).
    unfold try_finally. rewrite Hcl. cbn iota. exists w3.
    split; [by rewrite app_nil_r|].
    split; [rewrite Htr; cbn; by rewrite <- app_assoc|].
    split; [rewrite Hs3; by eapply lookup_insert_same|].
    intros c y Hy. destruct (un_conns _ _ _ Hun c y Hy) as (l' & Hl & _). by exists l'.
  - destruct fuel as [|n]; [cbn in Hfuel; lia|]. cbn [drain].
    unfold bind at 1. rewrite (gen_next_running _ _ _ _ Hg Hst).
    set (s := g_stream x) in *.
    set (w1 := with_event w (EStreamNext (cursorId q))).
    assert (Hb : gen_body ffi s w = (w1, Ok (Some r))).
    { unfold gen_body, bind at 1. rewrite (get_stream_ok _ _ _ Hq). cbn iota.
      rewrite Hd. cbn [negb]. unfold bind at 1.
      by rewrite (fetchNext_row _ _ _ _ Hq Hd Hc (serves_head _ _ _ _ Hsv)). }
    rewrite Hb. unfold bind at 1.
    assert (Hg1 : gens w1 !! g = Some x) by done.
    rewrite (set_gen_state_ok w1 g x GenSuspended Hg1). cbn iota. cbn [ret].
    set (x2 := {| g_stream := g_stream x; g_state := GenSuspended |}).
    set (w2 := with_gen w1 g x2).
    assert (Hg2 : gens w2 !! g = Some x2).
    { cbn. by eapply lookup_insert_same. }
    destruct (IH w2 g x2 q (acc ++ [r]) n Hg2) as (w3 & Hrun & Htr & Hs3 & Hcn); try done.
    { by apply (serves_tail _ _ r). }
    { cbn in Hfuel. lia. }
    exists w3. split; [by rewrite Hrun, <- app_assoc|].
    split; [|done].
    rewrite Htr. cbn [trace w2 with_gen w1 with_event List.length].
    rewrite <- !app_assoc. f_equal.
Qed.

(** A [for await] over a stream, from a new iterator. *)
Lemma toArray_collects w s q rows fuel :
  streams w !! s = Some q -> done q = false -> closed q = false ->
  serves ffi (cursorId q) (trace w) rows ->
  closes_quietly ffi (cursorId q) ->
  List.length rows < fuel ->
  exists w',
    toArray ffi fuel s w = (w', Ok (Some rows)) /\
    trace w' = trace w ++ List.repeat (EStreamNext (cursorId q)) (S (List.length rows))
                 ++ EStreamClose (cursorId q) :: callback_events (onCloseCallbacks q) /\
    streams w' !! s = Some (stream_closed (set_done q true)) /\
    forall c y, conns w !! c = Some y ->
      exists l', conns w' !! c = Some (conn_with_streams y l').
Proof.
  intros Hq Hd Hc Hsv Hquiet Hfuel. unfold toArray, bind, asyncIterator. cbn [new_gen].
  set (w0 := {| gens := gens w ++ _ |}).
  set (x := {| g_stream := s; g_state := GenFresh |}).
  assert (Hg : gens w0 !! List.length (gens w) = Some x).
  { cbn. by apply list_lookup_middle. }
  destruct (drain_collects rows w0 _ x q [] fuel Hg) as (w' & Hrun & Htr & Hs & Hcn);
    try done.
  by exists w'.
Qed.

(** [toArray] returns every row the boundary serves, in order, and leaves
    the stream exhausted and closed. *)
Theorem toArray_collects_rows w s q rows fuel :
  streams w !! s = Some q -> done q = false -> closed q = false ->
  serves ffi (cursorId q) (trace w) rows ->
  closes_quietly ffi (cursorId q) ->
  List.length rows < fuel ->
  exists w',
    toArray ffi fuel s w = (w', Ok (Some rows)) /\
    trace w' = trace w ++ List.repeat (EStreamNext (cursorId q)) (S (List.length rows))
                 ++ EStreamClose (cursorId q) :: callback_events (onCloseCallbacks q) /\
    streams w' !! s = Some (stream_closed (set_done q true)).
Proof.
  intros Hq Hd Hc Hsv Hquiet Hfuel.
  destruct (toArray_collects w s q rows fuel Hq Hd Hc Hsv Hquiet Hfuel)
    as (w' & Hrun & Htr & Hs & _).
  by exists w'.
Qed.

End Iterating.

Section Rolling.
Variable ffi : RuntimeFFI.

Lemma cleanup_event_not_commit evs c i :
  Forall cleanup_event evs -> ~ In (ECommit c i) evs.
Proof.
  intros H Hin. by apply (proj1 (List.Forall_forall _ _) H) in Hin.
Qed.

Lemma handoff_of_not_rollback x b c i : handoff_of x b <> ERollback c i.
Proof.
  unfold handoff_of. destruct (poolId x); [|done].
  by destruct (negb (hasError x) && negb b).
Qed.

Lemma handoff_of_not_commit x b c i : handoff_of x b <> ECommit c i.
Proof.
  unfold handoff_of. destruct (poolId x); [|done].
  by destruct (negb (hasError x) && negb b).
Qed.

(** Disposal of a connection rolls back the transactions of the connection
    that are still active, and no other; it never commits.  Synchronous
    disposal rolls back nothing. *)
Theorem disposal_rolls_back_only_active w c x :
  conns w !! c = Some x -> disposed x = false ->
  (exists evs w',
     cn_asyncDispose ffi c w = (w', Ok tt) /\
     trace w' = trace w ++ evs /\
     (forall cn i, In (ERollback cn i) evs ->
        exists t y, In t (cn_transactions x) /\ txs w !! t = Some y /\
                    isActive y = true /\ rollback_of y = ERollback cn i) /\
     (forall cn i, ~ In (ECommit cn i) evs)) /\
  (exists evs w',
     cn_dispose ffi c w = (w', Ok tt) /\
     trace w' = trace w ++ evs /\
     (forall cn i, ~ In (ERollback cn i) evs) /\
     (forall cn i, ~ In (ECommit cn i) evs)).
Proof.
  intros Hc Hd. split.
  - destruct (cn_asyncDispose_spec ffi w c x Hc Hd)
      as (e1 & e2 & w' & Hrun & Htr & Hev & Htr1 & He2).
    cbn zeta in Htr1.
    set (w0 := with_conn (with_conn w c (conn_disposed x)) c
                 (conn_with_transactions (conn_disposed x) [])) in *.
    destruct (dispose_loop ffi (cn_transactions x) w0) as (evs & Hcl & Hrb & _).
    cbn zeta in Hcl. rewrite (cg_trace _ _ _ Hcl) in Htr1.
    change (trace w0) with (trace w) in Htr1.
    apply app_inv_head in Htr1. subst e1.
    exists ((evs ++ e2) ++ [handoff_of x false]), w'.
    split; [done|]. split; [done|]. split.
    + intros cn i Hin. apply in_app_or in Hin as [Hin|[Hin|[]]].
      * apply in_app_or in Hin as [Hin|Hin]; [by apply Hrb|].
        by eapply close_event_not_rollback in Hin.
      * by apply handoff_of_not_rollback in Hin.
    + intros cn i Hin. apply in_app_or in Hin as [Hin|[Hin|[]]].
      * by eapply cleanup_event_not_commit in Hin.
      * by apply handoff_of_not_commit in Hin.
  - destruct (cn_dispose_spec ffi w c x Hc Hd) as (evs & b & w' & Hrun & Htr & Hev & _).
    exists (evs ++ [handoff_of x b]), w'.
    split; [done|]. split; [done|]. split.
    + intros cn i Hin. apply in_app_or in Hin as [Hin|[Hin|[]]].
      * by eapply close_event_not_rollback in Hin.
      * by apply handoff_of_not_rollback in Hin.
    + intros cn i Hin. apply in_app_or in Hin as [Hin|[Hin|[]]].
      * eapply cleanup_event_not_commit; [|exact Hin].
        eapply Forall_impl; [exact Hev|]. apply close_cleanup_event.
      * by apply handoff_of_not_commit in Hin.
Qed.

Lemma forceInactive_idle w t x :
  txs w !! t = Some x -> tx_streams x = [] -> isActive x = false ->
  _forceInactive ffi t w = (w, Ok tt).
Proof.
  intros Ht Hs Ha. unfold _forceInactive, closeAllStreams.
  unfold bind at 1. unfold bind at 1. rewrite (get_tx_ok _ _ _ Ht). cbn iota.
  rewrite Hs. unfold bind at 1, put_tx. cbn iota.
  replace (tx_with_streams x []) with x by (destruct x; cbn in *; by subst).
  fold (with_tx w t x). rewrite (world_eta_tx _ _ _ Ht). cbn [for_each].
  unfold ret at 1. cbn iota.
  unfold bind. rewrite (get_tx_ok _ _ _ Ht). by rewrite Ha.
Qed.

(** Synchronous disposal of a transaction closes the streams it tracks and
    deactivates it without a rollback; afterwards nothing bound to the
    transaction reaches the boundary. *)
Theorem sync_dispose_deactivates_without_rollback w t x :
  txs w !! t = Some x ->
  exists closes w' x',
    tx_dispose ffi t w = (w', Ok tt) /\
    trace w' = trace w ++ closes /\ Forall close_event closes /\
    (forall y q, In y (tx_streams x) -> streams w !! y = Some q ->
                 closed q = false -> In (EStreamClose (cursorId q)) closes) /\
    txs w' !! t = Some x' /\ isActive x' = false /\ tx_streams x' = [] /\
    committed x' = committed x /\
    tx_dispose ffi t w' = (w', Ok tt) /\
    tx_asyncDispose ffi t w' = (w', Ok tt) /\
    commit ffi t w' = (w', Throw ErrTransactionInactive) /\
    rollback ffi t w' = (w', Throw ErrTransactionInactive).
Proof.
  intros Ht. unfold tx_dispose.
  destruct (_forceInactive_spec ffi w t x Ht) as (evs & w1 & Hcl & Ht1 & Hclosed & Hrun).
  assert (Hfin : forall w' x', txs w' !! t = Some x' -> isActive x' = false ->
            tx_streams x' = [] ->
            _forceInactive ffi t w' = (w', Ok tt) /\
            tx_asyncDispose ffi t w' = (w', Ok tt) /\
            commit ffi t w' = (w', Throw ErrTransactionInactive) /\
            rollback ffi t w' = (w', Throw ErrTransactionInactive)).
  { intros w' x' Hx' Ha Hs.
    split; [by eapply forceInactive_idle|]. split; [by eapply tx_asyncDispose_idle|].
    unfold commit, rollback, bind.
    by rewrite (ensureActive_fails _ _ _ Hx' Ha). }
  exists evs. rewrite Hrun. destruct (isActive x) eqn:Ha.
  - exists (with_tx w1 t (ended x)), (ended x).
    assert (Hx' : txs (with_tx w1 t (ended x)) !! t = Some (ended x)).
    { cbn. by eapply lookup_insert_same. }
    assert (Ha' : isActive (ended x) = false).
    { unfold isActive. cbn. apply andb_false_r. }
    split; [done|]. split; [apply Hcl|]. split; [apply Hcl|]. split; [done|].
    split; [done|]. split; [done|]. split; [done|]. split; [done|].
    by apply (Hfin _ _ Hx').
  - exists w1, (tx_with_streams x []).
    split; [done|]. split; [apply Hcl|]. split; [apply Hcl|]. split; [done|].
    split; [done|]. split; [done|]. split; [done|]. split; [done|].
    by apply (Hfin _ _ Ht1).
Qed.

End Rolling.

Section Opening.
Variable ffi : RuntimeFFI.
Variable plat : Platform.

Lemma ensureOpen_tx w c opts t :
  ensureOpen c opts w = (w, Ok tt) -> tx_of opts = Some t ->
  exists y, txs w !! t = Some y /\ isActive y = true.
Proof.
  unfold ensureOpen, bind, get_conn. destruct (conns w !! c) as [x|]; [|done].
  destruct (disposed x); [done|].
  destruct opts as [o|]; [|done]. cbn [tx_of]. intros H Ht. rewrite Ht in H.
  assert (H' : _ensureActive t w = (w, Ok tt)).
  { destruct (co_signal o) as [[|]|]; cbn in H; try done. }
  clear H. revert H'. unfold _ensureActive, bind, get_tx.
  destruct (txs w !! t) as [y|]; [|done].
  destruct (isActive y) eqn:Ha; [|done]. intros _. by exists y.
Qed.

(** [queryStream] when the command is let through and the boundary opens a
    cursor. *)
Lemma queryStream_opens w c x sql params ps opts :
  conns w !! c = Some x ->
  ensureOpen c opts w = (w, Ok tt) ->
  serializeParams plat params = inr ps ->
  let cmd := stringifyCommand plat (buildCommand w sql ps opts) in
  let cursor := ffi_queryStream ffi (trace w) (connId x) cmd in
  let s := List.length (streams w) in
  cursor <> INVALID_HANDLE ->
  queryStream ffi plat c sql params opts w =
    ({| conns := <[c := conn_with_streams x (set_add s (cn_streams x))]> (conns w);
        txs := txs_tracking w s opts;
        streams := streams w ++ [fresh_stream cursor (untrack_callbacks c s opts)];
        gens := gens w; pools := pools w;
        trace := trace w ++ [EQueryStream (connId x) cmd] |}, Ok s).
Proof.
  intros Hc Hopen Hps cmd cursor s Hcur.
  unfold queryStream. unfold bind at 1. rewrite Hopen. cbn iota.
  unfold bind at 1. rewrite (get_conn_ok _ _ _ Hc). cbn iota.
  unfold bind at 1. rewrite (serializeCommand_returns plat _ _ _ _ _ Hps).
  cbn iota. fold cmd.
  unfold bind at 1. unfold call_queryStream, bind at 1. cbn [history].
  unfold bind at 1. cbn [emit ret trace]. fold cursor.
  destruct (Z.eqb_spec cursor INVALID_HANDLE) as [|_]; [done|].
  unfold bind at 1. cbn [new_stream streams]. fold s.
  set (q0 := {| cursorId := cursor; done := false; closed := false;
                onCloseCallbacks := [] |}).
  unfold bind at 1. unfold track_stream, bind at 1.
  set (w1 := {| streams := streams w ++ [q0] |}).
  assert (Hc1 : conns w1 !! c = Some x) by done.
  rewrite (get_conn_ok _ _ _ Hc1). cbn iota. cbn [put_conn].
  set (w2 := {| conns := <[c := _]> (conns w1) |}).
  assert (Hs2 : streams w2 !! s = Some q0).
  { cbn. by apply list_lookup_middle. }
  unfold bind at 1. unfold _onClose at 1, bind at 1.
  rewrite (get_stream_ok _ _ _ Hs2). cbn iota. cbn [closed q0 put_stream].
  set (w3 := {| streams := <[s := _]> (streams w2) |}).
  assert (Hins : forall cbs, <[s := fresh_stream cursor cbs]> (streams w ++ [q0])
                   = streams w ++ [fresh_stream cursor cbs]).
  { intros cbs. unfold s. rewrite insert_app_r_alt by lia.
    by rewrite Nat.sub_diag. }
  destruct (tx_of opts) as [t|] eqn:Ht.
  - destruct (ensureOpen_tx _ _ _ _ Hopen Ht) as (y & Hy & _).
    destruct opts as [o|]; [|done]. cbn [tx_of] in Ht. rewrite Ht.
    unfold bind at 1. unfold _trackStream, bind at 1.
    assert (Hy3 : txs w3 !! t = Some y) by done.
    rewrite (get_tx_ok _ _ _ Hy3). cbn iota.
    unfold bind at 1. cbn [put_tx].
    set (w4 := {| txs := <[t := _]> (txs w3) |}).
    assert (Hs4 : streams w4 !! s = Some (fresh_stream cursor [CbConnUntrack c s])).
    { cbn. by eapply lookup_insert_same. }
    unfold _onClose, bind at 1. rewrite (get_stream_ok _ _ _ Hs4). cbn iota.
    cbn [closed fresh_stream put_stream]. unfold bind, ret.
    f_equal. unfold w4, w3, w2, w1, txs_tracking, untrack_callbacks. cbn [tx_of].
    rewrite Ht, Hy. cbn. f_equal.
    rewrite list_insert_insert_eq. apply (Hins [CbConnUntrack c s; CbTxUntrack t s]).
  - destruct opts as [o|]; cbn [tx_of] in Ht; [rewrite Ht|].
    all: unfold bind, ret.
    all: f_equal; unfold w3, w2, w1, txs_tracking, untrack_callbacks; cbn [tx_of].
    all: try rewrite Ht.
    all: cbn; f_equal; apply (Hins [CbConnUntrack c s]).
Qed.

Lemma set_delete_not_In s l : ~ In s (set_delete s l).
Proof.
  unfold set_delete. intros H. apply List.filter_In in H as [_ H].
  by rewrite Nat.eqb_refl in H.
Qed.

Lemma set_delete_keeps s y l : y <> s -> In y l -> In y (set_delete s l).
Proof.
  intros Hne Hin. unfold set_delete. apply List.filter_In. split; [done|].
  destruct (Nat.eqb_spec s y); [by subst|done].
Qed.

Lemma set_add_keeps s y l : In y l -> In y (set_add s l).
Proof.
  intros H. unfold set_add. destruct (existsb _ l); [done|].
  apply in_or_app. by left.
Qed.

(** [close] on a stream that carries the callbacks of [queryStream]. *)
Lemma close_untracks w s c x cursor opts :
  streams w !! s = Some (fresh_stream cursor (untrack_callbacks c s opts)) ->
  conns w !! c = Some x ->
  streamClose ffi (trace w) cursor = false ->
  exists w',
    close ffi s w = (w', Ok tt) /\
    trace w' = trace w ++ [EStreamClose cursor] /\
    streams w' = <[s := stream_closed (fresh_stream cursor [])]> (streams w) /\
    conns w' = <[c := conn_with_streams x (set_delete s (cn_streams x))]> (conns w) /\
    txs w' = match tx_of opts with
             | Some t =>
                 match txs w !! t with
                 | Some y => <[t := tx_with_streams y (set_delete s (tx_streams y))]> (txs w)
                 | None => txs w
                 end
             | None => txs w
             end /\
    gens w' = gens w /\ pools w' = pools w.
Proof.
  intros Hs Hc Hok. rewrite (close_open ffi _ _ _ Hs eq_refl). cbn [cursorId fresh_stream].
  rewrite Hok. cbn [onCloseCallbacks].
  set (wa := after_native_close _ _ _ _).
  assert (Hca : conns wa !! c = Some x) by done.
  unfold untrack_callbacks.
  change (onCloseCallbacks (fresh_stream cursor ?l)) with l.
  cbn [for_each]. unfold bind at 1.
  unfold try_catch at 1. cbn [run_callback]. unfold bind at 1.
  rewrite (get_conn_ok _ _ _ Hca). cbn [put_conn fst].
  set (wb := {| conns := <[c := _]> (conns wa) |}).
  destruct (tx_of opts) as [t|]; [|by eexists].
  cbn [for_each]. unfold bind at 1. unfold try_catch at 1. cbn [run_callback].
  unfold bind at 1, get_tx. change (txs wb) with (txs w).
  destruct (txs w !! t) as [y|]; by eexists.
Qed.

(** A stream is tracked by its connection, and by the transaction it was
    opened in, from [queryStream] until it is closed: closing it removes
    it from both sets and leaves what else they track.  (When the
    parameters do not serialize there is no command to send: [queryStream]
    throws the [RangeError] of the codec, opens no stream and changes
    nothing.) *)
Theorem stream_tracked_until_closed w c x sql params opts :
  conns w !! c = Some x -> disposed x = false -> admissible w opts ->
  match serializeParams plat params with
  | inl cause =>
      queryStream ffi plat c sql params opts w = (w, Throw (ErrRange cause))
  | inr ps =>
  let cmd := stringifyCommand plat (buildCommand w sql ps opts) in
  let cursor := ffi_queryStream ffi (trace w) (connId x) cmd in
  let s := List.length (streams w) in
  cursor <> INVALID_HANDLE ->
  exists w1,
    queryStream ffi plat c sql params opts w = (w1, Ok s) /\
    trace w1 = trace w ++ [EQueryStream (connId x) cmd] /\
    streams w1 !! s = Some (fresh_stream cursor (untrack_callbacks c s opts)) /\
    (exists x1, conns w1 !! c = Some x1 /\ In s (cn_streams x1)) /\
    (forall t, tx_of opts = Some t ->
       exists y1, txs w1 !! t = Some y1 /\ In s (tx_streams y1)) /\
    (streamClose ffi (trace w1) cursor = false ->
     exists w2,
       close ffi s w1 = (w2, Ok tt) /\
       trace w2 = trace w1 ++ [EStreamClose cursor] /\
       (exists x2, conns w2 !! c = Some x2 /\ ~ In s (cn_streams x2) /\
                   forall y, y <> s -> In y (cn_streams x) -> In y (cn_streams x2)) /\
       (forall t, tx_of opts = Some t ->
          exists y2, txs w2 !! t = Some y2 /\ ~ In s (tx_streams y2)))
  end.
Proof.
  intros Hc Hd Hadm.
  pose proof (ensureOpen_accepts _ _ _ _ Hc Hd Hadm) as Hopen.
  destruct (serializeParams plat params) as [cause|ps] eqn:Hps.
  { by destruct (unserializable_command ffi plat w c x sql params opts cause
                   Hc Hopen Hps) as (_ & _ & _ & Hrun). }
  intros cmd cursor s Hcur.
  rewrite (queryStream_opens w c x sql params ps opts Hc Hopen Hps Hcur).
  fold cmd cursor s. eexists. split; [reflexivity|].
  set (w1 := {| trace := _ |}).
  assert (Hs1 : streams w1 !! s = Some (fresh_stream cursor (untrack_callbacks c s opts))).
  { cbn. by apply list_lookup_middle. }
  assert (Hc1 : conns w1 !! c = Some (conn_with_streams x (set_add s (cn_streams x)))).
  { cbn. by eapply lookup_insert_same. }
  assert (Ht1 : forall t, tx_of opts = Some t ->
            exists y, txs w !! t = Some y /\
              txs w1 !! t = Some (tx_with_streams y (set_add s (tx_streams y)))).
  { intros t Ht. destruct (ensureOpen_tx _ _ _ _ Hopen Ht) as (y & Hy & _).
    exists y. split; [done|]. cbn. unfold txs_tracking. rewrite Ht, Hy.
    by eapply lookup_insert_same. }
  split; [done|]. split; [done|].
  split; [eexists; split; [exact Hc1|apply set_add_In]|].
  split.
  { intros t Ht. destruct (Ht1 t Ht) as (y & _ & Hy1).
    eexists. split; [exact Hy1|apply set_add_In]. }
  intros Hok.
  destruct (close_untracks w1 s c _ cursor opts Hs1 Hc1 Hok)
    as (w2 & Hrun & Htr & _ & Hc2 & Ht2 & _).
  exists w2. split; [done|]. split; [done|]. split.
  - eexists. split; [rewrite Hc2; by eapply lookup_insert_same|].
    cbn [cn_streams conn_with_streams].
    split; [apply set_delete_not_In|].
    intros y Hne Hin. by apply set_delete_keeps, set_add_keeps.
  - intros t Ht. destruct (Ht1 t Ht) as (y & _ & Hy1). rewrite Ht2, Ht, Hy1.
    eexists. split; [by eapply lookup_insert_same|]. apply set_delete_not_In.
Qed.

End Opening.

Section PooledStreams.
Variable ffi : RuntimeFFI.
Variable plat : Platform.

Lemma mp_connect_acquires w p mp :
  pools w !! p = Some mp -> mp_closed mp = false ->
  poolAcquire ffi (trace w) (mp_poolId mp) <> INVALID_HANDLE ->
  mp_connect ffi p w =
    (with_acquired w (mp_poolId mp) (poolAcquire ffi (trace w) (mp_poolId mp)),
     Ok (List.length (conns w))).
Proof.
  intros Hp Hopen Hconn.
  unfold mp_connect, mp_ensureOpen, call_poolAcquire, bind.
  rewrite (get_pool_ok _ _ _ Hp), Hopen. cbn [ret].
  rewrite (get_pool_ok _ _ _ Hp). cbn [history emit ret trace].
  by destruct (Z.eqb_spec (poolAcquire ffi (trace w) (mp_poolId mp)) INVALID_HANDLE) as [|_].
Qed.

(** [queryStream] when the boundary opens no cursor. *)
Lemma queryStream_refused w c x sql params ps opts :
  conns w !! c = Some x ->
  ensureOpen c opts w = (w, Ok tt) ->
  serializeParams plat params = inr ps ->
  let cmd := stringifyCommand plat (buildCommand w sql ps opts) in
  ffi_queryStream ffi (trace w) (connId x) cmd = INVALID_HANDLE ->
  exists msg,
    queryStream ffi plat c sql params opts w =
      (with_event (with_conn (with_event w (EQueryStream (connId x) cmd)) c (conn_failed x))
         (ELastError (connId x)),
       Throw (ErrCommand msg)).
Proof.
  intros Hc Hopen Hps cmd Hfail.
  unfold queryStream. unfold bind at 1. rewrite Hopen. cbn iota.
  unfold bind at 1. rewrite (get_conn_ok _ _ _ Hc). cbn iota.
  unfold bind at 1. rewrite (serializeCommand_returns plat _ _ _ _ _ Hps).
  cbn iota. fold cmd.
  unfold bind at 1. unfold call_queryStream, bind at 1. cbn [history].
  unfold bind at 1. cbn [emit ret]. rewrite Hfail. cbn [Z.eqb INVALID_HANDLE].
  unfold bind at 1.
  change (set_hasError c _) with (set_hasError c (with_event w (EQueryStream (connId x) cmd))).
  rewrite (set_hasError_ok _ c x) by done. cbn iota.
  eexists. reflexivity.
Qed.

(** [queryStream] when [#ensureOpen] rejects the command. *)
Lemma queryStream_rejected w c sql params opts e :
  ensureOpen c opts w = (w, Throw e) ->
  queryStream ffi plat c sql params opts w = (w, Throw e).
Proof. intros H. unfold queryStream, bind at 1. by rewrite H. Qed.

(** [pool.queryStream] with parameters that do not serialize: the
    connection just acquired is disconnected and the [RangeError] of the
    codec is thrown again. *)
Lemma pooled_stream_unserializable w p mp sql params opts cause :
  pools w !! p = Some mp -> mp_closed mp = false -> admissible w opts ->
  let id := mp_poolId mp in
  let conn := poolAcquire ffi (trace w) id in
  conn <> INVALID_HANDLE ->
  serializeParams plat params = inl cause ->
  exists w1,
    mp_queryStream ffi plat p sql params opts w = (w1, Throw (ErrRange cause)) /\
    trace w1 = trace w ++ [EPoolAcquire id; EDisconnect conn] /\
    streams w1 = streams w.
Proof.
  intros Hp Hopen Hadm id conn Hconn Hps.
  set (w0 := with_acquired w id conn).
  set (c := List.length (conns w)).
  assert (Hc : conns w0 !! c = Some (pooled_conn id conn)).
  { cbn. by apply list_lookup_middle. }
  assert (Hadm0 : ensureOpen c opts w0 = (w0, Ok tt)).
  { by eapply ensureOpen_accepts. }
  destruct (unserializable_command ffi plat w0 c _ sql params opts cause Hc Hadm0 Hps)
    as (_ & _ & _ & Hrun).
  destruct (close_idle ffi w0 c _ Hc eq_refl eq_refl eq_refl) as (w1 & Hclose & Htr & Hst).
  exists w1. split.
  { unfold mp_queryStream, bind at 1.
    rewrite (mp_connect_acquires _ _ _ Hp Hopen Hconn). fold id conn w0 c. cbn iota.
    unfold try_rethrow, bind at 1. rewrite Hrun. cbn iota.
    unfold cn_disconnect. by rewrite Hclose. }
  split; [|done]. rewrite Htr. cbn. by rewrite <- app_assoc.
Qed.

(** A pooled stream that fails to open never gives its connection back to
    the pool: whatever made [cn.queryStream] throw, an aborted signal or
    parameters that do not serialize included, the connection just acquired
    is disconnected and the error is thrown again; on success the connection
    stays checked out. *)
Theorem pooled_stream_failure_disconnects w p mp sql params opts :
  pools w !! p = Some mp -> mp_closed mp = false ->
  let id := mp_poolId mp in
  let conn := poolAcquire ffi (trace w) id in
  conn <> INVALID_HANDLE ->
  exists evs w' r,
    mp_queryStream ffi plat p sql params opts w = (w', r) /\
    trace w' = trace w ++ EPoolAcquire id :: evs /\
    match r with
    | Ok ps =>
        handoffs evs = [] /\
        ps = {| pqs_inner := List.length (streams w);
                pqs_conn := List.length (conns w) |} /\
        exists x, conns w' !! pqs_conn ps = Some x /\ connId x = conn /\
                  disposed x = false
    | Throw e =>
        handoffs evs = [EDisconnect conn] /\
        (ensureOpen (List.length (conns w)) opts (with_acquired w id conn)
           = (with_acquired w id conn, Throw e) \/
         (exists cause,
            serializeParams plat params = inl cause /\ e = ErrRange cause) \/
         exists msg, e = ErrCommand msg) /\
        exists x, conns w' !! List.length (conns w) = Some x /\ connId x = conn /\
                  disposed x = true
    end.
Proof.
  intros Hp Hopen id conn Hconn.
  set (w1 := with_acquired w id conn).
  set (c := List.length (conns w)).
  assert (Hc : conns w1 !! c = Some (pooled_conn id conn)).
  { cbn. by apply list_lookup_middle. }
  unfold mp_queryStream, bind at 1.
  rewrite (mp_connect_acquires _ _ _ Hp Hopen Hconn). fold id conn w1 c. cbn iota.
  assert (Hthrow : forall w2 x2 e evs,
    queryStream ffi plat c sql params opts w1 = (w2, Throw e) ->
    trace w2 = trace w1 ++ evs -> handoffs evs = [] ->
    conns w2 !! c = Some x2 -> connId x2 = conn -> disposed x2 = false ->
    exists evs' w',
      try_rethrow
        (let* stream := queryStream ffi plat c sql params opts in
         ret {| pqs_inner := stream; pqs_conn := c |})
        (cn_disconnect ffi c) w1 = (w', Throw e) /\
      trace w' = trace w ++ EPoolAcquire id :: evs' /\
      handoffs evs' = [EDisconnect conn] /\
      exists x, conns w' !! c = Some x /\ connId x = conn /\ disposed x = true).
  { intros w2 x2 e evs Hrun Htr Hno Hx2 Hid Hd.
    unfold try_rethrow, bind at 1. rewrite Hrun. cbn iota.
    destruct (cn_close_cleaning ffi w2 c x2 Hx2 Hd) as (e2 & w3 & Hcl & Hclose).
    unfold cn_disconnect. rewrite Hclose. cbn iota.
    exists (evs ++ e2 ++ [EDisconnect conn]), (with_event w3 (EDisconnect (connId x2))).
    split; [done|]. split.
    { cbn [trace with_event]. rewrite (cg_trace _ _ _ Hcl). cbn [trace with_conn].
      rewrite Htr, Hid. cbn [trace w1 with_acquired].
      rewrite <- !app_assoc. done. }
    split.
    { rewrite !handoffs_app, Hno, (handoffs_cleanup _ (cg_events _ _ _ Hcl)). done. }
    assert (Hcd : conns (with_conn w2 c (conn_disposed x2)) !! c = Some (conn_disposed x2)).
    { cbn. by eapply lookup_insert_same. }
    destruct (cg_conns _ _ _ Hcl c _ Hcd) as (x3 & Hx3 & Hi3 & _ & Hd3 & _).
    exists x3. split; [done|]. split; [by rewrite Hi3|done]. }
  pose proof (ensureOpen_same c opts w1) as Hsame.
  destruct (ensureOpen c opts w1) as [w0 [[]|e]] eqn:Hadm; cbn in Hsame; subst w0.
  - destruct (serializeParams plat params) as [cause|ps] eqn:Hps.
    { destruct (unserializable_command ffi plat w1 c _ sql params opts cause Hc Hadm Hps)
        as (_ & _ & _ & Hrun).
      destruct (Hthrow _ (pooled_conn id conn) _ [] Hrun)
        as (evs' & w' & Hall & Htr & Hh & Hx); try done.
      { by rewrite app_nil_r. }
      exists evs', w', (Throw (ErrRange cause)). split; [done|]. split; [done|].
      split; [done|]. split; [right; left; by exists cause|done]. }
    set (cmd := stringifyCommand plat (buildCommand w1 sql ps opts)).
    destruct (Z.eq_dec (ffi_queryStream ffi (trace w1) conn cmd) INVALID_HANDLE)
      as [Hbad|Hgood].
    + destruct (queryStream_refused w1 c _ sql params ps opts Hc Hadm Hps Hbad)
        as (msg & Hrun).
      cbn [connId pooled_conn] in Hrun. fold cmd in Hrun.
      destruct (Hthrow _ (conn_failed (pooled_conn id conn)) _
                  [EQueryStream conn cmd; ELastError conn] Hrun)
        as (evs' & w' & Hall & Htr & Hh & Hx); try done.
      { cbn. by rewrite <- app_assoc. }
      { cbn. by eapply lookup_insert_same. }
      exists evs', w', (Throw (ErrCommand msg)). split; [done|]. split; [done|].
      split; [done|]. split; [right; right; by exists msg|done].
    + pose proof (queryStream_opens ffi plat w1 c _ sql params ps opts Hc Hadm Hps Hgood)
        as Hrun.
      cbn [connId pooled_conn] in Hrun. fold cmd in Hrun.
      unfold try_rethrow, bind at 1. rewrite Hrun. cbn iota. cbn [ret].
      eexists [EQueryStream conn cmd], _, (Ok _). split; [reflexivity|].
      split; [cbn; by rewrite <- app_assoc|].
      split; [done|]. split; [done|].
      eexists. cbn [pqs_conn conns]. split; [by eapply lookup_insert_same|]. done.
  - pose proof (queryStream_rejected w1 c sql params opts e Hadm) as Hrun.
    destruct (Hthrow _ (pooled_conn id conn) _ [] Hrun)
      as (evs' & w' & Hall & Htr & Hh & Hx); try done.
    { by rewrite app_nil_r. }
    exists evs', w', (Throw e). split; [done|]. split; [done|].
    split; [done|]. split; [by left|done].
Qed.

(** A pooled stream holds its connection until it is closed: [close()]
    closes the cursor first and then gives the connection back to the
    pool, and a second [close()] does nothing.  Reading the stream to its
    end through [toReadableStream()] closes the cursor but leaves the
    connection checked out, and so does a [close()] whose native close
    raises.  (When the parameters do not serialize there is no stream:
    [pool.queryStream] throws the [RangeError] of the codec, and the
    acquisition and the disconnection of the connection are its only calls
    through the boundary.) *)
Theorem pooled_stream_close_releases w p mp sql params opts :
  pools w !! p = Some mp -> mp_closed mp = false -> admissible w opts ->
  let id := mp_poolId mp in
  let conn := poolAcquire ffi (trace w) id in
  conn <> INVALID_HANDLE ->
  match serializeParams plat params with
  | inl cause =>
      exists w1,
        mp_queryStream ffi plat p sql params opts w = (w1, Throw (ErrRange cause)) /\
        trace w1 = trace w ++ [EPoolAcquire id; EDisconnect conn]
  | inr serialized =>
  let cmd := stringifyCommand plat (buildCommand w sql serialized opts) in
  let cursor := ffi_queryStream ffi (trace w ++ [EPoolAcquire id]) conn cmd in
  cursor <> INVALID_HANDLE ->
  exists w1 ps,
    mp_queryStream ffi plat p sql params opts w = (w1, Ok ps) /\
    trace w1 = trace w ++ [EPoolAcquire id; EQueryStream conn cmd] /\
    (streamClose ffi (trace w1) cursor = false ->
     exists w2,
       pqs_close ffi ps w1 = (w2, Ok tt) /\
       trace w2 = trace w1 ++ [EStreamClose cursor; EPoolRelease id conn] /\
       pqs_close ffi ps w2 = (w2, Ok tt)) /\
    (streamClose ffi (trace w1) cursor = true ->
     exists w2,
       pqs_close ffi ps w1 = (w2, Throw ErrNative) /\
       trace w2 = trace w1 ++ [EStreamClose cursor]) /\
    (streamNext ffi (trace w1) cursor = None ->
     streamClose ffi (trace w1 ++ [EStreamNext cursor]) cursor = false ->
     exists w2,
       pqs_pull ffi ps w1 = (w2, Ok None) /\
       trace w2 = trace w1 ++ [EStreamNext cursor; EStreamClose cursor] /\
       exists x, conns w2 !! pqs_conn ps = Some x /\ disposed x = false)
  end.
Proof.
  intros Hp Hopen Hadm id conn Hconn.
  destruct (serializeParams plat params) as [cause|ps] eqn:Hps.
  { destruct (pooled_stream_unserializable w p mp sql params opts cause
                Hp Hopen Hadm Hconn Hps) as (w1 & Hrun & Htr & _).
    by exists w1. }
  intros cmd cursor Hcur.
  set (w0 := with_acquired w id conn).
  set (c := List.length (conns w)).
  set (s := List.length (streams w)).
  assert (Hc : conns w0 !! c = Some (pooled_conn id conn)).
  { cbn. by apply list_lookup_middle. }
  assert (Hadm0 : ensureOpen c opts w0 = (w0, Ok tt)).
  { by eapply ensureOpen_accepts. }
  pose proof (queryStream_opens ffi plat w0 c _ sql params ps opts Hc Hadm0 Hps) as Hrun.
  cbn zeta in Hrun. specialize (Hrun Hcur).
  change (stringifyCommand plat (buildCommand w0 sql ps opts)) with cmd in Hrun.
  change (ffi_queryStream ffi (trace w0) (connId (pooled_conn id conn)) cmd)
    with cursor in Hrun.
  change (List.length (streams w0)) with s in Hrun.
  change (connId (pooled_conn id conn)) with conn in Hrun.
  set (w1 := {| trace := trace w0 ++ [EQueryStream conn cmd] |}) in Hrun.
  exists w1, {| pqs_inner := s; pqs_conn := c |}.
  split.
  { unfold mp_queryStream, bind at 1.
    rewrite (mp_connect_acquires _ _ _ Hp Hopen Hconn). fold id conn w0 c. cbn iota.
    unfold try_rethrow, bind. by rewrite Hrun. }
  split; [cbn; by rewrite <- app_assoc|].
  set (x1 := conn_with_streams (pooled_conn id conn) (set_add s [])).
  assert (Hs1 : streams w1 !! s = Some (fresh_stream cursor (untrack_callbacks c s opts))).
  { cbn. by apply list_lookup_middle. }
  assert (Hc1 : conns w1 !! c = Some x1).
  { cbn. by eapply lookup_insert_same. }
  assert (Hidle : cn_streams (conn_with_streams x1 (set_delete s (cn_streams x1))) = []).
  { cbn. by rewrite Nat.eqb_refl. }
  split; [|split].
  - intros Hok.
    destruct (close_untracks ffi w1 s c x1 cursor opts Hs1 Hc1 Hok)
      as (w2 & Hclose & Htr & Hst & Hcn & _).
    assert (Hc2 : conns w2 !! c = Some (conn_with_streams x1 (set_delete s (cn_streams x1)))).
    { rewrite Hcn. by eapply lookup_insert_same. }
    destruct (asyncDispose_idle ffi w2 c _ Hc2 eq_refl Hidle eq_refl)
      as (w3 & Hdisp & Htr3 & Hagain & Hst3).
    exists w3. split; [|split].
    + unfold pqs_close, bind. cbn [pqs_inner pqs_conn]. by rewrite Hclose.
    + rewrite Htr3, Htr, <- app_assoc. done.
    + unfold pqs_close, bind. cbn [pqs_inner pqs_conn].
      assert (Hs3 : streams w3 !! s = Some (stream_closed (fresh_stream cursor []))).
      { rewrite Hst3, Hst. by eapply lookup_insert_same. }
      by rewrite (close_closed ffi _ _ _ Hs3 eq_refl).
  - intros Hbad. eexists. split.
    + unfold pqs_close, bind. cbn [pqs_inner pqs_conn].
      rewrite (close_open ffi _ _ _ Hs1 eq_refl). cbn [cursorId fresh_stream].
      rewrite Hbad. reflexivity.
    + done.
  - intros Hend Hok.
    unfold pqs_pull, pull, bind at 1. cbn [pqs_inner].
    rewrite (fetchNext_end ffi _ _ _ Hs1 eq_refl eq_refl Hend). cbn iota.
    set (wa := with_event w1 _).
    assert (Hsa : streams wa !! s = Some (fresh_stream cursor (untrack_callbacks c s opts)))
      by done.
    unfold bind at 1. rewrite (mark_done_ok _ _ _ Hsa). cbn iota.
    set (wb := with_stream wa s _).
    assert (Hsb : streams wb !! s =
              Some (set_done (fresh_stream cursor (untrack_callbacks c s opts)) true)).
    { cbn. by eapply lookup_insert_same. }
    pose proof (callbacks_untracking (untrack_callbacks c s opts)
                  (after_native_close wb s
                     (set_done (fresh_stream cursor (untrack_callbacks c s opts)) true) []))
      as [Hu Hr].
    unfold bind at 1. rewrite (close_open ffi _ _ _ Hsb eq_refl).
    change (streamClose ffi (trace wb) _) with
      (streamClose ffi (trace w1 ++ [EStreamNext cursor]) cursor).
    rewrite Hok.
    change (onCloseCallbacks (set_done (fresh_stream cursor ?l) true)) with l.
    set (m := for_each _ _ _) in *. destruct m as [w2 r] eqn:Hm. cbn in Hr. subst r.
    cbn [fst] in Hu. cbn [ret]. exists w2. split; [done|]. split.
    + assert (Hsil : callback_events (untrack_callbacks c s opts) = []).
      { unfold untrack_callbacks. by destruct (tx_of opts). }
      rewrite (un_trace _ _ _ Hu), Hsil, app_nil_r.
      cbn [trace after_native_close wb with_stream wa with_event].
      by rewrite <- !app_assoc.
    + assert (Hca : conns (after_native_close wb s
                     (set_done (fresh_stream cursor (untrack_callbacks c s opts)) true) [])
                    !! c = Some x1) by done.
      destruct (un_conns _ _ _ Hu c _ Hca) as (l' & Hx2 & _).
      eexists. split; [exact Hx2|done].
Qed.

(** [toArray()] on a pooled stream returns every row that the boundary
    serves, in order; the cursor is closed after the last fetch, and then
    the connection is given back to the pool, once.  (When the parameters
    do not serialize there is no stream: [pool.queryStream] throws the
    [RangeError] of the codec, and the acquisition and the disconnection of
    the connection are its only calls through the boundary.) *)
Theorem pooled_toArray_releases w p mp sql params opts rows fuel :
  pools w !! p = Some mp -> mp_closed mp = false -> admissible w opts ->
  let id := mp_poolId mp in
  let conn := poolAcquire ffi (trace w) id in
  conn <> INVALID_HANDLE ->
  match serializeParams plat params with
  | inl cause =>
      exists w1,
        mp_queryStream ffi plat p sql params opts w = (w1, Throw (ErrRange cause)) /\
        trace w1 = trace w ++ [EPoolAcquire id; EDisconnect conn]
  | inr serialized =>
  let cmd := stringifyCommand plat (buildCommand w sql serialized opts) in
  let cursor := ffi_queryStream ffi (trace w ++ [EPoolAcquire id]) conn cmd in
  cursor <> INVALID_HANDLE ->
  serves ffi cursor (trace w ++ [EPoolAcquire id; EQueryStream conn cmd]) rows ->
  closes_quietly ffi cursor ->
  List.length rows < fuel ->
  exists w1 ps evs w2,
    mp_queryStream ffi plat p sql params opts w = (w1, Ok ps) /\
    trace w1 = trace w ++ [EPoolAcquire id; EQueryStream conn cmd] /\
    pqs_toArray ffi fuel ps w1 = (w2, Ok (Some rows)) /\
    trace w2 = trace w1 ++ List.repeat (EStreamNext cursor) (S (List.length rows))
                 ++ EStreamClose cursor :: evs /\
    handoffs evs = [EPoolRelease id conn] /\
    pqs_close ffi ps w2 = (w2, Ok tt)
  end.
Proof.
  intros Hp Hopen Hadm id conn Hconn.
  destruct (serializeParams plat params) as [cause|serialized] eqn:Hps.
  { destruct (pooled_stream_unserializable w p mp sql params opts cause
                Hp Hopen Hadm Hconn Hps) as (w1 & Hrun & Htr & _).
    by exists w1. }
  intros cmd cursor Hcur Hsv Hquiet Hfuel.
  set (w0 := with_acquired w id conn).
  set (c := List.length (conns w)).
  set (s := List.length (streams w)).
  assert (Hc : conns w0 !! c = Some (pooled_conn id conn)).
  { cbn. by apply list_lookup_middle. }
  assert (Hadm0 : ensureOpen c opts w0 = (w0, Ok tt)).
  { by eapply ensureOpen_accepts. }
  pose proof (queryStream_opens ffi plat w0 c _ sql params serialized opts Hc Hadm0 Hps)
    as Hrun.
  cbn zeta in Hrun. specialize (Hrun Hcur).
  change (stringifyCommand plat (buildCommand w0 sql serialized opts)) with cmd in Hrun.
  change (ffi_queryStream ffi (trace w0) (connId (pooled_conn id conn)) cmd)
    with cursor in Hrun.
  change (List.length (streams w0)) with s in Hrun.
  change (connId (pooled_conn id conn)) with conn in Hrun.
  set (w1 := {| trace := trace w0 ++ [EQueryStream conn cmd] |}) in Hrun.
  set (q := fresh_stream cursor (untrack_callbacks c s opts)).
  set (x1 := conn_with_streams (pooled_conn id conn) (set_add s [])).
  assert (Htr1 : trace w1 = trace w ++ [EPoolAcquire id; EQueryStream conn cmd]).
  { cbn. by rewrite <- app_assoc. }
  assert (Hs1 : streams w1 !! s = Some q).
  { cbn. by apply list_lookup_middle. }
  assert (Hc1 : conns w1 !! c = Some x1).
  { cbn. by eapply lookup_insert_same. }
  assert (Hsv1 : serves ffi (cursorId q) (trace w1) rows) by (by rewrite Htr1).
  destruct (toArray_collects ffi w1 s q rows fuel Hs1 eq_refl eq_refl Hsv1 Hquiet Hfuel)
    as (w2 & Harr & Htr2 & Hs2 & Hcn2).
  destruct (Hcn2 c x1 Hc1) as (l' & Hc2).
  destruct (cn_asyncDispose_cleaning ffi w2 c _ Hc2 eq_refl)
    as (evs & w3 & Hcl & Hdisp).
  assert (Hsil : callback_events (untrack_callbacks c s opts) = []).
  { unfold untrack_callbacks. by destruct (tx_of opts). }
  exists w1, {| pqs_inner := s; pqs_conn := c |},
    (evs ++ [EPoolRelease id conn]), (with_event w3 (EPoolRelease id conn)).
  split.
  { unfold mp_queryStream, bind at 1.
    rewrite (mp_connect_acquires _ _ _ Hp Hopen Hconn). fold id conn w0 c. cbn iota.
    unfold try_rethrow, bind. by rewrite Hrun. }
  split; [exact Htr1|].
  assert (Hclose : pqs_close ffi {| pqs_inner := s; pqs_conn := c |} w2
                   = (with_event w3 (EPoolRelease id conn), Ok tt)).
  { unfold pqs_close, bind. cbn [pqs_inner pqs_conn].
    by rewrite (close_closed ffi _ _ _ Hs2 eq_refl), Hdisp. }
  split.
  { unfold pqs_toArray, try_finally. cbn [pqs_inner]. by rewrite Harr, Hclose. }
  split.
  { cbn [trace with_event]. rewrite (cg_trace _ _ _ Hcl). cbn [trace with_conn].
    rewrite Htr2. cbn [cursorId onCloseCallbacks q fresh_stream]. rewrite Hsil.
    rewrite <- !app_assoc. cbn. by rewrite <- !app_assoc. }
  split.
  { by rewrite handoffs_app, (handoffs_cleanup _ (cg_events _ _ _ Hcl)). }
  destruct (disposed_for_good ffi evs w2 c _ w3 (EPoolRelease id conn) Hc2 Hcl)
    as (_ & _ & Hagain & _).
  unfold pqs_close, bind. cbn [pqs_inner pqs_conn].
  destruct (cg_streams _ _ _ Hcl s _ Hs2) as (q' & Hq' & _ & _ & _ & [->|(Hopenq & _)]);
    [|done].
  assert (Hq3 : streams (with_event w3 (EPoolRelease id conn)) !! s
                = Some (stream_closed (set_done q true))) by done.
  by rewrite (close_closed ffi _ _ _ Hq3 eq_refl), Hagain.
Qed.

End PooledStreams.

Lemma toInt32_land x : Z.land (toInt32 x) 255 = (x mod 256)%Z.
Proof.
  change 255%Z with (Z.ones 8). rewrite Z.land_ones by lia.
  unfold toInt32. change (2 ^ 8)%Z with 256%Z.
  change (2 ^ 31)%Z with 2147483648%Z. change (2 ^ 32)%Z with (256 * 16777216)%Z.
  Z.to_euclidean_division_equations. lia.
Qed.

Lemma shifted_byte_eq now k :
  (0 <= now)%Z -> (0 <= k)%Z -> shifted_byte now k = ((now / 2 ^ k) mod 256)%Z.
Proof.
  intros Hn Hk. unfold shifted_byte. rewrite toInt32_land.
  rewrite Z.quot_div_nonneg; [done|done|]. by apply Z.pow_pos_nonneg.
Qed.

(** A property of the numbers below sixteen is checked on each of them. *)
Lemma below_16 (P : Z -> Prop) :
  (forall k : nat, k < 16 -> P (Z.of_nat k)) ->
  forall n, (0 <= n < 16)%Z -> P n.
Proof.
  intros H n Hn. replace n with (Z.of_nat (Z.to_nat n)) by lia. apply H. lia.
Qed.

Lemma hex_digit_value n : (0 <= n < 16)%Z -> hex_value_of (hex_digit n) = Some n.
Proof.
  revert n. apply below_16. intros k Hk.
  do 16 (destruct k as [|k]; [reflexivity|]). lia.
Qed.

(** Every byte is printed as two digits. *)
Lemma hex_pair b :
  (0 <= b < 256)%Z ->
  padStart2 (toString16 b) =
    String (hex_digit (b / 16)) (String (hex_digit (b mod 16)) EmptyString).
Proof.
  intros Hb. unfold toString16. destruct (Z.ltb_spec b 16).
  - cbn. rewrite Z.div_small, Z.mod_small by lia. done.
  - done.
Qed.

Lemma comb_bytes_shape random now :
  random_bytes random ->
  exists r0 r1 r2 r3 r4 r5 r6 r7 r8 r9,
    comb_bytes random now =
      [r0; r1; r2; r3; r4; r5; Z.lor (Z.land r6 15) 64; r7;
       Z.lor (Z.land r8 63) 128; r9;
       shifted_byte now 40; shifted_byte now 32; shifted_byte now 24;
       shifted_byte now 16; shifted_byte now 8; Z.land (toInt32 now) 255] /\
    Forall (fun b => 0 <= b < 256)%Z [r0; r1; r2; r3; r4; r5; r6; r7; r8; r9].
Proof.
  intros [Hlen Hall].
  do 16 (destruct random as [|? random]; [discriminate Hlen|]).
  destruct random; [|discriminate Hlen].
  do 10 eexists. split; [reflexivity|].
  repeat match goal with
         | H : Forall _ (_ :: _) |- _ => apply Forall_cons_1 in H as [? H]
         end.
  repeat constructor; cbn; lia.
Qed.

Lemma land_ones_bound r n : (0 <= n)%Z -> (0 <= Z.land r (Z.ones n) < 2 ^ n)%Z.
Proof. intros Hn. rewrite Z.land_ones by done. apply Z.mod_pos_bound. lia. Qed.

Lemma version_byte r :
  let b := Z.lor (Z.land r 15) 64 in
  (0 <= b < 256 /\ b / 16 = 4)%Z.
Proof.
  intros b. subst b.
  pose proof (land_ones_bound r 4 ltac:(lia)) as H. change (Z.ones 4) with 15%Z in H.
  change (2 ^ 4)%Z with 16%Z in H.
  set (l := Z.land r 15) in *. clearbody l.
  revert l H. apply (below_16 (fun l => 0 <= Z.lor l 64 < 256 /\ Z.lor l 64 / 16 = 4)%Z).
  intros k Hk. do 16 (destruct k as [|k]; [by cbn|]). lia.
Qed.

Lemma variant_byte r :
  let b := Z.lor (Z.land r 63) 128 in
  (0 <= b < 256 /\ 8 <= b / 16 <= 11)%Z.
Proof.
  intros b. subst b.
  pose proof (land_ones_bound r 6 ltac:(lia)) as H. change (Z.ones 6) with 63%Z in H.
  change (2 ^ 6)%Z with 64%Z in H.
  set (l := Z.land r 63) in *. clearbody l.
  assert (Hb : Z.lor l 128 = (l + 128)%Z).
  { assert (Hs : forall k, (0 <= k < 64)%nat -> Z.lor (Z.of_nat k) 128 = (Z.of_nat k + 128)%Z).
    { intros k Hk. do 64 (destruct k as [|k]; [reflexivity|]). lia. }
    rewrite <- (Z2Nat.id l) by lia. apply Hs. lia. }
  rewrite Hb. split; [lia|]. Z.to_euclidean_division_equations. lia.
Qed.

Lemma land_255_bound x : (0 <= Z.land x 255 < 256)%Z.
Proof. apply (land_ones_bound x 8). lia. Qed.

Lemma hex_digit_is_hex n : (0 <= n < 16)%Z -> is_hex (hex_digit n).
Proof. intros H. exists n. by apply hex_digit_value. Qed.

Lemma nibbles b : (0 <= b < 256)%Z -> (0 <= b / 16 < 16 /\ 0 <= b mod 16 < 16)%Z.
Proof. intros H. Z.to_euclidean_division_equations. lia. Qed.

(** The text of the identifier, digit by digit. *)
Lemma newCOMB_digits random now :
  random_bytes random ->
  exists b0 b1 b2 b3 b4 b5 b6 b7 b8 b9,
    Forall (fun b => 0 <= b < 256)%Z [b0; b1; b2; b3; b4; b5; b6; b7; b8; b9] /\
    (b6 / 16 = 4)%Z /\ (8 <= b8 / 16 <= 11)%Z /\
    let h b := hex_digit (b / 16) in
    let l b := hex_digit (b mod 16) in
    let t k := shifted_byte now k in
    let t0 := Z.land (toInt32 now) 255 in
    newCOMB random now =
      string_of_list_ascii
        [h b0; l b0; h b1; l b1; h b2; l b2; h b3; l b3; "-"%char;
         h b4; l b4; h b5; l b5; "-"%char;
         h b6; l b6; h b7; l b7; "-"%char;
         h b8; l b8; h b9; l b9; "-"%char;
         h (t 40%Z); l (t 40%Z); h (t 32%Z); l (t 32%Z); h (t 24%Z); l (t 24%Z);
         h (t 16%Z); l (t 16%Z); h (t 8%Z); l (t 8%Z); h t0; l t0].
Proof.
  intros Hr. destruct (comb_bytes_shape random now Hr)
    as (r0 & r1 & r2 & r3 & r4 & r5 & r6 & r7 & r8 & r9 & Heq & Hall).
  repeat match goal with
         | H : Forall _ (_ :: _) |- _ => apply Forall_cons_1 in H as [? H]
         end.
  destruct (version_byte r6) as [Hv1 Hv2]. destruct (variant_byte r8) as [Hw1 Hw2].
  exists r0, r1, r2, r3, r4, r5, (Z.lor (Z.land r6 15) 64), r7,
         (Z.lor (Z.land r8 63) 128), r9.
  split; [repeat constructor; lia|]. split; [done|]. split; [done|].
  intros h l t t0. unfold newCOMB. rewrite Heq. cbn [List.map].
  rewrite !hex_pair by (first [lia | apply land_255_bound]).
  reflexivity.
Qed.

(** The identifier has the layout of a version 4 UUID: five groups of 8, 4,
    4, 4 and 12 lower-case hexadecimal digits separated by hyphens, with
    version digit 4 and a variant digit among 8, 9, a and b. *)
Theorem newCOMB_is_uuid_v4 random now :
  random_bytes random ->
  exists (g1 g2 g3 g4 g5 : string) (v : ascii),
    newCOMB random now
      = (g1 ++ "-" ++ g2 ++ "-" ++ g3 ++ "-" ++ g4 ++ "-" ++ g5)%string /\
    String.length g1 = 8 /\ String.length g2 = 4 /\ String.length g3 = 4 /\
    String.length g4 = 4 /\ String.length g5 = 12 /\
    Forall is_hex (list_ascii_of_string (g1 ++ g2 ++ g3 ++ g4 ++ g5)%string) /\
    String.get 0 g3 = Some "4"%char /\
    String.get 0 g4 = Some v /\
    In v ["8"; "9"; "a"; "b"]%char.
Proof.
  intros Hr.
  destruct (newCOMB_digits random now Hr)
    as (b0 & b1 & b2 & b3 & b4 & b5 & b6 & b7 & b8 & b9 & Hall & Hv & Hw & Heq).
  cbn zeta in Heq.
  repeat match goal with
         | H : Forall _ (_ :: _) |- _ => apply Forall_cons_1 in H as [? H]
         end.
  set (h b := hex_digit (b / 16)) in *. set (l b := hex_digit (b mod 16)) in *.
  set (t k := shifted_byte now k) in *. set (t0 := Z.land (toInt32 now) 255) in *.
  exists (string_of_list_ascii [h b0; l b0; h b1; l b1; h b2; l b2; h b3; l b3]),
         (string_of_list_ascii [h b4; l b4; h b5; l b5]),
         (string_of_list_ascii [h b6; l b6; h b7; l b7]),
         (string_of_list_ascii [h b8; l b8; h b9; l b9]),
         (string_of_list_ascii
            [h (t 40%Z); l (t 40%Z); h (t 32%Z); l (t 32%Z); h (t 24%Z); l (t 24%Z);
             h (t 16%Z); l (t 16%Z); h (t 8%Z); l (t 8%Z); h t0; l t0]),
         (h b8).
  split; [exact Heq|]. do 5 (split; [reflexivity|]).
  assert (Hh : forall b, (0 <= b < 256)%Z -> is_hex (h b) /\ is_hex (l b)).
  { intros b Hb. destruct (nibbles b Hb). split; by apply hex_digit_is_hex. }
  assert (Ht : forall k, (0 <= t k < 256)%Z) by (intros k; apply land_255_bound).
  assert (Ht0 : (0 <= t0 < 256)%Z) by apply land_255_bound.
  split.
  { cbn. repeat constructor; apply Hh; auto. }
  split; [cbn; unfold h; by rewrite Hv|]. split; [done|].
  unfold h. cbn.
  assert (b8 / 16 = 8 \/ b8 / 16 = 9 \/ b8 / 16 = 10 \/ b8 / 16 = 11)%Z
    as [E|[E|[E|E]]] by lia; rewrite E; cbn; auto.
Qed.

Lemma parse_pair acc b r :
  (0 <= b < 256)%Z ->
  parse_hex acc (String (hex_digit (b / 16)) (String (hex_digit (b mod 16)) r)) =
  parse_hex (256 * acc + b) r.
Proof.
  intros Hb. destruct (nibbles b Hb) as [H1 H2]. cbn [parse_hex].
  rewrite !hex_digit_value by done. f_equal.
  Z.to_euclidean_division_equations. lia.
Qed.

Lemma time_bytes now :
  (0 <= now)%Z ->
  (256 * (256 * (256 * (256 * (256 * (256 * 0 + shifted_byte now 40)
     + shifted_byte now 32) + shifted_byte now 24) + shifted_byte now 16)
     + shifted_byte now 8) + Z.land (toInt32 now) 255 = now mod 2 ^ 48)%Z.
Proof.
  intros Hn. rewrite !shifted_byte_eq, toInt32_land by lia.
  change (2 ^ 40)%Z with (256 * (256 * (256 * (256 * 256))))%Z.
  change (2 ^ 32)%Z with (256 * (256 * (256 * 256)))%Z.
  change (2 ^ 24)%Z with (256 * (256 * 256))%Z.
  change (2 ^ 16)%Z with (256 * 256)%Z.
  change (2 ^ 8)%Z with 256%Z.
  change (2 ^ 48)%Z with (256 * (256 * (256 * (256 * (256 * 256)))))%Z.
  rewrite <- !Z.div_div by lia.
  remember (now / 256)%Z as q1 eqn:E1. remember (q1 / 256)%Z as q2 eqn:E2.
  remember (q2 / 256)%Z as q3 eqn:E3. remember (q3 / 256)%Z as q4 eqn:E4.
  remember (q4 / 256)%Z as q5 eqn:E5.
  pose proof (Z.div_mod now 256 ltac:(lia)) as D0. rewrite <- E1 in D0.
  pose proof (Z.div_mod q1 256 ltac:(lia)) as D1. rewrite <- E2 in D1.
  pose proof (Z.div_mod q2 256 ltac:(lia)) as D2. rewrite <- E3 in D2.
  pose proof (Z.div_mod q3 256 ltac:(lia)) as D3. rewrite <- E4 in D3.
  pose proof (Z.div_mod q4 256 ltac:(lia)) as D4. rewrite <- E5 in D4.
  pose proof (Z.div_mod q5 256 ltac:(lia)) as D5.
  pose proof (Z.mod_pos_bound now 256 ltac:(lia)). pose proof (Z.mod_pos_bound q1 256 ltac:(lia)).
  pose proof (Z.mod_pos_bound q2 256 ltac:(lia)). pose proof (Z.mod_pos_bound q3 256 ltac:(lia)).
  pose proof (Z.mod_pos_bound q4 256 ltac:(lia)). pose proof (Z.mod_pos_bound q5 256 ltac:(lia)).
  clear E1 E2 E3 E4 E5.
  apply (Z.mod_unique_pos _ _ (q5 / 256)); lia.
Qed.

(** The last group is the time, most significant digit first: it reads back
    as [Date.now()] modulo 2^48, so identifiers made at different times
    below 2^48 ms are ordered by their last group as by their time. *)
Theorem newCOMB_encodes_time random now :
  random_bytes random -> (0 <= now)%Z ->
  parse_hex 0 (substring 24 12 (newCOMB random now)) = Some (now mod 2 ^ 48)%Z /\
  ((now < 2 ^ 48)%Z ->
   parse_hex 0 (substring 24 12 (newCOMB random now)) = Some now).
Proof.
  intros Hr Hn.
  assert (H : parse_hex 0 (substring 24 12 (newCOMB random now))
              = Some (now mod 2 ^ 48)%Z).
  { destruct (newCOMB_digits random now Hr)
      as (b0 & b1 & b2 & b3 & b4 & b5 & b6 & b7 & b8 & b9 & _ & _ & _ & Heq).
    cbn zeta in Heq. rewrite Heq. cbn [string_of_list_ascii substring].
    rewrite !parse_pair by apply land_255_bound. cbn [parse_hex].
    by rewrite time_bytes. }
  split; [done|]. intros Hlt. rewrite H. by rewrite Z.mod_small by lia.
Qed.

Lemma append_nil_r (s : string) : (s ++ "")%string = s.
Proof.
  induction s as [|c s IH]; [done|]. cbn. unfold String.append in *. cbn.
  fold String.append. by f_equal.
Qed.

Lemma append_assoc (a b c : string) : ((a ++ b) ++ c)%string = (a ++ b ++ c)%string.
Proof.
  induction a as [|x a IH]; [done|].
  change (String x ((a ++ b) ++ c) = String x (a ++ b ++ c))%string. by f_equal.
Qed.

Lemma index_text_inj i j : index_text i = index_text j -> i = j.
Proof.
  unfold index_text. intros H.
  apply DecimalNat.Unsigned.to_uint_inj.
  assert (Hne : forall n, Nat.to_uint n <> Decimal.Nil).
  { intros n Hn. pose proof (f_equal Nat.of_uint Hn) as Hz.
    rewrite DecimalNat.Unsigned.of_to in Hz. cbn in Hz. subst n. discriminate Hn. }
  pose proof (DecimalString.NilZero.usu _ (Hne i)) as Hi.
  pose proof (DecimalString.NilZero.usu _ (Hne j)) as Hj.
  rewrite H in Hi. rewrite Hi in Hj. by inversion Hj.
Qed.

Lemma template_loop_spec strings values :
  forall i,
    template_loop strings i values =
      (List.flat_map (fun k => [("@p" ++ index_text k)%string; template_part strings (S k)])
         (List.seq i (List.length values)),
       List.map (fun '(k, v) => (("p" ++ index_text k)%string, Plain v))
         (List.combine (List.seq i (List.length values)) values)).
Proof.
  induction values as [|v r IH]; intros i; [done|].
  cbn [template_loop List.length List.seq List.flat_map List.combine List.map].
  by rewrite IH.
Qed.

Lemma concat_template strings n :
  forall i,
    String.concat ""
      (List.flat_map (fun k => [("@p" ++ index_text k)%string; template_part strings (S k)])
         (List.seq i n)) = template_text strings i n.
Proof.
  assert (Hc : forall (a : string) l, String.concat "" (a :: l) = (a ++ String.concat "" l)%string).
  { intros a [|b l]; cbn; [by rewrite append_nil_r|done]. }
  induction n as [|n IH]; intros i; [done|].
  cbn [List.seq List.flat_map app template_text].
  rewrite !Hc, IH. by rewrite !append_assoc.
Qed.

Section Templates.
Variable plat : Platform.

(** The SQL text of a tagged template is made of the strings of the
    template and of the placeholders [@p0], [@p1], ... only: it is the
    same whatever the values are.  The values are bound, in order, to the
    parameters [p0], [p1], ..., whose names are pairwise distinct, and are
    serialized like any untyped parameter: in order, up to the first value,
    if any, on which [serializeValue] throws. *)
Theorem tagged_template_binds_values strings values :
  let (sql, params) := buildTaggedTemplate strings values in
  sql = (template_part strings 0
           ++ template_text strings 0 (List.length values))%string /\
  (forall values', List.length values' = List.length values ->
     fst (buildTaggedTemplate strings values') = sql) /\
  List.map fst params
    = List.map (fun k => ("p" ++ index_text k)%string) (List.seq 0 (List.length values)) /\
  NoDup (List.map fst params) /\
  List.map snd params = List.map Plain values /\
  serializeParams plat (Some params)
    = map_throwing
        (fun '(k, v) =>
           match serializeValue plat v with
           | inl cause => inl cause
           | inr value =>
               inr {| sp_name := ("p" ++ index_text k)%string;
                      sp_value := value;
                      sp_type := None; sp_output := None |}
           end)
        (List.combine (List.seq 0 (List.length values)) values).
Proof.
  assert (Hsql : forall vs, fst (buildTaggedTemplate strings vs) =
            (template_part strings 0 ++ template_text strings 0 (List.length vs))%string).
  { intros vs. unfold buildTaggedTemplate. rewrite template_loop_spec. cbn [fst].
    assert (Hc : forall (a : string) l,
              String.concat "" (a :: l) = (a ++ String.concat "" l)%string).
    { intros a [|b l]; cbn; [by rewrite append_nil_r|done]. }
    by rewrite Hc, concat_template. }
  pose proof (Hsql values) as H0. unfold buildTaggedTemplate in *.
  rewrite template_loop_spec in *. cbn [fst] in H0.
  split; [exact H0|]. split.
  { intros vs Hlen. rewrite (Hsql vs), Hlen. by rewrite H0. }
  assert (Hfst : List.map fst
            (List.map (fun '(k, v) => (("p" ++ index_text k)%string, Plain v))
               (List.combine (List.seq 0 (List.length values)) values))
          = List.map (fun k => ("p" ++ index_text k)%string)
              (List.seq 0 (List.length values))).
  { clear. generalize O. induction values as [|v r IH]; intros i; [done|].
    cbn. by rewrite IH. }
  split; [exact Hfst|]. split.
  { rewrite Hfst. apply NoDup_fmap_2; [|apply NoDup_ListNoDup, List.seq_NoDup].
    intros i j [= H]. by apply index_text_inj. }
  split.
  { clear. rewrite List.map_map. generalize O.
    induction values as [|v r IH]; intros i; [done|]. cbn. by rewrite IH. }
  cbn [serializeParams]. clear. generalize O.
  induction values as [|v r IH]; intros i; [done|].
  cbn [List.length List.seq List.combine List.map map_throwing].
  rewrite IH. unfold serializeParam. by destruct (serializeValue plat v).
Qed.

End Templates.

Section Results.
Context {Value Row : Type}.

(** OUTPUT parameters are looked up without their [@]: one leading [@] is
    dropped, no more.  A name that is not a member fails with the name that
    was looked up. *)
Theorem getOutput_drops_one_at (raw : ExecResultRaw Value Row) (name : string) :
  let r := new_ExecResult raw in
  getOutput r (String "@" name) =
    (if raw_has raw name then inr (raw_get raw name)
     else inl (OutputNotFound name)) /\
  (String.get 0 name <> Some "@"%char ->
   getOutput r (String "@" name) = getOutput r name).
Proof.
  intros r. split; [done|]. intros Hne. unfold getOutput.
  destruct name as [|c rest]; [done|].
  destruct (Ascii.ascii_dec c "@") as [->|Hc]; [by destruct Hne|].
  replace (clean_name (String c rest)) with (String c rest); [done|].
  unfold clean_name.
  destruct c as [[] [] [] [] [] [] [] []]; try done.
Qed.

(** [getResults] returns the result set at [index] when [index] is an
    integer from 0 to [resultSets - 1], and [getResultFirst] then returns
    its first row, or [undefined] when the set is empty.  An index below 0,
    or at or above [resultSets], is refused by both with the range error.
    Every other number ([NaN], or a number that is no integer and lies
    between 0 and [resultSets]) passes the guard: [getResults] returns
    [undefined], and [getResultFirst] throws a [TypeError]. *)
Theorem getResults_in_range (raw : ExecResultRaw Value Row) (index : NumClass) :
  let r := new_ExecResult raw in
  let n := Z.of_nat (er_resultSets r) in
  let refused :=
    getResults r index = inl (IndexOutOfRange index (n - 1)) /\
    getResultFirst r index = inl (IndexOutOfRange index (n - 1)) in
  let undefined :=
    getResults r index = inr None /\ getResultFirst r index = inl NotAnObject in
  match index with
  | Integral z =>
      if decide (0 <= z < n)%Z
      then exists rows,
             raw_resultSets raw !! Z.to_nat z = Some rows /\
             getResults r index = inr (Some rows) /\
             getResultFirst r index = inr (List.head rows)
      else refused
  | Between z => if decide (0 <= z < n)%Z then undefined else refused
  | Infinity _ => refused
  | NaN => undefined
  end.
Proof.
  intros r n refused undefined. subst r n refused undefined.
  cbn [er_resultSets new_ExecResult].
  unfold getResultFirst, getResults. cbn [er_data new_ExecResult].
  destruct index as [z|z|[|]|]; cbn [below at_or_above element negb orb]; try done.
  - destruct (decide _) as [Hin|Hout].
    + destruct (Z.ltb_spec z 0); [lia|].
      destruct (Z.leb_spec (Z.of_nat (List.length (raw_resultSets raw))) z); [lia|].
      cbn [orb].
      destruct (lookup_lt_is_Some_2 (raw_resultSets raw) (Z.to_nat z)) as [rows Hrows];
        [lia|].
      exists rows. by rewrite Hrows.
    + destruct (Z.ltb_spec z 0); [done|].
      destruct (Z.leb_spec (Z.of_nat (List.length (raw_resultSets raw))) z); [done|].
      lia.
  - destruct (decide _) as [Hin|Hout].
    + destruct (Z.ltb_spec z 0); [lia|].
      by destruct (Z.leb_spec (Z.of_nat (List.length (raw_resultSets raw))) z); [lia|].
    + destruct (Z.ltb_spec z 0); [done|].
      destruct (Z.leb_spec (Z.of_nat (List.length (raw_resultSets raw))) z); [done|].
      lia.
Qed.

End Results.

Lemma map_throwing_length {A B E : Type} (f : A -> E + B) (l : list A) (l' : list B) :
  map_throwing f l = inr l' -> List.length l' = List.length l.
Proof.
  revert l'. induction l as [|a l IH]; intros l'; cbn [map_throwing].
  - by intros [= <-].
  - destruct (f a) as [e|y]; [done|].
    destruct (map_throwing f l) as [e|ys]; [done|].
    intros [= <-]. cbn. f_equal. by apply IH.
Qed.

Lemma map_throwing_ext {A B E : Type} (f g : A -> E + B) (l : list A) :
  (forall a, f a = g a) -> map_throwing f l = map_throwing g l.
Proof.
  intros H. induction l as [|a l IH]; [done|]. cbn [map_throwing]. by rewrite H, IH.
Qed.

(** A slice between two integers within the array. *)
Lemma slice_integers {A : Type} (array : list A) (i n : nat) :
  i < List.length array ->
  slice array (Integral (Z.of_nat i)) (Integral (Z.of_nat i + Z.of_nat n))
    = List.firstn n (List.skipn i array).
Proof.
  intros Hi. unfold slice, slice_index.
  destruct (Z.ltb_spec (Z.of_nat i) 0); [lia|].
  destruct (Z.ltb_spec (Z.of_nat i + Z.of_nat n) 0); [lia|].
  rewrite Nat2Z.id. replace (Nat.min i (List.length array)) with i by lia.
  replace (Z.to_nat (Z.of_nat i + Z.of_nat n)) with (i + n) by lia.
  destruct (Nat.le_gt_cases (i + n) (List.length array)) as [Hle|Hgt].
  - replace (Nat.min (i + n) (List.length array) - i) with n by lia. done.
  - replace (Nat.min (i + n) (List.length array) - i) with (List.length array - i) by lia.
    rewrite !List.firstn_all2; [done|rewrite List.length_skipn; lia..].
Qed.

Section Batching.
Variable ffi : BulkFFI.
Variable plat : Platform.
Variable ar : Arithmetic.

Lemma executeSingle_sent b rows sent :
  fst (executeSingle ffi b rows sent) = sent ++ [request_of b rows].
Proof. unfold executeSingle. by destruct (bulkInsert _ _ _ _). Qed.

Lemma serializeCell_serializeValue (val : ParamValue) :
  serializeCell plat val = serializeValue plat val.
Proof. by destruct val. Qed.

Lemma batched_from b rows size :
  safe_integers ar ->
  bb_batchSize b = number_of ar (Z.of_nat size) -> 0 < size ->
  (Z.of_nat (List.length rows) + Z.of_nat size <= 2 ^ 53)%Z ->
  forall fuel i total sent,
    List.length rows <= i + fuel -> i <= List.length rows + size ->
    exists new r,
      executeBatched_from ffi ar fuel b rows (number_of ar (Z.of_nat i)) total sent
        = (sent ++ new, Some r) /\
      (List.length rows <= i -> new = []) /\
      Forall (fun q => q = request_of b (br_rows q) /\
                       0 < List.length (br_rows q) <= size) new /\
      (forall k q, new !! k = Some q -> S k < List.length new ->
                   List.length (br_rows q) = size) /\
      exists rest,
        List.skipn i rows = List.concat (List.map br_rows new) ++ rest /\
        match r with
        | inr t => rest = [] /\
                   t = rows_affected ffi ar (bb_connId b) sent new total
        | inl e => refused_last ffi (bb_connId b) sent new /\
                   exists msg, e = BulkFailed msg
        end.
Proof.
  intros [Hclass Hsum] Hsize Hpos Hsafe.
  assert (Hdone : forall fuel i total sent,
    List.length rows <= i -> i <= List.length rows + size ->
    exists new r,
      executeBatched_from ffi ar fuel b rows (number_of ar (Z.of_nat i)) total sent
        = (sent ++ new, Some r) /\
      (List.length rows <= i -> new = []) /\
      Forall (fun q => q = request_of b (br_rows q) /\
                       0 < List.length (br_rows q) <= size) new /\
      (forall k q, new !! k = Some q -> S k < List.length new ->
                   List.length (br_rows q) = size) /\
      exists rest,
        List.skipn i rows = List.concat (List.map br_rows new) ++ rest /\
        match r with
        | inr t => rest = [] /\
                   t = rows_affected ffi ar (bb_connId b) sent new total
        | inl e => refused_last ffi (bb_connId b) sent new /\
                   exists msg, e = BulkFailed msg
        end).
  { intros fuel i total sent Hge Hbound.
    exists [], (inr total). rewrite app_nil_r. split.
    { destruct fuel; cbn [executeBatched_from]; rewrite Hclass by lia;
        cbn [below]; by destruct (Z.ltb_spec (Z.of_nat i) (Z.of_nat (List.length rows)));
        [lia|]. }
    split; [done|]. split; [constructor|]. split; [by intros k q|].
    exists []. by split; [rewrite List.skipn_all2|]. }
  induction fuel as [|f IH]; intros i total sent Hfuel Hbound.
  - apply Hdone; lia.
  - destruct (Nat.le_gt_cases (List.length rows) i) as [Hge|Hlt];
      [by apply Hdone|].
    cbn [executeBatched_from]. rewrite Hclass by lia. cbn [below].
    destruct (Z.ltb_spec (Z.of_nat i) (Z.of_nat (List.length rows))); [|lia].
    rewrite Hsize, Hsum by lia. rewrite !Hclass by lia.
    rewrite (slice_integers rows i size Hlt).
    replace (Z.of_nat i + Z.of_nat size)%Z with (Z.of_nat (i + size)) by lia.
    set (chunk := List.firstn size (List.skipn i rows)).
    assert (Hlen : List.length chunk = Nat.min size (List.length rows - i)).
    { unfold chunk. by rewrite List.length_firstn, List.length_skipn. }
    assert (Hsplit : List.skipn i rows = chunk ++ List.skipn (i + size) rows).
    { unfold chunk. rewrite <- (List.firstn_skipn size (List.skipn i rows)) at 1.
      f_equal. rewrite List.skipn_skipn. f_equal. lia. }
    set (q := request_of b chunk).
    assert (Hq : q = request_of b (br_rows q) /\ 0 < List.length (br_rows q) <= size).
    { split; [done|]. cbn. lia. }
    unfold executeSingle. fold q.
    destruct (bulkInsert ffi sent (bb_connId b) q) as [n|] eqn:Hans.
    + destruct (IH (i + size) (number_add ar total n) (sent ++ [q])) as
        (new & r & Hrun & Hnil & Hall & Hfull & rest & Hrest & Hres); [lia..|].
      exists (q :: new), r. split; [by rewrite Hrun, <- app_assoc|].
      split; [lia|]. split; [by constructor|]. split.
      { intros [|k] q' Hk Hk'; cbn in Hk, Hk'.
        - inversion Hk; subst q'. cbn.
          destruct (Nat.le_gt_cases (List.length rows) (i + size)) as [Hle|Hgt].
          + rewrite (Hnil Hle) in Hk'. cbn in Hk'. lia.
          + lia.
        - apply (Hfull k q' Hk). lia. }
      exists rest. split.
      { cbn [List.map List.concat]. rewrite Hsplit, Hrest. by rewrite <- app_assoc. }
      destruct r as [e|t].
      * destruct Hres as [(init & q' & Hnew & Hno) Hmsg]. split; [|done].
        exists (q :: init), q'. split; [by rewrite Hnew|].
        by rewrite <- app_assoc in Hno.
      * destruct Hres as [-> ->]. split; [done|]. cbn [rows_affected].
        by rewrite Hans.
    + exists [q]. eexists (inl _). split; [reflexivity|]. split; [lia|].
      split; [by constructor|]. split.
      { intros [|k] q' Hk Hk'; cbn in Hk'; lia. }
      exists (List.skipn (i + size) rows). split.
      { cbn. by rewrite app_nil_r. }
      split; [|by eexists]. exists [], q. by rewrite app_nil_r.
Qed.

(** With a batch size that is an integer above 0 and below the number of
    rows (of an array, so below 2^32), on an engine whose arithmetic is
    exact on integers up to 2^53, and with enough rounds for one batch per
    row: when a cell does not serialize, [execute] throws the [RangeError]
    and sends nothing.  Otherwise the serialized rows are sent in
    consecutive batches of exactly that size, the last one possibly smaller
    and none empty.  When every batch is accepted, all rows have been sent,
    once and in order, and the result is the sum of the row counts
    reported; when one is refused, it is the last one sent: the batches
    before it stay inserted and the rest is never sent. *)
Theorem bulk_batches_partition_rows fuel b sent n :
  safe_integers ar ->
  bb_columns b <> [] ->
  bb_batchSize b = number_of ar n ->
  (0 < n < Z.of_nat (List.length (bb_rows b)))%Z ->
  (Z.of_nat (List.length (bb_rows b)) < 2 ^ 32)%Z ->
  List.length (bb_rows b) <= fuel ->
  match map_throwing (map_throwing (serializeCell plat)) (bb_rows b) with
  | inl cause =>
      bulk_execute ffi plat ar fuel b sent = (sent, Some (inl (BulkRange cause)))
  | inr rows =>
      exists new r rest,
        bulk_execute ffi plat ar fuel b sent = (sent ++ new, Some r) /\
        Forall (fun q => q = request_of b (br_rows q) /\
                         (0 < Z.of_nat (List.length (br_rows q)) <= n)%Z) new /\
        (forall k q, new !! k = Some q -> S k < List.length new ->
                     Z.of_nat (List.length (br_rows q)) = n) /\
        rows = List.concat (List.map br_rows new) ++ rest /\
        match r with
        | inr t => rest = [] /\
                   t = rows_affected ffi ar (bb_connId b) sent new (number_of ar 0)
        | inl e => refused_last ffi (bb_connId b) sent new /\
                   exists msg, e = BulkFailed msg
        end
  end.
Proof.
  intros Hsafe Hcols Hsize Hn Harray Hfuel. unfold bulk_execute.
  destruct (bb_columns b) as [|c cols] eqn:Hc; [done|].
  destruct (map_throwing (map_throwing (serializeCell plat)) (bb_rows b))
    as [cause|rows] eqn:Hrows; [done|].
  pose proof (map_throwing_length _ _ _ Hrows) as Hlen.
  rewrite Hsize, (class_of_integer ar Hsafe) by lia. cbn [above below].
  destruct (Z.ltb_spec 0 n); [|lia].
  destruct (Z.ltb_spec n (Z.of_nat (List.length rows))); [|lia].
  cbn [andb]. unfold executeBatched.
  assert (Hnat : n = Z.of_nat (Z.to_nat n)) by lia.
  rewrite Hnat in Hsize.
  destruct (batched_from b rows (Z.to_nat n) Hsafe Hsize ltac:(lia) ltac:(lia)
              fuel 0 (number_of ar 0) sent)
    as (new & r & Hrun & _ & Hall & Hfull & rest & Hrest & Hres); [lia..|].
  exists new, r, rest. split; [done|]. split.
  { eapply Forall_impl; [exact Hall|]. intros q [Hq Hl]. split; [done|]. lia. }
  split.
  { intros k q Hk Hk'. rewrite (Hfull k q Hk Hk'). lia. }
  split; [done|]. by destruct r.
Qed.

(** Without columns nothing is sent. *)
Lemma bulk_without_columns fuel b sent :
  bb_columns b = [] ->
  bulk_execute ffi plat ar fuel b sent = (sent, Some (inl BulkNoColumns)).
Proof. intros H. unfold bulk_execute. by rewrite H. Qed.

(** When the batch size is not above 0 (as the 0 of a new builder), or not
    below the number of rows, or [NaN]: [execute] throws the [RangeError]
    of the first cell that does not serialize (an Invalid Date, or a byte
    array too long for one call), before anything is sent.  When every cell
    serializes, everything goes in one request, also when there is no row
    at all: the request names the table, gives each column with its name,
    its type and whether it is nullable ([false] when not said), and holds
    every row with its cells serialized as the values of command parameters
    are.  The result is the count that the boundary reports, or the failure
    with the boundary's last error. *)
Theorem bulk_single_request_encodes_cells fuel b sent :
  bb_columns b <> [] ->
  (let size := number_class ar (bb_batchSize b) in
   above size 0 && below size (Z.of_nat (List.length (bb_rows b))) = false) ->
  match map_throwing (map_throwing (serializeValue plat)) (bb_rows b) with
  | inl cause =>
      bulk_execute ffi plat ar fuel b sent = (sent, Some (inl (BulkRange cause)))
  | inr cells =>
      let q := {| br_table := bb_table b;
                  br_columns :=
                    List.map (fun c => {| rc_name := bc_name c; rc_type := bc_type c;
                                          rc_nullable := default false (bc_nullable c) |})
                      (bb_columns b);
                  br_rows := cells |} in
      bulk_execute ffi plat ar fuel b sent =
        (sent ++ [q],
         Some match bulkInsert ffi sent (bb_connId b) q with
              | Some n => inr n
              | None =>
                  inl (BulkFailed
                         (default "Unknown error"
                            (bulk_lastError ffi (sent ++ [q]) (bb_connId b))))
              end)
  end.
Proof.
  intros Hcols Hsize.
  assert (Hrows : map_throwing (map_throwing (serializeCell plat)) (bb_rows b)
                  = map_throwing (map_throwing (serializeValue plat)) (bb_rows b)).
  { apply map_throwing_ext. intros row. apply map_throwing_ext.
    apply serializeCell_serializeValue. }
  unfold bulk_execute. destruct (bb_columns b) as [|c cols] eqn:Hc; [done|].
  rewrite Hrows.
  destruct (map_throwing (map_throwing (serializeValue plat)) (bb_rows b))
    as [cause|cells] eqn:Hcells; [done|].
  rewrite (map_throwing_length _ _ _ Hcells). cbn zeta in Hsize. rewrite Hsize.
  cbn zeta. unfold executeSingle, request_of. rewrite Hc.
  destruct (bulkInsert ffi sent (bb_connId b) _); [done|].
  by destruct (bulk_lastError ffi _ (bb_connId b)).
Qed.

End Batching.

(** [fromObjects] adds one row per object, in order, after the rows that
    are there; each has one cell per column, in column order, and a member
    that is missing becomes [null]. *)
Theorem fromObjects_rows_match_columns b objects :
  let b' := fromObjects b objects in
  List.firstn (List.length (bb_rows b)) (bb_rows b') = bb_rows b /\
  List.length (bb_rows b') = List.length (bb_rows b) + List.length objects /\
  bb_columns b' = bb_columns b /\
  forall i obj,
    objects !! i = Some obj ->
    exists row,
      bb_rows b' !! (List.length (bb_rows b) + i) = Some row /\
      List.length row = List.length (bb_columns b) /\
      Forall (fun v => v <> PVUndefined) row /\
      forall j col,
        bb_columns b !! j = Some col ->
        row !! j = Some (or_null (obj (bc_name col))).
Proof.
  intros b'. subst b'. unfold fromObjects. cbn [bb_rows bb_columns bb_add_rows].
  split.
  { by rewrite List.firstn_app, Nat.sub_diag, List.firstn_all, app_nil_r. }
  split; [by rewrite List.length_app, List.length_map|]. split; [done|].
  intros i obj Hi. eexists. split.
  { rewrite lookup_app_r by lia. rewrite Nat.add_comm, Nat.add_sub.
    rewrite list_lookup_fmap, Hi. reflexivity. }
  split; [by rewrite List.length_map|]. split.
  { apply List.Forall_forall. intros v Hv.
    apply List.in_map_iff in Hv as (col & <- & _).
    by destruct (obj (bc_name col)). }
  intros j col Hj. by rewrite list_lookup_fmap, Hj.
Qed.

(* ===================================================================== *)
(** * Properties of FILESTREAM handles                                    *)
(* ===================================================================== *)

Lemma fs_closes_app id h1 h2 : fs_closes id (h1 ++ h2) = fs_closes id h1 + fs_closes id h2.
Proof. unfold fs_closes. by rewrite List.filter_app, List.length_app. Qed.

Lemma fs_closes_close id : fs_closes id [EFsClose id] = 1.
Proof. unfold fs_closes. cbn. by rewrite Z.eqb_refl. Qed.

(** What one step does to a handle: nothing when it is closed; when it is
    open, some calls, of which a native close can only be the last one. *)
Definition fs_step (st st1 : FsState) : Prop :=
  fsId st1 = fsId st /\
  (fs_closed st = true -> st1 = st) /\
  (fs_closed st = false ->
   exists pre,
     fs_closes (fsId st) pre = 0 /\
     (fs_closed st1 = false /\ fs_trace st1 = fs_trace st ++ pre \/
      fs_closed st1 = true /\
      fs_trace st1 = fs_trace st ++ pre ++ [EFsClose (fsId st)])).

Lemma fs_step_refl st : fs_step st st.
Proof.
  split; [done|]. split; [done|]. intros Ho. exists []. split; [done|].
  left. split; [done|]. by rewrite app_nil_r.
Qed.

Section FilestreamLifecycle.
Variable ffi : FsFFI.
Variable plat : Platform.

Lemma fs_read_step maxBytes st :
  fs_step st (fst (fs_read ffi maxBytes st)) /\
  fs_closed (fst (fs_read ffi maxBytes st)) = fs_closed st /\
  (fs_closed st = true -> snd (fs_read ffi maxBytes st) = inl FsHandleClosed).
Proof.
  unfold fs_read. destruct (fs_closed st) eqn:Hc.
  - repeat split; try done. by rewrite Hc.
  - destruct (BigInt _) as [n|].
    2:{ cbn [fst snd]. split; [apply fs_step_refl|]. by split. }
    assert (H : fs_step st (fs_with_event st (EFsRead (fsId st) n))).
    { split; [done|]. split; [by rewrite Hc|]. intros _.
      exists [EFsRead (fsId st) n]. split; [done|]. left. by split. }
    destruct (filestreamRead ffi (fs_trace st) (fsId st) n) as [[m|data]|];
      [| destruct (decodeBase64 data) |];
      cbn [fst snd]; (split; [exact H|split; [exact Hc|done]]).
Qed.

Lemma fs_write_step data st :
  fs_step st (fst (fs_write ffi plat data st)) /\
  fs_closed (fst (fs_write ffi plat data st)) = fs_closed st /\
  (fs_closed st = true -> snd (fs_write ffi plat data st) = inl FsHandleClosed).
Proof.
  unfold fs_write. destruct (fs_closed st) eqn:Hc.
  - repeat split; try done. by rewrite Hc.
  - destruct (fromCharCode (argumentLimit plat) data) as [units|].
    2:{ cbn [fst snd]. split; [apply fs_step_refl|]. by split. }
    set (b64 := btoa units).
    assert (H : fs_step st (fs_with_event st (EFsWrite (fsId st) b64))).
    { split; [done|]. split; [by rewrite Hc|]. intros _.
      exists [EFsWrite (fsId st) b64]. split; [done|]. left. by split. }
    destruct (_ && _); cbn [fst snd]; (split; [exact H|split; [exact Hc|done]]).
Qed.

Lemma fs_close_step st :
  fs_step st (fst (fs_close ffi st)) /\
  fs_closed (fst (fs_close ffi st)) = true /\
  (fs_closed st = true -> fs_close ffi st = (st, inr tt)).
Proof.
  unfold fs_close. destruct (fs_closed st) eqn:Hc; cbn [negb].
  - repeat split; try done. by rewrite Hc.
  - assert (H : fs_step st (fs_with_event (fs_set_closed st) (EFsClose (fsId st)))).
    { split; [done|]. split; [by rewrite Hc|]. intros _.
      exists []. split; [done|]. right. by split. }
    destruct (filestreamClose ffi (fs_trace st) (fsId st));
      cbn [fst snd]; (split; [exact H|split; [done|done]]).
Qed.

(** Steps compose as long as the handle is open. *)
Lemma fs_step_trans st st1 st2 :
  fs_step st st1 -> fs_step st1 st2 -> fs_step st st2.
Proof.
  intros (Hi1 & Hc1 & Ho1) (Hi2 & Hc2 & Ho2).
  split; [by rewrite Hi2|]. split.
  - intros Hc. rewrite (Hc1 Hc) in *. by apply Hc2.
  - intros Ho. destruct (Ho1 Ho) as (pre & Hpre & [[Hc Ht]|[Hc Ht]]).
    + destruct (Ho2 Hc) as (pre2 & Hpre2 & [[Hc' Ht']|[Hc' Ht']]).
      * exists (pre ++ pre2). split; [rewrite fs_closes_app; rewrite Hi1 in Hpre2; lia|].
        left. split; [done|]. by rewrite Ht', Ht, <- app_assoc.
      * exists (pre ++ pre2). split; [rewrite fs_closes_app; rewrite Hi1 in Hpre2; lia|].
        right. split; [done|]. by rewrite Ht', Ht, Hi1, <- !app_assoc.
    + rewrite (Hc2 Hc). exists pre. split; [done|]. right. by split.
Qed.

Lemma fs_pull_catch_step err calls st :
  fs_step st (fst (pull_catch ffi err calls st)) /\
  fs_closed (fst (pull_catch ffi err calls st)) = true /\
  (fs_closed st = true ->
   pull_catch ffi err calls st = (st, inr (calls ++ [CtlError err]))).
Proof.
  unfold pull_catch. destruct (fs_close_step st) as (Hs & Hc & Hn).
  destruct (fs_close ffi st) as [st1 [e|[]]] eqn:Hrun; cbn [fst] in *.
  - split; [done|]. split; [done|]. intros H. by specialize (Hn H).
  - split; [done|]. split; [done|]. intros H. specialize (Hn H). by inversion Hn.
Qed.

Lemma fs_pull_step chunkSize st :
  fs_step st (fst (fs_pull ffi chunkSize st)) /\
  (fs_closed st = true ->
   fs_pull ffi chunkSize st = (st, inr [CtlError FsHandleClosed])).
Proof.
  unfold fs_pull. destruct (fs_read_step (Some chunkSize) st) as (Hs & Hc & Hn).
  destruct (fs_read ffi (Some chunkSize) st) as [st1 [e|chunk]] eqn:Hrun; cbn [fst snd] in *.
  - destruct (fs_pull_catch_step e [] st1) as (Hs1 & _ & Hn1). split.
    + by eapply fs_step_trans.
    + intros H. specialize (Hn H). inversion Hn; subst e.
      destruct Hs as (_ & Hsame & _). rewrite (Hsame H) in *. by apply Hn1.
  - destruct chunk as [|b chunk].
    + destruct (fs_close_step st1) as (Hs1 & Hc1 & _).
      destruct (fs_close ffi st1) as [st2 [e|[]]] eqn:Hclose; cbn [fst] in *.
      * destruct (fs_pull_catch_step e [CtlClose] st2) as (Hs2 & _ & _). split.
        -- eapply fs_step_trans; [exact Hs|]. by eapply fs_step_trans.
        -- intros H. by specialize (Hn H).
      * split; [by eapply fs_step_trans|]. intros H. by specialize (Hn H).
    + split; [done|]. intros H. by specialize (Hn H).
Qed.

Lemma fs_run_op_step op st :
  fs_step st (fst (fs_run_op ffi plat op st)) /\
  (fs_closed st = true -> fs_refused (snd (fs_run_op ffi plat op st))).
Proof.
  destruct op as [maxBytes|data| | |chunkSize| |chunk| |]; cbn [fs_run_op].
  - destruct (fs_read_step maxBytes st) as (Hs & _ & Hn).
    destruct (fs_read ffi maxBytes st) as [st1 [e|bytes]]; cbn [fst snd] in *;
      (split; [done|]); [done|]. intros H. by specialize (Hn H).
  - destruct (fs_write_step data st) as (Hs & _ & Hn).
    destruct (fs_write ffi plat data st) as [st1 [e|n]]; cbn [fst snd] in *;
      (split; [done|]); [done|]. intros H. by specialize (Hn H).
  - destruct (fs_close_step st) as (Hs & _ & _).
    by destruct (fs_close ffi st) as [st1 [e|[]]].
  - unfold fs_asyncDispose. destruct (fs_close_step st) as (Hs & _ & _).
    by destruct (fs_close ffi st) as [st1 [e|[]]].
  - destruct (fs_pull_step chunkSize st) as (Hs & Hn).
    destruct (fs_pull ffi chunkSize st) as [st1 [e|calls]] eqn:Hrun; cbn [fst snd] in *;
      (split; [done|]); [done|].
    intros H. specialize (Hn H). inversion Hn; subst. cbn.
    intros c [Hc|[]]. discriminate Hc.
  - destruct (fs_close_step st) as (Hs & _ & _).
    by destruct (fs_close ffi st) as [st1 [e|[]]].
  - destruct (fs_write_step chunk st) as (Hs & _ & Hn).
    destruct (fs_write ffi plat chunk st) as [st1 [e|n]]; cbn [fst snd] in *;
      (split; [done|]); [done|]. intros H. by specialize (Hn H).
  - destruct (fs_close_step st) as (Hs & _ & _).
    by destruct (fs_close ffi st) as [st1 [e|[]]].
  - destruct (fs_close_step st) as (Hs & _ & _).
    by destruct (fs_close ffi st) as [st1 [e|[]]].
Qed.

Lemma fs_run_ops_step ops :
  forall st,
    fs_step st (fst (fs_run_ops ffi plat ops st)) /\
    (fs_closed st = true -> Forall fs_refused (snd (fs_run_ops ffi plat ops st))).
Proof.
  induction ops as [|op ops IH]; intros st; cbn [fs_run_ops].
  - split; [apply fs_step_refl|constructor].
  - destruct (fs_run_op_step op st) as (Hs & Hr).
    destruct (fs_run_op ffi plat op st) as [st1 res]; cbn [fst snd] in *.
    destruct (IH st1) as (Hs1 & Hr1).
    destruct (fs_run_ops ffi plat ops st1) as [st2 rs]; cbn [fst snd] in *.
    split; [by eapply fs_step_trans|].
    intros H. constructor; [by apply Hr|]. apply Hr1.
    destruct Hs as (_ & Hsame & _). by rewrite (Hsame H).
Qed.

(** Whatever is done with an open handle, with its [ReadableStream] and
    with its [WritableStream], in any order and whatever the boundary
    answers: the handle is closed natively at most once, the native close
    is the last call made for it, and it has been made exactly when the
    handle is closed.  On a closed handle no operation reaches the
    boundary or hands data over. *)
Theorem filestream_closed_once_and_last ops st :
  let st' := fst (fs_run_ops ffi plat ops st) in
  (fs_closed st = false ->
   exists pre,
     fs_closes (fsId st) pre = 0 /\
     (fs_closed st' = false /\ fs_trace st' = fs_trace st ++ pre \/
      fs_closed st' = true /\
      fs_trace st' = fs_trace st ++ pre ++ [EFsClose (fsId st)])) /\
  (fs_closed st = true ->
   st' = st /\ Forall fs_refused (snd (fs_run_ops ffi plat ops st))).
Proof.
  intros st'. destruct (fs_run_ops_step ops st) as ((_ & Hc & Ho) & Hr).
  split; [exact Ho|]. intros H. split; [by apply Hc|by apply Hr].
Qed.

(** [write] on an open handle, with data of no more bytes than a call
    takes arguments: what it sends decodes, as [read] decodes it, to the
    bytes written, so that a boundary that answers a read with the text of
    a write makes [read] return those bytes; and the write fails exactly
    when the boundary reports no byte written for data that is not empty.
    With more bytes, [write] throws the [RangeError] of the spread call and
    nothing reaches the boundary. *)
Theorem filestream_write_read_round_trip data st :
  fs_closed st = false ->
  if decide (List.length data <= argumentLimit plat) then
    exists b64 st1 r,
      fs_write ffi plat data st = (st1, r) /\
      fs_trace st1 = fs_trace st ++ [EFsWrite (fsId st) b64] /\
      decodeBase64 b64 = Some data /\
      (r = inl FsWriteFailed <->
       filestreamWrite ffi (fs_trace st) (fsId st) b64 = 0%Z /\ data <> []) /\
      (r <> inl FsWriteFailed ->
       r = inr (filestreamWrite ffi (fs_trace st) (fsId st) b64)) /\
      forall st2 (maxBytes : option Z),
        fs_closed st2 = false ->
        filestreamRead ffi (fs_trace st2) (fsId st2)
          (match maxBytes with Some n => n | None => 0%Z end) = Some (RaData b64) ->
        snd (fs_read ffi (option_map Integral maxBytes) st2) = inr data
  else fs_write ffi plat data st = (st, inl (FsRange TooManyArguments)).
Proof.
  intros Ho. unfold fs_write, fromCharCode. rewrite Ho.
  destruct (decide _) as [Hfits|Hlong].
  2:{ by destruct (Nat.leb_spec0 (List.length data) (argumentLimit plat)). }
  destruct (Nat.leb_spec0 (List.length data) (argumentLimit plat)); [|done].
  set (b64 := btoa (string_of_list_byte data)).
  set (written := filestreamWrite ffi (fs_trace st) (fsId st) b64).
  assert (Hdec : decodeBase64 b64 = Some data).
  { unfold decodeBase64, b64. rewrite atob_btoa.
    by rewrite list_byte_of_string_of_list_byte. }
  exists b64, (fs_with_event st (EFsWrite (fsId st) b64)),
    (if ((written =? 0)%Z && Nat.ltb 0 (List.length data))%bool
     then inl FsWriteFailed else inr written).
  split; [by destruct (_ && _)|]. split; [done|].
  split; [exact Hdec|]. split; [|split].
  - destruct (Z.eqb_spec written 0) as [Hz|Hz];
      destruct data as [|b data]; cbn; split; try done.
    all: by intros [? ?].
  - destruct (Z.eqb_spec written 0) as [Hz|Hz];
      destruct data as [|b data]; cbn; done.
  - intros st2 maxBytes Ho2 Hans. unfold fs_read. rewrite Ho2.
    destruct maxBytes as [n|]; cbn [option_map BigInt]; by rewrite Hans, Hdec.
Qed.

(** One [pull] of the [ReadableStream] of an open handle, with a chunk
    size that is an integer and a native close that returns: a chunk that
    is not empty is enqueued and the handle stays open; at the end of the
    data the stream is closed, and on a failed read it is errored, and in
    both cases the handle is closed right after the read.  A [pull] on a
    closed handle errors the stream without a call. *)
Theorem filestream_pull_closes_at_end_or_error (chunkSize : Z) st :
  fs_closed st = false ->
  filestreamClose ffi (fs_trace st ++ [EFsRead (fsId st) chunkSize]) (fsId st) = false ->
  exists st1 calls,
    fs_pull ffi (Integral chunkSize) st = (st1, inr calls) /\
    match snd (fs_read ffi (Some (Integral chunkSize)) st) with
    | inr (b :: chunk) =>
        calls = [CtlEnqueue (b :: chunk)] /\ fs_closed st1 = false /\
        fs_trace st1 = fs_trace st ++ [EFsRead (fsId st) chunkSize]
    | inr [] =>
        calls = [CtlClose] /\ fs_closed st1 = true /\
        fs_trace st1 = fs_trace st ++ [EFsRead (fsId st) chunkSize; EFsClose (fsId st)]
    | inl err =>
        calls = [CtlError err] /\ fs_closed st1 = true /\
        fs_trace st1 = fs_trace st ++ [EFsRead (fsId st) chunkSize; EFsClose (fsId st)]
    end /\
    (fs_closed st1 = true ->
     fs_pull ffi (Integral chunkSize) st1 = (st1, inr [CtlError FsHandleClosed])).
Proof.
  intros Ho Hquiet.
  assert (Hclose : forall st0,
    fs_closed st0 = false -> fsId st0 = fsId st ->
    fs_trace st0 = fs_trace st ++ [EFsRead (fsId st) chunkSize] ->
    exists st1, fs_close ffi st0 = (st1, inr tt) /\ fs_closed st1 = true /\
      fs_trace st1 = fs_trace st ++ [EFsRead (fsId st) chunkSize; EFsClose (fsId st)]).
  { intros st0 H0 Hid Htr. unfold fs_close. rewrite H0. cbn [negb].
    rewrite Htr. rewrite !Hid. rewrite Hquiet. eexists. split; [reflexivity|]. split; [done|].
    cbn. by rewrite Htr, <- app_assoc. }
  assert (Hread : exists r,
    fs_read ffi (Some (Integral chunkSize)) st
      = (fs_with_event st (EFsRead (fsId st) chunkSize), r)).
  { unfold fs_read. rewrite Ho. cbn [BigInt].
    destruct (filestreamRead ffi (fs_trace st) (fsId st) chunkSize) as [[m|data]|];
      [| destruct (decodeBase64 data) |]; by eexists. }
  destruct Hread as (r & Hread). unfold fs_pull. rewrite Hread. cbn [snd].
  set (st0 := fs_with_event st (EFsRead (fsId st) chunkSize)) in *.
  destruct (Hclose st0) as (st1 & Hc1 & Hcl1 & Htr1); [done..|].
  assert (Hagain : forall st', fs_closed st' = true ->
            fs_pull ffi (Integral chunkSize) st' = (st', inr [CtlError FsHandleClosed])).
  { intros st' H'. by apply fs_pull_step. }
  destruct r as [err|[|b chunk]].
  - unfold pull_catch. rewrite Hc1. exists st1. eexists. split; [reflexivity|].
    split; [done|]. apply Hagain.
  - rewrite Hc1. exists st1. eexists. split; [reflexivity|]. split; [done|]. apply Hagain.
  - exists st0. eexists. split; [reflexivity|]. split; [done|]. apply Hagain.
Qed.

End FilestreamLifecycle.

(* ===================================================================== *)
(** * Properties of [splitAdoNet]                                         *)
(* ===================================================================== *)

(** ** [trim] *)

Lemma trimStart_suffix s : exists pre, s = pre ++ trimStart s.
Proof.
  induction s as [|c r [pre IH]]; [by exists []|]. cbn.
  destruct (is_white c); [|by exists []].
  exists (c :: pre). cbn. by rewrite <- IH.
Qed.

Lemma trimStart_fixed s :
  match s with
  | c :: _ => is_white c = false
  | [] => True
  end -> trimStart s = s.
Proof. destruct s as [|c r]; [done|]. cbn. by intros ->. Qed.

Lemma trimStart_head s :
  match trimStart s with
  | c :: _ => is_white c = false
  | [] => True
  end.
Proof.
  induction s as [|c r IH]; [done|]. cbn. by destruct (is_white c) eqn:Hc; [|cbn].
Qed.

Lemma trimStart_idem s : trimStart (trimStart s) = trimStart s.
Proof. apply trimStart_fixed, trimStart_head. Qed.

Lemma trimEnd_prefix s : exists post, s = trimEnd s ++ post.
Proof.
  unfold trimEnd. destruct (trimStart_suffix (rev s)) as [pre H].
  exists (rev pre). rewrite <- rev_app_distr, <- H. by rewrite rev_involutive.
Qed.

Lemma trimEnd_idem s : trimEnd (trimEnd s) = trimEnd s.
Proof. unfold trimEnd. by rewrite rev_involutive, trimStart_idem. Qed.

Lemma trim_idem s : trim (trim s) = trim s.
Proof.
  unfold trim. set (a := trimStart s).
  assert (Hb : trimStart (trimEnd a) = trimEnd a).
  { apply trimStart_fixed. destruct (trimEnd_prefix a) as [post Hpost].
    pose proof (trimStart_head s) as Hh. fold a in Hh. rewrite Hpost in Hh.
    by destruct (trimEnd a). }
  by rewrite Hb, trimEnd_idem.
Qed.

Lemma trim_In x s : In x (trim s) -> In x s.
Proof.
  unfold trim. intros H.
  destruct (trimStart_suffix s) as [pre Hs].
  destruct (trimEnd_prefix (trimStart s)) as [post Hp].
  rewrite Hs, Hp. apply in_or_app. right. apply in_or_app. by left.
Qed.

(** ** [indexOf] and [substring] *)

Lemma find_unit_Some c s k :
  find_unit c s = Some k ->
  k < List.length s /\ s !! k = Some c /\ ~ In c (take k s).
Proof.
  revert k. induction s as [|x r IH]; intros k; [done|]. cbn.
  destruct (Ascii.eqb_spec x c) as [->|Hne].
  - intros [= <-]. cbn. split; [lia|]. split; [done|]. by intros [].
  - destruct (find_unit c r) as [j|]; [|done]. intros [= <-].
    destruct (IH j eq_refl) as (Hj & Hl & Hn). cbn.
    split; [lia|]. split; [done|]. intros [H|H]; [done|by apply Hn].
Qed.

Lemma find_unit_app c k t : ~ In c k -> find_unit c (k ++ c :: t) = Some (List.length k).
Proof.
  induction k as [|x k IH]; cbn; intros Hn.
  - by rewrite (proj2 (Ascii.eqb_eq c c)).
  - destruct (Ascii.eqb_spec x c) as [->|Hne]; [by destruct Hn; left|].
    rewrite IH; [done|]. intros H. apply Hn. by right.
Qed.

Lemma indexOf_Some s c i e :
  indexOf s c i = Some e ->
  i <= e < List.length s /\ ~ In c (take (e - i) (drop i s)).
Proof.
  unfold indexOf. destruct (find_unit c (drop i s)) as [k|] eqn:Hk; [|done].
  intros [= <-]. destruct (find_unit_Some _ _ _ Hk) as (Hlen & _ & Hn).
  rewrite length_drop in Hlen. split; [lia|].
  by replace (i + k - i) with k by lia.
Qed.

Lemma indexOf_app pre c k t :
  ~ In c k ->
  indexOf (pre ++ k ++ c :: t) c (List.length pre) = Some (List.length pre + List.length k).
Proof.
  intros Hn. unfold indexOf. rewrite drop_app_length. by rewrite find_unit_app.
Qed.

Lemma js_substring_ordered s a b :
  a <= b <= List.length s -> js_substring s a b = take (b - a) (drop a s).
Proof.
  intros H. unfold js_substring.
  by rewrite !Nat.min_l, Nat.max_r by lia.
Qed.

Lemma js_substring_app pre k t :
  js_substring (pre ++ k ++ t) (List.length pre) (List.length pre + List.length k) = k.
Proof.
  rewrite js_substring_ordered by (rewrite !length_app; lia).
  rewrite drop_app_length. replace (_ + _ - _) with (List.length k) by lia.
  by rewrite take_app_length.
Qed.

Lemma lookup_after pre (x : ascii) t : (pre ++ x :: t) !! List.length pre = Some x.
Proof. by apply list_lookup_middle. Qed.

(** ** The loop ends *)

(** The index after a value is beyond where the value starts. *)
Lemma bare_value_next s i : i < List.length s -> i < snd (bare_value s i).
Proof.
  intros Hi. unfold bare_value. destruct (indexOf s ";" i) as [semi|] eqn:H; cbn [snd].
  - apply indexOf_Some in H. lia.
  - done.
Qed.

Lemma bare_value_next_at_end s i :
  List.length s <= i -> List.length s <= snd (bare_value s i).
Proof.
  intros Hi. unfold bare_value. destruct (indexOf s ";" i) as [semi|] eqn:H; cbn [snd].
  - apply indexOf_Some in H. lia.
  - done.
Qed.

Lemma quoted_value_next s q i : i <= List.length s -> i <= snd (quoted_value s q i).
Proof.
  intros Hi. unfold quoted_value. destruct (indexOf s q i) as [e|] eqn:H; cbn [snd].
  - apply indexOf_Some in H.
    repeat case_match; lia.
  - done.
Qed.

(** What the keys of the result are. *)
Definition key_ok (kv : JsString * JsString) : Prop :=
  fst kv <> [] /\ ~ In "="%char (fst kv) /\ trim (fst kv) = fst kv.

Lemma split_loop_total fuel :
  forall s i acc,
    List.length s - i <= fuel -> Forall key_ok acc ->
    exists pairs, split_loop fuel s i acc = Some pairs /\ Forall key_ok pairs.
Proof.
  induction fuel as [|f IH]; intros s i acc Hfuel Hacc; cbn [split_loop].
  - destruct (Nat.ltb_spec i (List.length s)); [lia|]. by exists acc.
  - destruct (Nat.ltb_spec i (List.length s)) as [Hlt|Hge]; [|by exists acc].
    destruct (indexOf s "=" i) as [e|] eqn:He; [|by exists acc].
    destruct (indexOf_Some _ _ _ _ He) as (Hrange & Hno).
    set (key := trim (js_substring s i e)).
    assert (Hkey : key <> [] -> key_ok (key, @nil ascii) ).
    { intros Hne. split; [done|]. split; [|apply trim_idem].
      cbn [fst]. intros Hin. apply trim_In in Hin.
      rewrite js_substring_ordered in Hin by lia. by apply Hno. }
    match goal with
    | |- context [let '(_, _) := ?m in _] => set (step := m)
    end.
    assert (Hnext : i < snd step).
    { unfold step. destruct (_ !! (e + 1)) as [q|] eqn:Hq.
      - apply lookup_lt_Some in Hq. destruct (is_quote q).
        + pose proof (quoted_value_next s q (e + 1 + 1) ltac:(lia)). lia.
        + pose proof (bare_value_next s (e + 1) Hq). lia.
      - apply lookup_ge_None in Hq.
        pose proof (bare_value_next_at_end s (e + 1) Hq). lia. }
    destruct step as [value i2]. cbn [snd] in Hnext.
    apply IH; [lia|].
    destruct key as [|c k] eqn:Hk; [done|].
    apply Forall_app. split; [done|]. constructor; [|constructor].
    destruct (Hkey ltac:(done)) as (H1 & H2 & H3). by split.
Qed.

(** [splitAdoNet] returns on every string: each round of its loop moves
    the index forward.  Every key it returns is not empty, has no white
    space around it and contains no [=]. *)
Theorem splitAdoNet_total_with_clean_keys s :
  exists pairs,
    splitAdoNet s = Some pairs /\
    Forall (fun kv => fst kv <> [] /\ ~ In "="%char (fst kv) /\
                      trim (fst kv) = fst kv) pairs.
Proof.
  destruct (split_loop_total (List.length s) s 0 []) as (pairs & Hrun & Hall);
    [lia|constructor|].
  by exists pairs.
Qed.

(** ** Reading what was written *)

(** Appends are nested to the right. *)
Ltac to_the_right := repeat (rewrite <- app_assoc || rewrite <- app_comm_cons).

Lemma render_pair_length kv : 2 <= List.length (render_pair kv).
Proof. unfold render_pair. rewrite length_app. cbn. rewrite length_app. cbn. lia. Qed.

Lemma split_loop_render l :
  forall pre acc fuel,
    Forall (fun kv => clean_key (fst kv) /\ clean_value (snd kv)) l ->
    List.length (render l) <= fuel ->
    split_loop fuel (pre ++ render l) (List.length pre) acc
      = Some (acc ++ List.map (fun kv => (fst kv, ado_value (snd kv))) l).
Proof.
  induction l as [|[k a] l IH]; intros pre acc fuel Hall Hfuel.
  - cbn [render List.map List.concat]. rewrite !app_nil_r.
    destruct fuel; cbn [split_loop];
      (destruct (Nat.ltb_spec (List.length pre) (List.length pre)); [lia|done]).
  - apply Forall_cons_1 in Hall as [[(Hk1 & Hk2 & Hk3) Hv] Hall]. cbn [fst snd] in *.
    unfold render in *. cbn [List.map List.concat] in *.
    set (rest := List.concat (List.map render_pair l)) in *.
    pose proof (render_pair_length (k, a)) as Hlen.
    rewrite length_app in Hfuel.
    destruct fuel as [|f]; [lia|]. cbn [split_loop].
    destruct (Nat.ltb_spec (List.length pre) (List.length (pre ++ render_pair (k, a) ++ rest)))
      as [_|Hge]; [|rewrite !length_app in Hge; lia].
    set (s := pre ++ render_pair (k, a) ++ rest).
    set (tail := render_value a ++ [";"%char] ++ rest).
    assert (Hs : s = pre ++ k ++ "="%char :: tail).
    { unfold s, tail, render_pair. cbn [fst snd]. by to_the_right. }
    rewrite Hs at 1. rewrite (indexOf_app pre "=" k tail Hk2).
    cbn zeta.
    assert (Hkey : trim (js_substring s (List.length pre) (List.length pre + List.length k)) = k).
    { rewrite Hs. by rewrite js_substring_app. }
    rewrite Hkey.
    set (i1 := List.length pre + List.length k + 1).
    set (pre1 := pre ++ k ++ ["="%char]).
    assert (Hpre1 : List.length pre1 = i1).
    { unfold pre1, i1. rewrite !length_app. cbn. lia. }
    assert (Hs1 : s = pre1 ++ tail).
    { rewrite Hs. unfold pre1. by to_the_right. }
    assert (Hdone : List.length (pre ++ render_pair (k, a)) =
                    i1 + List.length (render_value a) + 1).
    { unfold render_pair, i1. cbn [fst snd]. rewrite !length_app. cbn.
      rewrite length_app. cbn. lia. }
    assert (Hstep :
      match s !! i1 with
      | Some q => if is_quote q then quoted_value s q (i1 + 1) else bare_value s i1
      | None => bare_value s i1
      end = (ado_value a, List.length (pre ++ render_pair (k, a)))).
    { destruct a as [v|q v]; cbn [clean_value render_value ado_value] in *.
      - destruct Hv as (Hv1 & Hv2 & Hv3).
        assert (Hbare : bare_value s i1 = (v, List.length (pre ++ render_pair (k, Bare v)))).
        { unfold bare_value. rewrite Hs1 at 1. rewrite <- Hpre1.
          unfold tail. cbn [render_value app].
          rewrite (indexOf_app pre1 ";" v rest Hv1).
          rewrite Hs1. unfold tail. cbn [render_value app].
          rewrite (js_substring_app pre1 v (";"%char :: rest)), Hv2.
          f_equal. rewrite Hdone, Hpre1. cbn [render_value]. lia. }
        rewrite Hs1 at 1. rewrite <- Hpre1. unfold tail. cbn [render_value].
        destruct v as [|c v].
        + cbn [app]. rewrite lookup_after. cbn [is_quote Ascii.eqb]. by rewrite Hpre1.
        + cbn [app]. rewrite lookup_after. rewrite Hv3. by rewrite Hpre1.
      - destruct Hv as (Hq & Hv).
        rewrite Hs1 at 1. rewrite <- Hpre1. unfold tail. cbn [render_value app].
        rewrite lookup_after, Hq.
        set (pre2 := pre1 ++ [q]).
        assert (Hpre2 : List.length pre2 = i1 + 1).
        { unfold pre2. rewrite length_app. cbn. lia. }
        assert (Hs2 : s = pre2 ++ v ++ q :: ";"%char :: rest).
        { rewrite Hs1. unfold pre2, tail. cbn [render_value]. by to_the_right. }
        unfold quoted_value. rewrite Hpre1, <- Hpre2. rewrite Hs2 at 1.
        rewrite (indexOf_app pre2 q v _ Hv).
        rewrite Hs2 at 1. rewrite (js_substring_app pre2 v).
        f_equal.
        set (pre3 := pre2 ++ v ++ [q]).
        assert (Hpre3 : List.length pre3 = List.length pre2 + List.length v + 1).
        { unfold pre3. rewrite !length_app. cbn. lia. }
        assert (Hs3 : s = pre3 ++ ";"%char :: rest).
        { rewrite Hs2. unfold pre3. by to_the_right. }
        rewrite <- Hpre3. rewrite Hs3 at 1. rewrite lookup_after.
        rewrite (proj2 (Ascii.eqb_eq ";" ";") eq_refl).
        rewrite Hdone, Hpre3, Hpre2. cbn [List.length]. rewrite length_app. cbn. lia. }
    match goal with
    | |- context [let '(_, _) := ?m in _] =>
        replace m with (ado_value a, List.length (pre ++ render_pair (k, a)))
          by (symmetry; exact Hstep)
    end.
    destruct k as [|c k]; [done|].
    replace s with ((pre ++ render_pair (c :: k, a)) ++ rest)
      by (unfold s; by to_the_right).
    rewrite (IH (pre ++ render_pair (c :: k, a)) _ f Hall) by lia.
    by rewrite <- app_assoc.
Qed.

(** A connection string written as [key=value;] entries, with keys and
    bare values that have no white space around them and do not contain
    their delimiter, and with quoted values that do not contain their
    quote, is read back as those keys and values, in order.  A quoted
    value may contain [;], [=] and white space. *)
Theorem splitAdoNet_reads_rendered l :
  Forall (fun kv => clean_key (fst kv) /\ clean_value (snd kv)) l ->
  splitAdoNet (render l)
    = Some (List.map (fun kv => (fst kv, ado_value (snd kv))) l).
Proof.
  intros Hall. unfold splitAdoNet.
  exact (split_loop_render l [] [] (List.length (render l)) Hall (le_n _)).
Qed.

(* ===================================================================== *)
(** * Properties of the library resolution                                *)
(* ===================================================================== *)

Lemma last_match_le pat s k i : last_match pat s k = Some i -> i <= k.
Proof.
  induction k as [|k IH]; cbn; destruct (is_prefix pat _).
  - by intros [= <-].
  - done.
  - by intros [= <-].
  - intros H. specialize (IH H). lia.
Qed.

(** A parent directory that is not the directory itself is shorter. *)
Lemma up_to_last_shorter dir pat :
  up_to_last dir pat <> dir -> List.length (up_to_last dir pat) < List.length dir.
Proof.
  unfold up_to_last, lastIndexOf.
  destruct (last_match pat dir (List.length dir)) as [i|] eqn:Hi.
  - apply last_match_le in Hi. intros Hne. rewrite length_take.
    destruct (decide (i = List.length dir)) as [->|]; [|lia].
    by rewrite firstn_all in Hne.
  - intros Hne. destruct dir; [done|cbn; lia].
Qed.

Lemma js_eqb_true a b : js_eqb a b = true <-> a = b.
Proof. unfold js_eqb. by rewrite bool_decide_eq_true. Qed.

Lemma js_eqb_false a b : js_eqb a b = false <-> a <> b.
Proof. unfold js_eqb. by rewrite bool_decide_eq_false. Qed.

Lemma find_app_first {A} (p : A -> bool) l1 l2 :
  List.find p (l1 ++ l2) =
    match List.find p l1 with
    | Some x => Some x
    | None => List.find p l2
    end.
Proof. induction l1 as [|a l1 IH]; [done|]. cbn. by destruct (p a). Qed.

Lemma find_none_all {A} (p : A -> bool) l :
  List.find p l = None -> Forall (fun x => p x = false) l.
Proof.
  induction l as [|a l IH]; [constructor|]. cbn. destruct (p a) eqn:Ha; [done|].
  intros H. constructor; [done|by apply IH].
Qed.

Section Resolved.
Variable ctx : ResolutionContext.

(** The walk ends, and finds the first file among the candidates of the
    directories that it visits. *)
Lemma walk_up_walked filename root :
  forall fuel dir,
    List.length dir < fuel ->
    walk_up ctx fuel filename root dir =
      Some (first_existing ctx
              (List.concat (List.map (in_directory ctx filename)
                              (walked ctx fuel root dir)))).
Proof.
  induction fuel as [|f IH]; intros dir Hfuel; [lia|].
  cbn [walk_up walked].
  destruct (Nat.leb (List.length root) (List.length dir)); [|done].
  cbn [List.map List.concat]. unfold first_existing at 2. rewrite find_app_first.
  fold (first_existing ctx (in_directory ctx filename dir)).
  destruct (first_existing ctx (in_directory ctx filename dir)) as [c|]; [done|].
  destruct (js_eqb (up_to_last dir (sep ctx)) dir) eqn:Hsame; cbn [orb]; [done|].
  destruct (js_eqb (up_to_last dir (sep ctx)) []) eqn:Hempty; [done|].
  apply js_eqb_false in Hsame. apply up_to_last_shorter in Hsame.
  apply IH. lia.
Qed.

(** [resolveLibraryPath] returns for every context.  It returns the first
    path of the resolution order that exists: the path of the environment
    variable when it is set, not empty and exists, whatever else exists.
    It fails only when no path of the resolution order exists. *)
Theorem resolveLibraryPath_first_existing :
  let filename := libraryFileName (ri_os (info ctx)) (ri_arch (info ctx)) in
  resolveLibraryPath ctx =
    Some match first_existing ctx (candidates ctx) with
         | Some path => inr path
         | None => inl (LibraryNotFound filename)
         end /\
  (forall path,
     resolveLibraryPath ctx = Some (inr path) ->
     fileExists ctx path = true /\ In path (candidates ctx)) /\
  (forall e,
     resolveLibraryPath ctx = Some (inl e) ->
     Forall (fun c => fileExists ctx c = false) (candidates ctx)) /\
  (forall p,
     env ctx (js "TRACKER1_MSSQL_LIB_PATH") = Some p -> p <> [] ->
     fileExists ctx p = true ->
     resolveLibraryPath ctx = Some (inr p)).
Proof.
  intros filename.
  assert (Hrun : resolveLibraryPath ctx =
    Some match first_existing ctx (candidates ctx) with
         | Some path => inr path
         | None => inl (LibraryNotFound filename)
         end).
  { unfold resolveLibraryPath, candidates, after_walk, first_existing. cbn zeta.
    fold filename.
    rewrite (walk_up_walked filename _ _ (cwd ctx)) by lia.
    unfold first_existing.
    rewrite !find_app_first. cbn [List.map].
    set (W := List.find _ (List.concat _)).
    set (H := List.find _ (_ :: _ :: _ :: _ :: [])).
    clearbody W H.
    destruct (env ctx (js "TRACKER1_MSSQL_LIB_PATH")) as [p|];
      [destruct (truthy_text p)|]; cbn [andb app List.find].
    all: destruct (entryPoint ctx) as [entry|];
      [destruct (truthy_text entry); [destruct (truthy_text (up_to_last entry (sep ctx)))|]|];
      cbn [andb app List.find].
    all: repeat match goal with
         | |- context [fileExists ctx ?x] => destruct (fileExists ctx x); try done
         end.
    all: destruct W; try done.
    all: destruct H; try done. }
  split; [exact Hrun|]. split; [|split].
  - intros path. rewrite Hrun.
    destruct (first_existing ctx (candidates ctx)) as [c|] eqn:Hc; [|done].
    intros [= <-]. apply List.find_some in Hc. by destruct Hc.
  - intros e. rewrite Hrun.
    destruct (first_existing ctx (candidates ctx)) as [c|] eqn:Hc; [done|].
    intros _. by apply find_none_all.
  - intros p Henv Hne Hex. rewrite Hrun. unfold candidates, first_existing. rewrite Henv.
    assert (Ht : truthy_text p = true).
    { unfold truthy_text. by rewrite (proj2 (js_eqb_false p []) Hne). }
    rewrite Ht. cbn [app List.find]. by rewrite Hex.
Qed.

End Resolved.

(* ===================================================================== *)
(** * The further properties on the concrete installation                 *)
(* ===================================================================== *)

(** [cn.close()] in the session disconnects the pooled connection. *)
Lemma close_always_disconnects_witness :
  exists evs w',
    cn_close demo_ffi 0 w_stream = (w', Ok tt) /\
    trace w' = trace w_stream ++ evs ++ [EDisconnect 7] /\
    handoffs (evs ++ [EDisconnect 7]) = [EDisconnect 7] /\
    cn_asyncDispose demo_ffi 0 w' = (w', Ok tt).
Proof.
  destruct (close_always_disconnects demo_ffi w_stream 0 demo_conn)
    as (evs & w' & H1 & _ & H2 & _ & H3 & _ & _ & H4 & _);
    [vm_compute; reflexivity..|].
  exists evs, w'. split; [exact H1|]. split; [exact H2|]. split; [exact H3|exact H4].
Defined.

(** After [cn.close()] the connection of the session takes no command. *)
Lemma disposed_connection_rejects_witness :
  query demo_ffi demo_platform 0 "SELECT 1" None None w_closed
    = (w_closed, Throw ErrConnectionClosed) /\
  beginTransaction demo_ffi demo_platform 0 READ_COMMITTED w_closed
    = (w_closed, Throw ErrConnectionClosed).
Proof.
  assert (Hc : conns w_closed !! 0 = Some closed_conn) by (vm_compute; reflexivity).
  destruct (disposed_connection_rejects demo_ffi demo_platform w_closed 0 closed_conn
              Hc eq_refl "SELECT 1" None None READ_COMMITTED)
    as (H1 & _ & _ & _ & H5).
  split; [exact H1|exact H5].
Defined.

(** A query that the server refuses on the pooled connection. *)
Lemma failed_command_evicts_witness :
  exists w1,
    query refusing_ffi demo_platform 0 "SELECT 1" None None w_conn
      = (w1, Throw (ErrCommand "syntax error")) /\
    trace w1 = trace w_conn ++ [EQuery 7 "SELECT 1"; ELastError 7] /\
    evicted_on_dispose refusing_ffi 0 plain_conn w1.
Proof.
  assert (Hc : conns w_conn !! 0 = Some plain_conn) by (vm_compute; reflexivity).
  destruct (failed_command_evicts refusing_ffi demo_platform w_conn 0 plain_conn
              "SELECT 1" None [] None Hc eq_refl I eq_refl) as [H _].
  exact (H eq_refl).
Defined.

(** [cn.beginTransaction()] on the pooled connection, accepted and
    refused. *)
Lemma beginTransaction_tracks_or_flags_witness :
  (exists w',
     beginTransaction demo_ffi demo_platform 0 READ_COMMITTED w_conn = (w', Ok 0) /\
     conns w' !! 0 = Some tx_conn) /\
  (exists w',
     beginTransaction refusing_ffi demo_platform 0 READ_COMMITTED w_conn
       = (w', Throw (ErrBeginFailed "busy")) /\
     evicted_on_dispose refusing_ffi 0 plain_conn w').
Proof.
  assert (Hc : conns w_conn !! 0 = Some plain_conn) by (vm_compute; reflexivity).
  split.
  - pose proof (beginTransaction_tracks_or_flags demo_ffi demo_platform w_conn 0
                  plain_conn READ_COMMITTED Hc eq_refl) as H.
    cbn zeta in H. cbn [demo_ffi ffi_beginTransaction] in H.
    destruct H as (w' & H1 & _ & _ & _ & H5 & _).
    exists w'. split; [exact H1|exact H5].
  - pose proof (beginTransaction_tracks_or_flags refusing_ffi demo_platform w_conn 0
                  plain_conn READ_COMMITTED Hc eq_refl) as H.
    cbn zeta in H. cbn [refusing_ffi ffi_beginTransaction] in H.
    destruct H as (w' & H1 & _ & H3).
    exists w'. split; [exact H1|exact H3].
Defined.

(** [pool.close()] on the pool of the session. *)
Lemma closed_pool_rejects_witness :
  exists w',
    mp_close 0 w_pool = (w', Ok tt) /\
    trace w' = trace w_pool ++ [EPoolClose 1] /\
    mp_connect demo_ffi 0 w' = (w', Throw ErrPoolClosed).
Proof.
  destruct (closed_pool_rejects demo_ffi demo_platform w_pool 0 demo_pool)
    as (w' & H1 & H2 & _ & _ & H5 & _); [vm_compute; reflexivity..|].
  exists w'. split; [exact H1|]. split; [exact H2|exact H5].
Defined.

(** [pool.query()] on the pool of the session, answered and refused. *)
Lemma pool_command_hands_back_witness :
  (exists w',
     mp_query demo_ffi demo_platform 0 "SELECT 1" None None w_pool = (w', Ok "[]") /\
     trace w' = trace w_pool
                  ++ [EPoolAcquire 1; EQuery 7 "SELECT 1"; EPoolRelease 1 7]) /\
  (exists w',
     mp_query refusing_ffi demo_platform 0 "SELECT 1" None None w_pool
       = (w', Throw (ErrCommand "syntax error")) /\
     trace w' = trace w_pool
                  ++ [EPoolAcquire 1; EQuery 7 "SELECT 1"; ELastError 7; EDisconnect 7]).
Proof.
  split.
  - destruct (pool_command_hands_back demo_ffi demo_platform PcQuery w_pool 0 demo_pool
                "SELECT 1" None None) as (w' & r & Hrun & Hcase);
      [vm_compute; reflexivity..|discriminate|].
    vm_compute in Hcase. destruct Hcase as [-> Htr].
    exists w'. split; [exact Hrun|]. etransitivity; [exact Htr|reflexivity].
  - destruct (pool_command_hands_back refusing_ffi demo_platform PcQuery w_pool 0 demo_pool
                "SELECT 1" None None) as (w' & r & Hrun & Hcase);
      [vm_compute; reflexivity..|discriminate|].
    vm_compute in Hcase. destruct Hcase as [-> Htr].
    exists w'. split; [exact Hrun|]. etransitivity; [exact Htr|reflexivity].
Defined.

(** A fetch that fails, through an iterator and through [pull]. *)
Lemma stream_error_closes_iterator_only_witness :
  (exists w',
     gen_next erring_ffi 0 w_iterating = (w', Throw (ErrStream "boom")) /\
     streams w' !! 0 = Some (stream_closed demo_stream) /\
     gen_next erring_ffi 0 w' = (w', Ok None)) /\
  (exists w1,
     pull erring_ffi 0 w_iterating = (w1, Throw (ErrStream "boom")) /\
     streams w1 !! 0 = Some demo_stream).
Proof.
  destruct (stream_error_closes_iterator_only erring_ffi w_iterating 0 fresh_gen
              demo_stream "boom") as (H1 & H2 & H3);
    [vm_compute; reflexivity|discriminate|vm_compute; reflexivity..|].
  split.
  - destruct (H1 eq_refl) as (w' & Ha & _ & Hb & Hc).
    exists w'. split; [exact Ha|]. split; [exact Hb|exact Hc].
  - eexists. split; [exact H2|exact H3].
Defined.

(** One row is read, then the loop is left. *)
Lemma early_exit_closes_cursor_witness :
  exists w1 w2,
    gen_next serving_ffi 0 w_iterating = (w1, Ok (Some "r1")) /\
    streams w1 = streams w_iterating /\
    gen_return serving_ffi 0 w1 = (w2, Ok tt) /\
    trace w2 = trace w1 ++ [EStreamClose 41] /\
    gen_next serving_ffi 0 w2 = (w2, Ok None).
Proof.
  destruct (early_exit_closes_cursor serving_ffi w_iterating 0 fresh_gen
              demo_stream "r1") as [(w1 & w2 & H1 & _ & H3 & H4 & H5 & _ & H7) _];
    [vm_compute; reflexivity|discriminate|vm_compute; reflexivity..|].
  exists w1, w2. split; [exact H1|]. split; [exact H3|]. split; [exact H4|].
  split; [exact H5|exact H7].
Defined.

Lemma fetches_app c h1 h2 : fetches c (h1 ++ h2) = fetches c h1 + fetches c h2.
Proof. unfold fetches. by rewrite List.filter_app, List.length_app. Qed.

Lemma demo_rows_served h0 :
  fetches 41 h0 = 0 -> serves serving_ffi 41 h0 demo_rows.
Proof.
  intros H0 h. cbn [streamNext serving_ffi]. by rewrite fetches_app, H0.
Qed.

(** [stream.toArray()] on the stream of the session. *)
Lemma toArray_collects_rows_witness :
  exists w',
    toArray serving_ffi 5 0 w_stream = (w', Ok (Some ["r1"; "r2"])) /\
    trace w' = trace w_stream
                 ++ [EStreamNext 41; EStreamNext 41; EStreamNext 41; EStreamClose 41] /\
    streams w' !! 0 = Some (stream_closed (set_done demo_stream true)).
Proof.
  apply (toArray_collects_rows serving_ffi w_stream 0 demo_stream demo_rows 5).
  - vm_compute; reflexivity.
  - reflexivity.
  - reflexivity.
  - apply demo_rows_served. vm_compute; reflexivity.
  - intros h. reflexivity.
  - cbn. lia.
Defined.

(** Both disposals of the connection of the session. *)
Lemma disposal_rolls_back_only_active_witness :
  (exists evs w',
     cn_asyncDispose demo_ffi 0 w_stream = (w', Ok tt) /\
     trace w' = trace w_stream ++ evs /\
     forall cn i, ~ In (ECommit cn i) evs) /\
  (exists evs w',
     cn_dispose demo_ffi 0 w_stream = (w', Ok tt) /\
     trace w' = trace w_stream ++ evs /\
     forall cn i, ~ In (ERollback cn i) evs).
Proof.
  destruct (disposal_rolls_back_only_active demo_ffi w_stream 0 demo_conn)
    as [(e1 & w1 & H1 & H2 & _ & H4) (e2 & w2 & H5 & H6 & H7 & _)];
    [vm_compute; reflexivity..|].
  split.
  - exists e1, w1. split; [exact H1|]. split; [exact H2|exact H4].
  - exists e2, w2. split; [exact H5|]. split; [exact H6|exact H7].
Defined.

(** [tx[Symbol.dispose]()] on the transaction of the session. *)
Lemma sync_dispose_deactivates_without_rollback_witness :
  exists closes w',
    tx_dispose demo_ffi 0 w_stream = (w', Ok tt) /\
    trace w' = trace w_stream ++ closes /\ Forall close_event closes /\
    In (EStreamClose 41) closes /\
    commit demo_ffi 0 w' = (w', Throw ErrTransactionInactive).
Proof.
  destruct (sync_dispose_deactivates_without_rollback demo_ffi w_stream 0 demo_tx)
    as (closes & w' & x' & H1 & H2 & H3 & H4 & _ & _ & _ & _ & _ & _ & H5 & _);
    [vm_compute; reflexivity|].
  exists closes, w'. split; [exact H1|]. split; [exact H2|]. split; [exact H3|].
  split; [|exact H5].
  apply (H4 0 demo_stream); [by left|vm_compute; reflexivity|reflexivity].
Defined.

(** The stream of the session, from [queryStream] to [close]. *)
Lemma stream_tracked_until_closed_witness :
  exists w1 w2,
    queryStream demo_ffi demo_platform 0 "SELECT 1" None (Some in_tx) w_tx = (w1, Ok 0) /\
    (exists x1, conns w1 !! 0 = Some x1 /\ In 0 (cn_streams x1)) /\
    (exists y1, txs w1 !! 0 = Some y1 /\ In 0 (tx_streams y1)) /\
    close demo_ffi 0 w1 = (w2, Ok tt) /\
    (exists x2, conns w2 !! 0 = Some x2 /\ ~ In 0 (cn_streams x2)) /\
    (exists y2, txs w2 !! 0 = Some y2 /\ ~ In 0 (tx_streams y2)).
Proof.
  destruct (stream_tracked_until_closed demo_ffi demo_platform w_tx 0 tx_conn
              "SELECT 1" None (Some in_tx))
    as (w1 & H1 & _ & _ & H4 & H5 & H6).
  - vm_compute; reflexivity.
  - reflexivity.
  - split; [reflexivity|]. eexists. split; vm_compute; reflexivity.
  - discriminate.
  - destruct (H6 eq_refl) as (w2 & Ha & _ & (x2 & Hb & Hc & _) & Hd).
    exists w1, w2. split; [exact H1|]. split; [exact H4|].
    split; [exact (H5 0 eq_refl)|]. split; [exact Ha|].
    split; [exists x2; split; [exact Hb|exact Hc]|exact (Hd 0 eq_refl)].
Defined.

(** [pool.queryStream()] on a server that opens no cursor. *)
Lemma pooled_stream_failure_disconnects_witness :
  exists evs w' r,
    mp_queryStream refusing_ffi demo_platform 0 "SELECT 1" None None w_pool = (w', r) /\
    trace w' = trace w_pool ++ EPoolAcquire 1 :: evs /\
    match r with
    | Ok _ => handoffs evs = []
    | Throw _ => handoffs evs = [EDisconnect 7]
    end.
Proof.
  destruct (pooled_stream_failure_disconnects refusing_ffi demo_platform w_pool 0
              demo_pool "SELECT 1" None None)
    as (evs & w' & r & H1 & H2 & H3); [vm_compute; reflexivity..|discriminate|].
  exists evs, w', r. split; [exact H1|]. split; [exact H2|].
  destruct r as [ps|e]; [exact (proj1 H3)|exact (proj1 H3)].
Defined.

(** [pool.queryStream()] and [stream.close()] on the pool of the session. *)
Lemma pooled_stream_close_releases_witness :
  exists w1 ps w2,
    mp_queryStream demo_ffi demo_platform 0 "SELECT 1" None None w_pool = (w1, Ok ps) /\
    trace w1 = trace w_pool ++ [EPoolAcquire 1; EQueryStream 7 "SELECT 1"] /\
    pqs_close demo_ffi ps w1 = (w2, Ok tt) /\
    trace w2 = trace w1 ++ [EStreamClose 41; EPoolRelease 1 7] /\
    pqs_close demo_ffi ps w2 = (w2, Ok tt).
Proof.
  destruct (pooled_stream_close_releases demo_ffi demo_platform w_pool 0 demo_pool
              "SELECT 1" None None)
    as (w1 & ps & H1 & H2 & H3 & _);
    [vm_compute; reflexivity|reflexivity|exact I|discriminate|discriminate|].
  destruct (H3 eq_refl) as (w2 & Ha & Hb & Hc).
  exists w1, ps, w2. split; [exact H1|]. split; [exact H2|].
  split; [exact Ha|]. split; [exact Hb|exact Hc].
Defined.

(** [stream.toArray()] on a stream of the pool of the session. *)
Lemma pooled_toArray_releases_witness :
  exists w1 ps evs w2,
    mp_queryStream serving_ffi demo_platform 0 "SELECT 1" None None w_pool = (w1, Ok ps) /\
    pqs_toArray serving_ffi 5 ps w1 = (w2, Ok (Some ["r1"; "r2"])) /\
    trace w2 = trace w1 ++ [EStreamNext 41; EStreamNext 41; EStreamNext 41]
                 ++ EStreamClose 41 :: evs /\
    handoffs evs = [EPoolRelease 1 7].
Proof.
  destruct (pooled_toArray_releases serving_ffi demo_platform w_pool 0 demo_pool
              "SELECT 1" None None demo_rows 5)
    as (w1 & ps & evs & w2 & H1 & _ & H3 & H4 & H5 & _).
  - vm_compute; reflexivity.
  - reflexivity.
  - exact I.
  - discriminate.
  - discriminate.
  - apply demo_rows_served. vm_compute; reflexivity.
  - intros h. reflexivity.
  - cbn. lia.
  - exists w1, ps, evs, w2. split; [exact H1|]. split; [exact H3|].
    split; [exact H4|exact H5].
Defined.

Lemma demo_random_bytes : random_bytes demo_random.
Proof. split; [reflexivity|]. repeat constructor; lia. Qed.

(** An identifier made from the sample bytes and time. *)
Lemma newCOMB_is_uuid_v4_witness :
  exists (g1 g2 g3 g4 g5 : string) (v : ascii),
    newCOMB demo_random demo_now
      = (g1 ++ "-" ++ g2 ++ "-" ++ g3 ++ "-" ++ g4 ++ "-" ++ g5)%string /\
    String.length g1 = 8 /\ String.length g2 = 4 /\ String.length g3 = 4 /\
    String.length g4 = 4 /\ String.length g5 = 12 /\
    Forall is_hex (list_ascii_of_string (g1 ++ g2 ++ g3 ++ g4 ++ g5)%string) /\
    String.get 0 g3 = Some "4"%char /\
    String.get 0 g4 = Some v /\
    In v ["8"; "9"; "a"; "b"]%char.
Proof. exact (newCOMB_is_uuid_v4 demo_random demo_now demo_random_bytes). Defined.

Lemma newCOMB_encodes_time_witness :
  parse_hex 0 (substring 24 12 (newCOMB demo_random demo_now)) = Some demo_now.
Proof.
  destruct (newCOMB_encodes_time demo_random demo_now demo_random_bytes) as [_ H].
  - vm_compute. discriminate.
  - apply H. reflexivity.
Defined.

Lemma demo_arithmetic_safe : safe_integers demo_arithmetic.
Proof. split; reflexivity. Qed.

(** Three rows in batches of two: two requests, of two rows and of one. *)
Lemma bulk_batches_partition_rows_witness :
  exists new r,
    bulk_execute demo_bulk_ffi demo_platform demo_arithmetic 3 demo_builder []
      = (new, Some r) /\
    List.map (fun q => List.length (br_rows q)) new = [2; 1] /\
    r = inr (Float64 3).
Proof.
  pose proof (bulk_batches_partition_rows demo_bulk_ffi demo_platform demo_arithmetic
                3 demo_builder [] 2 demo_arithmetic_safe) as H.
  vm_compute in H.
  destruct H as (new & r & rest & H1 & _);
    [discriminate|reflexivity|split; reflexivity|reflexivity|lia|].
  exists new, r. split; [vm_compute; exact H1|].
  inversion H1. split; reflexivity.
Defined.

(** The three rows with the batch size of a new builder: one request. *)
Lemma bulk_single_request_encodes_cells_witness :
  exists q,
    bulk_execute demo_bulk_ffi demo_platform demo_arithmetic 0 demo_builder_unbatched []
      = ([q], Some (inr (Float64 3))) /\
    br_rows q = [[JString "Alice"]; [JString "Bob"]; [JNull]] /\
    List.map rc_nullable (br_columns q) = [false].
Proof.
  pose proof (bulk_single_request_encodes_cells demo_bulk_ffi demo_platform
                demo_arithmetic 0 demo_builder_unbatched []) as H.
  vm_compute in H. specialize (H ltac:(discriminate) eq_refl).
  eexists. split; [vm_compute; exact H|]. split; reflexivity.
Defined.

(** The handle is the one that [_open] makes. *)
Lemma demo_fs_opened :
  fs_open demo_fs_ffi demo_platform "blob" (TcBytes [x01; x02]) FsReadWrite []
    = (fs_trace demo_fs, inr demo_fs).
Proof. vm_compute. reflexivity. Qed.

(** Two bytes written to the handle and read back. *)
Lemma filestream_write_read_round_trip_witness :
  exists st1,
    fs_write demo_fs_ffi demo_platform [x01; x02] demo_fs = (st1, inr 4%Z) /\
    snd (fs_read demo_fs_ffi None st1) = inr [x01; x02].
Proof.
  pose proof (filestream_write_read_round_trip demo_fs_ffi demo_platform [x01; x02]
                demo_fs eq_refl) as H.
  destruct (decide (List.length [x01; x02] <= argumentLimit demo_platform)) as [_|Hlong];
    [|exfalso; apply Hlong; apply Nat.leb_le; vm_compute; reflexivity].
  destruct H as (b64 & st1 & r & Hrun & Htr & _ & _ & _ & Hread).
  exists st1. vm_compute in Hrun. inversion Hrun; subst st1 r.
  split; [reflexivity|].
  apply (Hread _ None); [reflexivity|]. vm_compute in Htr. inversion Htr. reflexivity.
Defined.

(** A pull at the end of the data closes the handle. *)
Lemma filestream_pull_closes_at_end_or_error_witness :
  exists st1,
    fs_pull demo_fs_ffi (Integral 65536) demo_fs = (st1, inr [CtlClose]) /\
    fs_closed st1 = true /\
    fs_trace st1 = fs_trace demo_fs ++ [EFsRead 5 65536; EFsClose 5] /\
    fs_pull demo_fs_ffi (Integral 65536) st1 = (st1, inr [CtlError FsHandleClosed]).
Proof.
  destruct (filestream_pull_closes_at_end_or_error demo_fs_ffi 65536 demo_fs)
    as (st1 & calls & Hrun & Hcase & Hagain); [reflexivity..|].
  vm_compute in Hcase. destruct Hcase as (-> & Hc & Htr).
  exists st1. split; [exact Hrun|]. split; [exact Hc|]. split; [exact Htr|].
  by apply Hagain.
Defined.

(** A connection string with a quoted password. *)
Lemma splitAdoNet_reads_rendered_witness :
  splitAdoNet (js "Server=db;Password='a;b';")
    = Some [(js "Server", js "db"); (js "Password", js "a;b")].
Proof.
  apply (splitAdoNet_reads_rendered demo_ado).
  repeat constructor; try discriminate; try reflexivity;
    vm_compute; intuition discriminate.
Defined.
